(** * Elaboration core of the SystemVerilog front end: a shallow embedding

    The development follows the C++ sources function by function.

    - Objects that the compilation arena owns (types, declared-type records)
      live in finite maps addressed by a pointer (a [nat]); pointer equality
      in the source is equality of addresses here.
    - [bitwidth_t] and [uint32_t] are [Z] with the wrap-around modulo [2^32]
      written out; [int32_t] values are [Z].
    - A function that can hit an assertion, dereference a dangling pointer or
      run out of loop fuel returns [option] (or a dedicated outcome type).
    - Stateful code threads its state explicitly. *)

From stdpp Require Import base option list strings gmap.
From Stdlib Require Import ZArith Lia.

Set Default Proof Using "Type".

(** ** Symbol kinds (Symbol.h, SYMBOLKIND) *)

Inductive SymbolKind : Set :=
| Unknown | Root | CompilationUnit | DeferredMember | TransparentMember
| EmptyMember | PredefinedIntegerType | ScalarType | FloatingType | EnumType
| EnumValue | PackedArrayType | UnpackedArrayType | PackedStructType
| UnpackedStructType | PackedUnionType | UnpackedUnionType | ClassType
| VoidType | NullType | CHandleType | StringType | EventType | TypeAlias
| ErrorType | ForwardingTypedef | NetType | DefinitionSym | ParameterSym
| TypeParameter | Port | InterfacePort | Modport | ModuleInstance
| InterfaceInstance | InstanceArray | Package | ExplicitImport
| WildcardImport | Program | Attribute | Genvar | GenerateBlock
| GenerateBlockArray | ProceduralBlock | SequentialBlock | Net | VariableSym
| FormalArgument | Field | Subroutine | ContinuousAssign.

#[global] Instance SymbolKind_eq_dec : EqDecision SymbolKind.
Proof. solve_decision. Defined.

(** ** Diagnostic codes (the entries of the diagnostics table that the
    modelled functions issue) *)

Inductive DiagCode : Set :=
| NotePreviousDefinition | NoteDeclarationHere
| InvalidEnumBase | EnumValueOverflow | EnumIncrementUnknown
| EnumValueDuplicate | EnumRangeMultiDimensional
| PackedMemberNotIntegral | PackedMemberHasInitializer
| PackedUnionWidthMismatch
| ImplicitNamedPortNotFound | ImplicitNamedPortTypeMismatch
| UnconnectedUnnamedPort | UnconnectedNamedPort
| RecursiveDefinition | DimensionRequiresConstRange
| NoteNonConstVariable | NoteArrayIndexInvalid | NotePartSelectInvalid
| NoteStringIndexInvalid | NoteHierarchicalNameInCE
| NoteFunctionIdentifiersMustBeLocal | NoteParamUsedInCEBeforeDecl.

#[global] Instance DiagCode_eq_dec : EqDecision DiagCode.
Proof. solve_decision. Defined.

(** A source location or the start of a source range. *)
Definition SourceLocation := nat.

(** A diagnostic record: code, primary location and attached notes. *)
Record Diagnostic : Set := mkDiag {
  code : DiagCode;
  location : SourceLocation;
  notes : list (DiagCode * SourceLocation)
}.

Definition Diagnostics := list Diagnostic.

(** [Diagnostics::add]: appended at the back. *)
Definition addDiag (ds : Diagnostics) (c : DiagCode) (loc : SourceLocation)
  : Diagnostics := ds ++ [mkDiag c loc []].

Definition addDiagNote (ds : Diagnostics) (c : DiagCode) (loc : SourceLocation)
  (n : DiagCode) (nloc : SourceLocation) : Diagnostics :=
  ds ++ [mkDiag c loc [(n, nloc)]].

Definition codes (ds : Diagnostics) : list DiagCode := map code ds.

(** ** Fixed-width integers *)

Definition wrap32 (z : Z) : Z := z mod 2 ^ 32.

(** [int32_t(x)] for an unsigned 32-bit [x]. *)
Definition to_int32 (z : Z) : Z :=
  let u := wrap32 z in if (u <? 2 ^ 31)%Z then u else (u - 2 ^ 32)%Z.

(** ** ConstantRange

    Modelled from the spec: [ConstantRange], the evaluated [left:right]
    bounds of a dimension; its header is not among the sources.  The
    operations are the ones the sources call. *)

Record ConstantRange : Set := mkRange { left : Z; right : Z }.

#[global] Instance ConstantRange_eq_dec : EqDecision ConstantRange.
Proof. solve_decision. Defined.

Module ConstantRange.
Definition width (r : ConstantRange) : Z :=
  wrap32 (Z.abs (left r - right r) + 1).
Definition isLittleEndian (r : ConstantRange) : bool :=
  (right r <=? left r)%Z.
Definition lower (r : ConstantRange) : Z := Z.min (left r) (right r).
Definition upper (r : ConstantRange) : Z := Z.max (left r) (right r).
Definition containsPoint (r : ConstantRange) (i : Z) : bool :=
  (lower r <=? i)%Z && (i <=? upper r)%Z.
Definition translateIndex (r : ConstantRange) (i : Z) : Z :=
  if isLittleEndian r then (i - lower r)%Z else (upper r - i)%Z.
Definition reverse (r : ConstantRange) : ConstantRange :=
  mkRange (right r) (left r).
End ConstantRange.

(** ** Types (TypeSymbols.h, TypeSymbols.cpp) *)

Definition TypePtr := nat.
Definition SyntaxPtr := nat.

Inductive ScalarKind : Set := Bit | Logic | Reg.
Inductive IntegerKind : Set := ShortInt | Int | LongInt | Byte | Integer | Time.
Inductive FloatKind : Set := Real | ShortReal | RealTime.

#[global] Instance ScalarKind_eq_dec : EqDecision ScalarKind.
Proof. solve_decision. Defined.
#[global] Instance IntegerKind_eq_dec : EqDecision IntegerKind.
Proof. solve_decision. Defined.
#[global] Instance FloatKind_eq_dec : EqDecision FloatKind.
Proof. solve_decision. Defined.

(** A field of a struct or union: its (already resolved) type and offset. *)
Record FieldSymbol : Set := mkField {
  fieldName : nat;
  fieldType : TypePtr;
  offset : Z
}.

(** The part of a type object that depends on its class.  [TypeAliasType]
    holds the type its [targetType] record resolves to ([targetType.getType()]);
    the resolution itself is the subject of the declared-type model below. *)
Inductive TypeBody : Set :=
| ScalarBody (scalarKind : ScalarKind)
| PredefinedIntegerBody (integerKind : IntegerKind)
| FloatingBody (floatKind : FloatKind)
| EnumBody (baseType : TypePtr)
| PackedArrayBody (elementType : TypePtr) (range : ConstantRange)
| UnpackedArrayBody (elementType : TypePtr) (range : ConstantRange)
| PackedStructBody (fields : list FieldSymbol)
| UnpackedStructBody (fields : list FieldSymbol)
| PackedUnionBody (fields : list FieldSymbol)
| UnpackedUnionBody (fields : list FieldSymbol)
| ClassBody | VoidBody | NullBody | CHandleBody | StringBody | EventBody
| TypeAliasBody (targetType : TypePtr)
| ErrorBody.

(** A type object.  The three [IntegralType] members are meaningful for the
    integral classes only ([isSigned_] and [isFourState_] are the data members
    [isSigned] and [isFourState]; the methods of the same names are
    [Type_.isSigned] and [Type_.isFourState]); [canonical] is the mutable
    cache of [getCanonicalType]; [syntax] is [originatingSyntax]. *)
Record Type_ : Set := mkType {
  body : TypeBody;
  syntax : option SyntaxPtr;
  canonical : option TypePtr;
  bitWidth : Z;
  isSigned_ : bool;
  isFourState_ : bool
}.

Definition kind (t : Type_) : SymbolKind :=
  match body t with
  | ScalarBody _ => ScalarType
  | PredefinedIntegerBody _ => PredefinedIntegerType
  | FloatingBody _ => FloatingType
  | EnumBody _ => EnumType
  | PackedArrayBody _ _ => PackedArrayType
  | UnpackedArrayBody _ _ => UnpackedArrayType
  | PackedStructBody _ => PackedStructType
  | UnpackedStructBody _ => UnpackedStructType
  | PackedUnionBody _ => PackedUnionType
  | UnpackedUnionBody _ => UnpackedUnionType
  | ClassBody => ClassType
  | VoidBody => VoidType
  | NullBody => NullType
  | CHandleBody => CHandleType
  | StringBody => StringType
  | EventBody => EventType
  | TypeAliasBody _ => TypeAlias
  | ErrorBody => ErrorType
  end.

(** The arena of type objects. *)
Abbreviation Heap := (gmap TypePtr Type_).

(** [Type::isAlias]: does not unwrap. *)
Definition isAlias (t : Type_) : bool := bool_decide (kind t = TypeAlias).

(** [IntegralType::isKind]. *)
Definition IntegralType_isKind (k : SymbolKind) : bool :=
  match k with
  | PredefinedIntegerType | ScalarType | EnumType | PackedArrayType
  | PackedStructType | PackedUnionType => true
  | _ => false
  end.

Module Type_.

(** The loop of [Type::resolveCanonical], entered with [canonical] pointing
    at an alias: [do canonical = &canonical->as<TypeAliasType>().targetType.getType();
    while (canonical->isAlias())].  One unit of fuel per iteration; [None]
    is a failed [as<TypeAliasType>] assertion, a dangling pointer or fuel
    running out (a loop that has not stopped yet). *)
Fixpoint resolveLoop (fuel : nat) (h : Heap) (canonical : TypePtr)
  : option TypePtr :=
  match fuel with
  | O => None
  | S n =>
      t ← h !! canonical;
      match body t with
      | TypeAliasBody target =>
          t' ← h !! target;
          if isAlias t' then resolveLoop n h target else Some target
      | _ => None
      end
  end.

(** [Type::resolveCanonical]: asserts that [this] is an alias, then runs the
    loop from [this]. *)
Definition resolveCanonical (fuel : nat) (h : Heap) (this : TypePtr)
  : option TypePtr :=
  t ← h !! this;
  if isAlias t then resolveLoop fuel h this else None.

(** [Type::getCanonicalType]: returns the cached pointer, filling the cache
    on first use.  The second component is the arena afterwards. *)
Definition getCanonicalType (fuel : nat) (h : Heap) (this : TypePtr)
  : option (TypePtr * Heap) :=
  t ← h !! this;
  match canonical t with
  | Some c => Some (c, h)
  | None =>
      c ← resolveCanonical fuel h this;
      Some (c, <[this := mkType (body t) (syntax t) (Some c) (bitWidth t)
                                (isSigned_ t) (isFourState_ t)]> h)
  end.

(** The pointer [getCanonicalType] returns, for the read-only queries below:
    they only ever look at the result, and filling the cache does not change
    any later result (lemma [canonicalOf_cache] below). *)
Definition canonicalOf (fuel : nat) (h : Heap) (this : TypePtr)
  : option TypePtr := fst <$> getCanonicalType fuel h this.

(** The kind of the canonical type, as every [isXxx] query computes it. *)
Definition canonicalKind (fuel : nat) (h : Heap) (this : TypePtr)
  : option SymbolKind :=
  c ← canonicalOf fuel h this; t ← h !! c; Some (kind t).

Definition kindIs (k : SymbolKind) (fuel : nat) (h : Heap) (this : TypePtr)
  : option bool :=
  k' ← canonicalKind fuel h this; Some (bool_decide (k' = k)).

Definition isIntegral (fuel : nat) (h : Heap) (this : TypePtr) : option bool :=
  k ← canonicalKind fuel h this; Some (IntegralType_isKind k).

Definition isScalar := kindIs ScalarType.
Definition isPredefinedInteger := kindIs PredefinedIntegerType.
Definition isPackedArray := kindIs PackedArrayType.
Definition isUnpackedArray := kindIs UnpackedArrayType.
Definition isEnum := kindIs EnumType.
Definition isFloating := kindIs FloatingType.
Definition isString := kindIs StringType.
Definition isError := kindIs ErrorType.

(** [Type::getBitWidth]. *)
Definition getBitWidth (fuel : nat) (h : Heap) (this : TypePtr) : option Z :=
  ct ← canonicalOf fuel h this;
  t ← h !! ct;
  if IntegralType_isKind (kind t) then Some (bitWidth t)
  else match body t with
       | FloatingBody Real => Some 64%Z
       | FloatingBody RealTime => Some 64%Z
       | FloatingBody ShortReal => Some 32%Z
       | _ => Some 0%Z
       end.

(** [Type::isSigned]. *)
Definition isSigned (fuel : nat) (h : Heap) (this : TypePtr) : option bool :=
  ct ← canonicalOf fuel h this;
  t ← h !! ct;
  Some (IntegralType_isKind (kind t) && isSigned_ t).

(** [for (auto& field : ...) if (p(field)) return true; return false]. *)
Fixpoint anyField (p : FieldSymbol → option bool) (fs : list FieldSymbol)
  : option bool :=
  match fs with
  | [] => Some false
  | f :: fs' =>
      match p f with
      | Some true => Some true
      | Some false => anyField p fs'
      | None => None
      end
  end.

(** [Type::isFourState]; the recursion through unpacked aggregates spends
    one unit of fuel per level. *)
Fixpoint isFourState (fuel : nat) (h : Heap) (this : TypePtr) : option bool :=
  match fuel with
  | O => None
  | S n =>
      ct ← canonicalOf (S n) h this;
      t ← h !! ct;
      if IntegralType_isKind (kind t) then Some (isFourState_ t)
      else match body t with
           | UnpackedArrayBody elementType _ => isFourState n h elementType
           | UnpackedStructBody fields | UnpackedUnionBody fields =>
               anyField (λ f, isFourState n h (fieldType f)) fields
           | _ => Some false
           end
  end.

(** [Type::isSimpleBitVector]. *)
Definition isSimpleBitVector (fuel : nat) (h : Heap) (this : TypePtr)
  : option bool :=
  ct ← canonicalOf fuel h this;
  p ← isPredefinedInteger fuel h ct;
  s ← isScalar fuel h ct;
  if p || s then Some true
  else
    t ← h !! ct;
    match body t with
    | PackedArrayBody elementType _ => isScalar fuel h elementType
    | _ => Some false
    end.

(** [IntegralType::getBitVectorRange], on an integral [this]. *)
Definition getBitVectorRange (fuel : nat) (h : Heap) (this : TypePtr)
  : option ConstantRange :=
  t ← h !! this;
  p ← isPredefinedInteger fuel h this;
  s ← isScalar fuel h this;
  if p || s || bool_decide (kind t = PackedStructType)
     || bool_decide (kind t = PackedUnionType)
  then Some (mkRange (to_int32 (bitWidth t - 1)) 0)
  else match body t with
       | PackedArrayBody _ range => Some range
       | _ => None
       end.

(** [Type::getArrayRange]. *)
Definition getArrayRange (fuel : nat) (h : Heap) (this : TypePtr)
  : option ConstantRange :=
  ct ← canonicalOf fuel h this;
  t ← h !! ct;
  if IntegralType_isKind (kind t) then getBitVectorRange fuel h ct
  else match body t with
       | UnpackedArrayBody _ range => Some range
       | _ => Some (mkRange 0 0)
       end.

(** Short-circuit [&&] and [||] over queries that can fail: the right operand
    is looked at only when the left one does not decide. *)
Definition andM (a b : option bool) : option bool :=
  match a with
  | Some true => b
  | Some false => Some false
  | None => None
  end.

Definition orM (a b : option bool) : option bool :=
  match a with
  | Some true => Some true
  | Some false => b
  | None => None
  end.

Definition notM (a : option bool) : option bool := negb <$> a.

Definition isLogicOrReg (k : ScalarKind) : bool :=
  bool_decide (k = Logic) || bool_decide (k = Reg).

Definition isRealOrRealTime (k : FloatKind) : bool :=
  bool_decide (k = Real) || bool_decide (k = RealTime).

(** [Type::isMatching], LRM 6.22.1. *)
Fixpoint isMatching (fuel : nat) (h : Heap) (this rhs : TypePtr)
  : option bool :=
  match fuel with
  | O => None
  | S n =>
      l ← canonicalOf (S n) h this;
      r ← canonicalOf (S n) h rhs;
      lt ← h !! l;
      rt ← h !! r;
      if bool_decide (l = r)
         || (bool_decide (is_Some (syntax lt))
             && bool_decide (syntax lt = syntax rt))
      then Some true
      else
        match andM (isScalar (S n) h l) (isScalar (S n) h r) with
        | None => None
        | Some true =>
            match body lt, body rt with
            | ScalarBody ls, ScalarBody rs =>
                Some (isLogicOrReg ls && isLogicOrReg rs)
            | _, _ => None
            end
        | Some false =>
        match andM (isFloating (S n) h l) (isFloating (S n) h r) with
        | None => None
        | Some true =>
            match body lt, body rt with
            | FloatingBody lf, FloatingBody rf =>
                Some (isRealOrRealTime lf && isRealOrRealTime rf)
            | _, _ => None
            end
        | Some false =>
        match andM (isSimpleBitVector (S n) h l)
                (andM (isSimpleBitVector (S n) h r)
                   (lp ← isPredefinedInteger (S n) h l;
                    rp ← isPredefinedInteger (S n) h r;
                    Some (negb (eqb lp rp)))) with
        | None => None
        | Some true =>
            lr ← getBitVectorRange (S n) h l;
            rr ← getBitVectorRange (S n) h r;
            Some (eqb (isSigned_ lt) (isSigned_ rt)
                  && eqb (isFourState_ lt) (isFourState_ rt)
                  && bool_decide (lr = rr))
        | Some false =>
            match body lt, body rt with
            | PackedArrayBody le lrange, PackedArrayBody re rrange =>
                andM (Some (bool_decide (lrange = rrange)))
                     (isMatching n h le re)
            | UnpackedArrayBody le lrange, UnpackedArrayBody re rrange =>
                andM (Some (bool_decide (lrange = rrange)))
                     (isMatching n h le re)
            | _, _ => Some false
            end
        end end end
  end.

(** [Type::isEquivalent], LRM 6.22.2. *)
Fixpoint isEquivalent (fuel : nat) (h : Heap) (this rhs : TypePtr)
  : option bool :=
  match fuel with
  | O => None
  | S n =>
      l ← canonicalOf (S n) h this;
      r ← canonicalOf (S n) h rhs;
      match isMatching (S n) h l r with
      | None => None
      | Some true => Some true
      | Some false =>
      match andM (isIntegral (S n) h l)
              (andM (isIntegral (S n) h r)
                 (andM (notM (isEnum (S n) h l)) (notM (isEnum (S n) h r)))) with
      | None => None
      | Some true =>
          li ← h !! l;
          ri ← h !! r;
          Some (eqb (isSigned_ li) (isSigned_ ri)
                && eqb (isFourState_ li) (isFourState_ ri)
                && bool_decide (bitWidth li = bitWidth ri))
      | Some false =>
          lt ← h !! l;
          rt ← h !! r;
          match body lt, body rt with
          | UnpackedArrayBody le lrange, UnpackedArrayBody re rrange =>
              andM (Some (bool_decide (ConstantRange.width lrange
                                       = ConstantRange.width rrange)))
                   (isEquivalent n h le re)
          | _, _ => Some false
          end
      end end
  end.

(** [Type::isAssignmentCompatible], LRM 6.22.3. *)
Definition isAssignmentCompatible (fuel : nat) (h : Heap) (this rhs : TypePtr)
  : option bool :=
  l ← canonicalOf fuel h this;
  r ← canonicalOf fuel h rhs;
  match isEquivalent fuel h l r with
  | None => None
  | Some true => Some true
  | Some false =>
      match orM (andM (isIntegral fuel h l) (notM (isEnum fuel h l)))
                (isFloating fuel h l) with
      | None => None
      | Some true => orM (isIntegral fuel h r) (isFloating fuel h r)
      | Some false => Some false
      end
  end.

(** [Type::isCastCompatible], LRM 6.22.4. *)
Definition isCastCompatible (fuel : nat) (h : Heap) (this rhs : TypePtr)
  : option bool :=
  l ← canonicalOf fuel h this;
  r ← canonicalOf fuel h rhs;
  match isAssignmentCompatible fuel h l r with
  | None => None
  | Some true => Some true
  | Some false =>
      match isEnum fuel h l with
      | None => None
      | Some true => orM (isIntegral fuel h r) (isFloating fuel h r)
      | Some false =>
          match isString fuel h l with
          | None => None
          | Some true => isIntegral fuel h r
          | Some false =>
              match isString fuel h r with
              | None => None
              | Some true => isIntegral fuel h l
              | Some false => Some false
              end
          end
      end
  end.

End Type_.

(** ** The arena invariant

    What the constructors establish and [resolveCanonical] maintains: a type
    that is not an alias has [canonical == this] ([Type::Type]); an alias
    starts with [canonical == nullptr] ([TypeAliasType::TypeAliasType]) and,
    once resolved, caches what the loop of [resolveCanonical] computed. *)
Definition cache_ok (h : Heap) : Prop :=
  ∀ p t, h !! p = Some t →
    if isAlias t
    then ∀ c, canonical t = Some c → ∃ n, Type_.resolveLoop n h p = Some c
    else canonical t = Some p.

(** Alias chains are acyclic when a rank decreases along every alias
    target (and the target is a live object). *)
Definition acyclic (h : Heap) (rank : TypePtr → nat) : Prop :=
  ∀ p t q, h !! p = Some t → body t = TypeAliasBody q →
    rank q < rank p ∧ is_Some (h !! q).
(** ** SVInt and ConstantValue

    Modelled from the spec: [SVInt], the arbitrary-width four-state integer
    ("four-state integer of arbitrary width with signedness"), whose library
    is not among the sources.  A value is its width, its sign flag, the bits
    that are 1 ([value], below [2^width]) and the mask of the bits that are
    X or Z ([unknown]).  Only the operations that the modelled functions
    call are given. *)

Record SVInt : Set := mkSVInt {
  width : Z;
  signFlag : bool;
  value : Z;
  unknown : Z
}.

#[global] Instance SVInt_eq_dec : EqDecision SVInt.
Proof. solve_decision. Defined.

Module SVInt.

(** [SVInt(bits, value, isSigned)]. *)
Definition make (bits : Z) (v : Z) (isSigned : bool) : SVInt :=
  mkSVInt bits isSigned (v mod 2 ^ bits) 0.

(** [setAllOnes]. *)
Definition setAllOnes (x : SVInt) : SVInt :=
  mkSVInt (width x) (signFlag x) (2 ^ width x - 1) 0.

(** [createFillX]. *)
Definition createFillX (bits : Z) (isSigned : bool) : SVInt :=
  mkSVInt bits isSigned 0 (2 ^ bits - 1).

Definition hasUnknown (x : SVInt) : bool := negb (unknown x =? 0)%Z.

(** [operator==] converted to [bool]: true only when no bit is unknown and
    the values agree (operands of one width, as all values of one enum are). *)
Definition eqb (a b : SVInt) : bool :=
  negb (hasUnknown a) && negb (hasUnknown b) && (value a =? value b)%Z.

(** [operator+], wrapping at the width of the left operand; unknown bits
    poison the whole result. *)
Definition add (a b : SVInt) : SVInt :=
  if hasUnknown a || hasUnknown b then createFillX (width a) (signFlag a)
  else mkSVInt (width a) (signFlag a) ((value a + value b) mod 2 ^ width a) 0.

(** The key under which a hash map stores the value: [std::equal_to<SVInt>]
    is [exactlyEqual], which compares the bit patterns, unknown bits
    included. *)
Definition key (x : SVInt) : Z * Z := (value x, unknown x).

End SVInt.

(** [ConstantValue]: invalid, four-state integer, real, shortreal, string,
    null placeholder, or the elements of an unpacked aggregate.  Floating
    point numbers are carried as their bit patterns and never computed
    with. *)
#[warnings="-register-all"]
Inductive ConstantValue : Set :=
| Invalid
| IntegerV (i : SVInt)
| RealV (bits : Z)
| ShortRealV (bits : Z)
| StrV (s : list nat)
| NullPlaceholder
| Elements (elems : list ConstantValue).

(** [ConstantValue::bad], [operator bool] negated. *)
Definition bad (cv : ConstantValue) : bool :=
  match cv with Invalid => true | _ => false end.

(** ** Enum construction ([EnumType::fromSyntax]) *)

(** The initializer [= expr] of a declarator, with what binding it against
    the base type and constant-evaluating it gives ([None]: not a constant).
    The binder and the evaluation of the initializer are outside this
    function; their outcome is part of the input. *)
Record EqualsValueClause : Set := mkInit {
  initValue : option SVInt;
  initRange : SourceLocation
}.

(** A declarator of the enum: name, dimensions (each with the outcome of
    [evalUnpackedDimension], [None] on failure), optional initializer, and
    the start of its source range. *)
Record DeclaratorSyntax : Set := mkDecl {
  declName : nat;
  dimensions : list (option ConstantRange);
  initializer : option EqualsValueClause;
  sourceRange : SourceLocation
}.

(** An enumerand.  [evValue] is the member [value] that [setValue] fills;
    [evInit] is the initializer installed by [setInitializerSyntax]. *)
Record EnumValueSymbol : Set := mkEnumValue {
  evName : nat;
  evIndex : option Z;
  evValue : option SVInt;
  evInit : option EqualsValueClause
}.

Module EnumValueSymbol.

(** [ValueSymbol::getConstantValue]: the constant of the bound initializer,
    [ConstantValue::Invalid] without one. *)
Definition getConstantValue (ev : EnumValueSymbol) : ConstantValue :=
  match evInit ev with
  | Some init =>
      match initValue init with
      | Some v => IntegerV v
      | None => Invalid
      end
  | None => Invalid
  end.

(** [EnumValueSymbol::getValue]: [value ? *value : getConstantValue()]. *)
Definition getValue (ev : EnumValueSymbol) : ConstantValue :=
  match evValue ev with
  | Some v => IntegerV v
  | None => getConstantValue ev
  end.

Definition setValue (ev : EnumValueSymbol) (v : SVInt) : EnumValueSymbol :=
  mkEnumValue (evName ev) (evIndex ev) (Some v) (evInit ev).

Definition setInitializerSyntax (ev : EnumValueSymbol)
    (init : EqualsValueClause) : EnumValueSymbol :=
  mkEnumValue (evName ev) (evIndex ev) (evValue ev) (Some init).

(** [EnumValueSymbol::fromSyntax]. *)
Definition fromSyntax (syntax : DeclaratorSyntax) (index : option Z)
  : EnumValueSymbol := mkEnumValue (declName syntax) index None None.

End EnumValueSymbol.

Module EnumType.

(** The locals of [fromSyntax] that its lambdas capture by reference, the
    diagnostics of the scope, and the members added so far. *)
Record State : Type := mkState {
  first : bool;
  previous : SVInt;
  previousRange : SourceLocation;
  usedValues : gmap (Z * Z) SourceLocation;
  diags : Diagnostics;
  members : list EnumValueSymbol
}.

Section FromSyntax.

(** Width and signedness of the canonical base type [cb]. *)
Variable bits : Z.
Variable isSigned : bool.

(** [BindContext::requirePositive], which is not among the sources. *)
Variable requirePositive : Z → bool.

Definition allOnes : SVInt := SVInt.setAllOnes (SVInt.make bits 0 isSigned).
Definition one : SVInt := SVInt.make bits 1 isSigned.

(** The lambda [checkValue]. *)
Definition checkValue (st : State) (v : SVInt) (loc : SourceLocation)
  : bool * State :=
  match usedValues st !! SVInt.key v with
  | Some prev =>
      (false,
       mkState (first st) (previous st) (previousRange st) (usedValues st)
         (addDiagNote (diags st) EnumValueDuplicate loc
            NotePreviousDefinition prev)
         (members st))
  | None =>
      (true,
       mkState (first st) (previous st) (previousRange st)
         (<[SVInt.key v := loc]> (usedValues st)) (diags st) (members st))
  end.

(** The lambda [setInitializer]; returns the enumerand along with the
    state. *)
Definition setInitializer (st : State) (ev : EnumValueSymbol)
    (init : EqualsValueClause) : State * EnumValueSymbol :=
  let ev := EnumValueSymbol.setInitializerSyntax ev init in
  match EnumValueSymbol.getConstantValue ev with
  | IntegerV cv =>
      let st := mkState false cv (initRange init) (usedValues st) (diags st)
                  (members st) in
      (snd (checkValue st cv (initRange init)), ev)
  | _ => (st, ev)
  end.

(** The lambda [inferValue]. *)
Definition inferValue (st : State) (ev : EnumValueSymbol)
    (range : SourceLocation) : State * EnumValueSymbol :=
  let loc := range in
  let assign (st : State) (v : SVInt) : State * EnumValueSymbol :=
    match checkValue st v loc with
    | (false, st) => (st, ev)
    | (true, st) =>
        (mkState (first st) v range (usedValues st) (diags st) (members st),
         EnumValueSymbol.setValue ev v)
    end in
  if first st then
    assign (mkState false (previous st) (previousRange st) (usedValues st)
              (diags st) (members st))
           (SVInt.make bits 0 isSigned)
  else if SVInt.hasUnknown (previous st) then
    (mkState (first st) (previous st) (previousRange st) (usedValues st)
       (addDiag (diags st) EnumIncrementUnknown loc) (members st), ev)
  else if SVInt.eqb (previous st) allOnes then
    (mkState (first st) (previous st) (previousRange st) (usedValues st)
       (addDiag (diags st) EnumValueOverflow loc) (members st), ev)
  else assign st (SVInt.add (previous st) one).

(** [resultType->addMember(ev)]; the enumerand is recorded as the lambdas
    leave it. *)
Definition addMember (st : State) (ev : EnumValueSymbol) : State :=
  mkState (first st) (previous st) (previousRange st) (usedValues st)
    (diags st) (members st ++ [ev]).

(** One enumerand: created, added, then initialized or inferred. *)
Definition enumerand (st : State) (member : DeclaratorSyntax)
    (index : option Z) (withInitializer : bool) : State :=
  let ev := EnumValueSymbol.fromSyntax member index in
  let '(st, ev) :=
    match (if withInitializer then initializer member else None) with
    | Some init => setInitializer st ev init
    | None => inferValue st ev (sourceRange member)
    end in
  addMember st ev.

(** [while (index != range->right)]: the body runs once for every index
    after [range->left], so [n] is the distance between the two bounds. *)
Fixpoint rangeLoop (n : nat) (down : bool) (index : Z) (st : State)
    (member : DeclaratorSyntax) : State :=
  match n with
  | O => st
  | S n' =>
      let index := if down then (index - 1)%Z else (index + 1)%Z in
      rangeLoop n' down index (enumerand st member (Some index) false) member
  end.

(** The body of the loop over [syntax.members]; [None] is the early
    [return compilation.getErrorType()]. *)
Definition member (st : State) (m : DeclaratorSyntax) : option State :=
  match dimensions m with
  | [] => Some (enumerand st m None true)
  | dim :: rest =>
      if bool_decide (rest ≠ []) then None
      else
        match dim with
        | None => None
        | Some range =>
            if negb (requirePositive (left range))
               || negb (requirePositive (right range))
            then None
            else
              let st := enumerand st m (Some (left range)) true in
              Some (rangeLoop
                      (Z.to_nat (Z.abs (left range - right range)))
                      (ConstantRange.isLittleEndian range) (left range) st m)
        end
  end.

(** The diagnostic of the multi-dimensional case is issued before the early
    return. *)
Definition memberDiags (st : State) (m : DeclaratorSyntax) : Diagnostics :=
  match dimensions m with
  | _ :: _ :: _ =>
      addDiag (diags st) EnumRangeMultiDimensional (sourceRange m)
  | _ => diags st
  end.

(** The result of [fromSyntax]: the error type or the enum type with its
    enumerands, and the diagnostics added to the scope. *)
Inductive Result : Type :=
| ErrorResult (ds : Diagnostics)
| EnumResult (values : list EnumValueSymbol) (ds : Diagnostics).

Fixpoint membersLoop (st : State) (ms : list DeclaratorSyntax) : Result :=
  match ms with
  | [] => EnumResult (members st) (diags st)
  | m :: ms' =>
      match member st m with
      | Some st' => membersLoop st' ms'
      | None => ErrorResult (memberDiags st m)
      end
  end.

Definition initial (ds : Diagnostics) : State :=
  mkState true (mkSVInt 0 false 0 0) 0 ∅ ds [].

End FromSyntax.

(** [EnumType::fromSyntax], from the point where the base type [cb] is
    known: [bits] and [isSigned] are [cb->getBitWidth()] and
    [cb->isSigned()]. *)
Definition fromSyntax (bits : Z) (isSigned : bool)
    (requirePositive : Z → bool) (ds : Diagnostics)
    (syntaxMembers : list DeclaratorSyntax) : Result :=
  membersLoop bits isSigned requirePositive (initial ds) syntaxMembers.

End EnumType.
(** ** The compilation store, as far as type construction uses it *)

(** The arena with the next free address ([emplace] allocates there), the
    diagnostics of the scope, and the address of [ErrorType::Instance]. *)
Record Compilation : Type := mkCompilation {
  types : Heap;
  nextType : TypePtr;
  scopeDiags : Diagnostics;
  errorTypePtr : TypePtr
}.

Module Compilation.

(** [compilation.emplace<T>(...)]: a new object at a fresh address. *)
Definition emplace (comp : Compilation) (t : Type_) : TypePtr * Compilation :=
  (nextType comp,
   mkCompilation (<[nextType comp := t]> (types comp)) (S (nextType comp))
     (scopeDiags comp) (errorTypePtr comp)).

(** [scope.addDiag(code, location)]. *)
Definition addDiag (comp : Compilation) (c : DiagCode) (loc : SourceLocation)
  : Compilation :=
  mkCompilation (types comp) (nextType comp)
    (addDiag (scopeDiags comp) c loc) (errorTypePtr comp).

Definition getErrorType (comp : Compilation) : TypePtr := errorTypePtr comp.

End Compilation.

(** ** Packed arrays, structs and unions *)

Module PackedArrayType.

(** The constructor [PackedArrayType::PackedArrayType]: width, signedness
    and four-stateness come from the element type; the product is a
    [bitwidth_t] product. *)
Definition new (fuel : nat) (h : Heap) (elementType : TypePtr)
    (range : ConstantRange) (self : TypePtr) (syntax : option SyntaxPtr)
  : option Type_ :=
  w ← Type_.getBitWidth fuel h elementType;
  s ← Type_.isSigned fuel h elementType;
  f ← Type_.isFourState fuel h elementType;
  Some (mkType (PackedArrayBody elementType range) syntax (Some self)
          (wrap32 (w * ConstantRange.width range)) s f).

(** [PackedArrayType::fromSyntax]. *)
Definition fromSyntax (fuel : nat) (comp : Compilation) (elementType : TypePtr)
    (range : ConstantRange) (syntax : SyntaxPtr)
  : option (TypePtr * Compilation) :=
  match Type_.isError fuel (types comp) elementType with
  | None => None
  | Some true => Some (elementType, comp)
  | Some false =>
      t ← new fuel (types comp) elementType range (nextType comp)
            (Some syntax);
      Some (Compilation.emplace comp t)
  end.

End PackedArrayType.

(** A declarator of a struct or union member.  [declDims] are its unpacked
    dimensions as [evalDimension] evaluates them ([None]: not a range). *)
Record FieldDeclarator : Set := mkFieldDecl {
  fdName : nat;
  fdLocation : SourceLocation;
  declDims : list (option ConstantRange);
  fdInitializer : option SourceLocation
}.

(** A member declaration: the type its type syntax resolves to
    ([compilation.getType] of [member->type]) and its
    declarators. *)
Record StructUnionMember : Set := mkMember {
  memberType : TypePtr;
  memberTypeLocation : SourceLocation;
  declarators : list FieldDeclarator
}.

(** [StructUnionTypeSyntax] of a packed struct or union; the packed
    dimensions carry what [evalPackedDimension] gives for them. *)
Record StructUnionTypeSyntax : Set := mkStructUnion {
  signedKeyword : bool;
  structMembers : list StructUnionMember;
  packedDimensions : list (option ConstantRange * SyntaxPtr);
  structSyntax : SyntaxPtr
}.

(** [compilation.getType(type, decl->dimensions, location, scope)
       .isUnpackedArray()]: unpacked dimensions wrap a type that is not the
    error type into an unpacked array when every dimension is a range
    ([UnpackedArrayType::fromSyntax]).  The array objects built for this test
    are referenced by nothing afterwards and are left out of the arena. *)
Definition dimTypeIsUnpackedArray (fuel : nat) (h : Heap) (type : TypePtr)
    (dims : list (option ConstantRange)) : option bool :=
  match Type_.isError fuel h type with
  | None => None
  | Some true => Type_.isUnpackedArray fuel h type
  | Some false =>
      if bool_decide (dims = []) then Type_.isUnpackedArray fuel h type
      else Some (forallb (λ d, bool_decide (is_Some d)) dims)
  end.

(** The packed dimensions applied right to left, as both [fromSyntax]
    functions end. *)
Fixpoint wrapPackedDimensions (fuel : nat) (comp : Compilation)
    (result : TypePtr) (dims : list (option ConstantRange * SyntaxPtr))
  : option (TypePtr * Compilation) :=
  match dims with
  | [] => Some (result, comp)
  | (None, _) :: _ => Some (Compilation.getErrorType comp, comp)
  | (Some dim, dimSyntax) :: rest =>
      '(result, comp) ← PackedArrayType.fromSyntax fuel comp result dim
                          dimSyntax;
      wrapPackedDimensions fuel comp result rest
  end.

(** The locals of the member loops. *)
Record MemberState : Type := mkMemberState {
  msFourState : bool;
  msBitWidth : Z;
  msMembers : list FieldSymbol;
  msDiags : Diagnostics
}.

Module PackedStructType.

(** The loop over the declarators of one member. *)
Fixpoint declaratorLoop (fuel : nat) (h : Heap) (type : TypePtr)
    (issuedError : bool) (st : MemberState) (decls : list FieldDeclarator)
  : option MemberState :=
  match decls with
  | [] => Some st
  | decl :: rest =>
      let variable := mkField (fdName decl) type (msBitWidth st) in
      let members := msMembers st ++ [variable] in
      isUnpacked ← dimTypeIsUnpackedArray fuel h type (declDims decl);
      let report := isUnpacked && negb issuedError in
      let ds := if report
                then addDiag (msDiags st) PackedMemberNotIntegral
                       (fdLocation decl)
                else msDiags st in
      let issuedError := issuedError || report in
      w ← Type_.getBitWidth fuel h type;
      let bitWidth := wrap32 (msBitWidth st + w) in
      let ds := match fdInitializer decl with
                | Some loc => addDiag ds PackedMemberHasInitializer loc
                | None => ds
                end in
      declaratorLoop fuel h type issuedError
        (mkMemberState (msFourState st) bitWidth members ds) rest
  end.

(** The loop over the members, which the caller hands over in reverse. *)
Fixpoint memberLoop (fuel : nat) (h : Heap) (st : MemberState)
    (ms : list StructUnionMember) : option MemberState :=
  match ms with
  | [] => Some st
  | member :: rest =>
      let type := memberType member in
      fs ← Type_.isFourState fuel h type;
      integral ← Type_.isIntegral fuel h type;
      error ← Type_.isError fuel h type;
      let issuedError := negb integral && negb error in
      let ds := if issuedError
                then addDiag (msDiags st) PackedMemberNotIntegral
                       (memberTypeLocation member)
                else msDiags st in
      st ← declaratorLoop fuel h type issuedError
             (mkMemberState (msFourState st || fs) (msBitWidth st)
                (msMembers st) ds)
             (declarators member);
      memberLoop fuel h st rest
  end.

(** [PackedStructType::PackedStructType]. *)
Definition new (bitWidth : Z) (isSigned isFourState : bool)
    (fields : list FieldSymbol) (self : TypePtr) (syntax : SyntaxPtr)
  : Type_ :=
  mkType (PackedStructBody fields) (Some syntax) (Some self) bitWidth
    isSigned isFourState.

(** [PackedStructType::fromSyntax]. *)
Definition fromSyntax (fuel : nat) (comp : Compilation)
    (syntax : StructUnionTypeSyntax) (forceSigned : bool)
  : option (TypePtr * Compilation) :=
  let isSigned := signedKeyword syntax || forceSigned in
  st ← memberLoop fuel (types comp)
         (mkMemberState false 0 [] (scopeDiags comp))
         (reverse (structMembers syntax));
  let comp := mkCompilation (types comp) (nextType comp) (msDiags st)
                (errorTypePtr comp) in
  if (msBitWidth st =? 0)%Z then Some (Compilation.getErrorType comp, comp)
  else
    let '(structType, comp) :=
      Compilation.emplace comp
        (new (msBitWidth st) isSigned (msFourState st) (reverse (msMembers st))
           (nextType comp) (structSyntax syntax)) in
    wrapPackedDimensions fuel comp structType (reverse (packedDimensions syntax)).

End PackedStructType.

Module PackedUnionType.

(** The loop over the declarators of one member. *)
Fixpoint declaratorLoop (fuel : nat) (h : Heap) (type : TypePtr)
    (issuedError : bool) (st : MemberState) (decls : list FieldDeclarator)
  : option MemberState :=
  match decls with
  | [] => Some st
  | decl :: rest =>
      let variable := mkField (fdName decl) type 0 in
      let members := msMembers st ++ [variable] in
      isUnpacked ← dimTypeIsUnpackedArray fuel h type (declDims decl);
      let report := isUnpacked && negb issuedError in
      let ds := if report
                then addDiag (msDiags st) PackedMemberNotIntegral
                       (fdLocation decl)
                else msDiags st in
      let issuedError := issuedError || report in
      w ← Type_.getBitWidth fuel h type;
      let mismatch := negb (msBitWidth st =? 0)%Z
                      && negb (msBitWidth st =? w)%Z && negb issuedError in
      let bitWidth := if (msBitWidth st =? 0)%Z then w else msBitWidth st in
      let ds := if mismatch
                then addDiag ds PackedUnionWidthMismatch (fdLocation decl)
                else ds in
      let issuedError := issuedError || mismatch in
      let ds := match fdInitializer decl with
                | Some loc => addDiag ds PackedMemberHasInitializer loc
                | None => ds
                end in
      declaratorLoop fuel h type issuedError
        (mkMemberState (msFourState st) bitWidth members ds) rest
  end.

(** The loop over the members, in source order. *)
Fixpoint memberLoop (fuel : nat) (h : Heap) (st : MemberState)
    (ms : list StructUnionMember) : option MemberState :=
  match ms with
  | [] => Some st
  | member :: rest =>
      let type := memberType member in
      fs ← Type_.isFourState fuel h type;
      integral ← Type_.isIntegral fuel h type;
      error ← Type_.isError fuel h type;
      let issuedError := negb integral && negb error in
      let ds := if issuedError
                then addDiag (msDiags st) PackedMemberNotIntegral
                       (memberTypeLocation member)
                else msDiags st in
      st ← declaratorLoop fuel h type issuedError
             (mkMemberState (msFourState st || fs) (msBitWidth st)
                (msMembers st) ds)
             (declarators member);
      memberLoop fuel h st rest
  end.

(** [PackedUnionType::PackedUnionType]. *)
Definition new (bitWidth : Z) (isSigned isFourState : bool)
    (fields : list FieldSymbol) (self : TypePtr) (syntax : SyntaxPtr)
  : Type_ :=
  mkType (PackedUnionBody fields) (Some syntax) (Some self) bitWidth
    isSigned isFourState.

(** [PackedUnionType::fromSyntax]. *)
Definition fromSyntax (fuel : nat) (comp : Compilation)
    (syntax : StructUnionTypeSyntax) (forceSigned : bool)
  : option (TypePtr * Compilation) :=
  let isSigned := signedKeyword syntax || forceSigned in
  st ← memberLoop fuel (types comp)
         (mkMemberState false 0 [] (scopeDiags comp))
         (structMembers syntax);
  let comp := mkCompilation (types comp) (nextType comp) (msDiags st)
                (errorTypePtr comp) in
  if (msBitWidth st =? 0)%Z then Some (Compilation.getErrorType comp, comp)
  else
    let '(unionType, comp) :=
      Compilation.emplace comp
        (new (msBitWidth st) isSigned (msFourState st) (msMembers st)
           (nextType comp) (structSyntax syntax)) in
    wrapPackedDimensions fuel comp unionType (reverse (packedDimensions syntax)).

End PackedUnionType.
(** ** Declared types (DeclaredType.cpp)

    Resolving a type syntax or binding an initializer runs the binder and
    the name lookup, which are not among the sources and which can ask any
    symbol for its type again.  What such a call does is part of the input
    here: a [Script], the sequence of requests the call makes to declared
    types before it returns: for the type or the initializer of a record,
    for the flag [evaluating] of a record, or to report a diagnostic. *)

Definition DeclPtr := nat.

(** A bound expression, as far as the resolver looks at it: its identity and
    its type. *)
Record BoundExpr : Set := mkBound { exprId : nat; exprType : TypePtr }.

Inductive Script (R : Type) : Type :=
| Ret (r : R)
| GetType (d : DeclPtr) (k : TypePtr → Script R)
| GetInitializer (d : DeclPtr) (k : option BoundExpr → Script R)
| IsEvaluating (d : DeclPtr) (k : bool → Script R)
| AddDiag (c : DiagCode) (loc : SourceLocation) (k : Script R).

Arguments Ret {R} r.
Arguments GetType {R} d k.
Arguments GetInitializer {R} d k.
Arguments IsEvaluating {R} d k.
Arguments AddDiag {R} c loc k.

(** A data type syntax: whether it is the implicit type, and what
    [compilation.getType(syntax, location, scope, forceSigned)] does. *)
Record DataTypeSyntax : Type := mkTypeSyntax {
  isImplicitType : bool;
  resolveSyntax : bool → Script TypePtr
}.

(** An initializer syntax: what [Expression::bind(syntax, context)] and
    [Expression::bind(targetType, syntax, location, context)] do; the flag
    is [BindFlags::EnumInitializer]. *)
Record ExpressionSyntax : Type := mkExprSyntax {
  bindSelfDetermined : Script BoundExpr;
  bindAssignment : TypePtr → bool → Script BoundExpr;
  initializerLocation : SourceLocation
}.

(** [DeclaredTypeFlags]. *)
Record DeclaredTypeFlags : Set := mkFlags {
  InferImplicit : bool;
  RequireConstant : bool;
  ForceSigned : bool;
  LookupMax : bool
}.

(** A [DeclaredType] record.  [dimensionSyntax] is what
    [compilation.getType(type, dimensions, location, scope)] does for the
    stored dimensions; [scopeKind] is the kind of the symbol that owns the
    parent scope.  [type], [initializer_] and [evaluating] are the mutable
    members. *)
Record DeclaredType : Type := mkDeclared {
  typeSyntax : option DataTypeSyntax;
  dimensionSyntax : option (TypePtr → Script TypePtr);
  initializerSyntax : option ExpressionSyntax;
  flags : DeclaredTypeFlags;
  scopeKind : SymbolKind;
  type : option TypePtr;
  initializer_ : option BoundExpr;
  evaluating : bool
}.

(** The state: the declared-type records, the compilation store and the
    diagnostics. *)
Record World : Type := mkWorld {
  decls : gmap DeclPtr DeclaredType;
  comp : Compilation;
  worldDiags : Diagnostics
}.

(** How a call ends: it returns, an [ASSERT] fails, or the fuel of the
    model runs out (the call has not ended yet). *)
Inductive Outcome (A : Type) : Type :=
| Returned (a : A)
| AssertionFailed
| OutOfFuel.

Arguments Returned {A} a.
Arguments AssertionFailed {A}.
Arguments OutOfFuel {A}.

Definition bindOutcome {A B : Type} (o : Outcome A) (f : A → Outcome B)
  : Outcome B :=
  match o with
  | Returned a => f a
  | AssertionFailed => AssertionFailed
  | OutOfFuel => OutOfFuel
  end.

(** A failed query of the arena is a failed assertion ([as<T>()]). *)
Definition orAssert {A : Type} (o : option A) : Outcome A :=
  match o with Some a => Returned a | None => AssertionFailed end.

(** What runs a script in a world. *)
Definition Runner : Type :=
  ∀ R : Type, World → Script R → Outcome (R * World).

Module DeclaredType.

Definition setType (rec : DeclaredType) (t : option TypePtr) : DeclaredType :=
  mkDeclared (typeSyntax rec) (dimensionSyntax rec) (initializerSyntax rec)
    (flags rec) (scopeKind rec) t (initializer_ rec) (evaluating rec).

Definition setInitializer (rec : DeclaredType) (e : option BoundExpr)
  : DeclaredType :=
  mkDeclared (typeSyntax rec) (dimensionSyntax rec) (initializerSyntax rec)
    (flags rec) (scopeKind rec) (type rec) e (evaluating rec).

Definition setEvaluating (rec : DeclaredType) (b : bool) : DeclaredType :=
  mkDeclared (typeSyntax rec) (dimensionSyntax rec) (initializerSyntax rec)
    (flags rec) (scopeKind rec) (type rec) (initializer_ rec) b.

(** Update of the record at [this]. *)
Definition update (w : World) (this : DeclPtr)
    (f : DeclaredType → DeclaredType) : World :=
  mkWorld (alter f this (decls w)) (comp w) (worldDiags w).

Section Resolve.

(** Whether [ASSERT] is compiled in. *)
Variable assertions : bool.

(** Fuel for the queries of the type arena. *)
Variable typeFuel : nat.

Variable run : Runner.

(** [ASSERT(!evaluating); evaluating = true;], then [body], then the scope
    guard's [evaluating = false]. *)
Definition guarded (w : World) (this : DeclPtr) (rec : DeclaredType)
    (body : World → Outcome World) : Outcome World :=
  if assertions && evaluating rec then AssertionFailed
  else
    bindOutcome (body (update w this (λ r, setEvaluating r true)))
      (λ w, Returned (update w this (λ r, setEvaluating r false))).

(** [DeclaredType::resolveType]. *)
Definition resolveType (w : World) (this : DeclPtr) : Outcome World :=
  bindOutcome (orAssert (decls w !! this)) (λ rec,
  match typeSyntax rec with
  | None =>
      Returned (update w this
                  (λ r, setType r (Some (Compilation.getErrorType (comp w)))))
  | Some syntax =>
      guarded w this rec (λ w,
        if isImplicitType syntax && InferImplicit (flags rec) then
          match initializerSyntax rec with
          | None =>
              Returned (update w this (λ r,
                setType r (Some (Compilation.getErrorType (comp w)))))
          | Some init =>
              bindOutcome (run _ w (bindSelfDetermined init)) (λ '(e, w),
                Returned (update w this (λ r,
                  setType (setInitializer r (Some e)) (Some (exprType e)))))
          end
        else
          bindOutcome
            (run _ w (resolveSyntax syntax (ForceSigned (flags rec))))
            (λ '(t, w),
               let w := update w this (λ r, setType r (Some t)) in
               match dimensionSyntax rec with
               | None => Returned w
               | Some dims =>
                   bindOutcome (run _ w (dims t)) (λ '(t, w),
                     Returned (update w this (λ r, setType r (Some t))))
               end))
  end).

(** [DeclaredType::getType]. *)
Definition getType (w : World) (this : DeclPtr) : Outcome (TypePtr * World) :=
  bindOutcome (orAssert (decls w !! this)) (λ rec,
  match type rec with
  | Some t => Returned (t, w)
  | None =>
      bindOutcome (resolveType w this) (λ w,
        bindOutcome (orAssert (decls w !! this ≫= type)) (λ t,
          Returned (t, w)))
  end).

(** The part of [resolveAt] after the type is known: the guard, the choice
    of the target type and the binding of the initializer. *)
Definition bindInitializer (w : World) (this : DeclPtr)
    (contextScopeKind : SymbolKind) (init : ExpressionSyntax)
  : Outcome World :=
  bindOutcome (orAssert (decls w !! this)) (λ rec,
    guarded w this rec (λ w,
      bindOutcome (orAssert (type rec)) (λ targetType,
      bindOutcome
        (orAssert (Type_.isEnum typeFuel (types (comp w)) targetType))
        (λ isEnum,
      let enumInit := isEnum && bool_decide (contextScopeKind = EnumType) in
      bindOutcome
        (if enumInit
         then orAssert
                (t ← types (comp w) !! targetType;
                 match body t with
                 | EnumBody baseType => Some baseType
                 | _ => None
                 end)
         else Returned targetType)
        (λ targetType,
      bindOutcome (run _ w (bindAssignment init targetType enumInit))
        (λ '(e, w),
           Returned (update w this (λ r, setInitializer r (Some e))))))))).

(** [DeclaredType::resolveAt]; [contextScopeKind] is the kind of the symbol
    that owns [context.scope]. *)
Definition resolveAt (w : World) (this : DeclPtr)
    (contextScopeKind : SymbolKind) : Outcome World :=
  bindOutcome (orAssert (decls w !! this)) (λ rec,
  match initializerSyntax rec with
  | None => Returned w
  | Some init =>
      match type rec with
      | Some _ => bindInitializer w this contextScopeKind init
      | None =>
          bindOutcome (resolveType w this) (λ w,
          bindOutcome (orAssert (decls w !! this)) (λ rec,
            if bool_decide (is_Some (initializer_ rec)) then Returned w
            else bindInitializer w this contextScopeKind init))
      end
  end).

(** [DeclaredType::getInitializer]: the bind context of the record itself
    has the parent scope as its scope. *)
Definition getInitializer (w : World) (this : DeclPtr)
  : Outcome (option BoundExpr * World) :=
  bindOutcome (orAssert (decls w !! this)) (λ rec,
  match initializer_ rec with
  | Some e => Returned (Some e, w)
  | None =>
      bindOutcome (resolveAt w this (scopeKind rec)) (λ w,
        bindOutcome (orAssert (decls w !! this)) (λ rec,
          Returned (initializer_ rec, w)))
  end).

End Resolve.

(** Running a script: every request is served by the declared type it
    names, which may run scripts in turn.  One unit of fuel per nesting
    level and per request. *)
Fixpoint runScript (assertions : bool) (typeFuel : nat) (fuel : nat)
    (R : Type) (w : World) (s : Script R) {struct fuel}
  : Outcome (R * World) :=
  match fuel with
  | O => OutOfFuel
  | S n =>
      match s with
      | Ret r => Returned (r, w)
      | GetType d k =>
          bindOutcome
            (getType assertions (runScript assertions typeFuel n) w d)
            (λ '(t, w), runScript assertions typeFuel n R w (k t))
      | GetInitializer d k =>
          bindOutcome
            (getInitializer assertions typeFuel
               (runScript assertions typeFuel n) w d)
            (λ '(e, w), runScript assertions typeFuel n R w (k e))
      | IsEvaluating d k =>
          bindOutcome (orAssert (decls w !! d))
            (λ rec, runScript assertions typeFuel n R w (k (evaluating rec)))
      | AddDiag c loc k =>
          runScript assertions typeFuel n R
            (mkWorld (decls w) (comp w) (addDiag (worldDiags w) c loc)) k
      end
  end.

(** Modelled from the spec: the name lookup, which is not among the
    sources, on a symbol with the declared type [d].  A symbol whose
    declared type is being evaluated is refused: the lookup reports
    [RecursiveDefinition] and the reference gets the error type
    [errorType]; the declared type is not asked.  Any other symbol is
    asked for its type. *)
Definition lookupType {R : Type} (errorType : TypePtr) (d : DeclPtr)
    (loc : SourceLocation) (k : TypePtr → Script R) : Script R :=
  IsEvaluating d (λ e,
    if e then AddDiag RecursiveDefinition loc (k errorType)
    else GetType d k).

End DeclaredType.
(** ** Constant evaluation (Expressions_eval.cpp) *)

Module UnaryOperator.
Inductive t : Set :=
| Plus | Minus | BitwiseNot | BitwiseAnd | BitwiseOr | BitwiseXor
| BitwiseNand | BitwiseNor | BitwiseXnor | LogicalNot
| Preincrement | Predecrement | Postincrement | Postdecrement.
End UnaryOperator.

Module BinaryOperator.
Inductive t : Set :=
| Add | Subtract | Multiply | Divide | Mod | BinaryAnd | BinaryOr | BinaryXor
| BinaryXnor | Equality | Inequality | CaseEquality | CaseInequality
| GreaterThanEqual | GreaterThan | LessThanEqual | LessThan
| WildcardEquality | WildcardInequality | LogicalAnd | LogicalOr
| LogicalImplication | LogicalEquivalence | LogicalShiftLeft
| LogicalShiftRight | ArithmeticShiftLeft | ArithmeticShiftRight | Power.
End BinaryOperator.

Module RangeSelectionKind.
Inductive t : Set := Simple | IndexedUp | IndexedDown.
End RangeSelectionKind.

Module ExpressionKind.
Inductive t : Set :=
| Invalid | IntegerLiteral | RealLiteral | UnbasedUnsizedIntegerLiteral
| NullLiteral | StringLiteral | NamedValue | UnaryOp | BinaryOp
| ConditionalOp | Assignment | Concatenation | Replication | ElementSelect
| RangeSelect | MemberAccess | Call | Conversion | DataType
| SimpleAssignmentPattern | StructuredAssignmentPattern
| ReplicatedAssignmentPattern.
End ExpressionKind.

#[global] Instance BinaryOperator_eq_dec : EqDecision BinaryOperator.t.
Proof. solve_decision. Defined.
#[global] Instance RangeSelectionKind_eq_dec : EqDecision RangeSelectionKind.t.
Proof. solve_decision. Defined.
#[global] Instance ExpressionKind_eq_dec : EqDecision ExpressionKind.t.
Proof. solve_decision. Defined.

(** [isLValueOp]. *)
Definition isLValueOp (op : UnaryOperator.t) : bool :=
  match op with
  | UnaryOperator.Preincrement | UnaryOperator.Predecrement
  | UnaryOperator.Postincrement | UnaryOperator.Postdecrement => true
  | _ => false
  end.

(** [isShortCircuitOp]. *)
Definition isShortCircuitOp (op : BinaryOperator.t) : bool :=
  match op with
  | BinaryOperator.LogicalAnd | BinaryOperator.LogicalOr
  | BinaryOperator.LogicalImplication => true
  | _ => false
  end.

Definition ScopePtr := nat.
Definition SymbolPtr := nat.

(** Modelled from the spec: [LookupLocation], "a pair (scope, index)"; one
    location is before another when its index is smaller. *)
Record LookupLocation : Set := mkLookupLocation {
  getScope : option ScopePtr;
  getIndex : Z
}.

(** A symbol that a named value refers to: its address, kind, location and
    index in its scope; the scopes around it, innermost first, each with
    the kind of the symbol that owns it ([getParentScope()], then
    [asSymbol().getParentScope()], and so on); and what [getValue()]
    returns for it when it is a parameter or an enum value. *)
Record Symbol : Set := mkSymbol {
  symPtr : SymbolPtr;
  symKind : SymbolKind;
  symLocation : SourceLocation;
  symIndex : Z;
  parentScopes : list (ScopePtr * SymbolKind);
  getValue : ConstantValue
}.

Definition getParentScope (s : Symbol) : option ScopePtr :=
  fst <$> head (parentScopes s).

(** Modelled from the spec: [EvalContext], "a stack of frames, each
    holding the subroutine symbol (or none for top-level), a call-site
    LookupLocation, and a table of local variable storage", with "report
    diagnostic" and the "script eval" flag.  The top of the stack is the
    head of the list. *)
Record Frame : Set := mkFrame {
  subroutine : option ScopePtr;
  lookupLocation : LookupLocation;
  temporaries : gmap SymbolPtr ConstantValue
}.

Record EvalContext : Set := mkEvalContext {
  stack : list Frame;
  evalDiags : Diagnostics;
  isScriptEval : bool
}.

Module EvalContext.

Definition addDiag (ctx : EvalContext) (c : DiagCode) (loc : SourceLocation)
  : EvalContext :=
  mkEvalContext (stack ctx) (addDiag (evalDiags ctx) c loc) (isScriptEval ctx).

Definition topFrame (ctx : EvalContext) : option Frame := head (stack ctx).

Definition findLocal (ctx : EvalContext) (symbol : SymbolPtr)
  : option (option ConstantValue) :=
  f ← topFrame ctx; Some (temporaries f !! symbol).

End EvalContext.

(** What every expression node carries: the precomputed constant, the type,
    the start of the source range, and the answer of [bad()]. *)
Record Header : Set := mkHeader {
  constant : option ConstantValue;
  exprTypePtr : TypePtr;
  exprRange : SourceLocation;
  isBad : bool
}.

(** Bound expressions.  The kinds whose evaluation goes through classes
    that are not among the sources (assignments and the increment and
    decrement operators through [LValue], calls through [Statement], the
    remaining literals and patterns) are [OtherExpression] nodes: such a
    node carries its kind and its [evalImpl] as a function of the
    context. *)
#[warnings="-register-all"]
Inductive Expression : Type :=
| InvalidExpression (h : Header)
| IntegerLiteral (h : Header) (literal : SVInt)
| NamedValueExpression (h : Header) (symbol : Symbol) (isHierarchical : bool)
| UnaryExpression (h : Header) (op : UnaryOperator.t) (operand : Expression)
| BinaryExpression (h : Header) (op : BinaryOperator.t)
    (lhs rhs : Expression)
| ConditionalExpression (h : Header) (pred lhs rhs : Expression)
| ElementSelectExpression (h : Header) (val selector : Expression)
| RangeSelectExpression (h : Header) (selectionKind : RangeSelectionKind.t)
    (val lhs rhs : Expression)
| MemberAccessExpression (h : Header) (val : Expression) (field : FieldSymbol)
| ConcatenationExpression (h : Header) (operands : list Expression)
| ConversionExpression (h : Header) (operand : Expression)
| OtherExpression (h : Header) (k : ExpressionKind.t)
    (impl : EvalContext → option (ConstantValue * EvalContext)).

Definition header (e : Expression) : Header :=
  match e with
  | InvalidExpression h | IntegerLiteral h _ | NamedValueExpression h _ _
  | UnaryExpression h _ _ | BinaryExpression h _ _ _
  | ConditionalExpression h _ _ _ | ElementSelectExpression h _ _
  | RangeSelectExpression h _ _ _ _ | MemberAccessExpression h _ _
  | ConcatenationExpression h _ | ConversionExpression h _
  | OtherExpression h _ _ => h
  end.

Definition exprKind (e : Expression) : ExpressionKind.t :=
  match e with
  | InvalidExpression _ => ExpressionKind.Invalid
  | IntegerLiteral _ _ => ExpressionKind.IntegerLiteral
  | NamedValueExpression _ _ _ => ExpressionKind.NamedValue
  | UnaryExpression _ _ _ => ExpressionKind.UnaryOp
  | BinaryExpression _ _ _ _ => ExpressionKind.BinaryOp
  | ConditionalExpression _ _ _ _ => ExpressionKind.ConditionalOp
  | ElementSelectExpression _ _ _ => ExpressionKind.ElementSelect
  | RangeSelectExpression _ _ _ _ _ => ExpressionKind.RangeSelect
  | MemberAccessExpression _ _ _ => ExpressionKind.MemberAccess
  | ConcatenationExpression _ _ => ExpressionKind.Concatenation
  | ConversionExpression _ _ => ExpressionKind.Conversion
  | OtherExpression _ k _ => k
  end.

(** The operations of [ConstantValue], [SVInt] and the binder's helpers
    that the evaluator calls and that are not among the sources.  The
    evaluator is parametric in them. *)
Record ValueOps : Type := mkValueOps {
  (** [ConstantValue::isTrue], [ConstantValue::isFalse]. *)
  isTrue : ConstantValue → bool;
  isFalse : ConstantValue → bool;
  (** [SVInt::as<int32_t>]. *)
  as_int32 : SVInt → option Z;
  (** [SVInt::slice(msb, lsb)], [ConstantValue::getSlice(upper, lower)],
      [SVInt::concat]. *)
  slice : SVInt → Z → Z → SVInt;
  getSlice : ConstantValue → Z → Z → ConstantValue;
  concat : list SVInt → SVInt;
  (** The operator tables of [UnaryExpression::evalImpl] and
      [evalBinaryOperator] on valid operands; [None] is
      [THROW_UNREACHABLE]. *)
  unaryOp : UnaryOperator.t → ConstantValue → option ConstantValue;
  binaryOp : BinaryOperator.t → ConstantValue → ConstantValue
             → option ConstantValue;
  (** The combination of both arms of a conditional whose predicate has
      unknown bits. *)
  conditionalUnknown : TypePtr → SVInt → ConstantValue → ConstantValue
                       → option ConstantValue;
  (** [convertToInt], [convertToReal], [convertToShortReal],
      [convertToStr], chosen by the target type. *)
  convertTo : TypePtr → ConstantValue → option ConstantValue;
  (** [getIndexedRange(kind, l, r, littleEndian)]. *)
  getIndexedRange : RangeSelectionKind.t → Z → Z → bool → ConstantRange;
  (** [Symbol::isBeforeInCompilationUnit]. *)
  isBeforeInCompilationUnit : Symbol → ScopePtr → option bool
}.

Section Evaluator.

Variable ops : ValueOps.

(** The arena of types and the fuel of the type queries. *)
Variable h : Heap.
Variable fuel : nat.

(** The branch of [UnaryExpression::evalImpl] for the increment and
    decrement operators: it loads and stores through [LValue], which is not
    among the sources. *)
Variable evalLValueOp :
  UnaryOperator.t → Expression → EvalContext
  → option (ConstantValue * EvalContext).

Abbreviation EvalResult := (option (ConstantValue * EvalContext)).

(** [evalBinaryOperator]: invalid operands give the invalid value, the rest
    is the operator table. *)
Definition evalBinaryOperator (op : BinaryOperator.t)
    (cvl cvr : ConstantValue) : option ConstantValue :=
  if bad cvl || bad cvr then Some Invalid else binaryOp ops op cvl cvr.

(** [checkArrayIndex]; the result holds the translated index on success. *)
Definition checkArrayIndex (ctx : EvalContext) (type : TypePtr)
    (cs : ConstantValue) (str : list nat) (sourceRange : SourceLocation)
  : option (option Z * EvalContext) :=
  match cs with
  | IntegerV csi =>
      let index := as_int32 ops csi in
      let rangeCheck :=
        range ← Type_.getArrayRange fuel h type;
        match index with
        | Some i =>
            if ConstantRange.containsPoint range i
            then Some (Some (ConstantRange.translateIndex range i), ctx)
            else Some (None, EvalContext.addDiag ctx NoteArrayIndexInvalid
                               sourceRange)
        | None =>
            Some (None, EvalContext.addDiag ctx NoteArrayIndexInvalid
                          sourceRange)
        end in
      match index with
      | Some i =>
          match Type_.isString fuel h type with
          | None => None
          | Some true =>
              if (i <? 0)%Z || (Z.of_nat (length str) <=? i)%Z
              then Some (None, EvalContext.addDiag ctx NoteStringIndexInvalid
                                 sourceRange)
              else Some (Some i, ctx)
          | Some false => rangeCheck
          end
      | None => rangeCheck
      end
  | _ => None
  end.

(** The walk [while (scope && scope != subroutine) scope = parent] of
    [NamedValueExpression::verifyConstantImpl], followed by the test
    [scope != subroutine]: true when the walk ends away from the
    subroutine. *)
Fixpoint notLocalTo (subroutine : ScopePtr)
    (scopes : list (ScopePtr * SymbolKind)) : bool :=
  match scopes with
  | [] => true
  | (scope, _) :: outer =>
      if bool_decide (scope = subroutine) then false
      else notLocalTo subroutine outer
  end.

(** [NamedValueExpression::verifyConstantImpl]. *)
Definition NamedValueExpression_verifyConstantImpl (hd : Header)
    (symbol : Symbol) (isHierarchical : bool) (ctx : EvalContext)
  : option (bool * EvalContext) :=
  if isScriptEval ctx then Some (true, ctx)
  else if isHierarchical then
    Some (false, EvalContext.addDiag ctx NoteHierarchicalNameInCE
                   (exprRange hd))
  else
    frame ← EvalContext.topFrame ctx;
    match subroutine frame with
    | None => Some (true, ctx)
    | Some sub =>
        if negb (bool_decide (symKind symbol = ParameterSym)) then
          if notLocalTo sub (parentScopes symbol) then
            Some (false,
                  EvalContext.addDiag
                    (EvalContext.addDiag ctx NoteFunctionIdentifiersMustBeLocal
                       (exprRange hd))
                    NoteDeclarationHere (symLocation symbol))
          else Some (true, ctx)
        else
          let frameScope := getScope (lookupLocation frame) in
          let isBefore :=
            match frameScope with
            | Some fs =>
                if bool_decide (getParentScope symbol = Some fs)
                then (symIndex symbol + 1 <? getIndex (lookupLocation frame))%Z
                else default true (isBeforeInCompilationUnit ops symbol fs)
            | None =>
                (symIndex symbol + 1 <? getIndex (lookupLocation frame))%Z
            end in
          if negb isBefore then
            Some (false,
                  EvalContext.addDiag
                    (EvalContext.addDiag ctx NoteParamUsedInCEBeforeDecl
                       (exprRange hd))
                    NoteDeclarationHere (symLocation symbol))
          else Some (true, ctx)
    end.

(** [NamedValueExpression::evalImpl]. *)
Definition NamedValueExpression_evalImpl (hd : Header) (symbol : Symbol)
    (isHierarchical : bool) (ctx : EvalContext) : EvalResult :=
  '(ok, ctx) ← NamedValueExpression_verifyConstantImpl hd symbol
                 isHierarchical ctx;
  if negb ok then Some (Invalid, ctx)
  else
    let notConstant :=
      Some (Invalid,
            EvalContext.addDiag
              (EvalContext.addDiag ctx NoteNonConstVariable (exprRange hd))
              NoteDeclarationHere (symLocation symbol)) in
    match symKind symbol with
    | ParameterSym =>
        match head (parentScopes symbol) with
        | None => None
        | Some (_, parentKind) =>
            if bool_decide (parentKind = DefinitionSym)
            then Some (Invalid, ctx)
            else Some (getValue symbol, ctx)
        end
    | EnumValue => Some (getValue symbol, ctx)
    | _ =>
        v ← EvalContext.findLocal ctx (symPtr symbol);
        match v with
        | Some v => Some (v, ctx)
        | None => notConstant
        end
    end.

(** [IntegerLiteral::evalImpl]. *)
Definition IntegerLiteral_evalImpl (hd : Header) (literal : SVInt)
    (ctx : EvalContext) : EvalResult :=
  w ← Type_.getBitWidth fuel h (exprTypePtr hd);
  if bool_decide (width literal = w) then Some (IntegerV literal, ctx)
  else None.

Section Recursive.

(** [Expression::eval] on the operands. *)
Variable eval : Expression → EvalContext → EvalResult.

(** [UnaryExpression::evalImpl]. *)
Definition UnaryExpression_evalImpl (op : UnaryOperator.t)
    (operand : Expression) (ctx : EvalContext) : EvalResult :=
  if isLValueOp op then evalLValueOp op operand ctx
  else
    '(cv, ctx) ← eval operand ctx;
    if bad cv then Some (Invalid, ctx)
    else r ← unaryOp ops op cv; Some (r, ctx).

(** [BinaryExpression::evalImpl]. *)
Definition BinaryExpression_evalImpl (op : BinaryOperator.t)
    (lhs rhs : Expression) (ctx : EvalContext) : EvalResult :=
  '(cvl, ctx) ← eval lhs ctx;
  if bad cvl then Some (Invalid, ctx)
  else
    let shortCircuit : option bool :=
      if isShortCircuitOp op then
        match op with
        | BinaryOperator.LogicalOr =>
            if isTrue ops cvl then Some true else None
        | BinaryOperator.LogicalAnd =>
            if isFalse ops cvl then Some false else None
        | BinaryOperator.LogicalImplication =>
            if isFalse ops cvl then Some true else None
        | _ => None
        end
      else None in
    match shortCircuit with
    | Some b => Some (IntegerV (SVInt.make 1 (if b then 1 else 0) false), ctx)
    | None =>
        '(cvr, ctx) ← eval rhs ctx;
        if bad cvr then Some (Invalid, ctx)
        else r ← evalBinaryOperator op cvl cvr; Some (r, ctx)
    end.

(** [ConditionalExpression::evalImpl]. *)
Definition ConditionalExpression_evalImpl (hd : Header)
    (pred lhs rhs : Expression) (ctx : EvalContext) : EvalResult :=
  '(cp, ctx) ← eval pred ctx;
  if bad cp then Some (Invalid, ctx)
  else
    match cp with
    | IntegerV p =>
        if SVInt.hasUnknown p then
          '(cvl, ctx) ← eval lhs ctx;
          '(cvr, ctx) ← eval rhs ctx;
          if bad cvl || bad cvr then Some (Invalid, ctx)
          else
            r ← conditionalUnknown ops (exprTypePtr hd) p cvl cvr;
            Some (r, ctx)
        else if isTrue ops cp then eval lhs ctx else eval rhs ctx
    | _ => if isTrue ops cp then eval lhs ctx else eval rhs ctx
    end.

(** [ElementSelectExpression::evalImpl]. *)
Definition ElementSelectExpression_evalImpl (hd : Header)
    (val selector : Expression) (ctx : EvalContext) : EvalResult :=
  '(cv, ctx) ← eval val ctx;
  '(cs, ctx) ← eval selector ctx;
  if bad cv || bad cs then Some (Invalid, ctx)
  else
    let valueType := exprTypePtr (header val) in
    isStr ← Type_.isString fuel h valueType;
    str ← (if isStr
           then match cv with StrV s => Some s | _ => None end
           else Some []);
    '(index, ctx) ← checkArrayIndex ctx valueType cs str (exprRange hd);
    match index with
    | None => Some (Invalid, ctx)
    | Some index =>
        isUnpacked ← Type_.isUnpackedArray fuel h valueType;
        if (isUnpacked : bool) then
          match cv return EvalResult with
          | Elements elems =>
              e ← elems !! Z.to_nat index; Some (e, ctx)
          | _ => None
          end
        else if (isStr : bool) then Some (getSlice ops cv index index, ctx)
        else
          w ← Type_.getBitWidth fuel h (exprTypePtr hd);
          let width := to_int32 w in
          let index := to_int32 (index * width) in
          match cv with
          | IntegerV i =>
              Some (IntegerV (slice ops i (to_int32 (index + width - 1)) index),
                    ctx)
          | _ => None
          end
    end.

(** [RangeSelectExpression::getRange]. *)
Definition RangeSelectExpression_getRange (hd : Header)
    (selectionKind : RangeSelectionKind.t) (val : Expression)
    (ctx : EvalContext) (cl cr : ConstantValue)
  : option (option ConstantRange * EvalContext) :=
  let valueType := exprTypePtr (header val) in
  valueRange ← Type_.getArrayRange fuel h valueType;
  let checked (result : ConstantRange)
    : option (option ConstantRange * EvalContext) :=
    if negb (ConstantRange.containsPoint valueRange (left result))
       || negb (ConstantRange.containsPoint valueRange (right result))
    then Some (None, EvalContext.addDiag ctx NotePartSelectInvalid
                       (exprRange hd))
    else
      let result := if ConstantRange.isLittleEndian result then result
                    else ConstantRange.reverse result in
      let result :=
        mkRange (ConstantRange.translateIndex valueRange (left result))
                (ConstantRange.translateIndex valueRange (right result)) in
      isPacked ← Type_.isPackedArray fuel h valueType;
      if negb isPacked then Some (Some result, ctx)
      else
        ct ← Type_.canonicalOf fuel h valueType;
        t ← h !! ct;
        match body t with
        | PackedArrayBody elementType _ =>
            w ← Type_.getBitWidth fuel h elementType;
            let width := to_int32 w in
            let l := to_int32 (left result * width) in
            let r := to_int32 (right result * width) in
            Some (Some (mkRange (to_int32 (l + (width - 1))) r), ctx)
        | _ => None
        end in
  if bool_decide (selectionKind = RangeSelectionKind.Simple) then
    result ← Type_.getArrayRange fuel h (exprTypePtr hd);
    checked result
  else
    match cl with
    | IntegerV cli =>
        match as_int32 ops cli with
        | None =>
            Some (None, EvalContext.addDiag ctx NoteArrayIndexInvalid
                          (exprRange hd))
        | Some l =>
            match cr with
            | IntegerV cri =>
                r ← as_int32 ops cri;
                checked (getIndexedRange ops selectionKind l r
                           (ConstantRange.isLittleEndian valueRange))
            | _ => None
            end
        end
    | _ => None
    end.

(** [RangeSelectExpression::evalImpl]. *)
Definition RangeSelectExpression_evalImpl (hd : Header)
    (selectionKind : RangeSelectionKind.t) (val lhs rhs : Expression)
    (ctx : EvalContext) : EvalResult :=
  '(cv, ctx) ← eval val ctx;
  '(cl, ctx) ← eval lhs ctx;
  '(cr, ctx) ← eval rhs ctx;
  if bad cv || bad cl || bad cr then Some (Invalid, ctx)
  else
    '(range, ctx) ← RangeSelectExpression_getRange hd selectionKind val ctx
                      cl cr;
    match range with
    | None => Some (Invalid, ctx)
    | Some range =>
        Some (getSlice ops cv (ConstantRange.upper range)
                (ConstantRange.lower range), ctx)
    end.

(** [MemberAccessExpression::evalImpl]. *)
Definition MemberAccessExpression_evalImpl (hd : Header) (val : Expression)
    (field : FieldSymbol) (ctx : EvalContext) : EvalResult :=
  '(cv, ctx) ← eval val ctx;
  if bad cv then Some (Invalid, ctx)
  else
    isStruct ← Type_.kindIs UnpackedStructType fuel h
                 (exprTypePtr (header val));
    if (isStruct : bool) then
      match cv return EvalResult with
      | Elements elems => e ← elems !! Z.to_nat (offset field); Some (e, ctx)
      | _ => None
      end
    else
      w ← Type_.getBitWidth fuel h (exprTypePtr hd);
      let offset := to_int32 (offset field) in
      let width := to_int32 w in
      match cv with
      | IntegerV i =>
          Some (IntegerV (slice ops i (to_int32 (width + offset - 1)) offset),
                ctx)
      | _ => None
      end.

(** The operand loops of [ConcatenationExpression::evalImpl]: [None] in the
    first component of the result is the early [return nullptr]. *)
Fixpoint concatOperands (operands : list Expression) (ctx : EvalContext)
    (acc : list ConstantValue)
  : option (option (list ConstantValue) * EvalContext) :=
  match operands with
  | [] => Some (Some acc, ctx)
  | operand :: rest =>
      '(v, ctx) ← eval operand ctx;
      if bad v then Some (None, ctx)
      else
        isVoid ← Type_.kindIs VoidType fuel h (exprTypePtr (header operand));
        concatOperands rest ctx (if (isVoid : bool) then acc else acc ++ [v])
  end.

End Recursive.

(** [Expression::eval]: the dispatch of [Expression::visit] on the kind,
    [EvalVisitor::visit] and the [evalImpl] of the class. *)
Fixpoint eval (e : Expression) (ctx : EvalContext) {struct e} : EvalResult :=
  match e with
  | InvalidExpression _ => Some (Invalid, ctx)
  | _ =>
      match constant (header e) with
      | Some c => Some (c, ctx)
      | None =>
          if isBad (header e) then Some (Invalid, ctx)
          else
            match e with
            | InvalidExpression _ => Some (Invalid, ctx)
            | IntegerLiteral hd literal => IntegerLiteral_evalImpl hd literal ctx
            | NamedValueExpression hd symbol isHierarchical =>
                NamedValueExpression_evalImpl hd symbol isHierarchical ctx
            | UnaryExpression _ op operand =>
                UnaryExpression_evalImpl eval op operand ctx
            | BinaryExpression _ op lhs rhs =>
                BinaryExpression_evalImpl eval op lhs rhs ctx
            | ConditionalExpression hd pred lhs rhs =>
                ConditionalExpression_evalImpl eval hd pred lhs rhs ctx
            | ElementSelectExpression hd val selector =>
                ElementSelectExpression_evalImpl eval hd val selector ctx
            | RangeSelectExpression hd selectionKind val lhs rhs =>
                RangeSelectExpression_evalImpl eval hd selectionKind val lhs
                  rhs ctx
            | MemberAccessExpression hd val field =>
                MemberAccessExpression_evalImpl eval hd val field ctx
            | ConcatenationExpression hd operands =>
                isStr ← Type_.isString fuel h (exprTypePtr hd);
                '(vs, ctx) ← concatOperands eval operands ctx [];
                match vs with
                | None => Some (Invalid, ctx)
                | Some vs =>
                    if (isStr : bool) then
                      strs ← mapM (λ v, match v with
                                        | StrV s => Some s
                                        | _ => None
                                        end) vs;
                      Some (StrV (mjoin strs), ctx)
                    else
                      ints ← mapM (λ v, match v with
                                        | IntegerV i => Some i
                                        | _ => None
                                        end) vs;
                      Some (IntegerV (concat ops ints), ctx)
                end
            | ConversionExpression hd operand =>
                '(value, ctx) ← eval operand ctx;
                r ← convertTo ops (exprTypePtr hd) value;
                Some (r, ctx)
            | OtherExpression _ _ impl => impl ctx
            end
      end
  end.

End Evaluator.
(** ** Port connections (PortBuilder.h, [PortConnectionBuilder]) *)

(** The attributes of a connection, already built from their syntax. *)
Definition Attributes := list nat.

(** [PortSymbol] (MemberSymbols.h): a port with its resolved type
    ([getType()]), its [defaultValue] ("an optional default value that is
    used for the port when no connection is provided") and the private
    members that [setConnection] fills: the connection expression [conn],
    the syntax [connSyntax] that [getConnection] binds on demand, and the
    attributes [connAttrs]. *)
Record PortSymbol : Type := mkPort {
  portName : string;
  portLocation : SourceLocation;
  portType : TypePtr;
  defaultValue : option Expression;
  conn : option (option Expression);
  connSyntax : option SyntaxPtr;
  connAttrs : Attributes
}.

Module PortSymbol.

(** Modelled from the spec: [setConnection(const Expression*, attributes)]
    stores the expression (possibly null) as the connection. *)
Definition setConnection (port : PortSymbol) (expr : option Expression)
    (attributes : Attributes) : PortSymbol :=
  mkPort (portName port) (portLocation port) (portType port)
    (defaultValue port) (Some expr) None attributes.

(** Modelled from the spec: [setConnection(const ExpressionSyntax&,
    attributes)] stores the syntax, to be bound on demand. *)
Definition setConnectionSyntax (port : PortSymbol) (syntax : SyntaxPtr)
    (attributes : Attributes) : PortSymbol :=
  mkPort (portName port) (portLocation port) (portType port)
    (defaultValue port) None (Some syntax) attributes.

(** A port that instantiation connected to an expression. *)
Definition connected (port : PortSymbol) : bool :=
  match conn port, connSyntax port with
  | Some (Some _), _ | _, Some _ => true
  | _, _ => false
  end.

End PortSymbol.

Record OrderedPortConnectionSyntax : Set := mkOrderedConn {
  opcExpr : option SyntaxPtr;
  opcAttributes : Attributes
}.

Record NamedPortConnectionSyntax : Set := mkNamedConn {
  openParen : bool;
  connExpr : option SyntaxPtr;
  connNameRange : SourceLocation;
  connNameLocation : SourceLocation;
  connAttributes : Attributes
}.

(** The state of a [PortConnectionBuilder] after its constructor has
    sorted the connections of the instance, with the diagnostics of the
    instantiating scope. *)
Record PortConnectionBuilder : Set := mkBuilder {
  usingOrdered : bool;
  orderedConns : list OrderedPortConnectionSyntax;
  orderedIndex : nat;
  namedConns : gmap string (NamedPortConnectionSyntax * bool);
  hasWildcard : bool;
  wildcardRange : SourceLocation;
  wildcardAttrs : Attributes;
  warnedAboutUnnamed : bool;
  instanceLocation : SourceLocation;
  builderDiags : Diagnostics
}.

Module PortConnectionBuilder.

Definition setDiags (b : PortConnectionBuilder) (ds : Diagnostics)
  : PortConnectionBuilder :=
  mkBuilder (usingOrdered b) (orderedConns b) (orderedIndex b) (namedConns b)
    (hasWildcard b) (wildcardRange b) (wildcardAttrs b)
    (warnedAboutUnnamed b) (instanceLocation b) ds.

(** [scope.addDiag]. *)
Definition addDiag (b : PortConnectionBuilder) (c : DiagCode)
    (loc : SourceLocation) : PortConnectionBuilder :=
  setDiags b (addDiag (builderDiags b) c loc).

Definition nextOrdered (b : PortConnectionBuilder) : PortConnectionBuilder :=
  mkBuilder (usingOrdered b) (orderedConns b) (S (orderedIndex b))
    (namedConns b) (hasWildcard b) (wildcardRange b) (wildcardAttrs b)
    (warnedAboutUnnamed b) (instanceLocation b) (builderDiags b).

(** [it->second.second = true]. *)
Definition markUsed (b : PortConnectionBuilder) (name : string)
    (c : NamedPortConnectionSyntax) : PortConnectionBuilder :=
  mkBuilder (usingOrdered b) (orderedConns b) (orderedIndex b)
    (<[name := (c, true)]> (namedConns b)) (hasWildcard b) (wildcardRange b)
    (wildcardAttrs b) (warnedAboutUnnamed b) (instanceLocation b)
    (builderDiags b).

(** The warning for an unconnected unnamed port, issued once. *)
Definition warnUnnamed (b : PortConnectionBuilder) (port : PortSymbol)
  : PortConnectionBuilder :=
  if warnedAboutUnnamed b then b
  else
    mkBuilder (usingOrdered b) (orderedConns b) (orderedIndex b)
      (namedConns b) (hasWildcard b) (wildcardRange b) (wildcardAttrs b) true
      (instanceLocation b)
      (addDiagNote (builderDiags b) UnconnectedUnnamedPort
         (instanceLocation b) NoteDeclarationHere (portLocation port)).

Section Builder.

(** The arena of types and the fuel of the type queries. *)
Variable h : Heap.
Variable fuel : nat.

(** The calls into the instantiating scope and the binder, none of them
    among the sources; each may report diagnostics of its own.
    [lookupUnqualifiedName name range disallowWildcardImport],
    [NamedValueExpression::fromSymbol(scope, symbol, false, range)] and
    [Expression::convertAssignment(context, type, expr, location)]. *)
Variable lookupUnqualifiedName :
  string → SourceLocation → bool → Diagnostics → option Symbol * Diagnostics.
Variable fromSymbol :
  Symbol → SourceLocation → Diagnostics → Expression * Diagnostics.
Variable convertAssignment :
  TypePtr → Expression → SourceLocation → Diagnostics
  → Expression * Diagnostics.

(** [implicitNamedPort]. *)
Definition implicitNamedPort (b : PortConnectionBuilder) (port : PortSymbol)
    (attributes : Attributes) (range : SourceLocation) (isWildcard : bool)
  : option (PortSymbol * PortConnectionBuilder) :=
  let '(symbol, ds) :=
    lookupUnqualifiedName (portName port) range isWildcard (builderDiags b) in
  let b := setDiags b ds in
  match symbol with
  | None =>
      match isWildcard, defaultValue port with
      | true, Some _ =>
          Some (PortSymbol.setConnection port (defaultValue port) attributes,
                b)
      | _, _ => Some (port, addDiag b ImplicitNamedPortNotFound range)
      end
  | Some symbol =>
      portIsError ← Type_.isError fuel h (portType port);
      if (portIsError : bool) then Some (port, b)
      else
        let '(expr, ds) := fromSymbol symbol range (builderDiags b) in
        let b := setDiags b ds in
        if isBad (header expr) then Some (port, b)
        else
          equivalent ← Type_.isEquivalent fuel h (exprTypePtr (header expr))
                          (portType port);
          if negb equivalent
          then Some (port, addDiag b ImplicitNamedPortTypeMismatch range)
          else
            let '(assign, ds) :=
              convertAssignment (portType port) expr range (builderDiags b) in
            Some (PortSymbol.setConnection port (Some assign) attributes,
                  setDiags b ds)
  end.

(** [setConnection(PortSymbol&)]. *)
Definition setConnection (b : PortConnectionBuilder) (port : PortSymbol)
  : option (PortSymbol * PortConnectionBuilder) :=
  if usingOrdered b then
    match orderedConns b !! orderedIndex b with
    | None =>
        let b := nextOrdered b in
        match defaultValue port with
        | Some _ =>
            Some (PortSymbol.setConnection port (defaultValue port) [], b)
        | None =>
            if bool_decide (portName port = EmptyString)
            then Some (port, warnUnnamed b port)
            else Some (port, addDiag b UnconnectedNamedPort
                               (instanceLocation b))
        end
    | Some opc =>
        let b := nextOrdered b in
        match opcExpr opc with
        | Some e =>
            Some (PortSymbol.setConnectionSyntax port e (opcAttributes opc), b)
        | None =>
            Some (PortSymbol.setConnection port (defaultValue port)
                    (opcAttributes opc), b)
        end
    end
  else if bool_decide (portName port = EmptyString)
  then Some (port, warnUnnamed b port)
  else
    match namedConns b !! portName port with
    | None =>
        if hasWildcard b
        then implicitNamedPort b port (wildcardAttrs b) (wildcardRange b) true
        else
          match defaultValue port with
          | Some _ =>
              Some (PortSymbol.setConnection port (defaultValue port) [], b)
          | None =>
              Some (port, addDiag b UnconnectedNamedPort (instanceLocation b))
          end
    | Some (c, _) =>
        let b := markUsed b (portName port) c in
        if openParen c then
          match connExpr c with
          | Some e =>
              Some (PortSymbol.setConnectionSyntax port e (connAttributes c),
                    b)
          | None => Some (port, b)
          end
        else
          implicitNamedPort b port (connAttributes c) (connNameRange c) false
    end.

End Builder.

End PortConnectionBuilder.
(** ** Kind predicates and default values (TypeSymbols.cpp) *)

(** [Type::isAggregate]. *)
Definition Type_isAggregate (fuel : nat) (h : Heap) (this : TypePtr)
  : option bool :=
  k ← Type_.canonicalKind fuel h this;
  Some match k with
       | UnpackedArrayType | UnpackedStructType | UnpackedUnionType => true
       | _ => false
       end.

(** [Type::isSingular]. *)
Definition Type_isSingular (fuel : nat) (h : Heap) (this : TypePtr)
  : option bool := negb <$> Type_isAggregate fuel h this.

(** [Type::isNumeric]: [isIntegral() || isFloating()]. *)
Definition Type_isNumeric (fuel : nat) (h : Heap) (this : TypePtr)
  : option bool :=
  Type_.orM (Type_.isIntegral fuel h this) (Type_.isFloating fuel h this).

(** [Type::isBooleanConvertible]. *)
Definition Type_isBooleanConvertible (fuel : nat) (h : Heap) (this : TypePtr)
  : option bool :=
  k ← Type_.canonicalKind fuel h this;
  match k with
  | NullType | CHandleType | StringType | EventType => Some true
  | _ => Type_isNumeric fuel h this
  end.

(** [Type::isArray]. *)
Definition Type_isArray (fuel : nat) (h : Heap) (this : TypePtr)
  : option bool :=
  k ← Type_.canonicalKind fuel h this;
  Some match k with
       | PackedArrayType | UnpackedArrayType => true
       | _ => false
       end.

(** [Type::isStruct]. *)
Definition Type_isStruct (fuel : nat) (h : Heap) (this : TypePtr)
  : option bool :=
  k ← Type_.canonicalKind fuel h this;
  Some match k with
       | PackedStructType | UnpackedStructType => true
       | _ => false
       end.

Definition Type_isUnpackedStruct := Type_.kindIs UnpackedStructType.

(** [Type::isBitstreamType]. *)
Definition Type_isBitstreamType (fuel : nat) (h : Heap) (this : TypePtr)
  : option bool :=
  Type_.orM (Type_.isIntegral fuel h this)
    (Type_.orM (Type_.isUnpackedArray fuel h this)
       (Type_isUnpackedStruct fuel h this)).

(** [Type::isByteArray]. *)
Definition Type_isByteArray (fuel : nat) (h : Heap) (this : TypePtr)
  : option bool :=
  ct ← Type_.canonicalOf fuel h this;
  u ← Type_.isUnpackedArray fuel h ct;
  if negb u then Some false
  else
    t ← h !! ct;
    match body t with
    | UnpackedArrayBody elementType _ =>
        elem ← Type_.canonicalOf fuel h elementType;
        p ← Type_.isPredefinedInteger fuel h elem;
        if negb p then Some false
        else
          et ← h !! elem;
          match body et with
          | PredefinedIntegerBody k => Some (bool_decide (k = Byte))
          | _ => None
          end
    | _ => None
    end.

(** [Type::getDefaultValue]: the visitor dispatches on the kind of the
    object itself to the [getDefaultValueImpl] of its class; a class
    without one, or [ClassType], is [THROW_UNREACHABLE] ([None]).  One unit
    of fuel per level of the recursion. *)
Fixpoint Type_getDefaultValue (fuel : nat) (h : Heap) (this : TypePtr)
  : option ConstantValue :=
  match fuel with
  | O => None
  | S n =>
      t ← h !! this;
      let integral : option ConstantValue :=
        (* IntegralType::getDefaultValueImpl *)
        e ← Type_.isEnum (S n) h this;
        if (e : bool) then
          match body t with
          | EnumBody baseType => Type_getDefaultValue n h baseType
          | _ => None
          end
        else if isFourState_ t
        then Some (IntegerV (SVInt.createFillX (bitWidth t) (isSigned_ t)))
        else Some (IntegerV (SVInt.make (bitWidth t) 0 (isSigned_ t))) in
      match body t with
      | ScalarBody _ | PredefinedIntegerBody _ | EnumBody _
      | PackedArrayBody _ _ | PackedStructBody _ | PackedUnionBody _ =>
          integral
      | FloatingBody k =>
          Some (if bool_decide (k = ShortReal) then ShortRealV 0 else RealV 0)
      | UnpackedArrayBody elementType range =>
          e ← Type_getDefaultValue n h elementType;
          Some (Elements (replicate (Z.to_nat (ConstantRange.width range)) e))
      | UnpackedStructBody fields =>
          vs ← mapM (λ f, Type_getDefaultValue n h (fieldType f)) fields;
          Some (Elements vs)
      | UnpackedUnionBody fields =>
          match fields with
          | [] => Some Invalid
          | f :: _ => Type_getDefaultValue n h (fieldType f)
          end
      | VoidBody | ErrorBody => Some Invalid
      | NullBody | CHandleBody | EventBody => Some NullPlaceholder
      | StringBody => Some (StrV [])
      | TypeAliasBody targetType => Type_getDefaultValue n h targetType
      | ClassBody => None
      end
  end.

(** ** Unpacked arrays, structs and unions *)

Module UnpackedArrayType.

(** [UnpackedArrayType::UnpackedArrayType]. *)
Definition new (elementType : TypePtr) (range : ConstantRange)
    (self : TypePtr) (syntax : SyntaxPtr) : Type_ :=
  mkType (UnpackedArrayBody elementType range) (Some syntax) (Some self) 0
    false false.

Section FromSyntax.

(** [BindContext::evalDimension(syntax, requireRange = true)], which is
    not among the sources: the range, if the dimension is one, and the
    diagnostics that the call reports to the scope. *)
Variable evalDimension : SyntaxPtr → option ConstantRange * Diagnostics.

(** [scope.addDiag] for the diagnostics of one call of [evalDimension]. *)
Definition report (comp : Compilation) (ds : Diagnostics) : Compilation :=
  mkCompilation (types comp) (nextType comp) (scopeDiags comp ++ ds)
    (errorTypePtr comp).

(** The loop of [fromSyntax] over the dimensions, which the caller hands
    over from the last one to the first. *)
Fixpoint dimensionLoop (comp : Compilation) (result : TypePtr)
    (dims : list SyntaxPtr) : TypePtr * Compilation :=
  match dims with
  | [] => (result, comp)
  | dimSyntax :: rest =>
      let '(dim, ds) := evalDimension dimSyntax in
      let comp := report comp ds in
      match dim with
      | None => (Compilation.getErrorType comp, comp)
      | Some range =>
          let '(unpacked, comp) :=
            Compilation.emplace comp
              (new result range (nextType comp) dimSyntax) in
          dimensionLoop comp unpacked rest
      end
  end.

(** [UnpackedArrayType::fromSyntax]. *)
Definition fromSyntax (fuel : nat) (comp : Compilation)
    (elementType : TypePtr) (dimensions : list SyntaxPtr)
  : option (TypePtr * Compilation) :=
  e ← Type_.isError fuel (types comp) elementType;
  if (e : bool) then Some (elementType, comp)
  else Some (dimensionLoop comp elementType (reverse dimensions)).

End FromSyntax.

End UnpackedArrayType.

Module UnpackedStructType.

(** The loops of [fromSyntax]: every declarator becomes a field whose
    offset is the running [fieldIndex].  The type of a field is what its
    declared type resolves to, the type of the member with the unpacked
    dimensions of the declarator; [resolve] stands for that resolution. *)
Section FromSyntax.

Variable resolve : TypePtr → list (option ConstantRange) → TypePtr.

Fixpoint declaratorLoop (type : TypePtr) (fieldIndex : Z)
    (fields : list FieldSymbol) (decls : list FieldDeclarator)
  : Z * list FieldSymbol :=
  match decls with
  | [] => (fieldIndex, fields)
  | decl :: rest =>
      declaratorLoop type (wrap32 (fieldIndex + 1))
        (fields ++ [mkField (fdName decl) (resolve type (declDims decl))
                      fieldIndex])
        rest
  end.

Fixpoint memberLoop (fieldIndex : Z) (fields : list FieldSymbol)
    (ms : list StructUnionMember) : Z * list FieldSymbol :=
  match ms with
  | [] => (fieldIndex, fields)
  | member :: rest =>
      let '(fieldIndex, fields) :=
        declaratorLoop (memberType member) fieldIndex fields
          (declarators member) in
      memberLoop fieldIndex fields rest
  end.

(** [UnpackedStructType::fromSyntax]. *)
Definition fromSyntax (comp : Compilation) (syntax : StructUnionTypeSyntax)
  : TypePtr * Compilation :=
  let fields := snd (memberLoop 0 [] (structMembers syntax)) in
  Compilation.emplace comp
    (mkType (UnpackedStructBody fields) (Some (structSyntax syntax))
       (Some (nextType comp)) 0 false false).

End FromSyntax.

End UnpackedStructType.

Module UnpackedUnionType.

Section FromSyntax.

Variable resolve : TypePtr → list (option ConstantRange) → TypePtr.

(** [UnpackedUnionType::fromSyntax]: every field has offset 0. *)
Definition fromSyntax (comp : Compilation) (syntax : StructUnionTypeSyntax)
  : TypePtr * Compilation :=
  let fields :=
    member ← structMembers syntax;
    decl ← declarators member;
    [mkField (fdName decl) (resolve (memberType member) (declDims decl)) 0] in
  Compilation.emplace comp
    (mkType (UnpackedUnionBody fields) (Some (structSyntax syntax))
       (Some (nextType comp)) 0 false false).

End FromSyntax.

End UnpackedUnionType.
(** ** Forward declarations of typedefs (TypeSymbols.cpp)

    The diagnostics of the declarations and of the hierarchy that the
    functions below issue, with their own codes; notes carry the codes of
    the notes above. *)

Inductive DeclDiagCode : Set :=
| ForwardTypedefDoesNotMatch
| CaseGenerateDup | CaseGenerateNoBlock
| MixingOrderedAndNamedParams | DuplicateParamAssignment
| TooManyParamAssignments | AssignedToLocalPortParam
| AssignedToLocalBodyParam | ParameterDoesNotExist
| ParamHasNoValue | BadTypeParamExpr
| InvalidTimeScaleSpecifier | MismatchedTimeScales | TimeScaleFirstInScope.

#[global] Instance DeclDiagCode_eq_dec : EqDecision DeclDiagCode.
Proof. solve_decision. Defined.

Inductive NoteCode : Set := NotePreviousUsage | NotePreviousMatch.

Record DeclDiagnostic : Set := mkDeclDiag {
  declCode : DeclDiagCode;
  declLocation : SourceLocation;
  declNotes : list (DiagCode + NoteCode) * list SourceLocation
}.

Definition DeclDiagnostics := list DeclDiagnostic.

(** [scope.addDiag(code, location)], and the same followed by one
    [addNote(note, noteLocation)]. *)
Definition addDecl (ds : DeclDiagnostics) (c : DeclDiagCode)
    (loc : SourceLocation) : DeclDiagnostics := ds ++ [mkDeclDiag c loc ([], [])].

Definition addDeclNote (ds : DeclDiagnostics) (c : DeclDiagCode)
    (loc : SourceLocation) (n : DiagCode + NoteCode) (nloc : SourceLocation)
  : DeclDiagnostics := ds ++ [mkDeclDiag c loc ([n], [nloc])].

Definition declCodes (ds : DeclDiagnostics) : list DeclDiagCode :=
  map declCode ds.

Definition ForwardPtr := nat.

Module ForwardingTypedefSymbol.

(** [ForwardingTypedefSymbol::Category]. *)
Inductive Category : Set :=
| NoCategory | Enum | Struct | Union | ClassCategory | InterfaceClass.

#[global] Instance Category_eq_dec : EqDecision Category.
Proof. solve_decision. Defined.

(** A forward declaration: its category, its location and the mutable
    link [next] to the forward declaration added after it. *)
Record t : Set := mkForward {
  category : Category;
  location : SourceLocation;
  next : option ForwardPtr
}.

End ForwardingTypedefSymbol.

Abbreviation ForwardHeap := (gmap ForwardPtr ForwardingTypedefSymbol.t).

Module ForwardDecls.

Import ForwardingTypedefSymbol.

(** [ForwardingTypedefSymbol::addForwardDecl]: walks to the end of the
    list and links [decl] there; one unit of fuel per link. *)
Fixpoint addForwardDecl (fuel : nat) (fh : ForwardHeap) (this : ForwardPtr)
    (decl : ForwardPtr) : option ForwardHeap :=
  match fuel with
  | O => None
  | S n =>
      s ← fh !! this;
      match next s with
      | None =>
          Some (<[this := mkForward (category s) (location s) (Some decl)]> fh)
      | Some nx => addForwardDecl n fh nx decl
      end
  end.

(** [TypeAliasType::addForwardDecl], on the member [firstForward]. *)
Definition TypeAliasType_addForwardDecl (fuel : nat) (fh : ForwardHeap)
    (firstForward : option ForwardPtr) (decl : ForwardPtr)
  : option (option ForwardPtr * ForwardHeap) :=
  match firstForward with
  | None => Some (Some decl, fh)
  | Some first => fh' ← addForwardDecl fuel fh first decl;
                  Some (firstForward, fh')
  end.

(** The category that the kind of the target type stands for, in
    [checkForwardDecls]; [None] is the [default: return]. *)
Definition categoryOf (k : SymbolKind) : option Category :=
  match k with
  | PackedStructType | UnpackedStructType => Some Struct
  | PackedUnionType | UnpackedUnionType => Some Union
  | EnumType => Some Enum
  | _ => None
  end.

(** The loop of [checkForwardDecls] over the forward declarations. *)
Fixpoint checkLoop (fuel : nat) (fh : ForwardHeap)
    (forward : option ForwardPtr) (cat : Category)
    (aliasLocation : SourceLocation) (ds : DeclDiagnostics)
  : option DeclDiagnostics :=
  match forward with
  | None => Some ds
  | Some p =>
      match fuel with
      | O => None
      | S n =>
          s ← fh !! p;
          if negb (bool_decide (category s = NoCategory))
             && negb (bool_decide (category s = cat))
          then Some (addDeclNote ds ForwardTypedefDoesNotMatch (location s)
                       (inl NoteDeclarationHere) aliasLocation)
          else checkLoop n fh (next s) cat aliasLocation ds
      end
  end.

(** [TypeAliasType::checkForwardDecls]; [targetKind] is the kind of
    [targetType.getType()]. *)
Definition checkForwardDecls (fuel : nat) (fh : ForwardHeap)
    (firstForward : option ForwardPtr) (targetKind : SymbolKind)
    (aliasLocation : SourceLocation) (ds : DeclDiagnostics)
  : option DeclDiagnostics :=
  match categoryOf targetKind with
  | None => Some ds
  | Some cat => checkLoop fuel fh firstForward cat aliasLocation ds
  end.

End ForwardDecls.
(** ** Conditional generate constructs (HierarchySymbols.cpp) *)

(** The syntax of a generate construct, as far as [createCondGenBlock]
    looks at it: a generate block with its two optional names, any other
    member, an if-generate and a case-generate with its items.
    Expressions are given by their syntax nodes. *)
#[warnings="-register-all"]
Inductive SyntaxNode : Set :=
| GenerateBlockSyntax (label beginName : option string) (firstToken : SourceLocation)
| MemberSyntax (firstToken : SourceLocation)
| IfGenerateSyntax (condition : SyntaxPtr) (block : SyntaxNode)
    (elseClause : option SyntaxNode)
| CaseGenerateSyntax (condition : SyntaxPtr) (items : list CaseItemSyntax)
with CaseItemSyntax : Set :=
| StandardCaseItemSyntax (expressions : list SyntaxPtr) (clause : SyntaxNode)
| DefaultCaseItemSyntax (clause : SyntaxNode).

(** [GenerateBlockSymbol]: name, location, index of the construct in its
    parent, whether the block is instantiated, and the syntax which
    [addMembers] and [setSyntax] store. *)
Record GenerateBlockSymbol : Set := mkGenerateBlock {
  blockName : string;
  blockLocation : SourceLocation;
  constructIndex : Z;
  isInstantiated : bool;
  blockSyntax : SyntaxNode
}.

Module GenerateBlockSymbol.

(** [getGenerateBlockName]. *)
Definition getGenerateBlockName (node : SyntaxNode) : string :=
  match node with
  | GenerateBlockSyntax (Some l) _ _ => l
  | GenerateBlockSyntax None (Some b) _ => b
  | _ => EmptyString
  end.

Definition getFirstToken (node : SyntaxNode) : SourceLocation :=
  match node with
  | GenerateBlockSyntax _ _ loc | MemberSyntax loc => loc
  | _ => 0%nat
  end.

(** The first loop of the case-generate: all case expressions, in order,
    and the clause of the last default item. *)
Fixpoint collectItems (items : list CaseItemSyntax)
    (expressions : list SyntaxPtr) (defBlock : option SyntaxNode)
  : list SyntaxPtr * option SyntaxNode :=
  match items with
  | [] => (expressions, defBlock)
  | StandardCaseItemSyntax es _ :: rest =>
      collectItems rest (expressions ++ es) defBlock
  | DefaultCaseItemSyntax clause :: rest =>
      collectItems rest expressions (Some clause)
  end.

(** The loop over the expressions of one case item: takes one bound
    expression per case expression from [boundIt]; [None] when the bound
    expressions run out. *)
Fixpoint matchExpressions (equivalentTo : ConstantValue → ConstantValue → bool)
    (cond : ConstantValue) (expressions : list SyntaxPtr)
    (boundIt : list Expression) (currentFound : bool)
    (currentMatchRange : SourceLocation)
  : option (bool * SourceLocation * list Expression) :=
  match expressions with
  | [] => Some (currentFound, currentMatchRange, boundIt)
  | _ :: rest =>
      match boundIt with
      | [] => None
      | expr :: boundIt' =>
          match constant (header expr) with
          | Some val =>
              if negb currentFound && equivalentTo val cond
              then matchExpressions equivalentTo cond rest boundIt' true
                     (exprRange (header expr))
              else matchExpressions equivalentTo cond rest boundIt'
                     currentFound currentMatchRange
          | None => matchExpressions equivalentTo cond rest boundIt'
                      currentFound currentMatchRange
          end
      end
  end.

(** The blocks created so far and the diagnostics of the parent scope. *)
Record Results : Set := mkResults {
  results : list GenerateBlockSymbol;
  parentDiags : DeclDiagnostics
}.

(** The local variables of the second loop of the case-generate. *)
Record CaseState : Set := mkCaseState {
  boundIt : list Expression;
  matchRange : SourceLocation;
  found : bool;
  warned : bool
}.

Section FromSyntax.

(** The binder: [Expression::bind] on a condition,
    [BindContext::requireBooleanConvertible] and
    [Expression::bindCaseExpressions], which answers with the bound
    condition followed by the bound case expressions, or fails; and the
    two operations on constants that are used.  The diagnostics of the
    binder are its own. *)
Variable bind : SyntaxPtr → Expression.
Variable requireBooleanConvertible : Expression → bool.
Variable bindCaseExpressions :
  SyntaxPtr → list SyntaxPtr → option (list Expression).
Variable isTrue : ConstantValue → bool.
Variable equivalentTo : ConstantValue → ConstantValue → bool.

Variable index : Z.

(** The end of [createCondGenBlock]: a block for anything that is not a
    conditional construct itself. *)
Definition createBlock (syntax : SyntaxNode) (instantiated : bool)
    (r : Results) : Results :=
  mkResults
    (results r ++ [mkGenerateBlock (getGenerateBlockName syntax)
                     (getFirstToken syntax) index instantiated syntax])
    (parentDiags r).

Section Nested.

(** [createCondGenBlock] one level further in. *)
Variable createCondGenBlock : SyntaxNode → bool → Results → option Results.

(** The second loop of the case-generate, over the items. *)
Fixpoint caseLoop (cond : ConstantValue) (instantiated : bool)
    (items : list CaseItemSyntax) (st : CaseState) (r : Results)
  : option (CaseState * Results) :=
  match items with
  | [] => Some (st, r)
  | DefaultCaseItemSyntax _ :: rest => caseLoop cond instantiated rest st r
  | StandardCaseItemSyntax es clause :: rest =>
      m ← matchExpressions equivalentTo cond es (boundIt st) false 0%nat;
      let '(currentFound, currentMatchRange, boundIt') := m in
      if currentFound && negb (found st)
      then
        r' ← createCondGenBlock clause instantiated r;
        caseLoop cond instantiated rest
          (mkCaseState boundIt' currentMatchRange true (warned st)) r'
      else
        let '(r1, warned') :=
          if currentFound && negb (warned st)
          then (mkResults (results r)
                  (addDeclNote (parentDiags r) CaseGenerateDup
                     currentMatchRange (inr NotePreviousMatch)
                     (matchRange st)), true)
          else (r, warned st) in
        r' ← createCondGenBlock clause false r1;
        caseLoop cond instantiated rest
          (mkCaseState boundIt' (matchRange st) (found st) warned') r'
  end.

(** [GenerateBlockSymbol::fromSyntax] for an if-generate. *)
Definition fromIfGenerate (condition : SyntaxPtr) (block : SyntaxNode)
    (elseClause : option SyntaxNode) (instantiated : bool) (r : Results)
  : option Results :=
  let selector : option bool :=
    if instantiated
    then let cond := bind condition in
         match constant (header cond) with
         | Some c => if requireBooleanConvertible cond
                     then Some (isTrue c) else None
         | None => None
         end
    else None in
  r' ← createCondGenBlock block
         (match selector with Some b => b | None => false end) r;
  match elseClause with
  | Some clause =>
      createCondGenBlock clause
        (match selector with Some b => negb b | None => false end) r'
  | None => Some r'
  end.

(** [GenerateBlockSymbol::fromSyntax] for a case-generate. *)
Definition fromCaseGenerate (condition : SyntaxPtr)
    (items : list CaseItemSyntax) (instantiated : bool) (r : Results)
  : option Results :=
  let '(expressions, defBlock) := collectItems items [] None in
  match bindCaseExpressions condition expressions with
  | None => Some r
  | Some bound =>
      match bound with
      | [] => None
      | condExpr :: boundIt0 =>
          match constant (header condExpr) with
          | None => Some r
          | Some cond =>
              lr ← caseLoop cond instantiated items
                     (mkCaseState boundIt0 0%nat false false) r;
              let '(st, r') := lr in
              match defBlock with
              | Some clause =>
                  createCondGenBlock clause
                    (instantiated && negb (found st)) r'
              | None =>
                  if negb (found st)
                  then Some (mkResults (results r')
                               (addDecl (parentDiags r') CaseGenerateNoBlock
                                  (exprRange (header condExpr))))
                  else Some r'
              end
          end
      end
  end.

End Nested.

(** [createCondGenBlock]; one unit of fuel for each level of directly
    nested conditional constructs. *)
Fixpoint createCondGenBlock (fuel : nat) (syntax : SyntaxNode)
    (instantiated : bool) (r : Results) : option Results :=
  match fuel with
  | O => None
  | S n =>
      match syntax with
      | IfGenerateSyntax condition block elseClause =>
          fromIfGenerate (createCondGenBlock n) condition block elseClause
            instantiated r
      | CaseGenerateSyntax condition items =>
          fromCaseGenerate (createCondGenBlock n) condition items
            instantiated r
      | _ => Some (createBlock syntax instantiated r)
      end
  end.

End FromSyntax.

(** The nesting depth of directly nested conditional constructs. *)
Fixpoint depth (syntax : SyntaxNode) : nat :=
  match syntax with
  | IfGenerateSyntax _ block elseClause =>
      S (depth block `max`
         match elseClause with Some c => depth c | None => 0 end)
  | CaseGenerateSyntax _ items =>
      S (foldr (fun item acc =>
                  match item with
                  | StandardCaseItemSyntax _ c | DefaultCaseItemSyntax c => depth c
                  end `max` acc) 0%nat items)
  | _ => 0%nat
  end.

End GenerateBlockSymbol.
(** ** Parameters of definitions and instances (HierarchySymbols.cpp) *)

(** [ParameterSymbolBase] with the fields of its symbol that are used:
    the kind ([Parameter] or [TypeParameter]), the name and the
    location. *)
Record ParameterSymbolBase : Set := mkParameter {
  parameterKind : SymbolKind;
  parameterName : string;
  parameterLocation : SourceLocation;
  isLocalParam : bool;
  isPortParam : bool
}.

Inductive ParameterKeywordKind : Set := ParameterKeyword | LocalParamKeyword.

#[global] Instance ParameterKeywordKind_eq_dec : EqDecision ParameterKeywordKind.
Proof. solve_decision. Defined.

(** [ParameterDeclarationBaseSyntax]: the optional keyword, whether the
    node is a [TypeParameterDeclaration], and the names of the
    declarators. *)
Record ParameterDeclarationBaseSyntax : Set := mkParameterDeclaration {
  keyword : option ParameterKeywordKind;
  isTypeDeclaration : bool;
  parameterDeclarators : list string
}.

(** The members of a module declaration by kind. *)
Inductive ModuleMemberSyntax : Set :=
| TimeUnitsDeclaration
| ParameterDeclarationStatement (parameter : ParameterDeclarationBaseSyntax)
| OtherMember (id : SyntaxPtr).

Module DefinitionSymbol.

Section FromSyntax.

(** [ParameterSymbol::fromSyntax] and [TypeParameterSymbol::fromSyntax]
    (MemberSymbols.cpp): the symbols of one declaration, given [isLocal]
    and [isPort]. *)
Variable ParameterSymbol_fromSyntax :
  ParameterDeclarationBaseSyntax → bool → bool → list ParameterSymbolBase.
Variable TypeParameterSymbol_fromSyntax :
  ParameterDeclarationBaseSyntax → bool → bool → list ParameterSymbolBase.

Definition declare (declaration : ParameterDeclarationBaseSyntax)
    (isLocal isPort : bool) : list ParameterSymbolBase :=
  if isTypeDeclaration declaration
  then TypeParameterSymbol_fromSyntax declaration isLocal isPort
  else ParameterSymbol_fromSyntax declaration isLocal isPort.

(** The loop over the parameter port list. *)
Fixpoint portLoop (declarations : list ParameterDeclarationBaseSyntax)
    (lastLocal : bool) (parameters : list ParameterSymbolBase)
  : list ParameterSymbolBase :=
  match declarations with
  | [] => parameters
  | declaration :: rest =>
      let lastLocal' :=
        match keyword declaration with
        | Some k => bool_decide (k = LocalParamKeyword)
        | None => lastLocal
        end in
      portLoop rest lastLocal'
        (parameters ++ declare declaration lastLocal' true)
  end.

(** The loop over the members of the body. *)
Fixpoint memberLoop (hasPortParams : bool) (members : list ModuleMemberSyntax)
    (parameters : list ParameterSymbolBase) : list ParameterSymbolBase :=
  match members with
  | [] => parameters
  | ParameterDeclarationStatement declaration :: rest =>
      let isLocal :=
        hasPortParams
        || bool_decide (keyword declaration = Some LocalParamKeyword) in
      memberLoop hasPortParams rest
        (parameters ++ declare declaration isLocal false)
  | _ :: rest => memberLoop hasPortParams rest parameters
  end.

(** The parameters of [DefinitionSymbol::fromSyntax]; [headerParameters]
    is the parameter port list of the header, if there is one. *)
Definition fromSyntax
    (headerParameters : option (list ParameterDeclarationBaseSyntax))
    (members : list ModuleMemberSyntax) : list ParameterSymbolBase :=
  let parameters :=
    match headerParameters with
    | Some declarations => portLoop declarations false []
    | None => []
    end in
  memberLoop (bool_decide (is_Some headerParameters)) members parameters.

End FromSyntax.

End DefinitionSymbol.

Module InstanceSymbol.

(** What [populate] adds to the instance: a clone of a parameter, or the
    members of a syntax node. *)
Inductive Member : Set :=
| ClonedParameter (original : ParameterSymbolBase)
| PortList
| BodyMember (id : SyntaxPtr)
| TimeUnits.

(** The first loop of [populate]: the parameter ports at the front of
    the list. *)
Fixpoint portParameters (paramIt : list ParameterSymbolBase)
    (members : list Member) : list ParameterSymbolBase * list Member :=
  match paramIt with
  | [] => ([], members)
  | original :: rest =>
      if negb (isPortParam original) then (paramIt, members)
      else portParameters rest (members ++ [ClonedParameter original])
  end.

(** The loop over the declarators of one parameter declaration of the
    body, with its three assertions. *)
Fixpoint declaratorLoop (expected : SymbolKind) (names : list string)
    (paramIt : list ParameterSymbolBase) (members : list Member)
  : Outcome (list ParameterSymbolBase * list Member) :=
  match names with
  | [] => Returned (paramIt, members)
  | name :: rest =>
      match paramIt with
      | [] => AssertionFailed
      | symbol :: paramIt' =>
          if negb (bool_decide (name = parameterName symbol))
          then AssertionFailed
          else if negb (bool_decide (parameterKind symbol = expected))
          then AssertionFailed
          else declaratorLoop expected rest paramIt'
                 (members ++ [ClonedParameter symbol])
      end
  end.

(** The loop over the members of the body. *)
Fixpoint bodyLoop (body : list ModuleMemberSyntax)
    (paramIt : list ParameterSymbolBase) (members : list Member)
  : Outcome (list ParameterSymbolBase * list Member) :=
  match body with
  | [] => Returned (paramIt, members)
  | ParameterDeclarationStatement paramBase :: rest =>
      bindOutcome
        (declaratorLoop
           (if isTypeDeclaration paramBase then TypeParameter
            else ParameterSym)
           (parameterDeclarators paramBase) paramIt members)
        (fun r => bodyLoop rest r.1 r.2)
  | TimeUnitsDeclaration :: rest =>
      bodyLoop rest paramIt (members ++ [TimeUnits])
  | OtherMember id :: rest =>
      bodyLoop rest paramIt (members ++ [BodyMember id])
  end.

(** [InstanceSymbol::populate], the imports and the port connections
    apart: the members of the instance and the parameters that were not
    used. *)
Definition populate (hasPorts : bool) (body : list ModuleMemberSyntax)
    (parameters : list ParameterSymbolBase)
  : Outcome (list ParameterSymbolBase * list Member) :=
  let '(paramIt, members) := portParameters parameters [] in
  let members := if hasPorts then members ++ [PortList] else members in
  bodyLoop body paramIt members.

(** The parameter assignments of an instantiation. *)
Inductive ParamAssignmentSyntax : Set :=
| OrderedArgument (firstToken : SourceLocation) (expr : SyntaxPtr)
| NamedArgument (firstToken : SourceLocation) (name : string)
    (nameLocation : SourceLocation) (expr : option SyntaxPtr).

Definition getFirstToken (a : ParamAssignmentSyntax) : SourceLocation :=
  match a with
  | OrderedArgument loc _ | NamedArgument loc _ _ _ => loc
  end.

(** A named argument as [namedParams] keeps it, with its mark. *)
Record NamedParam : Set := mkNamedParam {
  argLocation : SourceLocation;
  argExpr : option SyntaxPtr;
  used : bool
}.

(** The local variables of the first loop of [fromSyntax]. *)
Record Assignments : Set := mkAssignments {
  hasParamAssignments : bool;
  orderedAssignments : bool;
  orderedParams : list (SourceLocation * SyntaxPtr);
  namedParams : gmap string NamedParam;
  scopeDiags : DeclDiagnostics
}.

(** [SmallMap::emplace]: an existing entry stays. *)
Definition emplace {V : Type} (k : string) (v : V) (m : gmap string V)
  : gmap string V :=
  match m !! k with
  | Some _ => m
  | None => <[k := v]> m
  end.

(** The loop over the parameter assignments; it is left at the first
    assignment of the other form. *)
Fixpoint assignmentLoop (assignments : list ParamAssignmentSyntax)
    (st : Assignments) : Assignments :=
  match assignments with
  | [] => st
  | paramBase :: rest =>
      let isOrdered :=
        match paramBase with OrderedArgument _ _ => true | _ => false end in
      if hasParamAssignments st
         && negb (bool_decide (isOrdered = orderedAssignments st))
      then mkAssignments (hasParamAssignments st) (orderedAssignments st)
             (orderedParams st) (namedParams st)
             (addDecl (scopeDiags st) MixingOrderedAndNamedParams
                (getFirstToken paramBase))
      else
        let ordered :=
          if hasParamAssignments st then orderedAssignments st
          else isOrdered in
        match paramBase with
        | OrderedArgument loc e =>
            assignmentLoop rest
              (mkAssignments true ordered (orderedParams st ++ [(loc, e)])
                 (namedParams st) (scopeDiags st))
        | NamedArgument _ name nameLoc e =>
            if bool_decide (name = EmptyString)
            then assignmentLoop rest
                   (mkAssignments true ordered (orderedParams st)
                      (namedParams st) (scopeDiags st))
            else
              match namedParams st !! name with
              | Some previous =>
                  assignmentLoop rest
                    (mkAssignments true ordered (orderedParams st)
                       (namedParams st)
                       (addDeclNote (scopeDiags st) DuplicateParamAssignment
                          nameLoc (inr NotePreviousUsage)
                          (argLocation previous)))
              | None =>
                  assignmentLoop rest
                    (mkAssignments true ordered (orderedParams st)
                       (<[name := mkNamedParam nameLoc e false]>
                          (namedParams st))
                       (scopeDiags st))
              end
        end
  end.

(** The loop that matches ordered assignments to the parameters. *)
Fixpoint orderedLoop (parameters : list ParameterSymbolBase)
    (ordered : list (SourceLocation * SyntaxPtr)) (orderedIndex : nat)
    (paramOverrides : gmap string SyntaxPtr) : nat * gmap string SyntaxPtr :=
  match parameters with
  | [] => (orderedIndex, paramOverrides)
  | param :: rest =>
      match ordered !! orderedIndex with
      | None => (orderedIndex, paramOverrides)
      | Some (_, e) =>
          if isLocalParam param
          then orderedLoop rest ordered orderedIndex paramOverrides
          else orderedLoop rest ordered (S orderedIndex)
                 (emplace (parameterName param) e paramOverrides)
      end
  end.

(** The loop that matches named assignments to the parameters. *)
Fixpoint namedLoop (parameters : list ParameterSymbolBase)
    (named : gmap string NamedParam) (paramOverrides : gmap string SyntaxPtr)
    (ds : DeclDiagnostics)
  : gmap string NamedParam * gmap string SyntaxPtr * DeclDiagnostics :=
  match parameters with
  | [] => (named, paramOverrides, ds)
  | param :: rest =>
      match named !! parameterName param with
      | None => namedLoop rest named paramOverrides ds
      | Some arg =>
          let named' :=
            <[parameterName param :=
                mkNamedParam (argLocation arg) (argExpr arg) true]> named in
          if isLocalParam param
          then namedLoop rest named' paramOverrides
                 (addDeclNote ds
                    (if isPortParam param then AssignedToLocalPortParam
                     else AssignedToLocalBodyParam)
                    (argLocation arg) (inl NoteDeclarationHere)
                    (parameterLocation param))
          else
            match argExpr arg with
            | None => namedLoop rest named' paramOverrides ds
            | Some e =>
                namedLoop rest named'
                  (emplace (parameterName param) e paramOverrides) ds
            end
      end
  end.

(** The last loop: the named assignments that were not used.  The map is
    walked in the order of its elements, which the source leaves to the
    hash table. *)
Definition unusedLoop (named : gmap string NamedParam) (ds : DeclDiagnostics)
  : DeclDiagnostics :=
  foldl (fun ds pair =>
           if negb (used pair.2)
           then addDecl ds ParameterDoesNotExist (argLocation pair.2)
           else ds)
        ds (map_to_list named).

(** The first part of [InstanceSymbol::fromSyntax]: the overrides of the
    parameters of [definition] by the assignments of the instantiation,
    if it has any. *)
Definition paramOverrides (parameters : list ParameterSymbolBase)
    (syntaxParameters : option (list ParamAssignmentSyntax))
    (ds : DeclDiagnostics) : gmap string SyntaxPtr * DeclDiagnostics :=
  match syntaxParameters with
  | None => (∅, ds)
  | Some assignments =>
      let st := assignmentLoop assignments
                  (mkAssignments false true [] ∅ ds) in
      if orderedAssignments st
      then
        let '(orderedIndex, overrides) :=
          orderedLoop parameters (orderedParams st) 0 ∅ in
        match orderedParams st !! orderedIndex with
        | Some (loc, _) =>
            (overrides, addDecl (scopeDiags st) TooManyParamAssignments loc)
        | None => (overrides, scopeDiags st)
        end
      else
        let '(named, overrides, ds') :=
          namedLoop parameters (namedParams st) ∅ (scopeDiags st) in
        (overrides, unusedLoop named ds')
  end.

(** What the second part of [fromSyntax] does with the clone of a
    parameter: it installs the expression of the override (as the
    initializer of a value parameter, as the type of a type parameter),
    refuses it, finds no value for the parameter, or leaves the parameter
    to its default. *)
Inductive Resolution : Set :=
| Overridden (expr : SyntaxPtr)
| RefusedOverride (expr : SyntaxPtr)
| NoValue
| OwnDefault.

Inductive OverrideSyntaxKind : Set :=
| NameSyntaxKind | DataTypeSyntaxKind | OtherSyntaxKind.

Section Resolve.

(** [getInitializer()] of a value parameter, [getTypeSyntax()] of a type
    parameter: whether the declaration gives a default; the kind and the
    first token of the syntax node of an override; the first token of the
    instantiation. *)
Variable hasDefault : ParameterSymbolBase → bool.
Variable overrideKind : SyntaxPtr → OverrideSyntaxKind.
Variable overrideLocation : SyntaxPtr → SourceLocation.
Variable instantiationLocation : SourceLocation.

(** The body of the loop over [definition->parameters] for one
    parameter. *)
Definition resolveParameter (overrides : gmap string SyntaxPtr)
    (param : ParameterSymbolBase) (ds : DeclDiagnostics)
  : Resolution * DeclDiagnostics :=
  match overrides !! parameterName param with
  | Some expr =>
      if bool_decide (parameterKind param = ParameterSym)
      then (Overridden expr, ds)
      else
        match overrideKind expr with
        | NameSyntaxKind | DataTypeSyntaxKind => (Overridden expr, ds)
        | OtherSyntaxKind =>
            (RefusedOverride expr,
             addDecl ds BadTypeParamExpr (overrideLocation expr))
        end
  | None =>
      if negb (isLocalParam param) && isPortParam param
         && negb (hasDefault param)
      then (NoValue, addDecl ds ParamHasNoValue instantiationLocation)
      else (OwnDefault, ds)
  end.

(** The loop: the clones in the order of the parameters, each with what
    was done with it. *)
Fixpoint resolveLoop (overrides : gmap string SyntaxPtr)
    (parameters : list ParameterSymbolBase) (ds : DeclDiagnostics)
  : list (ParameterSymbolBase * Resolution) * DeclDiagnostics :=
  match parameters with
  | [] => ([], ds)
  | param :: rest =>
      let '(r, ds) := resolveParameter overrides param ds in
      let '(rs, ds) := resolveLoop overrides rest ds in
      ((param, r) :: rs, ds)
  end.

(** [InstanceSymbol::fromSyntax] up to the creation of the instances:
    the overrides, then the loop over the parameters. *)
Definition resolveParameters (parameters : list ParameterSymbolBase)
    (syntaxParameters : option (list ParamAssignmentSyntax))
    (ds : DeclDiagnostics)
  : list (ParameterSymbolBase * Resolution) * DeclDiagnostics :=
  let '(overrides, ds) := paramOverrides parameters syntaxParameters ds in
  resolveLoop overrides parameters ds.

End Resolve.

End InstanceSymbol.
(** ** Time scales of definitions (HierarchySymbols.cpp) *)

(** [TimeScaleValue]: a unit and a magnitude. *)
Record TimeScaleValue : Set := mkTimeScaleValue {
  timeUnit : nat;
  magnitude : nat
}.

#[global] Instance TimeScaleValue_eq_dec : EqDecision TimeScaleValue.
Proof. solve_decision. Defined.

Record TimeScale : Set := mkTimeScale {
  base : TimeScaleValue;
  precision : TimeScaleValue
}.

(** A token of a time units declaration: whether it is missing, whether
    it is a time literal, what [TimeScaleValue::fromLiteral] makes of its
    value and unit, and its range. *)
Record TimeToken : Set := mkTimeToken {
  tokenMissing : bool;
  isTimeLiteral : bool;
  fromLiteral : option TimeScaleValue;
  tokenRange : SourceLocation
}.

(** [TimeUnitsDeclarationSyntax]: the keyword is [timeunit] or
    [timeprecision]; the divider is the optional precision after the
    unit. *)
Record TimeUnitsDeclarationSyntax : Set := mkTimeUnitsDeclaration {
  isTimeUnitKeyword : bool;
  time : TimeToken;
  divider : option TimeToken
}.

(** [TimeScaleSymbolBase], with the diagnostics of the scope. *)
Record TimeScaleSymbolBase : Set := mkTimeScaleBase {
  timeScale : TimeScale;
  unitsRange : option SourceLocation;
  precisionRange : option SourceLocation;
  timeScaleDiags : DeclDiagnostics
}.

Module TimeScaleSymbolBase.

(** The member that a call of [handle] works on. *)
Inductive Member : Set := Units | Precision.

Definition prevRange (m : Member) (this : TimeScaleSymbolBase)
  : option SourceLocation :=
  match m with Units => unitsRange this | Precision => precisionRange this end.

Definition value (m : Member) (this : TimeScaleSymbolBase) : TimeScaleValue :=
  match m with
  | Units => base (timeScale this)
  | Precision => precision (timeScale this)
  end.

Definition setDiags (this : TimeScaleSymbolBase) (ds : DeclDiagnostics)
  : TimeScaleSymbolBase :=
  mkTimeScaleBase (timeScale this) (unitsRange this) (precisionRange this) ds.

(** [value = *val; prevRange = token.range()]. *)
Definition assign (m : Member) (this : TimeScaleSymbolBase)
    (val : TimeScaleValue) (range : SourceLocation) : TimeScaleSymbolBase :=
  match m with
  | Units =>
      mkTimeScaleBase (mkTimeScale val (precision (timeScale this)))
        (Some range) (precisionRange this) (timeScaleDiags this)
  | Precision =>
      mkTimeScaleBase (mkTimeScale (base (timeScale this)) val)
        (unitsRange this) (Some range) (timeScaleDiags this)
  end.

(** The lambda [handle] of [setTimeScale]; [errored] is the local flag
    that it shares with the other call. *)
Definition handle (isFirst : bool) (token : TimeToken) (m : Member)
    (this : TimeScaleSymbolBase) (errored : bool)
  : TimeScaleSymbolBase * bool :=
  if tokenMissing token || negb (isTimeLiteral token) then (this, errored)
  else
    match fromLiteral token with
    | None =>
        (setDiags this
           (addDecl (timeScaleDiags this) InvalidTimeScaleSpecifier
              (tokenRange token)), errored)
    | Some val =>
        match prevRange m this with
        | Some prev =>
            if negb (bool_decide (value m this = val)) && negb errored
            then (setDiags this
                    (addDeclNote (timeScaleDiags this) MismatchedTimeScales
                       (tokenRange token) (inl NotePreviousDefinition) prev),
                  true)
            else (this, errored)
        | None =>
            let '(this', errored') :=
              if negb isFirst && negb errored
              then (setDiags this
                      (addDecl (timeScaleDiags this) TimeScaleFirstInScope
                         (tokenRange token)), true)
              else (this, errored) in
            (assign m this' val (tokenRange token), errored')
        end
    end.

(** [TimeScaleSymbolBase::setTimeScale]. *)
Definition setTimeScale (this : TimeScaleSymbolBase)
    (syntax : TimeUnitsDeclarationSyntax) (isFirst : bool)
  : TimeScaleSymbolBase :=
  if isTimeUnitKeyword syntax
  then
    let '(this', errored) := handle isFirst (time syntax) Units this false in
    match divider syntax with
    | Some value => (handle isFirst value Precision this' errored).1
    | None => this'
    end
  else (handle isFirst (time syntax) Precision this false).1.

(** [TimeScaleSymbolBase::finalizeTimeScale]; [directive] is the time
    scale of the directive that applies to the syntax, if the parent is a
    compilation unit and there is one, and [parentTimeScale] the time
    scale of the parent scope. *)
Definition finalizeTimeScale (this : TimeScaleSymbolBase)
    (parentIsCompilationUnit : bool) (directive : option TimeScale)
    (parentTimeScale : TimeScale) : TimeScaleSymbolBase :=
  if bool_decide (is_Some (unitsRange this))
     && bool_decide (is_Some (precisionRange this))
  then this
  else
    let ts0 := if parentIsCompilationUnit then directive else None in
    let ts := match ts0 with Some ts => ts | None => parentTimeScale end in
    mkTimeScaleBase
      (mkTimeScale
         (if bool_decide (is_Some (unitsRange this))
          then base (timeScale this) else base ts)
         (if bool_decide (is_Some (precisionRange this))
          then precision (timeScale this) else precision ts))
      (unitsRange this) (precisionRange this) (timeScaleDiags this).

End TimeScaleSymbolBase.
(** * Canonical types *)

Lemma isAlias_body t :
  isAlias t = true ↔ ∃ q, body t = TypeAliasBody q.
Proof.
  unfold isAlias, kind. rewrite bool_decide_eq_true.
  destruct (body t); split; intros H; try discriminate; eauto;
    destruct H as [q H]; discriminate.
Qed.

(** The loop of [resolveCanonical] only stops on a live object that is not an
    alias. *)
Lemma resolveLoop_not_alias n h p c :
  Type_.resolveLoop n h p = Some c →
  ∃ tc, h !! c = Some tc ∧ isAlias tc = false.
Proof.
  revert p. induction n as [|n IH]; intros p; simpl; [discriminate|].
  destruct (h !! p) as [t|]; simpl; [|discriminate].
  destruct (body t); try discriminate.
  destruct (h !! targetType) as [t'|] eqn:Ht'; simpl; [|discriminate].
  destruct (isAlias t') eqn:Ha.
  - apply IH.
  - intros [= <-]. eauto.
Qed.

(** More fuel never changes an answer already obtained. *)
Lemma resolveLoop_mono n m h p c :
  n ≤ m → Type_.resolveLoop n h p = Some c → Type_.resolveLoop m h p = Some c.
Proof.
  revert m p. induction n as [|n IH]; intros m p Hle; simpl; [discriminate|].
  destruct m as [|m]; [lia|]. simpl.
  destruct (h !! p) as [t|]; simpl; [|discriminate].
  destruct (body t); try discriminate.
  destruct (h !! targetType) as [t'|]; simpl; [|discriminate].
  destruct (isAlias t'); [|done].
  apply IH. lia.
Qed.

(** The loop reads the class-dependent part of the objects only. *)
Lemma resolveLoop_ext n h h' p :
  (∀ q, body <$> h' !! q = body <$> h !! q) →
  Type_.resolveLoop n h' p = Type_.resolveLoop n h p.
Proof.
  intros Hb. revert p. induction n as [|n IH]; intros p; simpl; [done|].
  pose proof (Hb p) as Hp.
  destruct (h !! p) as [t|], (h' !! p) as [t'|]; simpl in *; try done.
  injection Hp as Hp. rewrite Hp.
  destruct (body t); try done.
  pose proof (Hb targetType) as Hq.
  destruct (h !! targetType) as [u|], (h' !! targetType) as [u'|];
    simpl in *; try done.
  injection Hq as Hq.
  assert (isAlias u' = isAlias u) as -> by (unfold isAlias, kind; by rewrite Hq).
  destruct (isAlias u); [apply IH|done].
Qed.

(** Under acyclic alias chains the loop stops within [rank p] iterations. *)
Lemma resolveLoop_terminates h rank p t :
  acyclic h rank → h !! p = Some t → isAlias t = true →
  ∃ c, Type_.resolveLoop (rank p) h p = Some c.
Proof.
  intros Hac. remember (rank p) as n eqn:Hn.
  revert p t Hn. induction n as [n IH] using lt_wf_ind. intros p t Hn Hp Ha.
  apply isAlias_body in Ha as [q Hq].
  destruct (Hac p t q Hp Hq) as [Hlt [u Hu]].
  destruct n as [|n]; [lia|]. simpl. rewrite Hp. simpl. rewrite Hq, Hu. simpl.
  destruct (isAlias u) eqn:Hau; [|eauto].
  destruct (IH (rank q) ltac:(lia) q u eq_refl Hu Hau) as [c Hc].
  exists c. eapply resolveLoop_mono; [|exact Hc]. lia.
Qed.

Lemma canonicalOf_Some n h p c :
  Type_.canonicalOf n h p = Some c ↔
  ∃ h', Type_.getCanonicalType n h p = Some (c, h').
Proof.
  unfold Type_.canonicalOf.
  destruct (Type_.getCanonicalType n h p) as [[c' h']|]; simpl; split.
  - intros [= ->]. eauto.
  - intros [h'' [= -> _]]. done.
  - discriminate.
  - intros [h'' [=]].
Qed.

(** The canonical type is a live object that is not an alias. *)
Lemma canonicalOf_not_alias n h p c :
  cache_ok h → Type_.canonicalOf n h p = Some c →
  ∃ tc, h !! c = Some tc ∧ isAlias tc = false.
Proof.
  intros Hok. unfold Type_.canonicalOf, Type_.getCanonicalType.
  destruct (h !! p) as [t|] eqn:Hp; simpl; [|discriminate].
  pose proof (Hok p t Hp) as Hc.
  destruct (canonical t) as [c'|] eqn:Hcan; simpl.
  - intros [= ->]. destruct (isAlias t) eqn:Ha.
    + destruct (Hc c eq_refl) as [k Hk]. eapply resolveLoop_not_alias, Hk.
    + injection Hc as ->. eauto.
  - unfold Type_.resolveCanonical. rewrite Hp. simpl.
    destruct (isAlias t); simpl; [|discriminate].
    destruct (Type_.resolveLoop n h p) as [c'|] eqn:Hl; simpl; [|discriminate].
    intros [= ->]. eapply resolveLoop_not_alias, Hl.
Qed.

(** A type that is not an alias is its own canonical type, whatever the
    fuel: the constructor cached [this]. *)
Lemma canonicalOf_self n h p t :
  cache_ok h → h !! p = Some t → isAlias t = false →
  Type_.canonicalOf n h p = Some p.
Proof.
  intros Hok Hp Ha. pose proof (Hok p t Hp) as Hc. rewrite Ha in Hc.
  unfold Type_.canonicalOf, Type_.getCanonicalType. rewrite Hp. simpl.
  by rewrite Hc.
Qed.

Lemma canonicalOf_idem n m h p c :
  cache_ok h → Type_.canonicalOf n h p = Some c →
  Type_.canonicalOf m h c = Some c.
Proof.
  intros Hok Hc. destruct (canonicalOf_not_alias _ _ _ _ Hok Hc) as (tc & Htc & Ha).
  by eapply canonicalOf_self.
Qed.

(** Filling the cache keeps the arena invariant. *)
Lemma getCanonicalType_cache_ok n h p c h' :
  cache_ok h → Type_.getCanonicalType n h p = Some (c, h') → cache_ok h'.
Proof.
  intros Hok. unfold Type_.getCanonicalType.
  destruct (h !! p) as [t|] eqn:Hp; simpl; [|discriminate].
  destruct (canonical t) as [c'|] eqn:Hcan; simpl; [by intros [= <- <-]|].
  unfold Type_.resolveCanonical. rewrite Hp. simpl.
  destruct (isAlias t) eqn:Ha; simpl; [|discriminate].
  destruct (Type_.resolveLoop n h p) as [c'|] eqn:Hl; simpl; [|discriminate].
  intros [= <- <-].
  set (t' := mkType _ _ _ _ _ _).
  assert (Hbody : ∀ q, body <$> <[p:=t']> h !! q = body <$> h !! q).
  { intros q. destruct (decide (p = q)) as [<-|Hne].
    - by rewrite lookup_insert_eq, Hp.
    - by rewrite lookup_insert_ne. }
  intros q u Hq. destruct (decide (p = q)) as [<-|Hne].
  - rewrite lookup_insert_eq in Hq. injection Hq as <-.
    assert (isAlias t' = true) as -> by (unfold isAlias, kind in *; by simpl).
    simpl. intros c [= <-]. exists n. by rewrite (resolveLoop_ext _ h _ _ Hbody).
  - rewrite lookup_insert_ne in Hq by done.
    pose proof (Hok q u Hq) as Hu. destruct (isAlias u); [|done].
    intros c Hc. destruct (Hu c Hc) as [k Hk]. exists k.
    by rewrite (resolveLoop_ext _ h _ _ Hbody).
Qed.

(** ... and does not change what any later query of the canonical type
    answers, once that query has enough fuel to answer at all. *)
Lemma canonicalOf_cache n h p c h' m q d :
  cache_ok h → Type_.getCanonicalType n h p = Some (c, h') →
  Type_.canonicalOf m h q = Some d → Type_.canonicalOf m h' q = Some d.
Proof.
  intros Hok. unfold Type_.getCanonicalType.
  destruct (h !! p) as [t|] eqn:Hp; simpl; [|discriminate].
  destruct (canonical t) as [c'|] eqn:Hcan; simpl; [by intros [= <- <-]|].
  unfold Type_.resolveCanonical. rewrite Hp. simpl.
  destruct (isAlias t) eqn:Ha; simpl; [|discriminate].
  destruct (Type_.resolveLoop n h p) as [c'|] eqn:Hl; simpl; [|discriminate].
  intros [= <- <-].
  set (t' := mkType _ _ _ _ _ _).
  assert (Hbody : ∀ q, body <$> <[p:=t']> h !! q = body <$> h !! q).
  { intros r. destruct (decide (p = r)) as [<-|Hne].
    - by rewrite lookup_insert_eq, Hp.
    - by rewrite lookup_insert_ne. }
  unfold Type_.canonicalOf, Type_.getCanonicalType.
  destruct (decide (p = q)) as [<-|Hne].
  - rewrite lookup_insert_eq, Hp. simpl. rewrite Hcan. simpl.
    unfold Type_.resolveCanonical. rewrite Hp. simpl. rewrite Ha.
    destruct (Type_.resolveLoop m h p) as [d'|] eqn:Hm; simpl; [|discriminate].
    intros [= <-]. f_equal.
    destruct (Nat.le_gt_cases n m).
    + pose proof (resolveLoop_mono n m h p c' H Hl). congruence.
    + pose proof (resolveLoop_mono m n h p d' ltac:(lia) Hm). congruence.
  - rewrite lookup_insert_ne by done.
    destruct (h !! q) as [u|] eqn:Hq; simpl; [|discriminate].
    destruct (canonical u); simpl; [done|].
    unfold Type_.resolveCanonical. rewrite lookup_insert_ne, Hq by done. simpl.
    destruct (isAlias u); simpl; [|discriminate].
    rewrite (resolveLoop_ext _ h _ _ Hbody).
    by destruct (Type_.resolveLoop m h q).
Qed.
(** A query that returned once returns the same object again, from the
    canonical object itself, without touching the arena. *)
Lemma getCanonicalType_again n h p c h' :
  cache_ok h → Type_.getCanonicalType n h p = Some (c, h') →
  (∃ tc, h' !! c = Some tc ∧ isAlias tc = false)
  ∧ ∀ fuel, Type_.getCanonicalType fuel h' c = Some (c, h').
Proof.
  intros Hok Hget.
  pose proof (getCanonicalType_cache_ok _ _ _ _ _ Hok Hget) as Hok'.
  assert (Type_.canonicalOf n h p = Some c) as Hc
    by (apply canonicalOf_Some; eauto).
  pose proof (canonicalOf_cache _ _ _ _ _ _ _ _ Hok Hget Hc) as Hc'.
  destruct (canonicalOf_not_alias _ _ _ _ Hok' Hc') as (tc & Htc & Ha).
  split; [eauto|]. intros fuel.
  pose proof (Hok' c tc Htc) as Hcan. rewrite Ha in Hcan.
  unfold Type_.getCanonicalType. rewrite Htc. simpl. by rewrite Hcan.
Qed.

(** Example arena: the error type, [int], [logic], and
    [typedef int t2; typedef t2 t3;] with both aliases still unresolved. *)
Definition intType : Type_ :=
  mkType (PredefinedIntegerBody Int) None (Some 1) 32 true false.
Definition logicType : Type_ :=
  mkType (ScalarBody Logic) None (Some 4) 1 false true.
Definition errorType : Type_ := mkType ErrorBody None (Some 0) 0 false false.
Definition aliasTo (q : TypePtr) : Type_ :=
  mkType (TypeAliasBody q) None None 0 false false.

Definition heap0 : Heap :=
  <[4 := logicType]> (<[3 := aliasTo 2]> (<[2 := aliasTo 1]>
    (<[1 := intType]> (<[0 := errorType]> ∅)))).

Ltac heap_cases H :=
  repeat (apply lookup_insert_Some in H as [[<- <-]|[? H]]);
  [..|by rewrite lookup_empty in H].

Lemma heap0_cache_ok : cache_ok heap0.
Proof. intros p t Hp. unfold heap0 in Hp. heap_cases Hp; simpl; done. Qed.

Lemma heap0_acyclic : acyclic heap0 id.
Proof.
  intros p t q Hp Hq. unfold heap0 in Hp.
  heap_cases Hp; simpl in Hq; try discriminate; injection Hq as <-;
    (split; [unfold id; lia|vm_compute; eauto]).
Qed.

(** C5.  Canonical resolution is idempotent.  In an arena that satisfies the
    constructors' invariant and whose alias chains are acyclic,
    [getCanonicalType] returns for every type [T]; the object it returns is
    not a type alias; and asking that object for its canonical type returns
    the very same object (same address) and leaves the arena as it is. *)
Theorem getCanonicalType_idempotent (h : Heap) (rank : TypePtr → nat)
    (T : TypePtr) (t : Type_) :
  cache_ok h → acyclic h rank → h !! T = Some t →
  ∃ c h', Type_.getCanonicalType (rank T) h T = Some (c, h')
    ∧ (∃ tc, h' !! c = Some tc ∧ isAlias tc = false)
    ∧ ∀ fuel, Type_.getCanonicalType fuel h' c = Some (c, h').
Proof.
  intros Hok Hac HT.
  assert (∃ c h', Type_.getCanonicalType (rank T) h T = Some (c, h'))
    as (c & h' & Hget).
  { unfold Type_.getCanonicalType. rewrite HT. simpl.
    destruct (canonical t) as [c|] eqn:Hcan; simpl; [eauto|].
    pose proof (Hok T t HT) as Hc.
    destruct (isAlias t) eqn:Ha; [|congruence].
    destruct (resolveLoop_terminates h rank T t Hac HT Ha) as [c Hl].
    unfold Type_.resolveCanonical. rewrite HT. simpl. rewrite Ha, Hl. simpl.
    eauto. }
  exists c, h'. split; [done|]. by eapply getCanonicalType_again.
Qed.

Lemma getCanonicalType_idempotent_witness :
  ∃ c h', Type_.getCanonicalType 3 heap0 3 = Some (c, h')
    ∧ (∃ tc, h' !! c = Some tc ∧ isAlias tc = false)
    ∧ ∀ fuel, Type_.getCanonicalType fuel h' c = Some (c, h').
Proof.
  apply (getCanonicalType_idempotent heap0 id 3 (aliasTo 2)
           heap0_cache_ok heap0_acyclic).
  reflexivity.
Defined.

(** The example resolves [t3] to [int], at address 1. *)
Example getCanonicalType_t3 :
  fst <$> Type_.getCanonicalType 3 heap0 3 = Some 1.
Proof. reflexivity. Qed.

(** * The type relations *)

(** Each relation starts by replacing both operands by their canonical
    types, so it answers on the canonical types what it answers on the
    operands. *)
Lemma isMatching_canonical fuel h A B l r :
  cache_ok h →
  Type_.canonicalOf fuel h A = Some l → Type_.canonicalOf fuel h B = Some r →
  Type_.isMatching fuel h l r = Type_.isMatching fuel h A B.
Proof.
  intros Hok Hl Hr. destruct fuel as [|n]; [done|]. simpl.
  rewrite (canonicalOf_idem _ (S n) _ _ _ Hok Hl).
  rewrite (canonicalOf_idem _ (S n) _ _ _ Hok Hr).
  by rewrite Hl, Hr.
Qed.

Lemma isEquivalent_canonical fuel h A B l r :
  cache_ok h →
  Type_.canonicalOf fuel h A = Some l → Type_.canonicalOf fuel h B = Some r →
  Type_.isEquivalent fuel h l r = Type_.isEquivalent fuel h A B.
Proof.
  intros Hok Hl Hr. destruct fuel as [|n]; [done|]. simpl.
  rewrite (canonicalOf_idem _ (S n) _ _ _ Hok Hl).
  rewrite (canonicalOf_idem _ (S n) _ _ _ Hok Hr).
  by rewrite Hl, Hr.
Qed.

Lemma isAssignmentCompatible_canonical fuel h A B l r :
  cache_ok h →
  Type_.canonicalOf fuel h A = Some l → Type_.canonicalOf fuel h B = Some r →
  Type_.isAssignmentCompatible fuel h l r
  = Type_.isAssignmentCompatible fuel h A B.
Proof.
  intros Hok Hl Hr. unfold Type_.isAssignmentCompatible.
  rewrite (canonicalOf_idem _ fuel _ _ _ Hok Hl).
  rewrite (canonicalOf_idem _ fuel _ _ _ Hok Hr).
  by rewrite Hl, Hr.
Qed.

(** A relation that answered has resolved both canonical types. *)
Lemma isMatching_inv fuel h A B b :
  Type_.isMatching fuel h A B = Some b →
  ∃ l r, Type_.canonicalOf fuel h A = Some l
       ∧ Type_.canonicalOf fuel h B = Some r.
Proof.
  destruct fuel as [|n]; [discriminate|]. simpl.
  destruct (Type_.canonicalOf (S n) h A) as [l|]; simpl; [|discriminate].
  destruct (Type_.canonicalOf (S n) h B) as [r|]; simpl; [|discriminate].
  eauto.
Qed.

Lemma isEquivalent_inv fuel h A B b :
  Type_.isEquivalent fuel h A B = Some b →
  ∃ l r, Type_.canonicalOf fuel h A = Some l
       ∧ Type_.canonicalOf fuel h B = Some r.
Proof.
  destruct fuel as [|n]; [discriminate|]. simpl.
  destruct (Type_.canonicalOf (S n) h A) as [l|]; simpl; [|discriminate].
  destruct (Type_.canonicalOf (S n) h B) as [r|]; simpl; [|discriminate].
  eauto.
Qed.

Lemma isAssignmentCompatible_inv fuel h A B b :
  Type_.isAssignmentCompatible fuel h A B = Some b →
  ∃ l r, Type_.canonicalOf fuel h A = Some l
       ∧ Type_.canonicalOf fuel h B = Some r.
Proof.
  unfold Type_.isAssignmentCompatible.
  destruct (Type_.canonicalOf fuel h A) as [l|]; simpl; [|discriminate].
  destruct (Type_.canonicalOf fuel h B) as [r|]; simpl; [|discriminate].
  eauto.
Qed.

(** C1.  The relation lattice: for every pair of types [A] and [B] of an
    arena satisfying the constructors' invariant, [A.isMatching(B)] implies
    [A.isEquivalent(B)], which implies [A.isAssignmentCompatible(B)], which
    implies [A.isCastCompatible(B)]. *)
Theorem relation_lattice (fuel : nat) (h : Heap) (A B : TypePtr) :
  cache_ok h →
  (Type_.isMatching fuel h A B = Some true →
   Type_.isEquivalent fuel h A B = Some true)
  ∧ (Type_.isEquivalent fuel h A B = Some true →
     Type_.isAssignmentCompatible fuel h A B = Some true)
  ∧ (Type_.isAssignmentCompatible fuel h A B = Some true →
     Type_.isCastCompatible fuel h A B = Some true).
Proof.
  intros Hok. repeat split.
  - intros Hm. destruct (isMatching_inv _ _ _ _ _ Hm) as (l & r & Hl & Hr).
    rewrite <- (isMatching_canonical _ _ _ _ _ _ Hok Hl Hr) in Hm.
    destruct fuel as [|n]; [discriminate|].
    cbn [Type_.isEquivalent]. rewrite Hl, Hr. cbn [mbind option_bind].
    by rewrite Hm.
  - intros He. destruct (isEquivalent_inv _ _ _ _ _ He) as (l & r & Hl & Hr).
    rewrite <- (isEquivalent_canonical _ _ _ _ _ _ Hok Hl Hr) in He.
    unfold Type_.isAssignmentCompatible. rewrite Hl, Hr. simpl. by rewrite He.
  - intros Ha.
    destruct (isAssignmentCompatible_inv _ _ _ _ _ Ha) as (l & r & Hl & Hr).
    rewrite <- (isAssignmentCompatible_canonical _ _ _ _ _ _ Hok Hl Hr) in Ha.
    unfold Type_.isCastCompatible. rewrite Hl, Hr. simpl. by rewrite Ha.
Qed.

Lemma relation_lattice_witness :
  Type_.isMatching 3 heap0 3 1 = Some true
  ∧ Type_.isCastCompatible 3 heap0 3 1 = Some true.
Proof.
  destruct (relation_lattice 3 heap0 3 1 heap0_cache_ok) as (H1 & H2 & H3).
  assert (Type_.isMatching 3 heap0 3 1 = Some true) as Hm by reflexivity.
  split; [exact Hm|]. exact (H3 (H2 (H1 Hm))).
Defined.

(** The relations are distinct: [int] and [logic] are assignment compatible
    without being equivalent. *)
Example int_logic_relations :
  Type_.isEquivalent 3 heap0 1 4 = Some false
  ∧ Type_.isAssignmentCompatible 3 heap0 1 4 = Some true.
Proof. split; reflexivity. Qed.
(** * Enum construction *)

(** ** The enumerands of an enum, one after the other *)

(** An enumerand as [fromSyntax] creates it: the initializer of its
    declarator, if the enumerand is given one, and the source range of
    the declarator. *)
Record Enumerand : Set := mkEnumerand {
  enumerandInit : option EqualsValueClause;
  enumerandRange : SourceLocation
}.

(** The enumerands of one declarator: one for a declarator without
    dimensions; for a declarator [name[l:r]] one for every index from [l]
    to [r], of which only the first gets the initializer; none, and no
    enum at all, for any other dimensions. *)
Definition enumerandsOf (requirePositive : Z → bool) (m : DeclaratorSyntax)
  : option (list Enumerand) :=
  match dimensions m with
  | [] => Some [mkEnumerand (initializer m) (sourceRange m)]
  | [Some range] =>
      if requirePositive (left range) && requirePositive (right range)
      then Some (mkEnumerand (initializer m) (sourceRange m)
                 :: replicate (Z.to_nat (Z.abs (left range - right range)))
                      (mkEnumerand None (sourceRange m)))
      else None
  | _ => None
  end.

Fixpoint enumerands (requirePositive : Z → bool)
    (ms : list DeclaratorSyntax) : option (list Enumerand) :=
  match ms with
  | [] => Some []
  | m :: rest =>
      es ← enumerandsOf requirePositive m;
      es' ← enumerands requirePositive rest;
      Some (es ++ es')
  end.

(** The values that the earlier enumerands hold, in their order, each
    with the location it was given at: [holder] is the location of the
    first enumerand that holds a value. *)
Fixpoint holder (earlier : list (SVInt * SourceLocation)) (k : Z * Z)
  : option SourceLocation :=
  match earlier with
  | [] => None
  | (w, loc) :: rest =>
      if bool_decide (SVInt.key w = k) then Some loc else holder rest k
  end.

Section Numbering.

Variable bits : Z.
Variable isSigned : bool.

(** The numbering rule in the words of the specification, as claim C3
    is amended, to be compared with what [fromSyntax] computes: the rule
    for one enumerand after the enumerands that hold the values
    [earlier].  With an initializer that is a constant the enumerand
    takes that constant, and [EnumValueDuplicate] is reported if an
    earlier enumerand holds it; with an initializer that is no constant
    it has no value.  Without an initializer it takes 0 of the base type
    if no earlier enumerand holds a value; otherwise the previous value
    is the value of the last enumerand that holds one: with unknown bits
    in it [EnumIncrementUnknown] is reported, with all bits set
    [EnumValueOverflow], and the enumerand gets no value; otherwise the
    enumerand takes the previous value plus one, unless an earlier
    enumerand holds that, which is reported as [EnumValueDuplicate] and
    leaves the enumerand without a value. *)
Definition specNumbered (earlier : list (SVInt * SourceLocation))
    (e : Enumerand)
  : ConstantValue * Diagnostics :=
  match enumerandInit e with
  | Some init =>
      match initValue init with
      | Some v =>
          (IntegerV v,
           match holder earlier (SVInt.key v) with
           | Some first =>
               [mkDiag EnumValueDuplicate (initRange init)
                  [(NotePreviousDefinition, first)]]
           | None => []
           end)
      | None => (Invalid, [])
      end
  | None =>
      match last earlier with
      | None => (IntegerV (SVInt.make bits 0 isSigned), [])
      | Some (p, _) =>
          if SVInt.hasUnknown p
          then (Invalid, [mkDiag EnumIncrementUnknown (enumerandRange e) []])
          else if SVInt.eqb p (EnumType.allOnes bits isSigned)
          then (Invalid, [mkDiag EnumValueOverflow (enumerandRange e) []])
          else
            let next := SVInt.add p (EnumType.one bits isSigned) in
            match holder earlier (SVInt.key next) with
            | Some first =>
                (Invalid,
                 [mkDiag EnumValueDuplicate (enumerandRange e)
                    [(NotePreviousDefinition, first)]])
            | None => (IntegerV next, [])
            end
      end
  end.

(** The value that the enumerand now holds, with the location it was
    given at: that of the initializer, or the range of the declarator. *)
Definition holds (e : Enumerand) (v : ConstantValue)
  : list (SVInt * SourceLocation) :=
  match v with
  | IntegerV i =>
      [(i, match enumerandInit e with
           | Some init => initRange init
           | None => enumerandRange e
           end)]
  | _ => []
  end.

(** The rule applied to the enumerands in their order, each after the
    values that the enumerands before it hold. *)
Fixpoint specNumbering (earlier : list (SVInt * SourceLocation))
    (es : list Enumerand) : list (ConstantValue * Diagnostics) :=
  match es with
  | [] => []
  | e :: rest =>
      let r := specNumbered earlier e in
      r :: specNumbering (earlier ++ holds e r.1) rest
  end.

Lemma numbering_app earlier es es' :
  specNumbering earlier (es ++ es')
  = specNumbering earlier es
    ++ specNumbering
         (foldl (fun acc er => acc ++ holds er.1 er.2.1) earlier
            (zip es (specNumbering earlier es)))
         es'.
Proof.
  revert earlier. induction es as [|e es IH]; intros earlier; [done|].
  simpl. f_equal. apply IH.
Qed.

Lemma holder_app earlier v loc k :
  holder (earlier ++ [(v, loc)]) k
  = match holder earlier k with
    | Some l => Some l
    | None => if bool_decide (SVInt.key v = k) then Some loc else None
    end.
Proof.
  induction earlier as [|[w l] earlier IH]; [done|]. simpl.
  by destruct (bool_decide (SVInt.key w = k)).
Qed.

(** ** The state of the loop and the enumerands so far *)

(** The locals of [fromSyntax] say what the earlier enumerands hold:
    [first] that none holds a value, [previous] the value of the last
    that holds one, [usedValues] the first holder of every value. *)
Record agrees (ds0 : Diagnostics) (st : EnumType.State)
    (earlier : list (SVInt * SourceLocation))
    (outs : list (ConstantValue * Diagnostics)) : Prop := mkAgrees {
  agrees_first : EnumType.first st = bool_decide (earlier = []);
  agrees_previous :
    ∀ p loc, last earlier = Some (p, loc) → EnumType.previous st = p;
  agrees_used : ∀ k, EnumType.usedValues st !! k = holder earlier k;
  agrees_diags : EnumType.diags st = ds0 ++ List.concat (snd <$> outs);
  agrees_values :
    EnumValueSymbol.getValue <$> EnumType.members st = fst <$> outs
}.

Lemma agrees_initial ds0 : agrees ds0 (EnumType.initial ds0) [] [].
Proof.
  split; try done.
  - simpl. by rewrite app_nil_r.
Qed.

Lemma concat_snoc (outs : list (ConstantValue * Diagnostics)) r :
  List.concat (snd <$> (outs ++ [r])) = List.concat (snd <$> outs) ++ r.2.
Proof.
  rewrite fmap_app, concat_app. simpl. by rewrite app_nil_r.
Qed.

Lemma agrees_step ds0 st earlier outs first' previous' range' used' diags'
    ev earlier' r :
  agrees ds0 st earlier outs →
  first' = bool_decide (earlier' = []) →
  (∀ p loc, last earlier' = Some (p, loc) → previous' = p) →
  (∀ k, used' !! k = holder earlier' k) →
  diags' = EnumType.diags st ++ r.2 →
  EnumValueSymbol.getValue ev = r.1 →
  agrees ds0
    (EnumType.mkState first' previous' range' used' diags'
       (EnumType.members st ++ [ev]))
    earlier' (outs ++ [r]).
Proof.
  intros [_ _ _ Hdiags Hvalues] Hf Hp Hu Hd Hv.
  split; cbn [EnumType.first EnumType.previous EnumType.usedValues
              EnumType.diags EnumType.members].
  - done.
  - done.
  - done.
  - by rewrite concat_snoc, Hd, Hdiags, <- app_assoc.
  - rewrite !fmap_app, Hvalues. f_equal. simpl. by rewrite Hv.
Qed.

Lemma holder_snoc_fresh (earlier : list (SVInt * SourceLocation))
    (v : SVInt) (loc : SourceLocation) (k : Z * Z)
    (used : gmap (Z * Z) SourceLocation) :
  (∀ k, used !! k = holder earlier k) →
  holder earlier (SVInt.key v) = None →
  <[SVInt.key v := loc]> used !! k = holder (earlier ++ [(v, loc)]) k.
Proof.
  intros Hused Hh. rewrite holder_app, <- Hused.
  destruct (decide (SVInt.key v = k)) as [<-|Hne].
  - rewrite lookup_insert_eq, Hused, Hh. by rewrite bool_decide_eq_true_2.
  - rewrite lookup_insert_ne by done.
    rewrite bool_decide_eq_false_2 by done. by destruct (used !! k).
Qed.

Lemma holder_snoc_held (earlier : list (SVInt * SourceLocation))
    (v : SVInt) (loc l : SourceLocation) (k : Z * Z) :
  holder earlier (SVInt.key v) = Some l →
  holder earlier k = holder (earlier ++ [(v, loc)]) k.
Proof.
  intros Hh. rewrite holder_app.
  destruct (holder earlier k) eqn:Hk; [done|].
  rewrite bool_decide_eq_false_2; [done|]. congruence.
Qed.

Lemma snoc_not_nil {A : Type} (l : list A) x :
  false = bool_decide (l ++ [x] = []).
Proof. symmetry. apply bool_decide_eq_false_2. by destruct l. Qed.

Lemma last_snoc_eq {A B : Type} (l : list (A * B)) v loc p q :
  last (l ++ [(v, loc)]) = Some (p, q) → v = p.
Proof. rewrite last_snoc. by intros [= <- _]. Qed.

(** One enumerand: the state afterwards agrees with the enumerands so
    far, the new one numbered by the rule. *)
Lemma enumerand_agrees ds0 st earlier outs (m : DeclaratorSyntax) idx
    (w : bool) :
  agrees ds0 st earlier outs →
  let e := mkEnumerand (if w then initializer m else None) (sourceRange m) in
  let r := specNumbered earlier e in
  agrees ds0 (EnumType.enumerand bits isSigned st m idx w)
    (earlier ++ holds e r.1) (outs ++ [r]).
Proof.
  intros Hag e r. pose proof Hag as [Hfirst Hprev Hused Hdiags Hvalues].
  unfold EnumType.enumerand.
  set (ev0 := EnumValueSymbol.fromSyntax m idx).
  unfold r, specNumbered, e. cbn [enumerandInit enumerandRange].
  destruct (if w then initializer m else None) as [init|].
  - unfold EnumType.setInitializer, EnumValueSymbol.getConstantValue.
    cbn [EnumValueSymbol.setInitializerSyntax evInit].
    destruct (initValue init) as [cv|] eqn:Hcv.
    + unfold EnumType.checkValue. cbn [EnumType.usedValues].
      rewrite Hused.
      assert (Hget : EnumValueSymbol.getValue
                       (mkEnumValue (evName ev0) (evIndex ev0) (evValue ev0)
                          (Some init)) = IntegerV cv).
      { unfold EnumValueSymbol.getValue, EnumValueSymbol.getConstantValue.
        simpl. by rewrite Hcv. }
      destruct (holder earlier (SVInt.key cv)) as [prev|] eqn:Hh;
        unfold EnumType.addMember; simpl;
        (eapply agrees_step; [exact Hag | apply snoc_not_nil
                             | intros p loc; apply last_snoc_eq | | | ]).
      * intros k. rewrite Hused. by eapply holder_snoc_held.
      * done.
      * exact Hget.
      * intros k. by apply holder_snoc_fresh.
      * simpl. by rewrite app_nil_r.
      * exact Hget.
    + unfold EnumType.addMember; simpl. rewrite app_nil_r.
      destruct st as [f0 p0 r0 u0 d0 m0]. simpl in *.
      eapply (agrees_step ds0 (EnumType.mkState f0 p0 r0 u0 d0 m0));
        [exact Hag | done | done | done | simpl; by rewrite app_nil_r |].
      unfold EnumValueSymbol.getValue, EnumValueSymbol.getConstantValue.
      simpl. by rewrite Hcv.
  - unfold EnumType.inferValue. rewrite Hfirst.
    destruct earlier as [|x earlier0] eqn:Hearlier.
    + (* the first value *)
      rewrite bool_decide_eq_true_2 by done.
      unfold EnumType.checkValue. cbn [EnumType.usedValues].
      rewrite Hused. unfold EnumType.addMember. simpl.
      eapply agrees_step; [exact Hag | done | by intros p loc [= <- _] | |
                           simpl; by rewrite app_nil_r | done].
      intros k. apply (holder_snoc_fresh [] _ _ _ _ Hused). done.
    + rewrite bool_decide_eq_false_2 by done. rewrite <- Hearlier in *.
      destruct (last earlier) as [[p ploc]|] eqn:Hlast.
      2:{ subst earlier. rewrite last_cons in Hlast.
          by destruct (last earlier0). }
      assert (Hnil : false = bool_decide (earlier = [])).
      { symmetry. apply bool_decide_eq_false_2. by subst earlier. }
      assert (Hp : EnumType.previous st = p)
        by (by apply (Hprev p ploc)).
      assert (Hkeep : ∀ f q c loc,
                f = bool_decide (earlier = []) → q = p →
                agrees ds0
                  (EnumType.addMember
                     (EnumType.mkState f q (EnumType.previousRange st)
                        (EnumType.usedValues st)
                        (EnumType.diags st ++ [c]) (EnumType.members st))
                     ev0)
                  (earlier ++ holds (mkEnumerand None loc) Invalid)
                  (outs ++ [(Invalid, [c])])).
      { intros f q c loc Hf Hq. unfold EnumType.addMember. simpl.
        rewrite app_nil_r.
        eapply agrees_step;
          [exact Hag | exact Hf
          | intros q' l Hq'; rewrite Hlast in Hq'; injection Hq' as <- _;
            exact Hq
          | exact Hused | done | done]. }
      rewrite Hp.
      destruct (SVInt.hasUnknown p) eqn:Hu;
        [by apply (Hkeep _ _ _ (sourceRange m))|].
      destruct (SVInt.eqb p (EnumType.allOnes bits isSigned)) eqn:Ha;
        [by apply (Hkeep _ _ _ (sourceRange m))|].
      unfold EnumType.checkValue. rewrite Hused.
      destruct (holder earlier
                  (SVInt.key (SVInt.add p (EnumType.one bits isSigned))))
        as [prev|] eqn:Hh.
      * by apply (Hkeep _ _ _ (sourceRange m)).
      * unfold EnumType.addMember. simpl.
        eapply agrees_step; [exact Hag | | intros q loc; apply last_snoc_eq
                            | | simpl; by rewrite app_nil_r | done].
        -- rewrite Hfirst, <- Hnil. apply snoc_not_nil.
        -- intros k. by apply holder_snoc_fresh.
Qed.

(** The state after the enumerands [es], numbered by the rule after
    [earlier]. *)
Definition after (earlier : list (SVInt * SourceLocation))
    (es : list Enumerand) : list (SVInt * SourceLocation) :=
  foldl (fun acc er => acc ++ holds er.1 er.2.1) earlier
    (zip es (specNumbering earlier es)).

Lemma after_cons earlier e es :
  after earlier (e :: es)
  = after (earlier ++ holds e (specNumbered earlier e).1) es.
Proof. done. Qed.

Lemma rangeLoop_agrees ds0 (m : DeclaratorSyntax) n :
  ∀ down index st earlier outs,
  agrees ds0 st earlier outs →
  let es := replicate n (mkEnumerand None (sourceRange m)) in
  agrees ds0 (EnumType.rangeLoop bits isSigned n down index st m)
    (after earlier es) (outs ++ specNumbering earlier es).
Proof.
  induction n as [|n IH]; intros down index st earlier outs Hag; simpl.
  { by rewrite app_nil_r. }
  pose proof (enumerand_agrees ds0 st earlier outs m
                (Some (if down then (index - 1)%Z else (index + 1)%Z)) false
                Hag) as Hstep.
  cbn zeta in Hstep. cbn [andb] in Hstep.
  specialize (IH down (if down then (index - 1)%Z else (index + 1)%Z)
                _ _ _ Hstep).
  cbn zeta in IH. rewrite after_cons.
  rewrite <- app_assoc in IH. exact IH.
Qed.

Lemma member_agrees requirePositive ds0 st earlier outs m es :
  agrees ds0 st earlier outs →
  enumerandsOf requirePositive m = Some es →
  ∃ st', EnumType.member bits isSigned requirePositive st m = Some st'
       ∧ agrees ds0 st' (after earlier es) (outs ++ specNumbering earlier es).
Proof.
  intros Hag. unfold enumerandsOf, EnumType.member.
  destruct (dimensions m) as [|[range|] [|? ?]]; try done.
  - intros [= <-]. eexists. split; [done|].
    apply (enumerand_agrees ds0 st earlier outs m None true Hag).
  - rewrite bool_decide_eq_false_2 by (by intros ?).
    destruct (requirePositive (left range)); [|done].
    destruct (requirePositive (right range)); [|done]. simpl.
    intros [= <-]. eexists. split; [done|].
    pose proof (enumerand_agrees ds0 st earlier outs m (Some (left range))
                  true Hag) as Hstep.
    cbn zeta in Hstep.
    pose proof (rangeLoop_agrees ds0 m
                  (Z.to_nat (Z.abs (left range - right range)))
                  (ConstantRange.isLittleEndian range) (left range) _ _ _
                  Hstep) as Hloop.
    cbn zeta in Hloop. rewrite after_cons.
    cbn [specNumbering]. rewrite <- app_assoc in Hloop. exact Hloop.
Qed.

Lemma after_app earlier es es' :
  after earlier (es ++ es') = after (after earlier es) es'.
Proof.
  revert earlier. induction es as [|e es IH]; intros earlier; [done|].
  rewrite <- app_comm_cons, !after_cons. apply IH.
Qed.

Lemma membersLoop_agrees requirePositive ds0 ms : ∀ st earlier outs es,
  agrees ds0 st earlier outs →
  enumerands requirePositive ms = Some es →
  ∃ vs,
    EnumType.membersLoop bits isSigned requirePositive st ms
    = EnumType.EnumResult vs
        (ds0 ++ List.concat (snd <$> (outs ++ specNumbering earlier es)))
    ∧ EnumValueSymbol.getValue <$> vs
      = fst <$> (outs ++ specNumbering earlier es).
Proof.
  induction ms as [|m ms IH]; intros st earlier outs es Hag; simpl.
  { intros [= <-]. simpl. rewrite app_nil_r.
    destruct Hag as [_ _ _ Hd Hv]. exists (EnumType.members st).
    by rewrite Hd. }
  destruct (enumerandsOf requirePositive m) as [es1|] eqn:H1; [|done].
  destruct (enumerands requirePositive ms) as [es2|] eqn:H2; [|done].
  simpl. intros [= <-].
  destruct (member_agrees requirePositive ds0 st earlier outs m es1 Hag H1)
    as (st' & -> & Hag').
  destruct (IH st' _ _ es2 Hag' eq_refl) as (vs & Hres & Hvs).
  exists vs. rewrite numbering_app. fold (after earlier es1).
  by rewrite app_assoc.
Qed.

End Numbering.
(** C3 (as amended).  Enumerand numbering in [EnumType::fromSyntax].  For
    members whose dimensions are accepted, the call builds the enum; the
    enumerands of the enum, in their order, hold the values that the
    numbering rule [specNumbering] gives them, and the diagnostics of the
    scope grow by what the rule reports for each enumerand, one after the
    other, and by nothing else.  The rule, for one enumerand:
    - an initializer that is a constant [v] gives the value [v], and an
      [EnumValueDuplicate] if an earlier enumerand holds [v];
    - without an initializer, and with no earlier enumerand holding a
      value, the value is 0 of the base type;
    - without an initializer, the previous value [p] being the value of
      the last earlier enumerand that holds one: unknown bits in [p]
      give [EnumIncrementUnknown] and no value; [p] all-ones gives
      [EnumValueOverflow] and no value; otherwise the value is [p + 1],
      unless an earlier enumerand holds [p + 1], which gives
      [EnumValueDuplicate] and no value, so that the previous value
      stays [p]. *)
Theorem enum_numbering (bits : Z) (isSigned : bool)
    (requirePositive : Z → bool) (ds : Diagnostics)
    (ms : list DeclaratorSyntax) (es : list Enumerand) :
  enumerands requirePositive ms = Some es →
  ∃ vs,
    EnumType.fromSyntax bits isSigned requirePositive ds ms
    = EnumType.EnumResult vs
        (ds ++ List.concat (snd <$> specNumbering bits isSigned [] es))
    ∧ EnumValueSymbol.getValue <$> vs
      = fst <$> specNumbering bits isSigned [] es.
Proof.
  intros Hes. unfold EnumType.fromSyntax.
  destruct (membersLoop_agrees bits isSigned requirePositive ds ms
              (EnumType.initial ds) [] [] es (agrees_initial ds) Hes)
    as (vs & Hres & Hvs).
  exists vs. done.
Qed.

(** [enum { A, B = 7, C[1:0], D = 8, E }]: the rule gives 0, 7, 8, 9, then
    8 again for [D], which is reported, and 9 for [E] is held by the
    second [C], which is reported and leaves [E] without a value. *)
Definition numberingExample : list DeclaratorSyntax :=
  [ mkDecl 0 [] None 1;
    mkDecl 1 [] (Some (mkInit (Some (SVInt.make 32 7 true)) 20)) 2;
    mkDecl 2 [Some (mkRange 1 0)] None 3;
    mkDecl 3 [] (Some (mkInit (Some (SVInt.make 32 8 true)) 40)) 4;
    mkDecl 4 [] None 5 ].

Lemma enum_numbering_witness :
  ∃ vs,
    EnumType.fromSyntax 32 true (λ z, (0 <=? z)%Z) [] numberingExample
    = EnumType.EnumResult vs
        [ mkDiag EnumValueDuplicate 40 [(NotePreviousDefinition, 3)];
          mkDiag EnumValueDuplicate 5 [(NotePreviousDefinition, 3)] ]
    ∧ EnumValueSymbol.getValue <$> vs
      = [ IntegerV (SVInt.make 32 0 true); IntegerV (SVInt.make 32 7 true);
          IntegerV (SVInt.make 32 8 true); IntegerV (SVInt.make 32 9 true);
          IntegerV (SVInt.make 32 8 true); Invalid ].
Proof.
  apply (enum_numbering 32 true (λ z, (0 <=? z)%Z) [] numberingExample
           [ mkEnumerand None 1;
             mkEnumerand (Some (mkInit (Some (SVInt.make 32 7 true)) 20)) 2;
             mkEnumerand None 3; mkEnumerand None 3;
             mkEnumerand (Some (mkInit (Some (SVInt.make 32 8 true)) 40)) 4;
             mkEnumerand None 5 ]).
  reflexivity.
Defined.

(** The scenario of the specification: [typedef enum bit[1:0] { A=3, B } e;]
    reports [EnumValueOverflow] at [B]. *)
Example enum_overflow_scenario :
  EnumType.fromSyntax 2 false (λ z, (0 <=? z)%Z) []
    [ mkDecl 0 [] (Some (mkInit (Some (SVInt.make 2 3 false)) 10)) 9;
      mkDecl 1 [] None 20 ]
  = EnumType.EnumResult
      [ mkEnumValue 0 None None (Some (mkInit (Some (SVInt.make 2 3 false)) 10));
        mkEnumValue 1 None None None ]
      [ mkDiag EnumValueOverflow 20 [] ].
Proof. reflexivity. Qed.

(** [enum { A, B, C[2:0] = 5, D }] numbers 0, 1, 5, 6, 7, 8. *)
Example enum_range_scenario :
  match EnumType.fromSyntax 32 true (λ z, (0 <=? z)%Z) []
          [ mkDecl 0 [] None 1; mkDecl 1 [] None 2;
            mkDecl 2 [Some (mkRange 2 0)]
              (Some (mkInit (Some (SVInt.make 32 5 true)) 3)) 3;
            mkDecl 3 [] None 4 ] with
  | EnumType.EnumResult vs ds =>
      (EnumValueSymbol.getValue <$> vs)
        = (λ n, IntegerV (SVInt.make 32 n true)) <$> [0; 1; 5; 6; 7; 8]%Z
      ∧ ds = []
  | EnumType.ErrorResult _ => False
  end.
Proof. split; reflexivity. Qed.

(** C3, counterexample to the claim as stated.  In
    [enum { A = 1, B = 0, C }] the enumerand [C] is uninitialized, comes
    after [B], and the previous value 0 has no unknown bits and is not
    all-ones; the claim gives [C] the value 0 + 1.  The code computes 1,
    finds it taken by [A], reports [EnumValueDuplicate] and leaves [C]
    without a value. *)
Lemma enum_duplicate_counterexample :
  match EnumType.fromSyntax 32 true (λ z, (0 <=? z)%Z) []
          [ mkDecl 0 [] (Some (mkInit (Some (SVInt.make 32 1 true)) 1)) 1;
            mkDecl 1 [] (Some (mkInit (Some (SVInt.make 32 0 true)) 2)) 2;
            mkDecl 2 [] None 3 ] with
  | EnumType.EnumResult vs ds =>
      (EnumValueSymbol.getValue <$> vs)
        = [ IntegerV (SVInt.make 32 1 true); IntegerV (SVInt.make 32 0 true);
            Invalid ]
      ∧ (EnumValueSymbol.getValue <$> vs) !! 2
        ≠ Some (IntegerV (SVInt.add (SVInt.make 32 0 true)
                            (SVInt.make 32 1 true)))
      ∧ codes ds = [EnumValueDuplicate]
  | EnumType.ErrorResult _ => False
  end.
Proof.
  split; [reflexivity|]. split; [|reflexivity].
  intros [=].
Qed.
(** * Widths of packed types *)

Definition sumZ (ws : list Z) : Z := foldr Z.add 0%Z ws.
Definition maxZ (ws : list Z) : Z := foldr Z.max 0%Z ws.

(** The first width that is not zero, 0 when there is none. *)
Fixpoint firstNonZero (ws : list Z) : Z :=
  match ws with
  | [] => 0%Z
  | w :: rest => if (w =? 0)%Z then firstNonZero rest else w
  end.

(** [w] is the bit width of the type of field [f]. *)
Definition hasWidth (fuel : nat) (h : Heap) (f : FieldSymbol) (w : Z) : Prop :=
  Type_.getBitWidth fuel h (fieldType f) = Some w.

Lemma wrap32_add_l a b : wrap32 (wrap32 a + b) = wrap32 (a + b).
Proof. unfold wrap32. by rewrite Zplus_mod_idemp_l. Qed.

Lemma sumZ_app ws vs : sumZ (ws ++ vs) = (sumZ ws + sumZ vs)%Z.
Proof. induction ws as [|w ws IH]; simpl; [done|]. rewrite IH. lia. Qed.

Lemma sumZ_reverse ws : sumZ (reverse ws) = sumZ ws.
Proof.
  induction ws as [|w ws IH]; simpl; [done|].
  rewrite reverse_cons, sumZ_app, IH. simpl. lia.
Qed.

Lemma firstNonZero_app ws vs :
  firstNonZero (ws ++ vs)
  = if (firstNonZero ws =? 0)%Z then firstNonZero vs else firstNonZero ws.
Proof.
  induction ws as [|w ws IH]; simpl; [done|].
  destruct (w =? 0)%Z eqn:Hw; [done|]. by rewrite Hw.
Qed.

Section PackedFacts.

Variable fuel : nat.
Variable h : Heap.

(** *** Structs *)

Definition struct_inv (st : MemberState) : Prop :=
  ∃ ws, Forall2 (hasWidth fuel h) (msMembers st) ws
      ∧ msBitWidth st = wrap32 (sumZ ws).

Lemma struct_declaratorLoop type ie st decls st' :
  struct_inv st →
  PackedStructType.declaratorLoop fuel h type ie st decls = Some st' →
  struct_inv st' ∧ ∃ new, msDiags st' = msDiags st ++ new.
Proof.
  revert ie st. induction decls as [|d decls IH]; intros ie st Hinv; simpl.
  - intros [= <-]. split; [done|]. exists []. by rewrite app_nil_r.
  - destruct (dimTypeIsUnpackedArray fuel h type (declDims d)) as [u|];
      simpl; [|discriminate].
    destruct (Type_.getBitWidth fuel h type) as [w|] eqn:Hw;
      simpl; [|discriminate].
    intros Hloop. apply IH in Hloop as [Hinv' [new Hnew]].
    + split; [done|]. simpl in Hnew.
      destruct (fdInitializer d), (u && negb ie);
        unfold addDiag in Hnew; rewrite <- ?app_assoc in Hnew; eauto.
    + destruct Hinv as (ws & Hws & Hbw). exists (ws ++ [w]). simpl. split.
      * apply Forall2_app; [done|]. by constructor.
      * rewrite Hbw, wrap32_add_l, sumZ_app. simpl. f_equal. lia.
Qed.

Lemma struct_memberLoop st ms st' :
  struct_inv st → PackedStructType.memberLoop fuel h st ms = Some st' →
  struct_inv st' ∧ ∃ new, msDiags st' = msDiags st ++ new.
Proof.
  revert st. induction ms as [|m ms IH]; intros st Hinv; simpl.
  - intros [= <-]. split; [done|]. exists []. by rewrite app_nil_r.
  - destruct (Type_.isFourState fuel h (memberType m)) as [fs|];
      simpl; [|discriminate].
    destruct (Type_.isIntegral fuel h (memberType m)) as [i|];
      simpl; [|discriminate].
    destruct (Type_.isError fuel h (memberType m)) as [e|];
      simpl; [|discriminate].
    destruct (PackedStructType.declaratorLoop _ _ _ _ _ _) as [st1|] eqn:Hd;
      simpl; [|discriminate].
    apply struct_declaratorLoop in Hd as [Hinv1 [new1 Hnew1]]; [|done].
    intros Hloop. apply IH in Hloop as [Hinv' [new Hnew]]; [|done].
    split; [done|]. rewrite Hnew, Hnew1. simpl.
    destruct (negb i && negb e); unfold addDiag; rewrite <- ?app_assoc; eauto.
Qed.

(** *** Unions *)

Definition union_inv (ds0 : Diagnostics) (st : MemberState) : Prop :=
  ∃ new ws, msDiags st = ds0 ++ new
    ∧ Forall2 (hasWidth fuel h) (msMembers st) ws
    ∧ msBitWidth st = firstNonZero ws
    ∧ (PackedUnionWidthMismatch ∉ codes new →
       PackedMemberNotIntegral ∉ codes new →
       Forall (λ w, w = 0%Z ∨ w = msBitWidth st) ws).

Lemma codes_app (ds es : Diagnostics) : codes (ds ++ es) = codes ds ++ codes es.
Proof. unfold codes. apply map_app. Qed.

Lemma union_declaratorLoop ds0 type ie st decls st' :
  (ie = true → ∃ new, msDiags st = ds0 ++ new
                    ∧ (PackedUnionWidthMismatch ∈ codes new
                       ∨ PackedMemberNotIntegral ∈ codes new)) →
  union_inv ds0 st →
  PackedUnionType.declaratorLoop fuel h type ie st decls = Some st' →
  union_inv ds0 st'.
Proof.
  revert ie st. induction decls as [|d decls IH]; intros ie st Hie Hinv; simpl.
  - by intros [= <-].
  - destruct (dimTypeIsUnpackedArray fuel h type (declDims d)) as [u|];
      simpl; [|discriminate].
    destruct (Type_.getBitWidth fuel h type) as [w|] eqn:Hw;
      simpl; [|discriminate].
    destruct Hinv as (new & ws & Hds & Hws & Hbw & Hall).
    set (report := u && negb ie).
    set (ds1 := if report then addDiag (msDiags st) PackedMemberNotIntegral
                                (fdLocation d) else msDiags st).
    set (ie1 := ie || report).
    set (mismatch := negb (msBitWidth st =? 0)%Z
                     && negb (msBitWidth st =? w)%Z && negb ie1).
    set (ds2 := if mismatch then addDiag ds1 PackedUnionWidthMismatch
                                   (fdLocation d) else ds1).
    set (ds3 := match fdInitializer d with
                | Some loc => addDiag ds2 PackedMemberHasInitializer loc
                | None => ds2
                end).
    assert (∃ new3, ds3 = ds0 ++ new ++ new3
              ∧ (report = true → PackedMemberNotIntegral ∈ codes new3)
              ∧ (mismatch = true → PackedUnionWidthMismatch ∈ codes new3))
      as (new3 & Hds3 & Hrep & Hmis).
    { exists ((if report then [mkDiag PackedMemberNotIntegral (fdLocation d) []]
               else [])
              ++ (if mismatch
                  then [mkDiag PackedUnionWidthMismatch (fdLocation d) []]
                  else [])
              ++ match fdInitializer d with
                 | Some loc => [mkDiag PackedMemberHasInitializer loc []]
                 | None => []
                 end).
      split; [|split].
      - unfold ds3, ds2, ds1, addDiag. rewrite Hds.
        destruct report, mismatch, (fdInitializer d); simpl;
          rewrite <- ?app_assoc, ?app_nil_r; done.
      - intros ->. rewrite codes_app. apply elem_of_app. left. simpl.
        apply list_elem_of_singleton. done.
      - intros ->. rewrite !codes_app. apply elem_of_app. right.
        apply elem_of_app. left. simpl. apply list_elem_of_singleton. done. }
    apply IH.
    + intros Hie2. exists (new ++ new3). split; [done|].
      rewrite codes_app.
      apply orb_true_iff in Hie2 as [Hie1|Hm].
      * apply orb_true_iff in Hie1 as [Hi|Hr].
        -- destruct (Hie Hi) as (new' & Hds' & Hor). rewrite Hds in Hds'.
           apply app_inv_head in Hds' as <-.
           destruct Hor; [left|right]; apply elem_of_app; by left.
        -- right. apply elem_of_app. right. by apply Hrep.
      * left. apply elem_of_app. right. by apply Hmis.
    + exists (new ++ new3), (ws ++ [w]). simpl. split; [done|]. split; [|split].
      * apply Forall2_app; [done|]. by constructor.
      * rewrite firstNonZero_app, <- Hbw. simpl.
        destruct (msBitWidth st =? 0)%Z eqn:Hz; [|done].
        destruct (w =? 0)%Z eqn:Hw0; [|done]. lia.
      * rewrite codes_app. intros Hno1 Hno2.
        assert (PackedUnionWidthMismatch ∉ codes new) as Hn1
          by (intros ?; apply Hno1, elem_of_app; by left).
        assert (PackedMemberNotIntegral ∉ codes new) as Hn2
          by (intros ?; apply Hno2, elem_of_app; by left).
        assert (mismatch = false) as Hm.
        { destruct mismatch; [|done]. exfalso. apply Hno1, elem_of_app.
          right. by apply Hmis. }
        assert (report = false) as Hr.
        { destruct report; [|done]. exfalso. apply Hno2, elem_of_app.
          right. by apply Hrep. }
        assert (ie = false) as Hi.
        { destruct ie; [|done]. destruct (Hie eq_refl) as (new' & Hds' & Hor).
          rewrite Hds in Hds'. apply app_inv_head in Hds' as <-.
          by destruct Hor. }
        specialize (Hall Hn1 Hn2).
        unfold mismatch, ie1 in Hm. rewrite Hi, Hr in Hm. simpl in Hm.
        rewrite andb_true_r in Hm.
        apply Forall_app. split.
        -- eapply Forall_impl; [exact Hall|]. simpl. intros x [-> | ->].
           ++ by left.
           ++ destruct (msBitWidth st =? 0)%Z eqn:Hz; [left; lia|by right].
        -- constructor; [|constructor].
           destruct (msBitWidth st =? 0)%Z eqn:Hz; [by right|].
           simpl in Hm. apply negb_false_iff in Hm. right. lia.
Qed.

Lemma union_memberLoop ds0 st ms st' :
  union_inv ds0 st → PackedUnionType.memberLoop fuel h st ms = Some st' →
  union_inv ds0 st'.
Proof.
  revert st. induction ms as [|m ms IH]; intros st Hinv; simpl.
  - by intros [= <-].
  - destruct (Type_.isFourState fuel h (memberType m)) as [fs|];
      simpl; [|discriminate].
    destruct (Type_.isIntegral fuel h (memberType m)) as [i|];
      simpl; [|discriminate].
    destruct (Type_.isError fuel h (memberType m)) as [e|];
      simpl; [|discriminate].
    destruct (PackedUnionType.declaratorLoop _ _ _ _ _ _) as [st1|] eqn:Hd;
      simpl; [|discriminate].
    intros Hloop. eapply IH; [|exact Hloop].
    destruct Hinv as (new & ws & Hds & Hws & Hbw & Hall).
    eapply union_declaratorLoop; [| |exact Hd].
    + simpl. intros ->. eexists. split.
      * unfold addDiag. rewrite Hds, <- app_assoc. reflexivity.
      * right. rewrite codes_app. apply elem_of_app. right. simpl.
        apply list_elem_of_singleton. done.
    + destruct (negb i && negb e) eqn:Hie.
      * exists (new ++ [mkDiag PackedMemberNotIntegral (memberTypeLocation m) []]), ws.
        simpl. split; [unfold addDiag; by rewrite Hds, <- app_assoc|].
        split; [done|].
        split; [done|]. rewrite codes_app. intros Hn1 Hn2.
        apply Hall; intros ?; [apply Hn1|apply Hn2]; apply elem_of_app; by left.
      * exists new, ws. done.
Qed.

End PackedFacts.

(** Wrapping in packed dimensions only allocates; the objects that exist
    stay as they are. *)
Lemma wrapPackedDimensions_frame fuel comp r dims r' comp' :
  wrapPackedDimensions fuel comp r dims = Some (r', comp') →
  nextType comp ≤ nextType comp'
  ∧ scopeDiags comp' = scopeDiags comp
  ∧ (dims = [] → r' = r)
  ∧ ∀ q, q < nextType comp → types comp' !! q = types comp !! q.
Proof.
  revert comp r. induction dims as [|[[dim|] s] dims IH]; intros comp r; simpl.
  - intros [= <- <-]. done.
  - unfold PackedArrayType.fromSyntax.
    destruct (Type_.isError fuel (types comp) r) as [[]|]; simpl;
      [| |discriminate].
    + intros H. apply IH in H as (? & ? & _ & ?). done.
    + destruct (PackedArrayType.new _ _ _ _ _ _) as [t|]; simpl; [|discriminate].
      intros H. apply IH in H as (Hle & Hds & _ & Hq). simpl in *.
      repeat split; [lia|done|done|].
      intros q Hlt. rewrite Hq by lia. apply lookup_insert_ne. lia.
  - intros [= <- <-]. done.
Qed.
Lemma maxZ_bounds b ws :
  Forall (λ w, w = 0%Z ∨ w = b) ws → (0 ≤ b)%Z → (0 ≤ maxZ ws ≤ b)%Z.
Proof.
  induction 1 as [|w ws [-> | ->] _ IH]; simpl; intros Hb; [lia| |];
    specialize (IH Hb); lia.
Qed.

Lemma firstNonZero_max b ws :
  Forall (λ w, w = 0%Z ∨ w = b) ws → (0 ≤ b)%Z → firstNonZero ws = b →
  maxZ ws = b.
Proof.
  induction 1 as [|w ws Hw Hall IH]; simpl; intros Hb; [done|].
  destruct (w =? 0)%Z eqn:Hz.
  - intros Hf. rewrite (IH Hb Hf). lia.
  - intros ->. pose proof (maxZ_bounds _ _ Hall Hb). lia.
Qed.

Lemma firstNonZero_nonneg ws :
  Forall (λ w, 0 ≤ w)%Z ws → (0 ≤ firstNonZero ws)%Z.
Proof.
  induction 1 as [|w ws Hw _ IH]; simpl; [lia|]. by destruct (w =? 0)%Z.
Qed.

(** C4 (as amended).  Width consistency of the packed types as the code
    builds them, all arithmetic being that of the 32-bit [bitwidth_t]:
    - the packed struct that [PackedStructType::fromSyntax] creates has the
      sum of the widths of its fields' types as its bit width (exactly the
      sum whenever the sum is below [2^32]);
    - the packed union that [PackedUnionType::fromSyntax] creates has the
      first non-zero member width as its bit width; when the call reports
      neither [PackedUnionWidthMismatch] nor [PackedMemberNotIntegral],
      every member width is zero or that width, which then is the maximum
      of the member widths;
    - a packed array has the element type's width times the number of
      elements of the range as its bit width whenever that product is below
      [2^32]. *)
Theorem packed_width_consistency (fuel : nat) (comp : Compilation)
    (syntax : StructUnionTypeSyntax) (forceSigned : bool)
    (elementType : TypePtr) (range : ConstantRange) (self : TypePtr)
    (arraySyntax : option SyntaxPtr) :
  (∀ p comp',
     PackedStructType.fromSyntax fuel comp syntax forceSigned
       = Some (p, comp') →
     (p = errorTypePtr comp ∧ nextType comp' = nextType comp)
     ∨ ∃ t fields ws,
         types comp' !! nextType comp = Some t
         ∧ body t = PackedStructBody fields
         ∧ Forall2 (hasWidth fuel (types comp)) fields ws
         ∧ bitWidth t = wrap32 (sumZ ws)
         ∧ ((0 ≤ sumZ ws < 2 ^ 32)%Z → bitWidth t = sumZ ws)
         ∧ (packedDimensions syntax = [] → p = nextType comp))
  ∧ (∀ p comp',
       PackedUnionType.fromSyntax fuel comp syntax forceSigned
         = Some (p, comp') →
       (p = errorTypePtr comp ∧ nextType comp' = nextType comp)
       ∨ ∃ t fields ws new,
           types comp' !! nextType comp = Some t
           ∧ body t = PackedUnionBody fields
           ∧ Forall2 (hasWidth fuel (types comp)) fields ws
           ∧ scopeDiags comp' = scopeDiags comp ++ new
           ∧ bitWidth t = firstNonZero ws
           ∧ (PackedUnionWidthMismatch ∉ codes new →
              PackedMemberNotIntegral ∉ codes new →
              Forall (λ w, w = 0%Z ∨ w = bitWidth t) ws
              ∧ (Forall (λ w, 0 ≤ w)%Z ws → bitWidth t = maxZ ws))
           ∧ (packedDimensions syntax = [] → p = nextType comp))
  ∧ (∀ t,
       PackedArrayType.new fuel (types comp) elementType range self
         arraySyntax = Some t →
       ∃ w, Type_.getBitWidth fuel (types comp) elementType = Some w
          ∧ bitWidth t = wrap32 (w * ConstantRange.width range)
          ∧ ((0 ≤ w * ConstantRange.width range < 2 ^ 32)%Z →
             bitWidth t = (w * ConstantRange.width range)%Z)).
Proof.
  split; [|split].
  - intros p comp'. unfold PackedStructType.fromSyntax.
    destruct (PackedStructType.memberLoop _ _ _ _) as [st|] eqn:Hloop;
      simpl; [|discriminate].
    apply struct_memberLoop in Hloop as [(ws & Hws & Hbw) _];
      [|exists []; split; [constructor|done]].
    destruct (msBitWidth st =? 0)%Z eqn:Hz.
    + intros [= <- <-]. by left.
    + intros Hwrap. right.
      apply wrapPackedDimensions_frame in Hwrap as (_ & _ & Hr & Hq).
      simpl in Hq, Hr.
      eexists _, (reverse (msMembers st)), (reverse ws).
      rewrite Hq, lookup_insert_eq by lia.
      split; [reflexivity|]. split; [reflexivity|].
      split; [by apply Forall2_reverse|]. simpl. rewrite sumZ_reverse.
      split; [done|]. split.
      * intros Hs. rewrite Hbw. unfold wrap32. by apply Z.mod_small.
      * intros Hd. apply Hr. by rewrite Hd.
  - intros p comp'. unfold PackedUnionType.fromSyntax.
    destruct (PackedUnionType.memberLoop _ _ _ _) as [st|] eqn:Hloop;
      simpl; [|discriminate].
    apply (union_memberLoop _ _ (scopeDiags comp)) in Hloop
      as (new & ws & Hds & Hws & Hbw & Hall).
    2:{ exists [], []. simpl. rewrite app_nil_r.
        repeat split; [constructor|constructor]. }
    destruct (msBitWidth st =? 0)%Z eqn:Hz.
    + intros [= <- <-]. by left.
    + intros Hwrap. right.
      apply wrapPackedDimensions_frame in Hwrap as (_ & Hsd & Hr & Hq).
      simpl in Hq, Hr, Hsd.
      eexists _, (msMembers st), ws, new.
      rewrite Hq, lookup_insert_eq by lia.
      split; [reflexivity|]. split; [reflexivity|]. split; [done|].
      split; [by rewrite Hsd|]. simpl. split; [done|]. split.
      * intros Hn1 Hn2. specialize (Hall Hn1 Hn2). split; [done|].
        intros Hpos. symmetry. apply firstNonZero_max; [done| |done].
        rewrite Hbw. by apply firstNonZero_nonneg.
      * intros Hd. apply Hr. by rewrite Hd.
  - intros t. unfold PackedArrayType.new.
    destruct (Type_.getBitWidth fuel (types comp) elementType) as [w|];
      simpl; [|discriminate].
    destruct (Type_.isSigned fuel (types comp) elementType) as [s|];
      simpl; [|discriminate].
    destruct (Type_.isFourState fuel (types comp) elementType) as [f|];
      simpl; [|discriminate].
    intros [= <-]. exists w. simpl. split; [done|]. split; [done|].
    intros Hs. unfold wrap32. by apply Z.mod_small.
Qed.

(** Example arena for the packed types: the error type, [byte] and
    [shortint]. *)
Definition byteType : Type_ :=
  mkType (PredefinedIntegerBody Byte) None (Some 1) 8 true false.
Definition shortintType : Type_ :=
  mkType (PredefinedIntegerBody ShortInt) None (Some 2) 16 true false.

Definition comp0 : Compilation :=
  mkCompilation (<[2 := shortintType]> (<[1 := byteType]>
                   (<[0 := errorType]> ∅))) 3 [] 0.

(** [{ byte a; shortint b; }], as a packed struct or a packed union. *)
Definition byteShortint : StructUnionTypeSyntax :=
  mkStructUnion false
    [ mkMember 1 10 [mkFieldDecl 0 11 [] None];
      mkMember 2 20 [mkFieldDecl 1 21 [] None] ]
    [] 100.

(** The struct is 24 bits wide, [b] at offset 0 and [a] at offset 16. *)
Example packed_struct_scenario :
  match PackedStructType.fromSyntax 2 comp0 byteShortint false with
  | Some (p, comp') =>
      types comp' !! p
      = Some (mkType (PackedStructBody [mkField 0 1 16; mkField 1 2 0])
                (Some 100) (Some 3) 24 false false)
      ∧ scopeDiags comp' = []
  | None => False
  end.
Proof. split; reflexivity. Qed.

(** C4, counterexample to the claim as stated.  The packed union
    [{ byte a; shortint b; }] is created with the width of its first member,
    8, while the maximum of its member widths is 16 (and a
    [PackedUnionWidthMismatch] is reported). *)
Lemma packed_union_counterexample :
  match PackedUnionType.fromSyntax 2 comp0 byteShortint false with
  | Some (p, comp') =>
      (bitWidth <$> types comp' !! p) = Some 8%Z
      ∧ (kind <$> types comp' !! p) = Some PackedUnionType
      ∧ (body <$> types comp' !! p)
        = Some (PackedUnionBody [mkField 0 1 0; mkField 1 2 0])
      ∧ Type_.getBitWidth 2 (types comp') 1 = Some 8%Z
      ∧ Type_.getBitWidth 2 (types comp') 2 = Some 16%Z
      ∧ maxZ [8; 16]%Z = 16%Z
      ∧ codes (scopeDiags comp') = [PackedUnionWidthMismatch]
  | None => False
  end.
Proof. vm_compute. repeat split. Qed.

(** [logic [65535:0][65535:0]]: the product of the element width and the
    element count leaves the 32 bits of [bitwidth_t] and the array gets
    width 0. *)
Definition wideVector : Type_ :=
  mkType (PackedArrayBody 4 (mkRange 65535 0)) None (Some 5) 65536 false true.

Example packed_array_wraps :
  bitWidth <$> PackedArrayType.new 2
      (<[5 := wideVector]> heap0) 5 (mkRange 65535 0) 6 None
  = Some 0%Z.
Proof. reflexivity. Qed.

Lemma packed_width_consistency_witness :
  ∃ t fields ws,
    types (snd (default (0, comp0)
                  (PackedStructType.fromSyntax 2 comp0 byteShortint false)))
      !! nextType comp0 = Some t
    ∧ body t = PackedStructBody fields
    ∧ Forall2 (hasWidth 2 (types comp0)) fields ws
    ∧ bitWidth t = sumZ ws.
Proof.
  destruct (packed_width_consistency 2 comp0 byteShortint false 1
              (mkRange 7 0) 3 None) as [Hstruct _].
  destruct (Hstruct 3 (snd (default (0, comp0)
              (PackedStructType.fromSyntax 2 comp0 byteShortint false)))
              eq_refl)
    as [[Hp _]|(t & fields & ws & Ht & Hb & Hws & Hbw & Hsum & _)].
  - discriminate Hp.
  - exists t, fields, ws. repeat split; try done.
    apply Hsum. vm_compute in Ht. injection Ht as <-.
    simpl in Hb. injection Hb as <-.
    repeat match goal with
           | H : Forall2 _ (_ :: _) _ |- _ =>
               apply Forall2_cons_inv_l in H as (? & ? & H1 & H & ->);
               vm_compute in H1; injection H1 as <-
           | H : Forall2 _ [] _ |- _ => apply Forall2_nil_inv_l in H as ->
           end.
    simpl. lia.
Defined.
(** * Re-entry into the declared-type resolver *)

(** The guard of [resolveType] and [resolveAt] itself is an assertion:
    entered for a record whose [evaluating] flag is set, with assertions
    compiled in, either stops with a failed assertion whatever the binder
    would have done next.  So whoever can reach a declared type from
    inside a resolution has to look at the flag first. *)
Lemma direct_reentry_asserts (typeFuel : nat) (run : Runner) (w : World)
    (this : DeclPtr) (rec : DeclaredType) (contextScopeKind : SymbolKind) :
  decls w !! this = Some rec → evaluating rec = true →
  (is_Some (typeSyntax rec) →
   DeclaredType.resolveType true run w this = AssertionFailed
   ∧ (type rec = None →
      DeclaredType.getType true run w this = AssertionFailed))
  ∧ (is_Some (initializerSyntax rec) → is_Some (type rec) →
     DeclaredType.resolveAt true typeFuel run w this contextScopeKind
     = AssertionFailed).
Proof.
  intros Hrec Hev. split.
  - intros [syntax Hs].
    assert (DeclaredType.resolveType true run w this = AssertionFailed) as Hr.
    { unfold DeclaredType.resolveType. rewrite Hrec. simpl. rewrite Hs.
      unfold DeclaredType.guarded. by rewrite Hev. }
    split; [done|]. intros Ht. unfold DeclaredType.getType.
    rewrite Hrec. simpl. by rewrite Ht, Hr.
  - intros [init Hi] [t Ht]. unfold DeclaredType.resolveAt.
    rewrite Hrec. simpl. rewrite Hi, Ht.
    unfold DeclaredType.bindInitializer. rewrite Hrec. simpl.
    unfold DeclaredType.guarded. by rewrite Hev.
Qed.

(** ** More fuel does not change a result *)

(** [o'] returns what [o] returns, if [o] returns. *)
Definition below {A : Type} (o o' : Outcome A) : Prop :=
  ∀ x, o = Returned x → o' = Returned x.

Lemma below_refl {A : Type} (o : Outcome A) : below o o.
Proof. by intros x. Qed.

Lemma below_bind {A B : Type} (o o' : Outcome A) (f f' : A → Outcome B) :
  below o o' → (∀ a, below (f a) (f' a)) →
  below (bindOutcome o f) (bindOutcome o' f').
Proof.
  intros Ho Hf y. destruct o as [a| |]; simpl; [|done..].
  rewrite (Ho a eq_refl). simpl. apply Hf.
Qed.

Definition extends (run run' : Runner) : Prop :=
  ∀ R w s, below (run R w s) (run' R w s).

Section Monotone.

Variable assertions : bool.
Variable typeFuel : nat.
Variables run run' : Runner.
Hypothesis Hext : extends run run'.

Lemma guarded_below w this rec body body' :
  (∀ w, below (body w) (body' w)) →
  below (DeclaredType.guarded assertions w this rec body)
        (DeclaredType.guarded assertions w this rec body').
Proof using Type.
  intros Hb. unfold DeclaredType.guarded.
  destruct (assertions && evaluating rec); [apply below_refl|].
  apply below_bind; [apply Hb | intros; apply below_refl].
Qed.

Lemma resolveType_below w this :
  below (DeclaredType.resolveType assertions run w this)
        (DeclaredType.resolveType assertions run' w this).
Proof using Hext.
  unfold DeclaredType.resolveType.
  apply below_bind; [apply below_refl|]. intros rec.
  destruct (typeSyntax rec) as [syntax|]; [|apply below_refl].
  apply guarded_below. intros w1.
  destruct (isImplicitType syntax && InferImplicit (flags rec)).
  - destruct (initializerSyntax rec) as [init|]; [|apply below_refl].
    apply below_bind; [apply Hext|]. intros [e w2]. apply below_refl.
  - apply below_bind; [apply Hext|]. intros [t w2].
    destruct (dimensionSyntax rec) as [dims|]; [|apply below_refl].
    apply below_bind; [apply Hext|]. intros [t' w3]. apply below_refl.
Qed.

Lemma getType_below w this :
  below (DeclaredType.getType assertions run w this)
        (DeclaredType.getType assertions run' w this).
Proof using Hext.
  unfold DeclaredType.getType.
  apply below_bind; [apply below_refl|]. intros rec.
  destruct (type rec); [apply below_refl|].
  apply below_bind; [apply resolveType_below|]. intros w1. apply below_refl.
Qed.

Lemma bindInitializer_below w this k init :
  below (DeclaredType.bindInitializer assertions typeFuel run w this k init)
        (DeclaredType.bindInitializer assertions typeFuel run' w this k init).
Proof using Hext.
  unfold DeclaredType.bindInitializer.
  apply below_bind; [apply below_refl|]. intros rec.
  apply guarded_below. intros w1.
  apply below_bind; [apply below_refl|]. intros targetType.
  apply below_bind; [apply below_refl|]. intros isEnum.
  apply below_bind; [apply below_refl|]. intros target.
  apply below_bind; [apply Hext|]. intros [e w2]. apply below_refl.
Qed.

Lemma resolveAt_below w this k :
  below (DeclaredType.resolveAt assertions typeFuel run w this k)
        (DeclaredType.resolveAt assertions typeFuel run' w this k).
Proof using Hext.
  unfold DeclaredType.resolveAt.
  apply below_bind; [apply below_refl|]. intros rec.
  destruct (initializerSyntax rec) as [init|]; [|apply below_refl].
  destruct (type rec); [apply bindInitializer_below|].
  apply below_bind; [apply resolveType_below|]. intros w1.
  apply below_bind; [apply below_refl|]. intros rec1.
  destruct (bool_decide (is_Some (initializer_ rec1))); [apply below_refl|].
  apply bindInitializer_below.
Qed.

Lemma getInitializer_below w this :
  below (DeclaredType.getInitializer assertions typeFuel run w this)
        (DeclaredType.getInitializer assertions typeFuel run' w this).
Proof using Hext.
  unfold DeclaredType.getInitializer.
  apply below_bind; [apply below_refl|]. intros rec.
  destruct (initializer_ rec); [apply below_refl|].
  apply below_bind; [apply resolveAt_below|]. intros w1. apply below_refl.
Qed.

End Monotone.

Lemma runScript_mono assertions typeFuel fuel : ∀ fuel', fuel ≤ fuel' →
  extends (DeclaredType.runScript assertions typeFuel fuel)
          (DeclaredType.runScript assertions typeFuel fuel').
Proof.
  induction fuel as [|n IH]; intros fuel' Hle R w s; [by intros x|].
  destruct fuel' as [|n']; [lia|].
  assert (Hn : extends (DeclaredType.runScript assertions typeFuel n)
                       (DeclaredType.runScript assertions typeFuel n'))
    by (apply IH; lia).
  destruct s as [r | d k | d k | d k | c loc k]; simpl.
  - apply below_refl.
  - apply below_bind; [by apply getType_below|]. intros [t w1]. apply Hn.
  - apply below_bind; [by apply getInitializer_below|]. intros [e w1].
    apply Hn.
  - apply below_bind; [apply below_refl|]. intros rec. apply Hn.
  - apply Hn.
Qed.

(** ** Resolutions whose lookups look at the flag *)

(** What a resolution leaves as it is in a record: the syntax, the flags
    and, once it has returned, the flag [evaluating]. *)
Definition static (rec : DeclaredType) :=
  (typeSyntax rec, dimensionSyntax rec, initializerSyntax rec, flags rec,
   evaluating rec).

Definition similar (w w' : World) : Prop :=
  comp w' = comp w
  ∧ ∀ d, static <$> decls w' !! d = static <$> decls w !! d.

Lemma similar_refl w : similar w w.
Proof. by split. Qed.

Lemma similar_trans w1 w2 w3 : similar w1 w2 → similar w2 w3 → similar w1 w3.
Proof.
  intros [Hc1 H1] [Hc2 H2]. split; [congruence|].
  intros d. by rewrite H2, H1.
Qed.

Lemma similar_lookup w w' d rec :
  similar w w' → decls w !! d = Some rec →
  ∃ rec', decls w' !! d = Some rec' ∧ static rec' = static rec.
Proof.
  intros [_ H] Hrec. specialize (H d). rewrite Hrec in H.
  destruct (decls w' !! d) as [rec'|]; [|done].
  exists rec'. split; [done|]. simpl in H. congruence.
Qed.

Lemma similar_sym w w' : similar w w' → similar w' w.
Proof. intros [Hc H]. split; [done|]. intros d. by rewrite H. Qed.

Lemma similar_update w d f :
  (∀ r, static (f r) = static r) →
  similar w (DeclaredType.update w d f).
Proof.
  intros Hf. split; [done|]. intros d'. simpl.
  destruct (decide (d' = d)) as [->|Hne].
  - rewrite lookup_alter_eq. destruct (decls w !! d); [|done].
    simpl. by rewrite Hf.
  - by rewrite lookup_alter_ne.
Qed.

Lemma similar_addDiag w c loc :
  similar w (mkWorld (decls w) (comp w) (addDiag (worldDiags w) c loc)).
Proof. by split. Qed.

(** The guard, around a resolution that left the world as it was: the
    flag is set, and reset when the resolution returns. *)
Lemma guard_restores w d rec w3 :
  decls w !! d = Some rec → evaluating rec = false →
  similar (DeclaredType.update w d (λ r, DeclaredType.setEvaluating r true))
          w3 →
  similar w (DeclaredType.update w3 d
               (λ r, DeclaredType.setEvaluating r false)).
Proof.
  intros Hrec Hev [Hc H]. split; [exact Hc|].
  intros d'. specialize (H d'). simpl in *.
  destruct (decide (d' = d)) as [->|Hne].
  - rewrite lookup_alter_eq in *. rewrite Hrec in *. simpl in H.
    destruct (decls w3 !! d) as [r3|]; [|done]. simpl.
    injection H as H1 H2 H3 H4 _. unfold static. simpl.
    by rewrite H1, H2, H3, H4, Hev.
  - rewrite lookup_alter_ne in * by done. done.
Qed.

Section Guarded.

Variable assertions : bool.
Variable typeFuel : nat.

Abbreviation runS := (DeclaredType.runScript assertions typeFuel).

(** The declared types that the scripts may name, and the error type of
    the compilation. *)
Variable D : DeclPtr → Prop.
Variable err : TypePtr.

(** Scripts that reach declared types through [lookupType] only. *)
Inductive guardedScript {R : Type} : Script R → Prop :=
| guarded_Ret r : guardedScript (Ret r)
| guarded_AddDiag c loc k :
    guardedScript k → guardedScript (AddDiag c loc k)
| guarded_lookup d loc k :
    D d → (∀ t, guardedScript (k t)) →
    guardedScript (DeclaredType.lookupType err d loc k).

(** A record whose syntax is resolved and bound by such scripts. *)
Record guardedRecord (rec : DeclaredType) : Prop := mkGuardedRecord {
  guarded_type : ∀ syntax b,
    typeSyntax rec = Some syntax → guardedScript (resolveSyntax syntax b);
  guarded_dimensions : ∀ dims t,
    dimensionSyntax rec = Some dims → guardedScript (dims t);
  guarded_initializer : ∀ init,
    initializerSyntax rec = Some init →
    guardedScript (bindSelfDetermined init)
}.

(** A world of such records, in which every declared type that a script
    may name exists. *)
Record guardedWorld (w : World) : Prop := mkGuardedWorld {
  world_dom : ∀ d, D d → is_Some (decls w !! d);
  world_error : err = Compilation.getErrorType (comp w);
  world_records : ∀ d rec, decls w !! d = Some rec → guardedRecord rec
}.

(** The records that are not being evaluated are among [F]. *)
Definition freeIn (w : World) (F : gset DeclPtr) : Prop :=
  ∀ d rec, decls w !! d = Some rec → evaluating rec = false → d ∈ F.

Lemma guardedRecord_static rec rec' :
  static rec' = static rec → guardedRecord rec → guardedRecord rec'.
Proof.
  intros [= H1 H2 H3 _ _] [Ht Hd Hi].
  split; intros; [apply Ht | apply Hd | apply Hi]; congruence.
Qed.

Lemma guardedWorld_similar w w' :
  similar w w' → guardedWorld w → guardedWorld w'.
Proof.
  intros Hs [Hdom Herr Hrecs]. split.
  - intros d Hd. destruct (Hdom d Hd) as [rec Hrec].
    destruct (similar_lookup _ _ _ _ Hs Hrec) as (rec' & -> & _). done.
  - destruct Hs as [-> _]. done.
  - intros d rec' Hrec'.
    destruct (similar_lookup _ _ _ _ (similar_sym _ _ Hs) Hrec')
      as (rec & Hrec & Hst).
    eapply guardedRecord_static; [symmetry; exact Hst|]. by eapply Hrecs.
Qed.

Lemma freeIn_similar w w' F : similar w w' → freeIn w F → freeIn w' F.
Proof.
  intros Hs Hfree d rec' Hrec' Hev.
  destruct (similar_lookup _ _ _ _ (similar_sym _ _ Hs) Hrec')
    as (rec & Hrec & Hst).
  apply (Hfree d rec Hrec). injection Hst as _ _ _ _ Heq. congruence.
Qed.

Lemma guardedWorld_mark w d b :
  guardedWorld w →
  guardedWorld (DeclaredType.update w d (λ r, DeclaredType.setEvaluating r b)).
Proof.
  intros [Hdom Herr Hrecs]. split.
  - intros d' Hd'. simpl. apply lookup_alter_is_Some. by apply Hdom.
  - done.
  - intros d' rec' Hrec'. simpl in Hrec'.
    destruct (decide (d' = d)) as [->|Hne].
    + rewrite lookup_alter_eq in Hrec'.
      destruct (decls w !! d) as [rec|] eqn:Hrec; [|done].
      injection Hrec' as <-.
      destruct (Hrecs d rec Hrec) as [Ht Hd Hi]. by split.
    + rewrite lookup_alter_ne in Hrec' by done. by eapply Hrecs.
Qed.

Lemma freeIn_mark w d F :
  freeIn w F →
  freeIn (DeclaredType.update w d (λ r, DeclaredType.setEvaluating r true))
         (F ∖ {[d]}).
Proof.
  intros Hfree d' rec' Hrec' Hev. simpl in Hrec'.
  destruct (decide (d' = d)) as [->|Hne].
  - rewrite lookup_alter_eq in Hrec'.
    destruct (decls w !! d) as [rec|]; [|done]. by injection Hrec' as <-.
  - rewrite lookup_alter_ne in Hrec' by done.
    apply elem_of_difference. split; [by eapply Hfree|].
    by rewrite elem_of_singleton.
Qed.

(** The type that an update has stored. *)
Lemma type_stored w d rec t (f : DeclaredType → DeclaredType) :
  decls w !! d = Some rec → (∀ r, type (f r) = Some t) →
  decls (DeclaredType.update
           (DeclaredType.update w d f) d
           (λ r, DeclaredType.setEvaluating r false)) !! d ≫= type = Some t.
Proof.
  intros Hrec Hf. simpl. rewrite !lookup_alter_eq, Hrec. simpl. apply Hf.
Qed.

(** What is assumed of the scripts that a resolution of [d] runs: they
    return, from every world in which [d] is marked. *)
Definition returns (F : gset DeclPtr) : Prop :=
  ∀ R (s : Script R) w,
    guardedScript s → guardedWorld w → freeIn w F →
    ∃ fuel r w', runS fuel R w s = Returned (r, w') ∧ similar w w'.

Lemma runS_from (R : Type) fuel w (s : Script R) x :
  runS fuel R w s = Returned x → ∀ fuel', fuel ≤ fuel' →
  runS fuel' R w s = Returned x.
Proof.
  intros Hrun fuel' Hle.
  by apply (runScript_mono assertions typeFuel fuel fuel' Hle R w s x).
Qed.

Lemma resolveType_returns F w d rec :
  returns (F ∖ {[d]}) →
  guardedWorld w → freeIn w F →
  decls w !! d = Some rec → evaluating rec = false →
  ∃ fuel0 w' t,
    (∀ fuel, fuel0 ≤ fuel →
       DeclaredType.resolveType assertions (runS fuel) w d = Returned w')
    ∧ similar w w' ∧ decls w' !! d ≫= type = Some t.
Proof.
  intros IH Hw Hfree Hrec Hev.
  unfold DeclaredType.resolveType. rewrite Hrec.
  cbn [orAssert bindOutcome].
  destruct (typeSyntax rec) as [syntax|] eqn:Hsyn.
  2:{ exists 0, (DeclaredType.update w d (λ r,
        DeclaredType.setType r (Some (Compilation.getErrorType (comp w))))),
        (Compilation.getErrorType (comp w)).
      split; [done|]. split; [by apply similar_update|].
      simpl. by rewrite lookup_alter_eq, Hrec. }
  unfold DeclaredType.guarded. rewrite Hev, andb_false_r.
  set (we := DeclaredType.update w d
               (λ r, DeclaredType.setEvaluating r true)).
  assert (Hwe : guardedWorld we) by (by apply guardedWorld_mark).
  assert (Hfe : freeIn we (F ∖ {[d]})) by (by apply freeIn_mark).
  assert (Hrece : decls we !! d = Some (DeclaredType.setEvaluating rec true)).
  { unfold we. simpl. by rewrite lookup_alter_eq, Hrec. }
  destruct (world_records w Hw d rec Hrec) as [Gt Gd Gi].
  destruct (isImplicitType syntax && InferImplicit (flags rec)).
  - destruct (initializerSyntax rec) as [init|] eqn:Hinit.
    + destruct (IH _ (bindSelfDetermined init) we (Gi init ltac:(done)) Hwe Hfe)
        as (f1 & e & w2 & Hrun & Hsim).
      destruct (similar_lookup _ _ _ _ Hsim Hrece) as (r2 & Hr2 & _).
      eexists f1, _, (exprType e). split; [|split].
      * intros fuel Hle. rewrite (runS_from _ _ _ _ _ Hrun fuel Hle).
        cbn [bindOutcome]. reflexivity.
      * apply (guard_restores w d rec); [done | done |].
        eapply similar_trans; [exact Hsim|]. by apply similar_update.
      * by apply (type_stored w2 d r2).
    + eexists 0, _, (Compilation.getErrorType (comp we)). split; [|split].
      * intros fuel _. cbn [bindOutcome]. reflexivity.
      * apply (guard_restores w d rec); [done | done |].
        by apply similar_update.
      * by apply (type_stored we d _ _ _ Hrece).
  - destruct (IH _ (resolveSyntax syntax (ForceSigned (flags rec))) we
                (Gt syntax _ ltac:(done)) Hwe Hfe)
      as (f1 & t & w2 & Hrun & Hsim).
    destruct (similar_lookup _ _ _ _ Hsim Hrece) as (r2 & Hr2 & _).
    destruct (dimensionSyntax rec) as [dims|] eqn:Hdims.
    + set (w2' := DeclaredType.update w2 d
                    (λ r, DeclaredType.setType r (Some t))).
      assert (Hsim2 : similar we w2').
      { eapply similar_trans; [exact Hsim|]. by apply similar_update. }
      destruct (IH _ (dims t) w2' (Gd dims t ltac:(done))
                  (guardedWorld_similar _ _ Hsim2 Hwe)
                  (freeIn_similar _ _ _ Hsim2 Hfe))
        as (f2 & t' & w3 & Hrun2 & Hsim3).
      destruct (similar_lookup _ _ _ _
                  (similar_trans _ _ _ Hsim2 Hsim3) Hrece) as (r3 & Hr3 & _).
      eexists (f1 `max` f2), _, t'. split; [|split].
      * intros fuel Hle.
        rewrite (runS_from _ _ _ _ _ Hrun fuel) by lia.
        cbn [bindOutcome]. fold w2'.
        rewrite (runS_from _ _ _ _ _ Hrun2 fuel) by lia.
        cbn [bindOutcome]. reflexivity.
      * apply (guard_restores w d rec); [done | done |].
        eapply similar_trans; [exact Hsim2|].
        eapply similar_trans; [exact Hsim3|]. by apply similar_update.
      * by apply (type_stored w3 d r3).
    + eexists f1, _, t. split; [|split].
      * intros fuel Hle. rewrite (runS_from _ _ _ _ _ Hrun fuel Hle).
        cbn [bindOutcome]. reflexivity.
      * apply (guard_restores w d rec); [done | done |].
        eapply similar_trans; [exact Hsim|]. by apply similar_update.
      * by apply (type_stored w2 d r2).
Qed.

Lemma getType_returns F w d rec :
  returns (F ∖ {[d]}) →
  guardedWorld w → freeIn w F →
  decls w !! d = Some rec → evaluating rec = false →
  ∃ fuel0 t w',
    (∀ fuel, fuel0 ≤ fuel →
       DeclaredType.getType assertions (runS fuel) w d = Returned (t, w'))
    ∧ similar w w' ∧ decls w' !! d ≫= type = Some t.
Proof.
  intros IH Hw Hfree Hrec Hev.
  unfold DeclaredType.getType. rewrite Hrec. cbn [orAssert bindOutcome].
  destruct (type rec) as [t|] eqn:Ht.
  { exists 0, t, w. split; [done|]. split; [apply similar_refl|].
    by rewrite Hrec. }
  destruct (resolveType_returns F w d rec IH Hw Hfree Hrec Hev)
    as (f0 & w' & t & Hres & Hsim & Htype).
  exists f0, t, w'. split; [|done].
  intros fuel Hle. rewrite (Hres fuel Hle). cbn [bindOutcome].
  by rewrite Htype.
Qed.

(** Every script returns: the records that a nested resolution can still
    enter get fewer with every level. *)
Lemma run_guarded : ∀ n (F : gset DeclPtr), size F ≤ n → returns F.
Proof.
  intros n. induction (lt_wf n) as [n _ IHn].
  intros F HF R s w Hs. revert w.
  induction Hs as [r | c loc k Hk IHk | d loc k Hd Hk IHk];
    intros w Hw Hfree.
  - exists 1, r, w. split; [done | apply similar_refl].
  - destruct (IHk (mkWorld (decls w) (comp w) (addDiag (worldDiags w) c loc)))
      as (f & r & w' & Hrun & Hsim).
    + eapply guardedWorld_similar; [apply similar_addDiag | done].
    + eapply freeIn_similar; [apply similar_addDiag | done].
    + exists (S f), r, w'. split; [done|].
      eapply similar_trans; [apply similar_addDiag | exact Hsim].
  - destruct (world_dom w Hw d Hd) as [rec Hrec].
    destruct (evaluating rec) eqn:Hev.
    + destruct (IHk err
                  (mkWorld (decls w) (comp w)
                     (addDiag (worldDiags w) RecursiveDefinition loc)))
        as (f & r & w' & Hrun & Hsim).
      * eapply guardedWorld_similar; [apply similar_addDiag | done].
      * eapply freeIn_similar; [apply similar_addDiag | done].
      * exists (S (S f)), r, w'. split.
        -- unfold DeclaredType.lookupType.
           cbn [DeclaredType.runScript]. rewrite Hrec.
           cbn [orAssert bindOutcome]. rewrite Hev. exact Hrun.
        -- eapply similar_trans; [apply similar_addDiag | exact Hsim].
    + assert (Hin : d ∈ F) by (by eapply Hfree).
      assert (Hsize : size (F ∖ {[d]}) < n).
      { rewrite size_difference by (by apply singleton_subseteq_l).
        rewrite size_singleton.
        assert (size F ≠ 0); [|lia].
        intros H0. apply size_empty_inv in H0.
        rewrite H0 in Hin. by apply not_elem_of_empty in Hin. }
      destruct (getType_returns F w d rec
                  (IHn _ Hsize (F ∖ {[d]}) (Nat.le_refl _))
                  Hw Hfree Hrec Hev)
        as (f0 & t & w1 & Hget & Hsim & _).
      destruct (IHk t w1 (guardedWorld_similar _ _ Hsim Hw)
                  (freeIn_similar _ _ _ Hsim Hfree))
        as (f1 & r & w' & Hrun & Hsim').
      exists (S (S (f0 `max` f1))), r, w'. split.
      * unfold DeclaredType.lookupType.
        cbn [DeclaredType.runScript]. rewrite Hrec.
        cbn [orAssert bindOutcome]. rewrite Hev.
        rewrite (Hget (f0 `max` f1)) by lia. cbn [bindOutcome].
        apply (runS_from _ _ _ _ _ Hrun). lia.
      * eapply similar_trans; [exact Hsim | exact Hsim'].
Qed.

End Guarded.

(** A world whose binder reaches declared types through the name lookup
    only, with the error type of its compilation for the refused
    references. *)
Definition guardedResolution (w : World) : Prop :=
  guardedWorld (λ d, is_Some (decls w !! d))
    (Compilation.getErrorType (comp w)) w.

(** A reference to the symbol with the declared type [d], as an
    initializer: both ways of binding it look the name up. *)
Definition nameOf (w : World) (d : DeclPtr) (loc : SourceLocation)
  : ExpressionSyntax :=
  mkExprSyntax
    (DeclaredType.lookupType (Compilation.getErrorType (comp w)) d loc
       (λ t, Ret (mkBound d t)))
    (λ _ _, DeclaredType.lookupType (Compilation.getErrorType (comp w)) d loc
       (λ t, Ret (mkBound d t)))
    loc.

Lemma freeIn_dom w : freeIn w (dom (decls w)).
Proof. intros d rec Hrec _. apply elem_of_dom. by exists rec. Qed.

(** The resolution of [d] whose initializer names a symbol that is being
    evaluated: one diagnostic, and the error type. *)
Lemma resolveType_reentry assertions typeFuel w d rec syntax d' rec' loc fuel :
  decls w !! d = Some rec → evaluating rec = false →
  typeSyntax rec = Some syntax → isImplicitType syntax = true →
  InferImplicit (flags rec) = true →
  initializerSyntax rec = Some (nameOf w d' loc) →
  decls (DeclaredType.update w d
           (λ r, DeclaredType.setEvaluating r true)) !! d' = Some rec' →
  evaluating rec' = true →
  ∃ w',
    DeclaredType.resolveType assertions
      (DeclaredType.runScript assertions typeFuel (3 + fuel)) w d
    = Returned w'
    ∧ decls w' !! d ≫= type = Some (Compilation.getErrorType (comp w))
    ∧ worldDiags w' = addDiag (worldDiags w) RecursiveDefinition loc
    ∧ similar w w'
    ∧ ∀ d0, d0 ≠ d → decls w' !! d0 = decls w !! d0.
Proof.
  intros Hrec Hev Hsyn Himp Hinf Hinit Hrec' Hev'.
  unfold DeclaredType.resolveType. rewrite Hrec.
  cbn [orAssert bindOutcome]. rewrite Hsyn.
  unfold DeclaredType.guarded. rewrite Hev, andb_false_r, Himp, Hinf, Hinit.
  cbn [andb nameOf bindSelfDetermined].
  unfold DeclaredType.lookupType.
  cbn [plus DeclaredType.runScript]. rewrite Hrec'.
  cbn [orAssert bindOutcome]. rewrite Hev'. cbn [bindOutcome].
  eexists. split; [reflexivity|]. repeat apply conj.
  - simpl. by rewrite !lookup_alter_eq, Hrec.
  - done.
  - done.
  - intros d0. simpl.
    destruct (decide (d0 = d)) as [->|Hne].
    + rewrite !lookup_alter_eq, Hrec. simpl. unfold static. simpl.
      by rewrite Hev.
    + by rewrite !lookup_alter_ne.
  - intros d0 Hne. simpl. by rewrite !lookup_alter_ne.
Qed.


(** [parameter a = b; parameter b = a;]: two parameters of implicit type,
    each with an initializer that names the other one.  [e0] and [e1] are
    the states of the two flags. *)
Definition implicitSyntax : DataTypeSyntax :=
  mkTypeSyntax true (λ _, Ret 4).

Definition emptyWorld : World := mkWorld ∅ (mkCompilation heap0 5 [] 0) [].

Definition parameterRecord (other : DeclPtr) (loc : SourceLocation)
    (e : bool) : DeclaredType :=
  mkDeclared (Some implicitSyntax) None (Some (nameOf emptyWorld other loc))
    (mkFlags true true false false) CompilationUnit None None e.

Definition cyclicWorld (e0 e1 : bool) : World :=
  mkWorld (<[0 := parameterRecord 1 14 e0]> {[1 := parameterRecord 0 29 e1]})
    (comp emptyWorld) [].

Lemma cyclicWorld_lookup e0 e1 d rec :
  decls (cyclicWorld e0 e1) !! d = Some rec →
  (d = 0 ∧ rec = parameterRecord 1 14 e0)
  ∨ (d = 1 ∧ rec = parameterRecord 0 29 e1).
Proof.
  unfold cyclicWorld. simpl. intros H.
  destruct (decide (d = 0)) as [->|H0].
  - rewrite lookup_insert_eq in H. left. split; congruence.
  - rewrite lookup_insert_ne in H by done.
    apply lookup_singleton_Some in H as [<- <-]. by right.
Qed.

Lemma cyclicWorld_guarded e0 e1 : guardedResolution (cyclicWorld e0 e1).
Proof.
  assert (∀ other loc e,
            other < 2 →
            guardedRecord (λ d, is_Some (decls (cyclicWorld e0 e1) !! d))
              (Compilation.getErrorType (comp (cyclicWorld e0 e1)))
              (parameterRecord other loc e)) as Hrecord.
  { intros other loc e Hlt. split.
    - intros syntax b [= <-]. apply guarded_Ret.
    - intros dims t [=].
    - intros init [= <-]. apply guarded_lookup.
      + destruct other as [|[|?]]; [by eexists..|lia].
      + intros t. apply guarded_Ret. }
  split.
  - done.
  - done.
  - intros d rec Hrec.
    destruct (cyclicWorld_lookup _ _ _ _ Hrec) as [[_ ->]|[_ ->]];
      apply Hrecord; lia.
Qed.


(** The whole scenario, from the first request for the type of [a], with
    and without assertions: both parameters get the error type, and one
    [RecursiveDefinition] is reported, at the name [a] in the initializer
    of [b]. *)
Example cyclic_parameters (assertions : bool) :
  ∃ w',
    DeclaredType.getType assertions
      (DeclaredType.runScript assertions 3 8) (cyclicWorld false false) 0
    = Returned (0, w')
    ∧ type <$> decls w' !! 0 = Some (Some 0)
    ∧ type <$> decls w' !! 1 = Some (Some 0)
    ∧ evaluating <$> decls w' !! 0 = Some false
    ∧ evaluating <$> decls w' !! 1 = Some false
    ∧ worldDiags w' = [mkDiag RecursiveDefinition 29 []]
    ∧ DeclaredType.getType assertions
        (DeclaredType.runScript assertions 3 8) w' 1
      = Returned (0, w').
Proof.
  destruct assertions; eexists; repeat apply conj; reflexivity.
Qed.
(** * Constant evaluation *)

(** The value of the left operand that decides a short-circuit operator, and
    the result it decides: false for [&&] (0), true for [||] (1), false for
    [->] (1). *)
Definition determined (ops : ValueOps) (op : BinaryOperator.t)
    (cvl : ConstantValue) : option bool :=
  match op with
  | BinaryOperator.LogicalAnd => if isFalse ops cvl then Some false else None
  | BinaryOperator.LogicalOr => if isTrue ops cvl then Some true else None
  | BinaryOperator.LogicalImplication =>
      if isFalse ops cvl then Some true else None
  | _ => None
  end.

Definition boolValue (b : bool) : ConstantValue :=
  IntegerV (SVInt.make 1 (if b then 1 else 0) false).

Section EvalFacts.

Variable ops : ValueOps.
Variable h : Heap.
Variable fuel : nat.
Variable evalLValueOp :
  UnaryOperator.t → Expression → EvalContext
  → option (ConstantValue * EvalContext).

Abbreviation eval' := (eval ops h fuel evalLValueOp).

(** [Expression::eval] on a node without a memoized constant that is not
    bad is the [evalImpl] of its class. *)
Lemma eval_BinaryExpression hd op lhs rhs ctx :
  constant hd = None → isBad hd = false →
  eval' (BinaryExpression hd op lhs rhs) ctx
  = BinaryExpression_evalImpl ops eval' op lhs rhs ctx.
Proof. intros Hc Hb. simpl. by rewrite Hc, Hb. Qed.

Lemma eval_ElementSelectExpression hd val selector ctx :
  constant hd = None → isBad hd = false →
  eval' (ElementSelectExpression hd val selector) ctx
  = ElementSelectExpression_evalImpl ops h fuel eval' hd val selector ctx.
Proof. intros Hc Hb. simpl. by rewrite Hc, Hb. Qed.

Lemma eval_RangeSelectExpression hd k val lhs rhs ctx :
  constant hd = None → isBad hd = false →
  eval' (RangeSelectExpression hd k val lhs rhs) ctx
  = RangeSelectExpression_evalImpl ops h fuel eval' hd k val lhs rhs ctx.
Proof. intros Hc Hb. simpl. by rewrite Hc, Hb. Qed.

Lemma eval_NamedValueExpression hd symbol hier ctx :
  constant hd = None → isBad hd = false →
  eval' (NamedValueExpression hd symbol hier) ctx
  = NamedValueExpression_evalImpl ops hd symbol hier ctx.
Proof. intros Hc Hb. simpl. by rewrite Hc, Hb. Qed.

(** The short-circuit decision of [BinaryExpression::evalImpl] is
    [determined]. *)
Lemma determined_spec op cvl :
  (if isShortCircuitOp op then
     match op with
     | BinaryOperator.LogicalOr => if isTrue ops cvl then Some true else None
     | BinaryOperator.LogicalAnd => if isFalse ops cvl then Some false else None
     | BinaryOperator.LogicalImplication =>
         if isFalse ops cvl then Some true else None
     | _ => None
     end
   else None) = determined ops op cvl.
Proof. by destruct op. Qed.

(** C6 (as amended).  Short-circuit evaluation in
    [BinaryExpression::evalImpl], with the left operand evaluating to [cvl]
    and leaving the context [ctx1]:
    - if [cvl] is the invalid value, the result is the invalid value and
      the right operand is not evaluated;
    - if [cvl] is valid and decides the operator (false for [&&], true for
      [||], false for [->]), the result is the decided 1-bit value and the
      right operand is not evaluated: result and context are those after
      the left operand, whatever the right operand is;
    - in all other cases the right operand is evaluated next, in [ctx1],
      and the result is the invalid value if it is invalid and the
      operator applied to both values otherwise. *)
Theorem short_circuit (op : BinaryOperator.t) (lhs rhs : Expression)
    (ctx ctx1 : EvalContext) (cvl : ConstantValue) :
  eval' lhs ctx = Some (cvl, ctx1) →
  (bad cvl = true →
   BinaryExpression_evalImpl ops eval' op lhs rhs ctx = Some (Invalid, ctx1))
  ∧ (∀ b, bad cvl = false → determined ops op cvl = Some b →
     BinaryExpression_evalImpl ops eval' op lhs rhs ctx
     = Some (boolValue b, ctx1))
  ∧ (bad cvl = false → determined ops op cvl = None →
     BinaryExpression_evalImpl ops eval' op lhs rhs ctx
     = '(cvr, ctx2) ← eval' rhs ctx1;
       if bad cvr then Some (Invalid, ctx2)
       else r ← evalBinaryOperator ops op cvl cvr; Some (r, ctx2)).
Proof.
  intros Hl. unfold BinaryExpression_evalImpl. rewrite Hl. simpl.
  rewrite determined_spec. split; [|split].
  - by intros ->.
  - intros b -> ->. done.
  - intros -> ->. done.
Qed.

(** C10.  A bound expression (any kind but the invalid placeholder) whose
    precomputed constant is set evaluates to exactly that constant, in
    every context and without changing the context; so any two
    evaluations, in any two contexts, give the same value. *)
Theorem eval_memoized_constant (e : Expression) (c : ConstantValue) :
  exprKind e ≠ ExpressionKind.Invalid → constant (header e) = Some c →
  (∀ ctx, eval' e ctx = Some (c, ctx))
  ∧ (∀ ctx1 ctx2, fst <$> eval' e ctx1 = fst <$> eval' e ctx2).
Proof.
  intros Hk Hc.
  assert (∀ ctx, eval' e ctx = Some (c, ctx)) as Heval.
  { intros ctx. destruct e; simpl in *; try (by rewrite Hc). done. }
  split; [done|]. intros ctx1 ctx2. by rewrite !Heval.
Qed.

(** ** Selects out of bounds *)

(** The index of an element select is invalid for an array type when it
    has no [int32_t] representation or lies outside the range of the
    array. *)
Definition indexInvalid (range : ConstantRange) (csi : SVInt) : Prop :=
  as_int32 ops csi = None
  ∨ ∃ i, as_int32 ops csi = Some i ∧ ConstantRange.containsPoint range i = false.

Lemma checkArrayIndex_invalid ctx type csi str loc range :
  Type_.isString fuel h type = Some false →
  Type_.getArrayRange fuel h type = Some range →
  indexInvalid range csi →
  checkArrayIndex ops h fuel ctx type (IntegerV csi) str loc
  = Some (None, EvalContext.addDiag ctx NoteArrayIndexInvalid loc).
Proof.
  intros Hs Hr Hinv. unfold checkArrayIndex. rewrite Hs, Hr. simpl.
  destruct Hinv as [-> | (i & -> & Hc)]; [done|]. by rewrite Hc.
Qed.

Lemma element_select_invalid hd val selector ctx cv c1 csi c2 range :
  eval' val ctx = Some (cv, c1) →
  eval' selector c1 = Some (IntegerV csi, c2) →
  bad cv = false →
  Type_.isString fuel h (exprTypePtr (header val)) = Some false →
  Type_.getArrayRange fuel h (exprTypePtr (header val)) = Some range →
  indexInvalid range csi →
  ElementSelectExpression_evalImpl ops h fuel eval' hd val selector ctx
  = Some (Invalid, EvalContext.addDiag c2 NoteArrayIndexInvalid (exprRange hd)).
Proof.
  intros Hv Hsel Hcv Hs Hr Hinv. unfold ElementSelectExpression_evalImpl.
  rewrite Hv. simpl. rewrite Hsel. simpl. rewrite Hcv, Hs. simpl.
  rewrite Hr. simpl.
  destruct Hinv as [-> | (i & -> & Hc)]; [done|]. simpl. by rewrite Hc.
Qed.

Lemma range_select_unrepresentable hd k val lhs rhs ctx cv c1 cli c2 cr c3
    valueRange :
  eval' val ctx = Some (cv, c1) →
  eval' lhs c1 = Some (IntegerV cli, c2) →
  eval' rhs c2 = Some (cr, c3) →
  bad cv = false → bad cr = false →
  Type_.getArrayRange fuel h (exprTypePtr (header val)) = Some valueRange →
  k ≠ RangeSelectionKind.Simple →
  as_int32 ops cli = None →
  RangeSelectExpression_evalImpl ops h fuel eval' hd k val lhs rhs ctx
  = Some (Invalid, EvalContext.addDiag c3 NoteArrayIndexInvalid (exprRange hd)).
Proof.
  intros Hv Hl Hr Hcv Hcr Hrange Hk Hnone.
  unfold RangeSelectExpression_evalImpl.
  rewrite Hv. simpl. rewrite Hl. simpl. rewrite Hr. simpl.
  rewrite Hcv, Hcr. simpl.
  unfold RangeSelectExpression_getRange. rewrite Hrange. simpl.
  rewrite bool_decide_eq_false_2 by done. by rewrite Hnone.
Qed.

(** The range that a range select asks for: the range of its own type for
    the simple form, the indexed range computed from both evaluated bounds
    otherwise. *)
Definition selectedRange (hd : Header) (k : RangeSelectionKind.t)
    (valueRange : ConstantRange) (cl cr : ConstantValue)
  : option ConstantRange :=
  if bool_decide (k = RangeSelectionKind.Simple)
  then Type_.getArrayRange fuel h (exprTypePtr hd)
  else
    match cl, cr with
    | IntegerV cli, IntegerV cri =>
        l ← as_int32 ops cli;
        r ← as_int32 ops cri;
        Some (getIndexedRange ops k l r (ConstantRange.isLittleEndian valueRange))
    | _, _ => None
    end.

Lemma range_select_outside hd k val lhs rhs ctx cv c1 cl c2 cr c3
    valueRange result :
  eval' val ctx = Some (cv, c1) →
  eval' lhs c1 = Some (cl, c2) →
  eval' rhs c2 = Some (cr, c3) →
  bad cv = false → bad cl = false → bad cr = false →
  Type_.getArrayRange fuel h (exprTypePtr (header val)) = Some valueRange →
  selectedRange hd k valueRange cl cr = Some result →
  ConstantRange.containsPoint valueRange (left result) = false
  ∨ ConstantRange.containsPoint valueRange (right result) = false →
  RangeSelectExpression_evalImpl ops h fuel eval' hd k val lhs rhs ctx
  = Some (Invalid, EvalContext.addDiag c3 NotePartSelectInvalid (exprRange hd)).
Proof.
  intros Hv Hl Hr Hcv Hcl Hcr Hrange Hsel Hout.
  assert (negb (ConstantRange.containsPoint valueRange (left result))
          || negb (ConstantRange.containsPoint valueRange (right result))
          = true) as Hout'.
  { destruct Hout as [-> | ->]; [done|]. by rewrite orb_true_r. }
  unfold RangeSelectExpression_evalImpl.
  rewrite Hv. simpl. rewrite Hl. simpl. rewrite Hr. simpl.
  rewrite Hcv, Hcl, Hcr. simpl.
  unfold RangeSelectExpression_getRange. rewrite Hrange. simpl.
  unfold selectedRange in Hsel. case_bool_decide.
  - rewrite Hsel. simpl. by rewrite Hout'.
  - destruct cl as [|cli| | | | |]; try discriminate.
    destruct cr as [|cri| | | | |]; try discriminate.
    destruct (as_int32 ops cli) as [l|]; [|discriminate]. simpl in Hsel.
    destruct (as_int32 ops cri) as [r|]; [|discriminate]. simpl in Hsel.
    injection Hsel as <-. simpl. by rewrite Hout'.
Qed.

(** ** Propagation of the invalid value *)

Lemma unary_propagates op operand ctx c1 :
  isLValueOp op = false →
  eval' operand ctx = Some (Invalid, c1) →
  UnaryExpression_evalImpl ops evalLValueOp eval' op operand ctx
  = Some (Invalid, c1).
Proof.
  intros Hop He. unfold UnaryExpression_evalImpl. by rewrite Hop, He.
Qed.

Lemma binary_propagates_right op lhs rhs ctx cvl c1 c2 :
  eval' lhs ctx = Some (cvl, c1) → bad cvl = false →
  determined ops op cvl = None →
  eval' rhs c1 = Some (Invalid, c2) →
  BinaryExpression_evalImpl ops eval' op lhs rhs ctx = Some (Invalid, c2).
Proof.
  intros Hl Hb Hd Hr. unfold BinaryExpression_evalImpl. rewrite Hl. simpl.
  rewrite determined_spec, Hb, Hd. by rewrite Hr.
Qed.

Lemma binary_propagates_left op lhs rhs ctx c1 :
  eval' lhs ctx = Some (Invalid, c1) →
  BinaryExpression_evalImpl ops eval' op lhs rhs ctx = Some (Invalid, c1).
Proof. intros Hl. unfold BinaryExpression_evalImpl. by rewrite Hl. Qed.

Lemma conversion_adds_nothing hd operand ctx value c1 :
  constant hd = None → isBad hd = false →
  eval' operand ctx = Some (value, c1) →
  eval' (ConversionExpression hd operand) ctx
  = r ← convertTo ops (exprTypePtr hd) value; Some (r, c1).
Proof. intros Hc Hb He. simpl. rewrite Hc, Hb. by rewrite He. Qed.

Lemma eval_ConcatenationExpression_invalid hd operand rest ctx c1 isStr :
  constant hd = None → isBad hd = false →
  Type_.isString fuel h (exprTypePtr hd) = Some isStr →
  eval' operand ctx = Some (Invalid, c1) →
  eval' (ConcatenationExpression hd (operand :: rest)) ctx
  = Some (Invalid, c1).
Proof.
  intros Hc Hb Hs He. cbn [eval header]. rewrite Hc, Hb, Hs. simpl.
  by rewrite He.
Qed.

Lemma conditional_propagates hd pred lhs rhs ctx :
  (∀ c1, eval' pred ctx = Some (Invalid, c1) →
     ConditionalExpression_evalImpl ops eval' hd pred lhs rhs ctx
     = Some (Invalid, c1))
  ∧ (∀ cp c1, eval' pred ctx = Some (cp, c1) → bad cp = false →
       (∀ p, cp = IntegerV p → SVInt.hasUnknown p = false) →
       ConditionalExpression_evalImpl ops eval' hd pred lhs rhs ctx
       = if isTrue ops cp then eval' lhs c1 else eval' rhs c1)
  ∧ (∀ p c1 cvl c2 cvr c3, eval' pred ctx = Some (IntegerV p, c1) →
       SVInt.hasUnknown p = true →
       eval' lhs c1 = Some (cvl, c2) → eval' rhs c2 = Some (cvr, c3) →
       bad cvl || bad cvr = true →
       ConditionalExpression_evalImpl ops eval' hd pred lhs rhs ctx
       = Some (Invalid, c3)).
Proof.
  unfold ConditionalExpression_evalImpl. split; [|split].
  - by intros c1 ->.
  - intros cp c1 -> Hb Hk. simpl. rewrite Hb.
    destruct cp; try done. by rewrite (Hk _ eq_refl).
  - intros p c1 cvl c2 cvr c3 -> Hu Hl Hr Hbad. simpl.
    rewrite Hu, Hl. simpl. rewrite Hr. simpl. by rewrite Hbad.
Qed.

Lemma element_select_propagates hd val selector ctx cv c1 cs c2 :
  eval' val ctx = Some (cv, c1) → eval' selector c1 = Some (cs, c2) →
  bad cv || bad cs = true →
  ElementSelectExpression_evalImpl ops h fuel eval' hd val selector ctx
  = Some (Invalid, c2).
Proof.
  intros Hv Hs Hb. unfold ElementSelectExpression_evalImpl.
  rewrite Hv. simpl. rewrite Hs. simpl. by rewrite Hb.
Qed.

Lemma range_select_propagates hd k val lhs rhs ctx cv c1 cl c2 cr c3 :
  eval' val ctx = Some (cv, c1) → eval' lhs c1 = Some (cl, c2) →
  eval' rhs c2 = Some (cr, c3) →
  bad cv || bad cl || bad cr = true →
  RangeSelectExpression_evalImpl ops h fuel eval' hd k val lhs rhs ctx
  = Some (Invalid, c3).
Proof.
  intros Hv Hl Hr Hb. unfold RangeSelectExpression_evalImpl.
  rewrite Hv. simpl. rewrite Hl. simpl. rewrite Hr. simpl. by rewrite Hb.
Qed.

Lemma member_access_propagates hd val field ctx c1 :
  eval' val ctx = Some (Invalid, c1) →
  MemberAccessExpression_evalImpl ops h fuel eval' hd val field ctx
  = Some (Invalid, c1).
Proof. intros Hv. unfold MemberAccessExpression_evalImpl. by rewrite Hv. Qed.

Lemma concat_propagates operand rest ctx c1 acc :
  eval' operand ctx = Some (Invalid, c1) →
  concatOperands h fuel eval' (operand :: rest) ctx acc = Some (None, c1).
Proof. intros He. simpl. by rewrite He. Qed.

(** The operands [pre] of a concatenation evaluate to valid values, one
    after the other, from the context [ctx] to the context [c']. *)
Fixpoint evaluatesValid (pre : list Expression) (ctx c' : EvalContext)
  : Prop :=
  match pre with
  | [] => c' = ctx
  | operand :: rest =>
      ∃ v c1 isVoid,
        eval' operand ctx = Some (v, c1) ∧ bad v = false
        ∧ Type_.kindIs VoidType fuel h (exprTypePtr (header operand))
          = Some isVoid
        ∧ evaluatesValid rest c1 c'
  end.

Lemma concatOperands_invalid pre : ∀ operand rest ctx c0 c1 acc,
  evaluatesValid pre ctx c0 →
  eval' operand c0 = Some (Invalid, c1) →
  concatOperands h fuel eval' (pre ++ operand :: rest) ctx acc
  = Some (None, c1).
Proof.
  induction pre as [|e pre IH]; intros operand rest ctx c0 c1 acc Hpre He.
  - simpl in Hpre. subst c0. simpl. by rewrite He.
  - destruct Hpre as (v & c2 & isVoid & Hv & Hb & Hvoid & Hpre).
    cbn [app concatOperands]. rewrite Hv. cbn [mbind option_bind].
    rewrite Hb, Hvoid. cbn [mbind option_bind]. by eapply IH.
Qed.

Lemma concatenation_propagates hd pre operand rest ctx c0 c1 isStr :
  constant hd = None → isBad hd = false →
  Type_.isString fuel h (exprTypePtr hd) = Some isStr →
  evaluatesValid pre ctx c0 →
  eval' operand c0 = Some (Invalid, c1) →
  eval' (ConcatenationExpression hd (pre ++ operand :: rest)) ctx
  = Some (Invalid, c1).
Proof.
  intros Hc Hb Hs Hpre He. cbn [eval header]. rewrite Hc, Hb, Hs.
  cbn [mbind option_bind].
  by rewrite (concatOperands_invalid pre operand rest ctx c0 c1 [] Hpre He).
Qed.

Lemma conditional_selected_invalid hd pred lhs rhs ctx cp c1 c2 :
  eval' pred ctx = Some (cp, c1) → bad cp = false →
  (∀ p, cp = IntegerV p → SVInt.hasUnknown p = false) →
  eval' (if isTrue ops cp then lhs else rhs) c1 = Some (Invalid, c2) →
  ConditionalExpression_evalImpl ops eval' hd pred lhs rhs ctx
  = Some (Invalid, c2).
Proof.
  intros Hp Hb Hk Harm.
  destruct (conditional_propagates hd pred lhs rhs ctx) as (_ & H & _).
  rewrite (H cp c1 Hp Hb Hk). by destruct (isTrue ops cp).
Qed.

(** C7 (as amended).  Selects out of bounds, with the operands evaluated
    to valid values in the order of the source:
    - an element select on a value that is not a string, whose index has no
      [int32_t] representation or lies outside the array range of the
      value, records [NoteArrayIndexInvalid] at the select and produces the
      invalid value;
    - an indexed range select whose left bound has no [int32_t]
      representation records [NoteArrayIndexInvalid] as well, not
      [NotePartSelectInvalid], and produces the invalid value;
    - a range select whose selected range (the range of its own type for
      the simple form, the indexed range of both bounds otherwise) has an
      end outside the array range of the value records
      [NotePartSelectInvalid] and produces the invalid value;
    - an enclosing unary, binary, conditional, element select, range
      select, member access or concatenation node whose operand evaluates
      to the invalid value produces the invalid value and leaves the
      context as the evaluation of its operands left it: the node records
      nothing.  For the conditional this is the predicate, the arm that a
      known predicate selects, or either arm under a predicate with
      unknown bits; for the concatenation it is any operand, the operands
      before it having evaluated to valid values. *)
Theorem select_out_of_bounds :
  (∀ hd val selector ctx cv c1 csi c2 range,
     eval' val ctx = Some (cv, c1) →
     eval' selector c1 = Some (IntegerV csi, c2) →
     bad cv = false →
     Type_.isString fuel h (exprTypePtr (header val)) = Some false →
     Type_.getArrayRange fuel h (exprTypePtr (header val)) = Some range →
     indexInvalid range csi →
     ElementSelectExpression_evalImpl ops h fuel eval' hd val selector ctx
     = Some (Invalid,
             EvalContext.addDiag c2 NoteArrayIndexInvalid (exprRange hd)))
  ∧ (∀ hd k val lhs rhs ctx cv c1 cli c2 cr c3 valueRange,
       eval' val ctx = Some (cv, c1) →
       eval' lhs c1 = Some (IntegerV cli, c2) →
       eval' rhs c2 = Some (cr, c3) →
       bad cv = false → bad cr = false →
       Type_.getArrayRange fuel h (exprTypePtr (header val))
       = Some valueRange →
       k ≠ RangeSelectionKind.Simple →
       as_int32 ops cli = None →
       RangeSelectExpression_evalImpl ops h fuel eval' hd k val lhs rhs ctx
       = Some (Invalid,
               EvalContext.addDiag c3 NoteArrayIndexInvalid (exprRange hd)))
  ∧ (∀ hd k val lhs rhs ctx cv c1 cl c2 cr c3 valueRange result,
       eval' val ctx = Some (cv, c1) →
       eval' lhs c1 = Some (cl, c2) →
       eval' rhs c2 = Some (cr, c3) →
       bad cv = false → bad cl = false → bad cr = false →
       Type_.getArrayRange fuel h (exprTypePtr (header val))
       = Some valueRange →
       selectedRange hd k valueRange cl cr = Some result →
       ConstantRange.containsPoint valueRange (left result) = false
       ∨ ConstantRange.containsPoint valueRange (right result) = false →
       RangeSelectExpression_evalImpl ops h fuel eval' hd k val lhs rhs ctx
       = Some (Invalid,
               EvalContext.addDiag c3 NotePartSelectInvalid (exprRange hd)))
  ∧ (∀ op operand ctx c1,
       isLValueOp op = false →
       eval' operand ctx = Some (Invalid, c1) →
       UnaryExpression_evalImpl ops evalLValueOp eval' op operand ctx
       = Some (Invalid, c1))
  ∧ (∀ op lhs rhs ctx c1,
       eval' lhs ctx = Some (Invalid, c1) →
       BinaryExpression_evalImpl ops eval' op lhs rhs ctx
       = Some (Invalid, c1))
  ∧ (∀ op lhs rhs ctx cvl c1 c2,
       eval' lhs ctx = Some (cvl, c1) → bad cvl = false →
       determined ops op cvl = None →
       eval' rhs c1 = Some (Invalid, c2) →
       BinaryExpression_evalImpl ops eval' op lhs rhs ctx
       = Some (Invalid, c2))
  ∧ (∀ hd pred lhs rhs ctx c1,
       eval' pred ctx = Some (Invalid, c1) →
       ConditionalExpression_evalImpl ops eval' hd pred lhs rhs ctx
       = Some (Invalid, c1))
  ∧ (∀ hd pred lhs rhs ctx cp c1 c2,
       eval' pred ctx = Some (cp, c1) → bad cp = false →
       (∀ p, cp = IntegerV p → SVInt.hasUnknown p = false) →
       eval' (if isTrue ops cp then lhs else rhs) c1 = Some (Invalid, c2) →
       ConditionalExpression_evalImpl ops eval' hd pred lhs rhs ctx
       = Some (Invalid, c2))
  ∧ (∀ hd pred lhs rhs ctx p c1 cvl c2 cvr c3,
       eval' pred ctx = Some (IntegerV p, c1) →
       SVInt.hasUnknown p = true →
       eval' lhs c1 = Some (cvl, c2) → eval' rhs c2 = Some (cvr, c3) →
       bad cvl || bad cvr = true →
       ConditionalExpression_evalImpl ops eval' hd pred lhs rhs ctx
       = Some (Invalid, c3))
  ∧ (∀ hd val selector ctx cv c1 cs c2,
       eval' val ctx = Some (cv, c1) → eval' selector c1 = Some (cs, c2) →
       bad cv || bad cs = true →
       ElementSelectExpression_evalImpl ops h fuel eval' hd val selector ctx
       = Some (Invalid, c2))
  ∧ (∀ hd k val lhs rhs ctx cv c1 cl c2 cr c3,
       eval' val ctx = Some (cv, c1) → eval' lhs c1 = Some (cl, c2) →
       eval' rhs c2 = Some (cr, c3) →
       bad cv || bad cl || bad cr = true →
       RangeSelectExpression_evalImpl ops h fuel eval' hd k val lhs rhs ctx
       = Some (Invalid, c3))
  ∧ (∀ hd val field ctx c1,
       eval' val ctx = Some (Invalid, c1) →
       MemberAccessExpression_evalImpl ops h fuel eval' hd val field ctx
       = Some (Invalid, c1))
  ∧ (∀ hd pre operand rest ctx c0 c1 isStr,
       constant hd = None → isBad hd = false →
       Type_.isString fuel h (exprTypePtr hd) = Some isStr →
       evaluatesValid pre ctx c0 →
       eval' operand c0 = Some (Invalid, c1) →
       eval' (ConcatenationExpression hd (pre ++ operand :: rest)) ctx
       = Some (Invalid, c1)).
Proof.
  repeat apply conj.
  - apply element_select_invalid.
  - apply range_select_unrepresentable.
  - apply range_select_outside.
  - apply unary_propagates.
  - apply binary_propagates_left.
  - apply binary_propagates_right.
  - intros hd pred lhs rhs ctx.
    by destruct (conditional_propagates hd pred lhs rhs ctx) as (H & _ & _).
  - apply conditional_selected_invalid.
  - intros hd pred lhs rhs ctx.
    by destruct (conditional_propagates hd pred lhs rhs ctx) as (_ & _ & H).
  - apply element_select_propagates.
  - apply range_select_propagates.
  - apply member_access_propagates.
  - apply concatenation_propagates.
Qed.

(** ** Named values *)

(** A verification that passes reports nothing. *)
Lemma verifyConstantImpl_ok hd symbol hier ctx ctx' :
  NamedValueExpression_verifyConstantImpl ops hd symbol hier ctx
  = Some (true, ctx') →
  ctx' = ctx.
Proof.
  unfold NamedValueExpression_verifyConstantImpl. intros H.
  repeat (case_match; simplify_option_eq); done.
Qed.

(** C9 (as amended).  A named reference to a parameter, with the verdict
    [ok] and the context [ctx'] that [verifyConstantImpl] leaves:
    - when the parent scope of the parameter belongs to a definition, the
      evaluation yields the invalid value whatever the parameter holds, in
      the context that the verification left: nothing is reported after
      the verification, and nothing at all when the verification passes;
    - when the parent scope belongs to anything else (an instance, the
      temporary instance of the override resolution) and the verification
      passes, the evaluation yields the value of the parameter. *)
Theorem parameter_in_definition (hd : Header) (symbol : Symbol)
    (hier : bool) (ctx : EvalContext) (scope : ScopePtr)
    (parentKind : SymbolKind) (outer : list (ScopePtr * SymbolKind))
    (ok : bool) (ctx' : EvalContext) :
  symKind symbol = ParameterSym →
  parentScopes symbol = (scope, parentKind) :: outer →
  NamedValueExpression_verifyConstantImpl ops hd symbol hier ctx
  = Some (ok, ctx') →
  (parentKind = DefinitionSym →
   NamedValueExpression_evalImpl ops hd symbol hier ctx = Some (Invalid, ctx')
   ∧ (ok = true → ctx' = ctx))
  ∧ (parentKind ≠ DefinitionSym → ok = true →
     NamedValueExpression_evalImpl ops hd symbol hier ctx
     = Some (getValue symbol, ctx)).
Proof.
  intros Hk Hp Hv. unfold NamedValueExpression_evalImpl.
  rewrite Hv. simpl. rewrite Hk, Hp. simpl. split.
  - intros ->. split.
    + by destruct ok.
    + intros ->. by eapply verifyConstantImpl_ok.
  - intros Hne ->. simpl. rewrite bool_decide_eq_false_2 by done.
    by rewrite (verifyConstantImpl_ok _ _ _ _ _ Hv).
Qed.

End EvalFacts.
(** ** Worked evaluations *)

(** The two's complement reading of a two-state integer. *)
Definition signedValue (v : SVInt) : Z :=
  if signFlag v && (2 ^ (width v - 1) <=? value v)%Z
  then (value v - 2 ^ width v)%Z else value v.

(** An instance of the value operations for integers without unknown
    bits, enough to run the examples below. *)
Definition exampleOps : ValueOps := {|
  isTrue := λ cv,
    match cv with
    | IntegerV i => negb (SVInt.hasUnknown i) && negb (value i =? 0)%Z
    | _ => false
    end;
  isFalse := λ cv,
    match cv with
    | IntegerV i => negb (SVInt.hasUnknown i) && (value i =? 0)%Z
    | _ => false
    end;
  as_int32 := λ v,
    if SVInt.hasUnknown v then None
    else
      let x := signedValue v in
      if (- 2 ^ 31 <=? x)%Z && (x <? 2 ^ 31)%Z then Some x else None;
  slice := λ v msb lsb,
    SVInt.make (msb - lsb + 1) (Z.shiftr (value v) lsb) false;
  getSlice := λ cv upper lower,
    match cv with
    | IntegerV i =>
        IntegerV (SVInt.make (upper - lower + 1) (Z.shiftr (value i) lower)
                    false)
    | _ => Invalid
    end;
  concat := λ vs,
    foldr (λ v acc,
             SVInt.make (width v + width acc)
               (Z.shiftl (value v) (width acc) + value acc) false)
          (SVInt.make 0 0 false) vs;
  unaryOp := λ op cv,
    match op, cv with
    | UnaryOperator.LogicalNot, IntegerV i =>
        Some (IntegerV (SVInt.make 1 (if (value i =? 0)%Z then 1 else 0)
                          false))
    | _, _ => None
    end;
  binaryOp := λ op cvl cvr,
    match op, cvl, cvr with
    | BinaryOperator.Add, IntegerV a, IntegerV b =>
        Some (IntegerV (SVInt.add a b))
    | BinaryOperator.LogicalAnd, IntegerV a, IntegerV b =>
        Some (IntegerV (SVInt.make 1
                          (if (value a =? 0)%Z || (value b =? 0)%Z
                           then 0 else 1) false))
    | BinaryOperator.LogicalOr, IntegerV a, IntegerV b =>
        Some (IntegerV (SVInt.make 1
                          (if (value a =? 0)%Z && (value b =? 0)%Z
                           then 0 else 1) false))
    | _, _, _ => None
    end;
  conditionalUnknown := λ _ _ _ _, None;
  convertTo := λ _ v, Some v;
  getIndexedRange := λ k l r littleEndian,
    let count := (r - 1)%Z in
    let result :=
      match k with
      | RangeSelectionKind.IndexedUp => mkRange (l + count) l
      | _ => mkRange l (l - count)
      end in
    if littleEndian then result else ConstantRange.reverse result;
  isBeforeInCompilationUnit := λ _ _, None
|}.

(** No increment or decrement operator occurs in the examples. *)
Definition noLValueOp (op : UnaryOperator.t) (operand : Expression)
    (ctx : EvalContext) : option (ConstantValue * EvalContext) := None.

Abbreviation evalExample := (eval exampleOps heap0 3 noLValueOp).

(** A fresh context: one frame, outside of any subroutine. *)
Definition topContext : EvalContext :=
  mkEvalContext [mkFrame None (mkLookupLocation None 0) ∅] [] false.

(** [int] literals, with their values precomputed by the binder, and a
    [longint] literal whose value does not fit [int32_t]. *)
Definition intLiteral (v : Z) (loc : SourceLocation) : Expression :=
  IntegerLiteral (mkHeader (Some (IntegerV (SVInt.make 32 v true))) 1 loc false)
    (SVInt.make 32 v true).

Definition bitLiteral (v : Z) (loc : SourceLocation) : Expression :=
  IntegerLiteral (mkHeader (Some (IntegerV (SVInt.make 1 v false))) 4 loc false)
    (SVInt.make 1 v false).

Definition wideLiteral : Expression :=
  IntegerLiteral
    (mkHeader (Some (IntegerV (SVInt.make 64 (2 ^ 40) true))) 1 41 false)
    (SVInt.make 64 (2 ^ 40) true).

(** Two variables of type [logic] declared in a module, [a] at location
    100 and [b] at location 101, and references to them at 10 and 11. *)
Definition variableSymbol (p : SymbolPtr) (loc : SourceLocation) : Symbol :=
  mkSymbol p VariableSym loc 0 [(1, ModuleInstance); (0, Root)] Invalid.

Definition refA : Expression :=
  NamedValueExpression (mkHeader None 4 10 false) (variableSymbol 20 100) false.
Definition refB : Expression :=
  NamedValueExpression (mkHeader None 4 11 false) (variableSymbol 21 101) false.

(** *** Short circuit *)

Lemma short_circuit_witness :
  BinaryExpression_evalImpl exampleOps evalExample BinaryOperator.LogicalAnd
    (bitLiteral 0 9) refB topContext
  = Some (boolValue false, topContext).
Proof.
  destruct (short_circuit exampleOps heap0 3 noLValueOp
              BinaryOperator.LogicalAnd (bitLiteral 0 9) refB topContext
              topContext (IntegerV (SVInt.make 1 0 false)) eq_refl)
    as (_ & H & _).
  apply (H false); reflexivity.
Defined.

(** [1 && b] evaluates [b], which is not a constant. *)
Example logical_and_evaluates_right :
  (codes ∘ evalDiags ∘ snd) <$>
    evalExample (BinaryExpression (mkHeader None 4 9 false)
                   BinaryOperator.LogicalAnd (bitLiteral 1 9) refB) topContext
  = Some [NoteNonConstVariable; NoteDeclarationHere].
Proof. reflexivity. Qed.

(** C6, counterexample to the claim as stated.  [a && b] with [a] and [b]
    not constant: the left operand is invalid, so it does not decide the
    operator; the result is the invalid value in the context that the left
    operand left, while evaluating [b] there would have reported [b] as
    well.  The right operand is not evaluated. *)
Lemma short_circuit_counterexample :
  let ctxA :=
    EvalContext.addDiag
      (EvalContext.addDiag topContext NoteNonConstVariable 10)
      NoteDeclarationHere 100 in
  evalExample refA topContext = Some (Invalid, ctxA)
  ∧ determined exampleOps BinaryOperator.LogicalAnd Invalid = None
  ∧ evalExample (BinaryExpression (mkHeader None 4 9 false)
                   BinaryOperator.LogicalAnd refA refB) topContext
    = Some (Invalid, ctxA)
  ∧ evalExample refB ctxA
    = Some (Invalid,
            EvalContext.addDiag
              (EvalContext.addDiag ctxA NoteNonConstVariable 11)
              NoteDeclarationHere 101).
Proof. repeat split. Qed.

(** *** Memoized constants *)

Lemma eval_memoized_constant_witness :
  (∀ ctx, evalExample (intLiteral 5 9) ctx
          = Some (IntegerV (SVInt.make 32 5 true), ctx))
  ∧ (∀ ctx1 ctx2, fst <$> evalExample (intLiteral 5 9) ctx1
                  = fst <$> evalExample (intLiteral 5 9) ctx2).
Proof.
  apply (eval_memoized_constant exampleOps heap0 3 noLValueOp
           (intLiteral 5 9) (IntegerV (SVInt.make 32 5 true))).
  - discriminate.
  - reflexivity.
Defined.

(** *** Selects *)

(** [5[40]] on an [int]: the index is outside [31:0]. *)
Example element_select_out_of_range :
  evalExample (ElementSelectExpression (mkHeader None 4 50 false)
                 (intLiteral 5 9) (intLiteral 40 12)) topContext
  = Some (Invalid, EvalContext.addDiag topContext NoteArrayIndexInvalid 50).
Proof. reflexivity. Qed.

(** [5[2]] is in range: bit 2 of 5. *)
Example element_select_in_range :
  evalExample (ElementSelectExpression (mkHeader None 4 50 false)
                 (intLiteral 5 9) (intLiteral 2 12)) topContext
  = Some (IntegerV (SVInt.make 1 1 false), topContext).
Proof. reflexivity. Qed.

(** [5[30 +: 4]] on an [int]: the selected range [33:30] leaves [31:0]. *)
Example range_select_outside_range :
  evalExample (RangeSelectExpression (mkHeader None 1 50 false)
                 RangeSelectionKind.IndexedUp (intLiteral 5 9)
                 (intLiteral 30 12) (intLiteral 4 13)) topContext
  = Some (Invalid, EvalContext.addDiag topContext NotePartSelectInvalid 50).
Proof. reflexivity. Qed.

(** C7, counterexample to the claim as stated.  [5[2**40 +: 2]] on an
    [int]: the left bound has no [int32_t] representation, and the range
    select records [NoteArrayIndexInvalid], not [NotePartSelectInvalid]. *)
Lemma range_select_counterexample :
  as_int32 exampleOps (SVInt.make 64 (2 ^ 40) true) = None
  ∧ evalExample (RangeSelectExpression (mkHeader None 1 50 false)
                   RangeSelectionKind.IndexedUp (intLiteral 5 9)
                   wideLiteral (intLiteral 2 13)) topContext
    = Some (Invalid, EvalContext.addDiag topContext NoteArrayIndexInvalid 50).
Proof. split; reflexivity. Qed.

(** The enclosing [!(5[40])] produces the invalid value and adds nothing
    to the context. *)
Example invalid_propagates :
  evalExample (UnaryExpression (mkHeader None 4 60 false)
                 UnaryOperator.LogicalNot
                 (ElementSelectExpression (mkHeader None 4 50 false)
                    (intLiteral 5 9) (intLiteral 40 12))) topContext
  = Some (Invalid, EvalContext.addDiag topContext NoteArrayIndexInvalid 50).
Proof. reflexivity. Qed.

(** *** Parameters *)

(** A parameter with the value 5, declared at location 30 as member 3 of
    the scope at address 1, which belongs to a symbol of kind [k]. *)
Definition parameterIn (k : SymbolKind) : Symbol :=
  mkSymbol 7 ParameterSym 30 3 [(1, k); (0, CompilationUnit)]
    (IntegerV (SVInt.make 32 5 true)).

Definition refParameter (k : SymbolKind) (hier : bool) : Expression :=
  NamedValueExpression (mkHeader None 1 20 false) (parameterIn k) hier.

Lemma parameter_in_definition_witness :
  NamedValueExpression_evalImpl exampleOps (mkHeader None 1 20 false)
    (parameterIn DefinitionSym) false topContext
  = Some (Invalid, topContext)
  ∧ NamedValueExpression_evalImpl exampleOps (mkHeader None 1 20 false)
      (parameterIn ModuleInstance) false topContext
    = Some (IntegerV (SVInt.make 32 5 true), topContext).
Proof.
  split.
  - destruct (parameter_in_definition exampleOps (mkHeader None 1 20 false)
                (parameterIn DefinitionSym) false topContext 1 DefinitionSym
                [(0, CompilationUnit)] true topContext
                eq_refl eq_refl eq_refl) as [H _].
    destruct (H eq_refl) as [H1 _]. exact H1.
  - destruct (parameter_in_definition exampleOps (mkHeader None 1 20 false)
                (parameterIn ModuleInstance) false topContext 1 ModuleInstance
                [(0, CompilationUnit)] true topContext
                eq_refl eq_refl eq_refl) as [_ H].
    apply H; [discriminate|reflexivity].
Defined.

(** A context inside a constant function (the subroutine at address 9)
    that was called from position 1 of the scope at address 1. *)
Definition functionContext : EvalContext :=
  mkEvalContext
    [mkFrame (Some 9) (mkLookupLocation (Some 1) 1) ∅;
     mkFrame None (mkLookupLocation None 0) ∅] [] false.

(** C9, counterexample to the claim as stated.  A reference to a parameter
    of a definition still reports: a hierarchical reference is rejected
    with [NoteHierarchicalNameInCE], and inside a constant function called
    before the declaration of the parameter the reference is rejected with
    [NoteParamUsedInCEBeforeDecl] and [NoteDeclarationHere]. *)
Lemma parameter_in_definition_counterexample :
  evalExample (refParameter DefinitionSym true) topContext
  = Some (Invalid, EvalContext.addDiag topContext NoteHierarchicalNameInCE 20)
  ∧ evalExample (refParameter DefinitionSym false) functionContext
    = Some (Invalid,
            EvalContext.addDiag
              (EvalContext.addDiag functionContext
                 NoteParamUsedInCEBeforeDecl 20)
              NoteDeclarationHere 30).
Proof. split; reflexivity. Qed.
(** * Implicit named port connections *)

Section PortFacts.

Variable h : Heap.
Variable fuel : nat.
Variable lookupUnqualifiedName :
  string → SourceLocation → bool → Diagnostics → option Symbol * Diagnostics.
Variable fromSymbol :
  Symbol → SourceLocation → Diagnostics → Expression * Diagnostics.
Variable convertAssignment :
  TypePtr → Expression → SourceLocation → Diagnostics
  → Expression * Diagnostics.

Abbreviation implicitNamedPort' :=
  (PortConnectionBuilder.implicitNamedPort h fuel lookupUnqualifiedName
     fromSymbol convertAssignment).
Abbreviation setConnection' :=
  (PortConnectionBuilder.setConnection h fuel lookupUnqualifiedName
     fromSymbol convertAssignment).

(** A port that no named connection mentions goes through
    [implicitNamedPort] when the instance has a wildcard connection. *)
Lemma setConnection_wildcard b port :
  usingOrdered b = false → portName port ≠ EmptyString →
  namedConns b !! portName port = None → hasWildcard b = true →
  setConnection' b port
  = implicitNamedPort' b port (wildcardAttrs b) (wildcardRange b) true.
Proof.
  intros Ho Hn Hc Hw. unfold PortConnectionBuilder.setConnection.
  rewrite Ho, bool_decide_eq_false_2, Hc, Hw; done.
Qed.

(** A named connection without parentheses goes through
    [implicitNamedPort] as well, with the connection marked as used. *)
Lemma setConnection_implicit b port c used :
  usingOrdered b = false → portName port ≠ EmptyString →
  namedConns b !! portName port = Some (c, used) → openParen c = false →
  setConnection' b port
  = implicitNamedPort'
      (PortConnectionBuilder.markUsed b (portName port) c) port
      (connAttributes c) (connNameRange c) false.
Proof.
  intros Ho Hn Hc Hp. unfold PortConnectionBuilder.setConnection.
  rewrite Ho, bool_decide_eq_false_2, Hc, Hp; done.
Qed.

(** C8 (as amended).  [implicitNamedPort] on a port, with [found] and [ds]
    the result of looking the name of the port up in the instantiating
    scope:
    - a symbol is found, the type of the port is not the error type, the
      expression for the symbol is not bad and its type is not equivalent
      to the type of the port: [ImplicitNamedPortTypeMismatch] is issued
      and the port is left as it was;
    - the same with an equivalent type: the port is connected to the
      converted expression and nothing is issued;
    - a symbol is found and the type of the port is the error type, or the
      expression for the symbol is bad: the port is left as it was and
      nothing is issued, whatever the types are;
    - nothing is found: a wildcard connection takes the default value of
      the port when it has one, and [ImplicitNamedPortNotFound] is issued
      otherwise;
    - so a port that comes out changed was connected either to a symbol of
      an equivalent type or, under a wildcard, to its default value;
    - a wildcard connection applies this to every named port that no named
      connection mentions, and a named connection without parentheses
      applies it to its port. *)
Theorem implicit_named_port (b : PortConnectionBuilder) (port : PortSymbol)
    (attributes : Attributes) (range : SourceLocation) (isWildcard : bool)
    (found : option Symbol) (ds : Diagnostics) :
  lookupUnqualifiedName (portName port) range isWildcard (builderDiags b)
  = (found, ds) →
  (∀ symbol expr ds',
     found = Some symbol →
     Type_.isError fuel h (portType port) = Some false →
     fromSymbol symbol range ds = (expr, ds') →
     isBad (header expr) = false →
     Type_.isEquivalent fuel h (exprTypePtr (header expr)) (portType port)
     = Some false →
     implicitNamedPort' b port attributes range isWildcard
     = Some (port,
             PortConnectionBuilder.setDiags b
               (addDiag ds' ImplicitNamedPortTypeMismatch range)))
  ∧ (∀ symbol expr ds' assign ds'',
       found = Some symbol →
       Type_.isError fuel h (portType port) = Some false →
       fromSymbol symbol range ds = (expr, ds') →
       isBad (header expr) = false →
       Type_.isEquivalent fuel h (exprTypePtr (header expr)) (portType port)
       = Some true →
       convertAssignment (portType port) expr range ds' = (assign, ds'') →
       implicitNamedPort' b port attributes range isWildcard
       = Some (PortSymbol.setConnection port (Some assign) attributes,
               PortConnectionBuilder.setDiags b ds''))
  ∧ (∀ symbol,
       found = Some symbol →
       Type_.isError fuel h (portType port) = Some true →
       implicitNamedPort' b port attributes range isWildcard
       = Some (port, PortConnectionBuilder.setDiags b ds))
  ∧ (∀ symbol expr ds',
       found = Some symbol →
       Type_.isError fuel h (portType port) = Some false →
       fromSymbol symbol range ds = (expr, ds') →
       isBad (header expr) = true →
       implicitNamedPort' b port attributes range isWildcard
       = Some (port, PortConnectionBuilder.setDiags b ds'))
  ∧ (found = None →
     implicitNamedPort' b port attributes range isWildcard
     = Some (if isWildcard && bool_decide (is_Some (defaultValue port))
             then (PortSymbol.setConnection port (defaultValue port)
                     attributes,
                   PortConnectionBuilder.setDiags b ds)
             else (port,
                   PortConnectionBuilder.setDiags b
                     (addDiag ds ImplicitNamedPortNotFound range))))
  ∧ (∀ port' b',
       implicitNamedPort' b port attributes range isWildcard
       = Some (port', b') →
       port' ≠ port →
       (∃ symbol expr ds',
          found = Some symbol
          ∧ fromSymbol symbol range ds = (expr, ds')
          ∧ Type_.isEquivalent fuel h (exprTypePtr (header expr))
              (portType port) = Some true)
       ∨ (isWildcard = true ∧ found = None
          ∧ is_Some (defaultValue port)))
  ∧ (∀ b0 port0,
       usingOrdered b0 = false → portName port0 ≠ EmptyString →
       namedConns b0 !! portName port0 = None → hasWildcard b0 = true →
       setConnection' b0 port0
       = implicitNamedPort' b0 port0 (wildcardAttrs b0) (wildcardRange b0)
           true)
  ∧ (∀ b0 port0 c used,
       usingOrdered b0 = false → portName port0 ≠ EmptyString →
       namedConns b0 !! portName port0 = Some (c, used) →
       openParen c = false →
       setConnection' b0 port0
       = implicitNamedPort'
           (PortConnectionBuilder.markUsed b0 (portName port0) c) port0
           (connAttributes c) (connNameRange c) false).
Proof.
  intros Hlookup. unfold PortConnectionBuilder.implicitNamedPort.
  rewrite Hlookup. repeat apply conj.
  - intros symbol expr ds' -> He Hf Hb Heq. rewrite He. simpl.
    rewrite Hf. simpl. rewrite Hb, Heq. done.
  - intros symbol expr ds' assign ds'' -> He Hf Hb Heq Hc. rewrite He. simpl.
    rewrite Hf. simpl. rewrite Hb, Heq. simpl. by rewrite Hc.
  - intros symbol -> He. by rewrite He.
  - intros symbol expr ds' -> He Hf Hb. rewrite He. simpl.
    rewrite Hf. simpl. by rewrite Hb.
  - intros ->. by destruct isWildcard, (defaultValue port) as [e|].
  - intros port' b' Hres Hne. destruct found as [symbol|].
    + left. destruct (Type_.isError fuel h (portType port)) as [[]|];
        simpl in Hres; try by simplify_eq.
      destruct (fromSymbol symbol range ds) as [expr ds'] eqn:Hf.
      simpl in Hres. destruct (isBad (header expr)); [by simplify_eq|].
      destruct (Type_.isEquivalent fuel h (exprTypePtr (header expr))
                  (portType port)) as [[]|] eqn:Heq;
        simpl in Hres; try by simplify_eq.
      by exists symbol, expr, ds'.
    + right. destruct isWildcard, (defaultValue port) as [e|];
        simpl in Hres; try (by simplify_eq); eauto.
  - apply setConnection_wildcard.
  - apply setConnection_implicit.
Qed.

End PortFacts.

(** ** Worked connections *)

(** The instantiating scope holds a variable [p] of type [int]; the binder
    makes a named value of the type of the symbol, and an assignment
    conversion that wraps the expression. *)
Definition scopeWithP (name : string) (range : SourceLocation)
    (disallowWildcardImport : bool) (ds : Diagnostics)
  : option Symbol * Diagnostics :=
  (if bool_decide (name = "p"%string) then Some (variableSymbol 20 100)
   else None, ds).

Definition namedValueOfInt (symbol : Symbol) (range : SourceLocation)
    (ds : Diagnostics) : Expression * Diagnostics :=
  (NamedValueExpression (mkHeader None 1 range false) symbol false, ds).

Definition wrapConversion (type : TypePtr) (expr : Expression)
    (loc : SourceLocation) (ds : Diagnostics) : Expression * Diagnostics :=
  (ConversionExpression (mkHeader None type loc false) expr, ds).

Abbreviation implicitExample :=
  (PortConnectionBuilder.implicitNamedPort heap0 3 scopeWithP namedValueOfInt
     wrapConversion).

(** An instance with the implicit named connection [.p], and an instance
    with a wildcard connection. *)
Definition implicitConn : NamedPortConnectionSyntax :=
  mkNamedConn false None 7 7 [].

Definition namedBuilder : PortConnectionBuilder :=
  mkBuilder false [] 0 {[ "p"%string := (implicitConn, false) ]} false 0 []
    false 1 [].

Definition wildcardBuilder : PortConnectionBuilder :=
  mkBuilder false [] 0 ∅ true 8 [] false 1 [].

(** Ports [p] and [q] of a given type, without and with a default value. *)
Definition portP (type : TypePtr) : PortSymbol :=
  mkPort "p" 5 type None None None [].

Definition portQ (type : TypePtr) : PortSymbol :=
  mkPort "q" 6 type (Some (intLiteral 0 6)) None None [].

(** [int p] connected to a port [logic p]: not equivalent (though
    assignment compatible), so the mismatch is reported and the port stays
    unconnected. *)
Lemma implicit_named_port_witness :
  Type_.isAssignmentCompatible 3 heap0 1 4 = Some true
  ∧ implicitExample namedBuilder (portP 4) [] 7 false
    = Some (portP 4,
            PortConnectionBuilder.setDiags namedBuilder
              (addDiag [] ImplicitNamedPortTypeMismatch 7)).
Proof.
  split; [reflexivity|].
  destruct (implicit_named_port heap0 3 scopeWithP namedValueOfInt
              wrapConversion namedBuilder (portP 4) [] 7 false
              (Some (variableSymbol 20 100)) [] eq_refl) as [H _].
  apply (H (variableSymbol 20 100)
           (NamedValueExpression (mkHeader None 1 7 false)
              (variableSymbol 20 100) false) []); reflexivity.
Defined.

(** [int p] connected to a port [int p]: connected. *)
Example equivalent_port_connects :
  (PortSymbol.connected ∘ fst) <$>
    PortConnectionBuilder.setConnection heap0 3 scopeWithP namedValueOfInt
      wrapConversion namedBuilder (portP 1)
  = Some true.
Proof. reflexivity. Qed.

(** C8, counterexample to the claim as stated.  The port [p] has the error
    type (its declaration did not resolve) and the scope holds an [int p]:
    the types are not equivalent, yet no [ImplicitNamedPortTypeMismatch] is
    issued; the port stays unconnected in silence.  And under a wildcard
    connection the port [q], for which the scope holds no symbol at all, is
    connected, to its default value. *)
Lemma implicit_named_port_counterexample :
  Type_.isEquivalent 3 heap0 1 0 = Some false
  ∧ implicitExample namedBuilder (portP 0) [] 7 false
    = Some (portP 0, namedBuilder)
  ∧ builderDiags namedBuilder = []
  ∧ PortSymbol.connected (portP 0) = false
  ∧ scopeWithP "q" 8 true [] = (None, [])
  ∧ PortConnectionBuilder.setConnection heap0 3 scopeWithP namedValueOfInt
      wrapConversion wildcardBuilder (portQ 4)
    = Some (PortSymbol.setConnection (portQ 4) (Some (intLiteral 0 6)) [],
            wildcardBuilder).
Proof. repeat split. Qed.
(** * More on the type relations *)

(** On a canonical type the kind queries read the kind of the object. *)
Lemma kindIs_canonical k fuel h c tc :
  cache_ok h → h !! c = Some tc → isAlias tc = false →
  Type_.kindIs k fuel h c = Some (bool_decide (kind tc = k)).
Proof.
  intros Hok Hc Ha. unfold Type_.kindIs, Type_.canonicalKind.
  rewrite (canonicalOf_self _ _ _ _ Hok Hc Ha). simpl. by rewrite Hc.
Qed.

Lemma isIntegral_canonical fuel h c tc :
  cache_ok h → h !! c = Some tc → isAlias tc = false →
  Type_.isIntegral fuel h c = Some (IntegralType_isKind (kind tc)).
Proof.
  intros Hok Hc Ha. unfold Type_.isIntegral, Type_.canonicalKind.
  rewrite (canonicalOf_self _ _ _ _ Hok Hc Ha). simpl. by rewrite Hc.
Qed.

Lemma isMatching_self n h c tc :
  cache_ok h → h !! c = Some tc → isAlias tc = false →
  Type_.isMatching (S n) h c c = Some true.
Proof.
  intros Hok Hc Ha. simpl.
  rewrite (canonicalOf_self _ _ _ _ Hok Hc Ha). simpl. rewrite Hc. simpl.
  by rewrite bool_decide_eq_true_2.
Qed.

(** X1. Every relation holds between a type and itself: the canonical types
    are the same object, which [isMatching] accepts at once, and each
    weaker relation starts with the stronger one. *)
Theorem relations_reflexive (n : nat) (h : Heap) (A c : TypePtr) :
  cache_ok h → Type_.canonicalOf (S n) h A = Some c →
  Type_.isMatching (S n) h A A = Some true
  ∧ Type_.isEquivalent (S n) h A A = Some true
  ∧ Type_.isAssignmentCompatible (S n) h A A = Some true
  ∧ Type_.isCastCompatible (S n) h A A = Some true.
Proof.
  intros Hok Hc.
  destruct (canonicalOf_not_alias _ _ _ _ Hok Hc) as (tc & Htc & Ha).
  pose proof (canonicalOf_self (S n) _ _ _ Hok Htc Ha) as Hcc.
  pose proof (isMatching_self n _ _ _ Hok Htc Ha) as Hm.
  assert (Type_.isEquivalent (S n) h c c = Some true) as He.
  { cbn [Type_.isEquivalent]. rewrite Hcc. cbn [mbind option_bind].
    by rewrite Hm. }
  assert (Type_.isAssignmentCompatible (S n) h c c = Some true) as Hac.
  { unfold Type_.isAssignmentCompatible. rewrite Hcc.
    cbn [mbind option_bind]. by rewrite He. }
  assert (Type_.isCastCompatible (S n) h c c = Some true) as Hcc'.
  { unfold Type_.isCastCompatible. rewrite Hcc.
    cbn [mbind option_bind]. by rewrite Hac. }
  rewrite <- (isMatching_canonical _ _ _ _ _ _ Hok Hc Hc).
  rewrite <- (isEquivalent_canonical _ _ _ _ _ _ Hok Hc Hc).
  rewrite <- (isAssignmentCompatible_canonical _ _ _ _ _ _ Hok Hc Hc).
  repeat split; try done.
  unfold Type_.isCastCompatible. rewrite Hc. cbn [mbind option_bind].
  by rewrite Hac.
Qed.

Lemma relations_reflexive_witness :
  Type_.isMatching 3 heap0 3 3 = Some true
  ∧ Type_.isEquivalent 3 heap0 3 3 = Some true
  ∧ Type_.isAssignmentCompatible 3 heap0 3 3 = Some true
  ∧ Type_.isCastCompatible 3 heap0 3 3 = Some true.
Proof. apply (relations_reflexive 2 heap0 3 1 heap0_cache_ok). reflexivity. Defined.

(** X3. A typedef is transparent: on types [A] and [B] with canonical types
    [l] and [r], every relation and every width, sign and state query
    answers what it answers on the canonical types themselves. *)
Theorem typedef_transparent (fuel : nat) (h : Heap) (A B l r : TypePtr) :
  cache_ok h →
  Type_.canonicalOf fuel h A = Some l → Type_.canonicalOf fuel h B = Some r →
  Type_.isMatching fuel h A B = Type_.isMatching fuel h l r
  ∧ Type_.isEquivalent fuel h A B = Type_.isEquivalent fuel h l r
  ∧ Type_.isAssignmentCompatible fuel h A B
    = Type_.isAssignmentCompatible fuel h l r
  ∧ Type_.isCastCompatible fuel h A B = Type_.isCastCompatible fuel h l r
  ∧ Type_.isIntegral fuel h A = Type_.isIntegral fuel h l
  ∧ Type_.getBitWidth fuel h A = Type_.getBitWidth fuel h l
  ∧ Type_.isSigned fuel h A = Type_.isSigned fuel h l
  ∧ Type_.isFourState fuel h A = Type_.isFourState fuel h l.
Proof.
  intros Hok Hl Hr.
  pose proof (canonicalOf_idem _ fuel _ _ _ Hok Hl) as Hll.
  pose proof (canonicalOf_idem _ fuel _ _ _ Hok Hr) as Hrr.
  repeat apply conj.
  - symmetry. by apply isMatching_canonical.
  - symmetry. by apply isEquivalent_canonical.
  - symmetry. by apply isAssignmentCompatible_canonical.
  - unfold Type_.isCastCompatible. by rewrite Hl, Hr, Hll, Hrr.
  - unfold Type_.isIntegral, Type_.canonicalKind. by rewrite Hl, Hll.
  - unfold Type_.getBitWidth. by rewrite Hl, Hll.
  - unfold Type_.isSigned. by rewrite Hl, Hll.
  - destruct fuel as [|n]; [done|]. cbn [Type_.isFourState].
    by rewrite Hl, Hll.
Qed.

(** [t3] is a typedef of a typedef of [int]; against [logic] it behaves as
    [int] does. *)
Lemma typedef_transparent_witness :
  Type_.isAssignmentCompatible 3 heap0 3 4
  = Type_.isAssignmentCompatible 3 heap0 1 4
  ∧ Type_.getBitWidth 3 heap0 3 = Type_.getBitWidth 3 heap0 1.
Proof.
  destruct (typedef_transparent 3 heap0 3 4 1 4 heap0_cache_ok
              eq_refl eq_refl) as (_ & _ & H3 & _ & _ & H6 & _).
  by split.
Defined.

(** ** Symmetry *)

Lemma andM_Some_comm a b x y :
  Type_.andM a b = Some x → Type_.andM b a = Some y → x = y.
Proof. destruct a as [[]|], b as [[]|]; simpl; congruence. Qed.

Lemma isMatching_sym n h A B b1 b2 :
  Type_.isMatching n h A B = Some b1 → Type_.isMatching n h B A = Some b2 →
  b1 = b2.
Proof.
  revert A B b1 b2. induction n as [|n IH]; intros A B b1 b2; [discriminate|].
  cbn [Type_.isMatching].
  destruct (Type_.canonicalOf (S n) h A) as [l|]; [|discriminate].
  destruct (Type_.canonicalOf (S n) h B) as [r|]; [|discriminate].
  cbn [mbind option_bind].
  destruct (h !! l) as [lt|] eqn:Hl; [|discriminate].
  destruct (h !! r) as [rt|] eqn:Hr; [|discriminate].
  cbn [mbind option_bind].
  destruct (decide (l = r)) as [->|Hne].
  { rewrite bool_decide_eq_true_2 by done. simpl. congruence. }
  rewrite (bool_decide_eq_false_2 (l = r)), (bool_decide_eq_false_2 (r = l))
    by done.
  cbn [orb].
  destruct (bool_decide (is_Some (syntax lt))
            && bool_decide (syntax lt = syntax rt)) eqn:Hs1.
  { apply andb_true_iff in Hs1 as [H1 H2].
    apply bool_decide_eq_true in H1. apply bool_decide_eq_true in H2.
    rewrite <- H2, (bool_decide_eq_true_2 _ H1), bool_decide_eq_true_2 by done.
    simpl. congruence. }
  destruct (bool_decide (is_Some (syntax rt))
            && bool_decide (syntax rt = syntax lt)) eqn:Hs2.
  { apply andb_true_iff in Hs2 as [H1 H2].
    apply bool_decide_eq_true in H1. apply bool_decide_eq_true in H2.
    rewrite <- H2, (bool_decide_eq_true_2 _ H1), bool_decide_eq_true_2 in Hs1
      by done.
    discriminate. }
  destruct (Type_.isScalar (S n) h l) as [[]|],
           (Type_.isScalar (S n) h r) as [[]|]; cbn [Type_.andM]; try congruence.
  { destruct (body lt), (body rt); try congruence.
    intros [= <-] [= <-]. apply andb_comm. }
  all: destruct (Type_.isFloating (S n) h l) as [[]|],
                (Type_.isFloating (S n) h r) as [[]|];
         cbn [Type_.andM]; try congruence.
  all: try (destruct (body lt), (body rt); try congruence;
            intros [= <-] [= <-]; apply andb_comm).
  all: destruct (Type_.isSimpleBitVector (S n) h l) as [[]|],
                (Type_.isSimpleBitVector (S n) h r) as [[]|],
                (Type_.isPredefinedInteger (S n) h l) as [[]|],
                (Type_.isPredefinedInteger (S n) h r) as [[]|];
         cbn [Type_.andM mbind option_bind negb eqb]; try congruence.
  all: try (destruct (Type_.getBitVectorRange (S n) h l) as [lr|],
                     (Type_.getBitVectorRange (S n) h r) as [rr|];
            cbn [mbind option_bind]; try congruence;
            intros [= <-] [= <-];
            rewrite (bool_decide_ext (lr = rr) (rr = lr)) by (split; congruence);
            by destruct (isSigned_ lt), (isSigned_ rt), (isFourState_ lt),
                        (isFourState_ rt)).
  all: destruct (body lt), (body rt); try congruence.
  all: rewrite (bool_decide_ext (range0 = range) (range = range0))
         by (split; congruence).
  all: destruct (bool_decide (range = range0)); [apply IH|congruence].
Qed.

Lemma isEquivalent_sym n h A B b1 b2 :
  Type_.isEquivalent n h A B = Some b1 → Type_.isEquivalent n h B A = Some b2 →
  b1 = b2.
Proof.
  revert A B b1 b2. induction n as [|n IH]; intros A B b1 b2; [discriminate|].
  cbn [Type_.isEquivalent].
  destruct (Type_.canonicalOf (S n) h A) as [l|]; [|discriminate].
  destruct (Type_.canonicalOf (S n) h B) as [r|]; [|discriminate].
  cbn [mbind option_bind].
  destruct (Type_.isMatching (S n) h l r) as [m1|] eqn:Hm1; [|discriminate].
  destruct (Type_.isMatching (S n) h r l) as [m2|] eqn:Hm2;
    [|by destruct m1].
  pose proof (isMatching_sym _ _ _ _ _ _ Hm1 Hm2) as <-.
  destruct m1; [congruence|].
  destruct (Type_.isIntegral (S n) h l) as [[]|],
           (Type_.isIntegral (S n) h r) as [[]|],
           (Type_.isEnum (S n) h l) as [[]|],
           (Type_.isEnum (S n) h r) as [[]|];
    cbn [Type_.andM Type_.notM fmap option_fmap option_map negb];
    try congruence.
  all: destruct (h !! l) as [lt|], (h !! r) as [rt|];
         cbn [mbind option_bind]; try congruence.
  all: try (intros [= <-] [= <-];
            rewrite (bool_decide_ext (bitWidth lt = bitWidth rt)
                       (bitWidth rt = bitWidth lt)) by (split; congruence);
            by destruct (isSigned_ lt), (isSigned_ rt), (isFourState_ lt),
                        (isFourState_ rt)).
  all: destruct (body lt), (body rt); try congruence.
  all: rewrite (bool_decide_ext
                  (ConstantRange.width range0 = ConstantRange.width range)
                  (ConstantRange.width range = ConstantRange.width range0))
         by (split; congruence).
  all: destruct (bool_decide
                   (ConstantRange.width range = ConstantRange.width range0));
         cbn [Type_.andM]; [apply IH|congruence].
Qed.

(** X2. Matching and equivalence are symmetric: whenever [A.isMatching(B)] and
    [B.isMatching(A)] both answer, they answer the same, and likewise for
    [isEquivalent]. *)
Theorem matching_equivalence_symmetric (fuel : nat) (h : Heap)
    (A B : TypePtr) :
  (∀ b1 b2, Type_.isMatching fuel h A B = Some b1 →
            Type_.isMatching fuel h B A = Some b2 → b1 = b2)
  ∧ (∀ b1 b2, Type_.isEquivalent fuel h A B = Some b1 →
              Type_.isEquivalent fuel h B A = Some b2 → b1 = b2).
Proof.
  split; intros b1 b2; [apply isMatching_sym|apply isEquivalent_sym].
Qed.

(** An arena with [enum { ... }] of base [int] at address 5. *)
Definition enumOfInt : Type_ :=
  mkType (EnumBody 1) (Some 70) (Some 5) 32 true false.

Definition heap1 : Heap := <[5 := enumOfInt]> heap0.

Lemma heap1_cache_ok : cache_ok heap1.
Proof. intros p t Hp. unfold heap1, heap0 in Hp. heap_cases Hp; simpl; done. Qed.


(** ** Enums and the other integral types *)

Lemma isSimpleBitVector_enum fuel h e et :
  cache_ok h → h !! e = Some et → kind et = EnumType →
  Type_.isSimpleBitVector fuel h e = Some false.
Proof.
  intros Hok He Hk.
  assert (isAlias et = false) as Ha.
  { unfold isAlias. by rewrite Hk. }
  unfold Type_.isSimpleBitVector, Type_.isPredefinedInteger, Type_.isScalar.
  rewrite (canonicalOf_self _ _ _ _ Hok He Ha). cbn [mbind option_bind].
  rewrite !(kindIs_canonical _ _ _ _ _ Hok He Ha), Hk. simpl.
  rewrite He. simpl. unfold kind in Hk. by destruct (body et).
Qed.

(** X4. An enum takes the value of another integral type only by a cast, while
    the other integral type takes the enum by assignment.  [E] is an enum
    and [T] an integral type that is not an enum and comes from another
    syntax node; the simple-bit-vector test on [T] is assumed to answer
    (the element of a packed array resolves). *)
Theorem enum_needs_cast (n : nat) (h : Heap) (E T e t : TypePtr)
    (et tt : Type_) :
  cache_ok h →
  Type_.canonicalOf (S n) h E = Some e → h !! e = Some et →
  kind et = EnumType →
  Type_.canonicalOf (S n) h T = Some t → h !! t = Some tt →
  IntegralType_isKind (kind tt) = true → kind tt ≠ EnumType →
  syntax et ≠ syntax tt →
  is_Some (Type_.isSimpleBitVector (S n) h t) →
  Type_.isAssignmentCompatible (S n) h T E = Some true
  ∧ Type_.isAssignmentCompatible (S n) h E T = Some false
  ∧ Type_.isCastCompatible (S n) h E T = Some true.
Proof.
  intros Hok HE He Hke HT Ht Hint Hkt Hsyn [sbv Hsbv].
  assert (isAlias et = false) as Hae by (unfold isAlias; by rewrite Hke).
  assert (isAlias tt = false) as Hat.
  { unfold isAlias. apply bool_decide_eq_false. intros Hk.
    by rewrite Hk in Hint. }
  pose proof (canonicalOf_self (S n) _ _ _ Hok He Hae) as Hee.
  pose proof (canonicalOf_self (S n) _ _ _ Hok Ht Hat) as Htt.
  assert (e ≠ t) as Hne by (intros ->; congruence).
  assert (body et = EnumBody (match body et with EnumBody b => b | _ => 0 end))
    as Hbe by (unfold kind in Hke; by destruct (body et)).
  assert (∀ le lr, body tt ≠ UnpackedArrayBody le lr) as Hnu.
  { intros le lr Hb. unfold kind in Hint. by rewrite Hb in Hint. }
  assert (Type_.isMatching (S n) h t e = Some false) as Hm1.
  { cbn [Type_.isMatching]. rewrite Htt, Hee. cbn [mbind option_bind].
    rewrite Ht, He. cbn [mbind option_bind].
    rewrite (bool_decide_eq_false_2 (t = e)) by congruence.
    rewrite (bool_decide_eq_false_2 (syntax tt = syntax et)) by congruence.
    rewrite andb_false_r. cbn [orb].
    unfold Type_.isScalar, Type_.isFloating, Type_.isPredefinedInteger.
    rewrite !(kindIs_canonical _ _ _ _ _ Hok He Hae),
            !(kindIs_canonical _ _ _ _ _ Hok Ht Hat), Hke.
    rewrite (isSimpleBitVector_enum _ _ _ _ Hok He Hke), Hsbv.
    rewrite Hbe.
    destruct (body tt), sbv; simpl; try done;
      repeat case_bool_decide; simpl; try done. }
  assert (Type_.isMatching (S n) h e t = Some false) as Hm2.
  { cbn [Type_.isMatching]. rewrite Htt, Hee. cbn [mbind option_bind].
    rewrite Ht, He. cbn [mbind option_bind].
    rewrite (bool_decide_eq_false_2 (e = t)) by congruence.
    rewrite (bool_decide_eq_false_2 (syntax et = syntax tt)) by congruence.
    rewrite andb_false_r. cbn [orb].
    unfold Type_.isScalar, Type_.isFloating, Type_.isPredefinedInteger.
    rewrite !(kindIs_canonical _ _ _ _ _ Hok He Hae),
            !(kindIs_canonical _ _ _ _ _ Hok Ht Hat), Hke.
    rewrite (isSimpleBitVector_enum _ _ _ _ Hok He Hke).
    rewrite Hbe. simpl. by repeat case_bool_decide. }
  assert (Type_.isEnum (S n) h e = Some true) as Hen.
  { unfold Type_.isEnum. rewrite (kindIs_canonical _ _ _ _ _ Hok He Hae), Hke.
    done. }
  assert (Type_.isEnum (S n) h t = Some false) as Hent.
  { unfold Type_.isEnum. rewrite (kindIs_canonical _ _ _ _ _ Hok Ht Hat).
    by rewrite bool_decide_eq_false_2. }
  assert (Type_.isIntegral (S n) h e = Some true) as Hie.
  { by rewrite (isIntegral_canonical _ _ _ _ Hok He Hae), Hke. }
  assert (Type_.isIntegral (S n) h t = Some true) as Hit.
  { by rewrite (isIntegral_canonical _ _ _ _ Hok Ht Hat), Hint. }
  assert (Type_.isEquivalent (S n) h t e = Some false) as He1.
  { cbn [Type_.isEquivalent]. rewrite Htt, Hee. cbn [mbind option_bind].
    rewrite Hm1, Hit, Hie, Hen, Hent. simpl. rewrite Ht, He. simpl.
    rewrite Hbe. by destruct (body tt). }
  assert (Type_.isEquivalent (S n) h e t = Some false) as He2.
  { cbn [Type_.isEquivalent]. rewrite Htt, Hee. cbn [mbind option_bind].
    rewrite Hm2, Hit, Hie, Hen. simpl. rewrite Ht, He. simpl.
    by rewrite Hbe. }
  assert (Type_.isAssignmentCompatible (S n) h e t = Some false) as Ha2.
  { unfold Type_.isAssignmentCompatible. rewrite Htt, Hee.
    cbn [mbind option_bind]. rewrite He2, Hie, Hen. simpl.
    unfold Type_.isFloating.
    by rewrite (kindIs_canonical _ _ _ _ _ Hok He Hae), Hke. }
  rewrite <- (isAssignmentCompatible_canonical _ _ _ _ _ _ Hok HT HE).
  rewrite <- (isAssignmentCompatible_canonical _ _ _ _ _ _ Hok HE HT).
  repeat apply conj.
  - unfold Type_.isAssignmentCompatible. rewrite Htt, Hee.
    cbn [mbind option_bind]. by rewrite He1, Hit, Hent, Hie.
  - done.
  - unfold Type_.isCastCompatible. rewrite HE, HT. cbn [mbind option_bind].
    by rewrite Ha2, Hen, Hit.
Qed.

Lemma enum_needs_cast_witness :
  Type_.isAssignmentCompatible 3 heap1 1 5 = Some true
  ∧ Type_.isAssignmentCompatible 3 heap1 5 1 = Some false
  ∧ Type_.isCastCompatible 3 heap1 5 1 = Some true.
Proof.
  apply (enum_needs_cast 2 heap1 5 1 5 1 enumOfInt intType heap1_cache_ok);
    try reflexivity; try discriminate.
  by exists true.
Defined.
(** * Kind predicates and default values *)

Lemma canonicalKind_canonical fuel h T c tc :
  cache_ok h → Type_.canonicalOf fuel h T = Some c → h !! c = Some tc →
  Type_.canonicalKind fuel h T = Some (kind tc)
  ∧ Type_.canonicalKind fuel h c = Some (kind tc).
Proof.
  intros Hok Hc Htc. unfold Type_.canonicalKind.
  rewrite (canonicalOf_idem _ fuel _ _ _ Hok Hc), Hc. simpl. by rewrite Htc.
Qed.

(** X5. The kind predicates are consistent with one another: a simple bit
    vector is integral; an integral type is numeric, a bitstream type and
    not an aggregate; a numeric type converts to a boolean; a byte array is
    an unpacked array; an unpacked array is an aggregate, an array and a
    bitstream type, and not integral. *)
Theorem kind_predicates_consistent (fuel : nat) (h : Heap) (T : TypePtr) :
  cache_ok h →
  (Type_.isSimpleBitVector fuel h T = Some true →
   Type_.isIntegral fuel h T = Some true)
  ∧ (Type_.isIntegral fuel h T = Some true →
     Type_isNumeric fuel h T = Some true
     ∧ Type_isBitstreamType fuel h T = Some true
     ∧ Type_isAggregate fuel h T = Some false
     ∧ Type_isSingular fuel h T = Some true)
  ∧ (Type_isNumeric fuel h T = Some true →
     Type_isBooleanConvertible fuel h T = Some true)
  ∧ (Type_isByteArray fuel h T = Some true →
     Type_.isUnpackedArray fuel h T = Some true)
  ∧ (Type_.isUnpackedArray fuel h T = Some true →
     Type_isAggregate fuel h T = Some true
     ∧ Type_isArray fuel h T = Some true
     ∧ Type_isBitstreamType fuel h T = Some true
     ∧ Type_.isIntegral fuel h T = Some false).
Proof.
  intros Hok.
  destruct (Type_.canonicalOf fuel h T) as [c|] eqn:Hc.
  2:{ unfold Type_.isSimpleBitVector, Type_isNumeric, Type_isByteArray,
        Type_.isUnpackedArray, Type_.isFloating, Type_.kindIs.
      unfold Type_.isIntegral, Type_.canonicalKind.
      rewrite Hc. simpl. repeat split; discriminate. }
  destruct (canonicalOf_not_alias _ _ _ _ Hok Hc) as (tc & Htc & Ha).
  destruct (canonicalKind_canonical _ _ _ _ _ Hok Hc Htc) as [HkT Hkc].
  unfold Type_.isSimpleBitVector, Type_.isIntegral, Type_isNumeric,
    Type_isBitstreamType, Type_isAggregate, Type_isSingular,
    Type_isBooleanConvertible, Type_isByteArray, Type_isArray,
    Type_isUnpackedStruct, Type_isNumeric, Type_.isUnpackedArray,
    Type_.isPredefinedInteger, Type_.isScalar, Type_.isFloating,
    Type_.isIntegral, Type_.kindIs.
  rewrite Hc, HkT. cbn [mbind option_bind]. rewrite Hkc, Htc.
  cbn [mbind option_bind].
  unfold kind in *. destruct (body tc); simpl; repeat split; try done.
  all: unfold Type_isAggregate; rewrite ?HkT; simpl; try done.
Qed.

Lemma kind_predicates_consistent_witness :
  Type_.isSimpleBitVector 3 heap0 3 = Some true
  ∧ Type_.isIntegral 3 heap0 3 = Some true
  ∧ Type_isBooleanConvertible 3 heap0 3 = Some true.
Proof.
  destruct (kind_predicates_consistent 3 heap0 3 heap0_cache_ok)
    as (H1 & H2 & H3 & _).
  assert (Type_.isSimpleBitVector 3 heap0 3 = Some true) as Hs by reflexivity.
  pose proof (H1 Hs) as Hi. destruct (H2 Hi) as (Hn & _).
  split; [exact Hs|]. split; [exact Hi|exact (H3 Hn)].
Defined.

(** ** Default values *)

Lemma canonicalOf_mono n m h p c :
  n ≤ m → Type_.canonicalOf n h p = Some c → Type_.canonicalOf m h p = Some c.
Proof.
  intros Hle. unfold Type_.canonicalOf, Type_.getCanonicalType.
  destruct (h !! p) as [t|]; simpl; [|done].
  destruct (canonical t); simpl; [done|].
  unfold Type_.resolveCanonical. destruct (h !! p) as [t'|]; simpl; [|done].
  destruct (isAlias t'); [|done].
  destruct (Type_.resolveLoop n h p) as [c'|] eqn:Hn; simpl; [|done].
  intros [= <-]. by rewrite (resolveLoop_mono _ _ _ _ _ Hle Hn).
Qed.

Lemma kindIs_mono k n m h p b :
  n ≤ m → Type_.kindIs k n h p = Some b → Type_.kindIs k m h p = Some b.
Proof.
  intros Hle. unfold Type_.kindIs, Type_.canonicalKind.
  destruct (Type_.canonicalOf n h p) as [c|] eqn:Hc; simpl; [|done].
  by rewrite (canonicalOf_mono _ _ _ _ _ Hle Hc).
Qed.

Lemma getDefaultValue_mono n m h p v :
  n ≤ m → Type_getDefaultValue n h p = Some v →
  Type_getDefaultValue m h p = Some v.
Proof.
  revert m p v. induction n as [|n IH]; intros m p v Hle; [done|].
  destruct m as [|m]; [lia|]. assert (n ≤ m) as Hle' by lia.
  cbn [Type_getDefaultValue].
  destruct (h !! p) as [t|]; cbn [mbind option_bind]; [|done].
  assert (∀ q w, Type_getDefaultValue n h q = Some w →
                 Type_getDefaultValue m h q = Some w) as Hrec.
  { intros q w. by apply IH. }
  assert (∀ w,
    (Type_.isEnum (S n) h p ≫= λ e : bool,
       if e then match body t with
                 | EnumBody baseType => Type_getDefaultValue n h baseType
                 | _ => None
                 end
       else if isFourState_ t
            then Some (IntegerV (SVInt.createFillX (bitWidth t) (isSigned_ t)))
            else Some (IntegerV (SVInt.make (bitWidth t) 0 (isSigned_ t))))
    = Some w →
    (Type_.isEnum (S m) h p ≫= λ e : bool,
       if e then match body t with
                 | EnumBody baseType => Type_getDefaultValue m h baseType
                 | _ => None
                 end
       else if isFourState_ t
            then Some (IntegerV (SVInt.createFillX (bitWidth t) (isSigned_ t)))
            else Some (IntegerV (SVInt.make (bitWidth t) 0 (isSigned_ t))))
    = Some w) as Hint.
  { intros w. unfold Type_.isEnum.
    destruct (Type_.kindIs EnumType (S n) h p) as [e|] eqn:He; [|done].
    rewrite (kindIs_mono _ (S n) (S m) _ _ _ ltac:(lia) He).
    cbn [mbind option_bind]. destruct e; [|done].
    destruct (body t); try done. apply Hrec. }
  destruct (body t); try done; try apply Hint; try apply Hrec.
  - destruct (Type_getDefaultValue n h elementType) as [e|] eqn:He;
      cbn [mbind option_bind]; [|done].
    by rewrite (Hrec _ _ He).
  - destruct (mapM _ fields) as [vs|] eqn:Hvs; cbn [mbind option_bind]; [|done].
    intros [= <-]. apply mapM_Some in Hvs.
    assert (mapM (λ f, Type_getDefaultValue m h (fieldType f)) fields
            = Some vs) as ->; [|done].
    apply mapM_Some. eapply Forall2_impl; [exact Hvs|].
    intros f w. apply Hrec.
  - destruct fields as [|f fields]; [done|]. apply Hrec.
Qed.

Lemma getDefaultValue_resolveLoop k n h A c v :
  Type_.resolveLoop k h A = Some c → Type_getDefaultValue n h c = Some v →
  Type_getDefaultValue (k + n) h A = Some v.
Proof.
  revert A. induction k as [|k IH]; intros A; [done|].
  cbn [Type_.resolveLoop Type_getDefaultValue Nat.add].
  destruct (h !! A) as [t|]; cbn [mbind option_bind]; [|done].
  destruct (body t); try done.
  destruct (h !! targetType) as [t'|]; cbn [mbind option_bind]; [|done].
  destruct (isAlias t').
  - apply IH.
  - intros [= ->] Hv. eapply getDefaultValue_mono; [|exact Hv]. lia.
Qed.

(** X6. The default value sees through typedefs and enums: a type with the
    canonical type [c] has the default value of [c], and an enum has the
    default value of its base type (with enough fuel for the chain). *)
Theorem default_value_sees_through (fuel n : nat) (h : Heap)
    (A c : TypePtr) (v : ConstantValue) :
  cache_ok h →
  Type_.canonicalOf fuel h A = Some c →
  Type_getDefaultValue n h c = Some v →
  (∃ k, ∀ m, k ≤ m → Type_getDefaultValue m h A = Some v)
  ∧ (∀ E et, h !! E = Some et → body et = EnumBody c →
       ∀ m, n < m → Type_getDefaultValue m h E = Some v).
Proof.
  intros Hok Hc Hv. split.
  - assert (∃ k, Type_getDefaultValue k h A = Some v) as [k Hk].
    { unfold Type_.canonicalOf, Type_.getCanonicalType in Hc.
      destruct (h !! A) as [t|] eqn:HA; simpl in Hc; [|done].
      pose proof (Hok A t HA) as Hcache.
      destruct (isAlias t) eqn:Hat.
      - assert (∃ k, Type_.resolveLoop k h A = Some c) as [k Hk].
        { destruct (canonical t) as [c'|] eqn:Hcan; simpl in Hc.
          - injection Hc as ->. by apply Hcache.
          - unfold Type_.resolveCanonical in Hc. rewrite HA in Hc.
            simpl in Hc. rewrite Hat in Hc.
            destruct (Type_.resolveLoop fuel h A) as [c'|] eqn:Hl;
              simpl in Hc; [|done].
            injection Hc as ->. eauto. }
        exists (k + n). by eapply getDefaultValue_resolveLoop.
      - rewrite Hcache in Hc. simpl in Hc. injection Hc as ->. eauto. }
    exists k. intros m Hm. by eapply getDefaultValue_mono.
  - intros E et HE Hb m Hm. destruct m as [|m]; [lia|].
    cbn [Type_getDefaultValue]. rewrite HE. cbn [mbind option_bind].
    rewrite Hb.
    assert (isAlias et = false) as Hae.
    { unfold isAlias, kind. by rewrite Hb. }
    unfold Type_.isEnum.
    rewrite (kindIs_canonical _ _ _ _ _ Hok HE Hae). unfold kind.
    rewrite Hb. cbn [mbind option_bind]. simpl.
    eapply getDefaultValue_mono; [|exact Hv]. lia.
Qed.

(** [t3], a typedef of a typedef of [int], defaults to the [int] zero; the
    enum over [int] as well. *)
Lemma default_value_sees_through_witness :
  (∃ k, ∀ m, k ≤ m →
     Type_getDefaultValue m heap1 3 = Some (IntegerV (SVInt.make 32 0 true)))
  ∧ Type_getDefaultValue 2 heap1 5 = Some (IntegerV (SVInt.make 32 0 true)).
Proof.
  destruct (default_value_sees_through 3 1 heap1 3 1
              (IntegerV (SVInt.make 32 0 true)) heap1_cache_ok
              eq_refl eq_refl) as [H1 H2].
  split; [exact H1|]. apply (H2 5 enumOfInt); [reflexivity..|lia].
Defined.

(** ** Unpacked structs *)

Section StructAccess.

Variable resolve : TypePtr → list (option ConstantRange) → TypePtr.

(** The offset of every field is its position in the list of fields. *)
Definition indexOffsets (fields : list FieldSymbol) : Prop :=
  ∀ i f, fields !! i = Some f → offset f = wrap32 (Z.of_nat i).

Lemma struct_declaratorLoop_offsets type idx fields decls :
  idx = wrap32 (Z.of_nat (length fields)) → indexOffsets fields →
  fst (UnpackedStructType.declaratorLoop resolve type idx fields decls)
  = wrap32 (Z.of_nat (length
      (snd (UnpackedStructType.declaratorLoop resolve type idx fields decls))))
  ∧ indexOffsets
      (snd (UnpackedStructType.declaratorLoop resolve type idx fields decls)).
Proof.
  revert idx fields. induction decls as [|d decls IH]; intros idx fields Hi Ho.
  - done.
  - simpl. apply IH.
    + rewrite Hi, wrap32_add_l, length_app. simpl. f_equal. lia.
    + intros i f Hf. apply lookup_app_Some in Hf as [Hf|[Hle Hf]].
      * by apply Ho.
      * apply list_lookup_singleton_Some in Hf as [Hz <-]. simpl.
        rewrite Hi. f_equal. lia.
Qed.

Lemma struct_memberLoop_offsets idx fields ms :
  idx = wrap32 (Z.of_nat (length fields)) → indexOffsets fields →
  indexOffsets (snd (UnpackedStructType.memberLoop resolve idx fields ms)).
Proof.
  revert idx fields. induction ms as [|m ms IH]; intros idx fields Hi Ho.
  - done.
  - simpl.
    destruct (struct_declaratorLoop_offsets (memberType m) idx fields
                (declarators m) Hi Ho) as [Hi' Ho'].
    destruct (UnpackedStructType.declaratorLoop _ _ _ _ _) as [idx' fields'].
    by apply IH.
Qed.

(** X7. An unpacked struct built from syntax numbers its fields in declaration
    order, and its default value holds, at the offset of every field, the
    default value of the type of that field.  So reading any field of a
    default-initialized struct yields the default value of the field and
    never leaves the element list. *)
Theorem unpacked_struct_default_access (comp comp' : Compilation)
    (syntax : StructUnionTypeSyntax) (p : TypePtr) (n : nat)
    (value : ConstantValue) :
  UnpackedStructType.fromSyntax resolve comp syntax = (p, comp') →
  Type_getDefaultValue (S n) (types comp') p = Some value →
  ∃ t fields,
    types comp' !! p = Some t ∧ body t = UnpackedStructBody fields
    ∧ ∀ i f, fields !! i = Some f →
        offset f = wrap32 (Z.of_nat i)
        ∧ ((Z.of_nat (length fields) ≤ 2 ^ 32)%Z →
           ∃ v, Type_getDefaultValue n (types comp') (fieldType f) = Some v
              ∧ ∀ (ops : ValueOps) (h : Heap) (fuel : nat)
                  (ev : Expression → EvalContext
                        → option (ConstantValue * EvalContext))
                  (hd : Header) (val : Expression) (ctx c1 : EvalContext),
                  ev val ctx = Some (value, c1) →
                  Type_.kindIs UnpackedStructType fuel h
                    (exprTypePtr (header val)) = Some true →
                  MemberAccessExpression_evalImpl ops h fuel ev hd val f ctx
                  = Some (v, c1)).
Proof.
  unfold UnpackedStructType.fromSyntax, Compilation.emplace.
  intros [= <- <-]. simpl. rewrite lookup_insert_eq. simpl.
  set (fields := snd (UnpackedStructType.memberLoop resolve 0 []
                        (structMembers syntax))).
  destruct (mapM _ fields) as [vs|] eqn:Hvs; simpl; [|done].
  intros [= <-]. eexists _, fields. split; [done|]. split; [done|].
  intros i f Hf.
  assert (indexOffsets fields) as Ho.
  { apply struct_memberLoop_offsets; [done|]. intros j g Hg. done. }
  split; [by apply Ho|]. intros Hlen.
  apply mapM_Some in Hvs.
  destruct (Forall2_lookup_l _ _ _ _ _ Hvs Hf) as (v & Hv & Hfv).
  exists v. split; [done|].
  intros ops h fuel ev hd val ctx c1 Hev Hk.
  unfold MemberAccessExpression_evalImpl. rewrite Hev. simpl. rewrite Hk.
  simpl. rewrite (Ho i f Hf).
  apply lookup_lt_Some in Hf.
  assert (wrap32 (Z.of_nat i) = Z.of_nat i) as ->.
  { unfold wrap32. apply Z.mod_small. lia. }
  by rewrite Nat2Z.id, Hv.
Qed.

End StructAccess.

(** [struct { int a; logic b; }]: the fields get the offsets 0 and 1 and
    the default value is [{0, x}]. *)
Definition intLogicStruct : StructUnionTypeSyntax :=
  mkStructUnion false
    [mkMember 1 10 [mkFieldDecl 0 11 [] None];
     mkMember 4 12 [mkFieldDecl 1 13 [] None]] [] 80.

Definition compHeap0 : Compilation := mkCompilation heap0 6 [] 0.

Example unpacked_struct_default :
  Type_getDefaultValue 2
    (types (snd (UnpackedStructType.fromSyntax (λ t _, t) compHeap0
                   intLogicStruct))) 6
  = Some (Elements [IntegerV (SVInt.make 32 0 true);
                    IntegerV (SVInt.createFillX 1 false)]).
Proof. reflexivity. Qed.

Lemma unpacked_struct_default_access_witness :
  ∃ t fields,
    types (snd (UnpackedStructType.fromSyntax (λ t _, t) compHeap0
                  intLogicStruct)) !! 6 = Some t
    ∧ body t = UnpackedStructBody fields
    ∧ ∀ i f, fields !! i = Some f → offset f = wrap32 (Z.of_nat i).
Proof.
  destruct (unpacked_struct_default_access (λ t _, t) compHeap0
              (snd (UnpackedStructType.fromSyntax (λ t _, t) compHeap0
                      intLogicStruct))
              intLogicStruct 6 1
              (Elements [IntegerV (SVInt.make 32 0 true);
                         IntegerV (SVInt.createFillX 1 false)])
              eq_refl eq_refl) as (t & fields & Ht & Hb & Hf).
  exists t, fields. split; [exact Ht|]. split; [exact Hb|].
  intros i f Hi. by destruct (Hf i f Hi).
Defined.
(** * Layout of packed structs *)

Section Layout.

Variable fuel : nat.
Variable h : Heap.

(** The fields created so far, in the order of their creation: each one
    starts where the ones before it end. *)
Definition layout_inv (st : MemberState) : Prop :=
  ∃ ws, Forall2 (hasWidth fuel h) (msMembers st) ws
      ∧ msBitWidth st = wrap32 (sumZ ws)
      ∧ ∀ i f, msMembers st !! i = Some f →
          offset f = wrap32 (sumZ (take i ws)).

Lemma layout_declaratorLoop type ie st decls st' :
  layout_inv st →
  PackedStructType.declaratorLoop fuel h type ie st decls = Some st' →
  layout_inv st'.
Proof.
  revert ie st. induction decls as [|d decls IH]; intros ie st Hinv; simpl.
  - by intros [= <-].
  - destruct (dimTypeIsUnpackedArray fuel h type (declDims d)) as [u|];
      simpl; [|discriminate].
    destruct (Type_.getBitWidth fuel h type) as [w|] eqn:Hw;
      simpl; [|discriminate].
    apply IH. destruct Hinv as (ws & Hws & Hbw & Hoff).
    pose proof (Forall2_length _ _ _ Hws) as Hlen.
    exists (ws ++ [w]). simpl. split; [|split].
    + apply Forall2_app; [done|]. by constructor.
    + rewrite Hbw, wrap32_add_l, sumZ_app. simpl. f_equal. lia.
    + intros i f Hf. apply lookup_app_Some in Hf as [Hf|[Hle Hf]].
      * rewrite take_app_le; [by apply Hoff|].
        apply lookup_lt_Some in Hf. lia.
      * apply list_lookup_singleton_Some in Hf as [Hz <-]. simpl.
        assert (i = length ws) as -> by lia.
        by rewrite take_app_length.
Qed.

Lemma layout_memberLoop st ms st' :
  layout_inv st → PackedStructType.memberLoop fuel h st ms = Some st' →
  layout_inv st'.
Proof.
  revert st. induction ms as [|m ms IH]; intros st Hinv; simpl.
  - by intros [= <-].
  - destruct (Type_.isFourState fuel h (memberType m)) as [fs|];
      simpl; [|discriminate].
    destruct (Type_.isIntegral fuel h (memberType m)) as [i|];
      simpl; [|discriminate].
    destruct (Type_.isError fuel h (memberType m)) as [e|];
      simpl; [|discriminate].
    destruct (PackedStructType.declaratorLoop _ _ _ _ _ _) as [st1|] eqn:Hd;
      simpl; [|discriminate].
    apply IH. eapply layout_declaratorLoop; [|exact Hd]. exact Hinv.
Qed.

End Layout.

Lemma sumZ_drop_le ws i j :
  Forall (λ w, 0 ≤ w)%Z ws → i ≤ j → (sumZ (drop j ws) ≤ sumZ (drop i ws))%Z.
Proof.
  intros Hpos. revert i j. induction Hpos as [|w ws Hw Hpos IH]; intros i j Hij.
  - by rewrite !drop_nil.
  - destruct i as [|i], j as [|j]; simpl; try lia.
    + specialize (IH 0 j ltac:(lia)). rewrite drop_0 in IH. lia.
    + apply IH. lia.
Qed.

Lemma sumZ_drop_S ws i w :
  ws !! i = Some w → sumZ (drop i ws) = (w + sumZ (drop (S i) ws))%Z.
Proof.
  revert i. induction ws as [|v ws IH]; intros [|i]; simpl; try done.
  - intros [= ->]. by rewrite drop_0.
  - apply IH.
Qed.

Lemma sumZ_drop_nonneg ws i :
  Forall (λ w, 0 ≤ w)%Z ws → (0 ≤ sumZ (drop i ws))%Z.
Proof.
  intros Hpos. revert i. induction Hpos as [|w ws Hw Hpos IH]; intros [|i];
    simpl; try lia.
  - specialize (IH 0). rewrite drop_0 in IH. lia.
  - apply IH.
Qed.

(** X8. The layout of a packed struct built from syntax: the offset of every
    field is the total width of the fields stored after it, so (when the
    widths add up below [2^32]) the fields lie inside the struct, do not
    overlap, and a later field always lies below an earlier one. *)
Theorem packed_struct_layout (fuel : nat) (comp comp' : Compilation)
    (syntax : StructUnionTypeSyntax) (forceSigned : bool) (p : TypePtr) :
  PackedStructType.fromSyntax fuel comp syntax forceSigned = Some (p, comp') →
  (p = errorTypePtr comp ∧ nextType comp' = nextType comp)
  ∨ ∃ t fields ws,
      types comp' !! nextType comp = Some t
      ∧ body t = PackedStructBody fields
      ∧ Forall2 (hasWidth fuel (types comp)) fields ws
      ∧ (∀ i f, fields !! i = Some f →
           offset f = wrap32 (sumZ (drop (S i) ws)))
      ∧ (Forall (λ w, 0 ≤ w)%Z ws → (sumZ ws < 2 ^ 32)%Z →
         ∀ i f w, fields !! i = Some f → ws !! i = Some w →
           (0 ≤ offset f)%Z ∧ (offset f + w ≤ bitWidth t)%Z
           ∧ ∀ j g v, i < j → fields !! j = Some g → ws !! j = Some v →
               (offset g + v ≤ offset f)%Z).
Proof.
  unfold PackedStructType.fromSyntax.
  destruct (PackedStructType.memberLoop _ _ _ _) as [st|] eqn:Hloop;
    simpl; [|discriminate].
  apply layout_memberLoop in Hloop as (ws & Hws & Hbw & Hoff).
  2:{ exists []. split; [constructor|]. split; [done|]. intros i f Hf. done. }
  destruct (msBitWidth st =? 0)%Z eqn:Hz.
  { intros [= <- <-]. by left. }
  intros Hwrap. right.
  apply wrapPackedDimensions_frame in Hwrap as (_ & _ & _ & Hq).
  simpl in Hq.
  pose proof (Forall2_length _ _ _ Hws) as Hlen.
  assert (∀ i f, reverse (msMembers st) !! i = Some f →
            offset f = wrap32 (sumZ (drop (S i) (reverse ws)))) as Hoff'.
  { intros i f Hf.
    pose proof (lookup_lt_Some _ _ _ Hf) as Hi. rewrite length_reverse in Hi.
    rewrite reverse_lookup in Hf by done.
    rewrite (Hoff _ _ Hf). f_equal.
    rewrite drop_reverse, sumZ_reverse. f_equal. f_equal. lia. }
  eexists _, (reverse (msMembers st)), (reverse ws).
  rewrite Hq, lookup_insert_eq by lia.
  split; [reflexivity|]. split; [reflexivity|].
  split; [by apply Forall2_reverse|]. split; [exact Hoff'|].
  simpl. rewrite sumZ_reverse. intros Hpos Hsum.
  assert (∀ k, wrap32 (sumZ (drop k (reverse ws)))
               = sumZ (drop k (reverse ws))) as Hsmall.
  { intros k. unfold wrap32. apply Z.mod_small.
    pose proof (sumZ_drop_nonneg _ k Hpos).
    pose proof (sumZ_drop_le _ 0 k Hpos ltac:(lia)) as Hle.
    rewrite drop_0, sumZ_reverse in Hle. lia. }
  intros i f w Hf Hw. rewrite (Hoff' _ _ Hf), Hsmall.
  pose proof (sumZ_drop_nonneg _ (S i) Hpos).
  pose proof (sumZ_drop_S _ _ _ Hw) as HS.
  pose proof (sumZ_drop_le _ 0 i Hpos ltac:(lia)) as Hle.
  rewrite drop_0, sumZ_reverse in Hle.
  assert (wrap32 (sumZ ws) = sumZ ws) as Hbw'.
  { specialize (Hsmall 0). by rewrite drop_0, sumZ_reverse in Hsmall. }
  split; [lia|]. split; [rewrite Hbw, Hbw'; lia|].
  intros j g v Hij Hg Hv. rewrite (Hoff' _ _ Hg), Hsmall.
  pose proof (sumZ_drop_S _ _ _ Hv) as HSj.
  pose proof (sumZ_drop_le _ (S i) j Hpos ltac:(lia)). lia.
Qed.

(** [struct packed { byte a; shortint b; }]. *)
Lemma packed_struct_layout_witness :
  let r := default (0, comp0)
             (PackedStructType.fromSyntax 2 comp0 byteShortint false) in
  (fst r = errorTypePtr comp0 ∧ nextType (snd r) = nextType comp0)
  ∨ ∃ t fields ws,
      types (snd r) !! nextType comp0 = Some t
      ∧ body t = PackedStructBody fields
      ∧ Forall2 (hasWidth 2 (types comp0)) fields ws
      ∧ (∀ i f, fields !! i = Some f →
           offset f = wrap32 (sumZ (drop (S i) ws)))
      ∧ (Forall (λ w, 0 ≤ w)%Z ws → (sumZ ws < 2 ^ 32)%Z →
         ∀ i f w, fields !! i = Some f → ws !! i = Some w →
           (0 ≤ offset f)%Z ∧ (offset f + w ≤ bitWidth t)%Z
           ∧ ∀ j g v, i < j → fields !! j = Some g → ws !! j = Some v →
               (offset g + v ≤ offset f)%Z).
Proof.
  apply (packed_struct_layout 2 comp0 _ byteShortint false _). reflexivity.
Defined.
(** * Unpacked arrays *)

(** [p] is an unpacked array with the dimensions [rs], outermost first,
    over the element type. *)
Inductive unpackedOver (h : Heap) (elementType : TypePtr)
  : TypePtr → list ConstantRange → Prop :=
| unpackedOver_nil : unpackedOver h elementType elementType []
| unpackedOver_cons p t q r rs :
    h !! p = Some t → body t = UnpackedArrayBody q r →
    unpackedOver h elementType q rs →
    unpackedOver h elementType p (r :: rs).

(** Addresses from [nextType] on are free. *)
Definition addressesFree (comp : Compilation) : Prop :=
  ∀ q, nextType comp ≤ q → types comp !! q = None.

Lemma unpackedOver_insert h e p rs n t :
  h !! n = None → unpackedOver h e p rs → unpackedOver (<[n := t]> h) e p rs.
Proof.
  intros Hn. induction 1 as [|p u q r rs Hp Hb _ IH]; [constructor|].
  econstructor; [|exact Hb|exact IH].
  rewrite lookup_insert_ne; [done|]. intros ->. congruence.
Qed.

Section ArrayFacts.

Variable evalDimension : SyntaxPtr → option ConstantRange * Diagnostics.

Abbreviation dimensionLoop := (UnpackedArrayType.dimensionLoop evalDimension).

(** The dimensions that are evaluated, of a list given in the order of
    the evaluation: all up to the first one that is not a range. *)
Fixpoint evaluated (dims : list SyntaxPtr) : list SyntaxPtr :=
  match dims with
  | [] => []
  | d :: rest =>
      d :: match (evalDimension d).1 with
           | Some _ => evaluated rest
           | None => []
           end
  end.

(** What the calls of [evalDimension] on [dims] report, one after the
    other. *)
Definition reported (dims : list SyntaxPtr) : Diagnostics :=
  List.concat (map (fun d => (evalDimension d).2) dims).

Lemma dimensionLoop_spec e comp result done rdims rs :
  addressesFree comp → unpackedOver (types comp) e result done →
  (fun d => (evalDimension d).1) <$> rdims = Some <$> rs →
  unpackedOver (types (snd (dimensionLoop comp result rdims)))
    e (fst (dimensionLoop comp result rdims))
    (reverse rs ++ done)
  ∧ nextType (snd (dimensionLoop comp result rdims))
    = nextType comp + length rdims.
Proof.
  revert comp result done rs.
  induction rdims as [|s rdims IH]; intros comp result done rs.
  - intros _ Hover Hrs. destruct rs; [|done]. simpl. split; [done|lia].
  - intros Hfresh Hover Hrs. destruct rs as [|r rs]; [done|].
    injection Hrs as Hs Hrs. simpl.
    destruct (evalDimension s) as [dim ds] eqn:He. simpl in Hs. subst dim.
    destruct (IH (snd (Compilation.emplace
                         (UnpackedArrayType.report comp ds)
                         (UnpackedArrayType.new result r (nextType comp) s)))
                 (nextType comp) (r :: done) rs) as [H1 H2].
    + intros q Hq. simpl in *. rewrite lookup_insert_ne by lia.
      apply Hfresh. lia.
    + simpl. econstructor.
      * apply lookup_insert_eq.
      * done.
      * apply unpackedOver_insert; [apply Hfresh; lia|done].
    + done.
    + simpl in *. rewrite reverse_cons, <- app_assoc. split; [exact H1|lia].
Qed.

Lemma dimensionLoop_frame comp result rdims :
  scopeDiags (snd (dimensionLoop comp result rdims))
  = scopeDiags comp ++ reported (evaluated rdims)
  ∧ ∀ q, q < nextType comp →
      types (snd (dimensionLoop comp result rdims)) !! q
      = types comp !! q.
Proof.
  revert comp result. induction rdims as [|s rdims IH];
    intros comp result; simpl.
  { unfold reported. simpl. by rewrite app_nil_r. }
  unfold reported. simpl.
  destruct (evalDimension s) as [[range|] ds] eqn:He; simpl.
  - destruct (IH (snd (Compilation.emplace
                         (UnpackedArrayType.report comp ds)
                         (UnpackedArrayType.new result range (nextType comp)
                            s)))
                 (nextType comp)) as [H1 H2].
    simpl in *. split.
    + rewrite H1. unfold reported. by rewrite <- app_assoc.
    + intros q Hq. rewrite H2 by lia. apply lookup_insert_ne. lia.
  - by rewrite app_nil_r.
Qed.

Lemma dimensionLoop_error comp result rdims :
  None ∈ ((fun d => (evalDimension d).1) <$> rdims) →
  fst (dimensionLoop comp result rdims) = errorTypePtr comp.
Proof.
  revert comp result. induction rdims as [|s rdims IH];
    intros comp result; simpl.
  - intros H. by apply elem_of_nil in H.
  - destruct (evalDimension s) as [[range|] ds] eqn:He; simpl; [|done].
    intros H. apply elem_of_cons in H as [H|H]; [done|].
    by rewrite IH.
Qed.

(** X9. Unpacked dimensions nest with the leftmost dimension outermost: the
    type built for the dimensions with the ranges [rs] over an element
    type is an array over [rs], one new object per dimension.  An element
    of the error type is handed back as it is, without any dimension
    being evaluated, and a dimension that is not a range gives the error
    type.  The dimensions are evaluated from the last one to the first,
    up to the first one that is not a range; the diagnostics of the scope
    grow by what these evaluations report, in this order, and by nothing
    else; no existing type changes. *)
Theorem unpacked_array_dimensions (fuel : nat) (comp comp' : Compilation)
    (elementType p : TypePtr) (dimensions : list SyntaxPtr) :
  addressesFree comp →
  UnpackedArrayType.fromSyntax evalDimension fuel comp elementType dimensions
  = Some (p, comp') →
  (Type_.isError fuel (types comp) elementType = Some true →
   p = elementType ∧ comp' = comp)
  ∧ (Type_.isError fuel (types comp) elementType = Some false →
     (∀ rs, (fun d => (evalDimension d).1) <$> dimensions = Some <$> rs →
        unpackedOver (types comp') elementType p rs
        ∧ nextType comp' = nextType comp + length dimensions)
     ∧ (None ∈ ((fun d => (evalDimension d).1) <$> dimensions) →
        p = errorTypePtr comp)
     ∧ scopeDiags comp'
       = scopeDiags comp ++ reported (evaluated (reverse dimensions)))
  ∧ ∀ q, q < nextType comp → types comp' !! q = types comp !! q.
Proof.
  intros Hfresh. unfold UnpackedArrayType.fromSyntax.
  destruct (Type_.isError fuel (types comp) elementType) as [[]|];
    simpl; [| |done].
  { intros [= <- <-]. repeat split; done. }
  intros Hloop.
  destruct (dimensionLoop comp elementType (reverse dimensions))
    as [p0 comp0'] eqn:Hd.
  injection Hloop as -> ->.
  pose proof (dimensionLoop_frame comp elementType (reverse dimensions))
    as Hf.
  rewrite Hd in Hf. destruct Hf as [Hdiags Hframe].
  split; [done|]. split; [intros _; repeat apply conj|done].
  - intros rs Hrs.
    destruct (dimensionLoop_spec elementType comp elementType []
                (reverse dimensions) (reverse rs) Hfresh
                (unpackedOver_nil _ _)) as [H1 H2].
    { by rewrite !fmap_reverse, Hrs. }
    rewrite Hd in H1, H2. simpl in *.
    rewrite reverse_involutive, app_nil_r in H1.
    rewrite length_reverse in H2. done.
  - intros Hnone.
    pose proof (dimensionLoop_error comp elementType (reverse dimensions))
      as He.
    rewrite Hd in He. apply He. rewrite fmap_reverse.
    by apply elem_of_reverse.
  - exact Hdiags.
Qed.

End ArrayFacts.

(** [int a [2:0][0:3]]: an array over [2:0] of arrays over [0:3] of
    [int]; the syntax node 90 is [[2:0]], 91 is [[0:3]], and any other
    node is no range, which is reported. *)
Lemma compHeap0_fresh : addressesFree compHeap0.
Proof.
  intros q Hq. simpl in *. unfold heap0.
  rewrite !lookup_insert_ne by lia. done.
Qed.

Definition evalExampleDimension (d : SyntaxPtr)
  : option ConstantRange * Diagnostics :=
  if bool_decide (d = 90%nat) then (Some (mkRange 2 0), [])
  else if bool_decide (d = 91%nat) then (Some (mkRange 0 3), [])
  else (None, [mkDiag DimensionRequiresConstRange d []]).

Lemma unpacked_array_dimensions_witness :
  unpackedOver
    (types (snd (UnpackedArrayType.dimensionLoop evalExampleDimension
                   compHeap0 1 [91; 90]%nat)))
    1 7 [mkRange 2 0; mkRange 0 3].
Proof.
  destruct (unpacked_array_dimensions evalExampleDimension 3 compHeap0
              (snd (UnpackedArrayType.dimensionLoop evalExampleDimension
                      compHeap0 1 [91; 90]%nat))
              1 7 [90; 91]%nat compHeap0_fresh eq_refl) as (_ & H & _).
  destruct (H eq_refl) as [H1 _].
  destruct (H1 [mkRange 2 0; mkRange 0 3] eq_refl) as [H2 _]. exact H2.
Defined.

(** [int a [2:0][x][0:3]] with [x] no range: [[0:3]] and [[x]] are
    evaluated, [[2:0]] is not; the result is the error type, one array
    type has been created, and the report for [[x]] is all that the scope
    gets. *)
Example unpacked_array_bad_dimension :
  UnpackedArrayType.fromSyntax evalExampleDimension 3 compHeap0 1
    [90; 92; 91]%nat
  = Some (errorTypePtr compHeap0,
          mkCompilation
            (<[6%nat := UnpackedArrayType.new 1 (mkRange 0 3) 6 91]> heap0)
            7 [mkDiag DimensionRequiresConstRange 92 []]
            (errorTypePtr compHeap0)).
Proof. reflexivity. Qed.
(** * Forward declarations of a typedef *)

Section ForwardFacts.

Import ForwardingTypedefSymbol ForwardDecls.

(** The forward declarations reachable from [first], in link order. *)
Fixpoint chain (fh : ForwardHeap) (first : option ForwardPtr)
    (ps : list ForwardPtr) : Prop :=
  match ps with
  | [] => first = None
  | p :: ps' =>
      first = Some p /\ exists s, fh !! p = Some s /\ chain fh (next s) ps'
  end.

(** Adding the declarations [ps] to a typedef, one call of
    [TypeAliasType::addForwardDecl] each, in the order of the list. *)
Fixpoint addAll (fuel : nat) (fh : ForwardHeap) (first : option ForwardPtr)
    (ps : list ForwardPtr) : option (option ForwardPtr * ForwardHeap) :=
  match ps with
  | [] => Some (first, fh)
  | p :: ps' =>
      r ← TypeAliasType_addForwardDecl fuel fh first p;
      addAll fuel r.2 r.1 ps'
  end.

(** A forward declaration disagrees with the category of the target. *)
Definition mismatches (cat : Category) (s : ForwardingTypedefSymbol.t) : bool :=
  negb (bool_decide (category s = NoCategory))
  && negb (bool_decide (category s = cat)).

(** Two heaps hold the same declarations, links apart. *)
Definition sameDecls (fh fh' : ForwardHeap) : Prop :=
  forall q, (category <$> fh' !! q) = (category <$> fh !! q)
         /\ (location <$> fh' !! q) = (location <$> fh !! q).

Lemma sameDecls_refl fh : sameDecls fh fh.
Proof. by intros q. Qed.

Lemma sameDecls_trans fh1 fh2 fh3 :
  sameDecls fh1 fh2 -> sameDecls fh2 fh3 -> sameDecls fh1 fh3.
Proof.
  intros H1 H2 q. destruct (H2 q) as [-> ->]. by destruct (H1 q) as [-> ->].
Qed.

Lemma chain_frame fh fh' first ps :
  (forall q, q ∈ ps -> fh' !! q = fh !! q) ->
  chain fh first ps -> chain fh' first ps.
Proof.
  revert first. induction ps as [|p ps IH]; intros first Hsame; [done|].
  intros [-> (s & Hs & Hc)]. split; [done|]. exists s. split.
  - rewrite Hsame; [done|]. by left.
  - apply IH; [|done]. intros q Hq. apply Hsame. by right.
Qed.

Lemma addForwardDecl_chain ps : forall fuel fh p d sd,
  chain fh (Some p) ps -> NoDup ps -> d ∉ ps ->
  fh !! d = Some sd -> next sd = None ->
  length ps <= fuel ->
  exists fh', addForwardDecl fuel fh p d = Some fh'
    /\ chain fh' (Some p) (ps ++ [d])
    /\ sameDecls fh fh'
    /\ (forall q, q ∉ ps -> fh' !! q = fh !! q).
Proof.
  induction ps as [|p0 ps IH]; intros fuel fh p d sd Hc Hnd Hd Hsd Hnx Hlen.
  { simpl in Hc. done. }
  destruct Hc as [Hp (s & Hs & Hc)]. injection Hp as <-.
  destruct fuel as [|n]; [simpl in Hlen; lia|]. simpl. rewrite Hs. simpl.
  apply NoDup_cons in Hnd as [Hp0 Hnd].
  apply not_elem_of_cons in Hd as [Hdp Hd].
  destruct (next s) as [nx|] eqn:Hnext.
  - destruct ps as [|p1 ps']; [done|].
    destruct Hc as [Hnx1 Hc1]. simplify_eq.
    destruct (IH n fh p1 d sd) as (fh' & Hadd & Hch & Hsame & Hframe);
      [by split| done | done | done | done | simpl in *; lia |].
    exists fh'. split; [done|]. split.
    + split; [done|]. exists s. split.
      * rewrite Hframe; done.
      * by rewrite Hnext.
    + split; [done|]. intros q Hq. apply Hframe.
      intros Hin. apply Hq. by right.
  - destruct ps as [|p1 ps']; [|by destruct Hc].
    eexists. split; [done|]. split.
    + split; [done|]. eexists. split; [by rewrite lookup_insert_eq|].
      simpl. split; [done|]. exists sd. split.
      * rewrite lookup_insert_ne; done.
      * by rewrite Hnx.
    + split.
      * intros q. destruct (decide (q = p)) as [->|Hne].
        -- rewrite lookup_insert_eq, Hs. done.
        -- rewrite lookup_insert_ne; done.
      * intros q Hq. rewrite lookup_insert_ne; [done|].
        intros ->. apply Hq. by left.
Qed.

Lemma TypeAliasType_addForwardDecl_chain ps fuel fh first d sd :
  chain fh first ps -> NoDup ps -> d ∉ ps ->
  fh !! d = Some sd -> next sd = None ->
  length ps <= fuel ->
  exists first' fh',
    TypeAliasType_addForwardDecl fuel fh first d = Some (first', fh')
    /\ chain fh' first' (ps ++ [d])
    /\ sameDecls fh fh'
    /\ (forall q, q ∉ ps -> fh' !! q = fh !! q).
Proof.
  intros Hc Hnd Hd Hsd Hnx Hlen. destruct ps as [|p ps].
  - simpl in Hc. subst first. exists (Some d), fh. simpl.
    split; [done|]. split.
    + split; [done|]. exists sd. by rewrite Hnx.
    + split; [apply sameDecls_refl | done].
  - destruct Hc as [-> Hc].
    destruct (addForwardDecl_chain (p :: ps) fuel fh p d sd)
      as (fh' & Hadd & Hch & Hsame & Hframe); try done.
    exists (Some p), fh'. unfold TypeAliasType_addForwardDecl.
    rewrite Hadd. done.
Qed.

Lemma addAll_chain ds : forall fuel fh first ps,
  chain fh first ps -> NoDup (ps ++ ds) ->
  (forall d, d ∈ ds -> exists sd, fh !! d = Some sd /\ next sd = None) ->
  length (ps ++ ds) <= fuel ->
  exists first' fh',
    addAll fuel fh first ds = Some (first', fh')
    /\ chain fh' first' (ps ++ ds)
    /\ sameDecls fh fh'.
Proof.
  induction ds as [|d ds IH]; intros fuel fh first ps Hc Hnd Hds Hlen.
  { exists first, fh. rewrite app_nil_r. simpl.
    split; [done|]. split; [done | apply sameDecls_refl]. }
  simpl. destruct (Hds d) as (sd & Hsd & Hnx); [by left|].
  assert (Hnd' := Hnd).
  apply NoDup_app in Hnd as (Hndp & Hdisj & Hndd).
  apply NoDup_cons in Hndd as [Hdd Hndds].
  rewrite length_app in Hlen. simpl in Hlen.
  destruct (TypeAliasType_addForwardDecl_chain ps fuel fh first d sd)
    as (first' & fh' & Hadd & Hch & Hsame & Hframe); try done; try lia.
  { intros Hin. apply (Hdisj d Hin). by left. }
  rewrite Hadd. simpl.
  replace (ps ++ d :: ds) with ((ps ++ [d]) ++ ds) in *
    by (by rewrite <- app_assoc).
  destruct (IH fuel fh' first' (ps ++ [d])) as (f2 & fh2 & Hall & Hch2 & Hs2);
    try done.
  - intros e He. destruct (Hds e) as (se & Hse & Hne); [by right|].
    exists se. split; [|done]. rewrite Hframe; [done|].
    intros Hin. apply (Hdisj e Hin). by right.
  - rewrite !length_app. simpl. lia.
  - exists f2, fh2. split; [done|]. split; [done|].
    eapply sameDecls_trans; done.
Qed.

Lemma checkLoop_chain ps : forall fuel fh first cat loc ds,
  chain fh first ps -> length ps <= fuel ->
  checkLoop fuel fh first cat loc ds =
    Some (match head (filter (fun s => mismatches cat s = true)
                        (omap (fun p => fh !! p) ps)) with
          | None => ds
          | Some s => addDeclNote ds ForwardTypedefDoesNotMatch (location s)
                        (inl NoteDeclarationHere) loc
          end).
Proof.
  induction ps as [|p ps IH]; intros fuel fh first cat loc ds Hc Hlen.
  { simpl in Hc. subst. by destruct fuel. }
  destruct Hc as [-> (s & Hs & Hc)].
  destruct fuel as [|n]; [simpl in Hlen; lia|].
  simpl. rewrite Hs. simpl. rewrite filter_cons.
  fold (mismatches cat s).
  destruct (mismatches cat s) eqn:Hm.
  - rewrite decide_True by done. done.
  - rewrite decide_False by done. apply IH; [done | simpl in Hlen; lia].
Qed.

Lemma omap_sameDecls fh fh' ps cat :
  sameDecls fh fh' ->
  (forall p, p ∈ ps -> is_Some (fh !! p)) ->
  location <$> head (filter (fun s => mismatches cat s = true)
                       (omap (fun p => fh' !! p) ps))
  = location <$> head (filter (fun s => mismatches cat s = true)
                       (omap (fun p => fh !! p) ps)).
Proof.
  intros Hsame. induction ps as [|p ps IH]; intros Hin; [done|].
  simpl. destruct (Hsame p) as [Hcat Hloc].
  destruct (Hin p) as [s Hs]; [by left|]. rewrite Hs in *.
  destruct (fh' !! p) as [s'|] eqn:Hs'; [|done]. simpl in *.
  injection Hcat as Hcat. injection Hloc as Hloc.
  assert (mismatches cat s' = mismatches cat s) as Hmm
    by (unfold mismatches; by rewrite Hcat).
  rewrite !filter_cons.
  destruct (mismatches cat s) eqn:Hm.
  - rewrite !decide_True by done. simpl. by rewrite Hloc.
  - rewrite !decide_False by (by rewrite ?Hmm, ?Hm). apply IH.
    intros q Hq. apply Hin. by right.
Qed.

(** X10. Forward declarations added to a typedef are linked in the order
    in which they were added, and [checkForwardDecls] reports at most one
    [ForwardTypedefDoesNotMatch]: at the first declaration, in that order,
    whose category is given and differs from the category of the target
    type; when the target is no struct, union or enum nothing is checked. *)
Theorem forward_decls_checked (fuel : nat) (fh : ForwardHeap)
    (ps : list ForwardPtr)
    (Hnd : NoDup ps)
    (Hps : forall p, p ∈ ps -> exists s, fh !! p = Some s /\ next s = None)
    (Hfuel : length ps <= fuel) :
  exists first fh',
    addAll fuel fh None ps = Some (first, fh')
    /\ chain fh' first ps
    /\ forall k loc ds,
         checkForwardDecls fuel fh' first k loc ds =
         Some (match categoryOf k with
               | None => ds
               | Some cat =>
                   match head (filter (fun s => mismatches cat s = true)
                                 (omap (fun p => fh !! p) ps)) with
                   | None => ds
                   | Some s =>
                       addDeclNote ds ForwardTypedefDoesNotMatch (location s)
                         (inl NoteDeclarationHere) loc
                   end
               end).
Proof.
  destruct (addAll_chain ps fuel fh None []) as (first & fh' & Hall & Hch & Hs);
    try done.
  exists first, fh'. simpl in Hch. split; [done|]. split; [done|].
  intros k loc ds. unfold checkForwardDecls.
  destruct (categoryOf k) as [cat|]; [|done].
  rewrite (checkLoop_chain ps) by done. f_equal.
  pose proof (omap_sameDecls fh fh' ps cat Hs) as Hloc.
  destruct (head (filter _ (omap (fun p => fh' !! p) ps))) as [s'|];
    destruct (head (filter _ (omap (fun p => fh !! p) ps))) as [s|];
    simpl in Hloc.
  - assert (Some (location s') = Some (location s)) as [= ->]; [|done].
    apply Hloc. intros p Hp. destruct (Hps p Hp) as (s0 & -> & _). done.
  - exfalso. assert (Some (location s') = None) as H; [|done].
    apply Hloc. intros p Hp. destruct (Hps p Hp) as (s0 & -> & _). done.
  - exfalso. assert (None = Some (location s)) as H; [|done].
    apply Hloc. intros p Hp. destruct (Hps p Hp) as (s0 & -> & _). done.
  - done.
Qed.

End ForwardFacts.

Definition forwardHeap0 : ForwardHeap :=
  <[0%nat := ForwardingTypedefSymbol.mkForward
               ForwardingTypedefSymbol.NoCategory 10 None]>
  (<[1%nat := ForwardingTypedefSymbol.mkForward
               ForwardingTypedefSymbol.Struct 20 None]>
  (<[2%nat := ForwardingTypedefSymbol.mkForward
               ForwardingTypedefSymbol.Enum 30 None]>
  (<[3%nat := ForwardingTypedefSymbol.mkForward
               ForwardingTypedefSymbol.Union 40 None]> ∅))).

Lemma forward_decls_checked_witness :
  exists first fh',
    addAll 4 forwardHeap0 None [0; 1; 2; 3]%nat = Some (first, fh')
    /\ chain fh' first [0; 1; 2; 3]%nat
    /\ ForwardDecls.checkForwardDecls 4 fh' first PackedStructType 50 [] =
         Some [mkDeclDiag ForwardTypedefDoesNotMatch 30
                 ([inl NoteDeclarationHere], [50])].
Proof.
  destruct (forward_decls_checked 4 forwardHeap0 [0; 1; 2; 3]%nat)
    as (first & fh' & Hall & Hch & Hcheck).
  - apply (bool_decide_unpack _). reflexivity.
  - intros p Hp. unfold forwardHeap0.
    repeat (apply elem_of_cons in Hp as [->|Hp]);
      [eexists; split; [reflexivity|done] ..|].
    by apply elem_of_nil in Hp.
  - simpl. lia.
  - exists first, fh'. split; [done|]. split; [done|].
    rewrite Hcheck. reflexivity.
Defined.
(** * Conditional generate constructs *)

Section GenerateFacts.

Import GenerateBlockSymbol.

Variable bind : SyntaxPtr → Expression.
Variable requireBooleanConvertible : Expression → bool.
Variable bindCaseExpressions :
  SyntaxPtr → list SyntaxPtr → option (list Expression).
Variable isTrue : ConstantValue → bool.
Variable equivalentTo : ConstantValue → ConstantValue → bool.
Variable index : Z.

Abbreviation create :=
  (createCondGenBlock bind requireBooleanConvertible bindCaseExpressions
     isTrue equivalentTo index).

(** The number of instantiated blocks of a list. *)
Definition instantiatedCount (bs : list GenerateBlockSymbol) : nat :=
  length (filter (fun b => isInstantiated b = true) bs).

Lemma instantiatedCount_app bs cs :
  instantiatedCount (bs ++ cs) = (instantiatedCount bs + instantiatedCount cs)%nat.
Proof. unfold instantiatedCount. by rewrite filter_app, length_app. Qed.

(** What one call adds to the results: [new] blocks, all of construct
    [index], at most one of them instantiated and none when the call was
    made for a construct that is not instantiated; and diagnostics. *)
Definition adds (inst : bool) (r r' : Results) : Prop :=
  exists new diags,
    r' = mkResults (results r ++ new) (parentDiags r ++ diags)
    /\ Forall (fun b => constructIndex b = index) new
    /\ instantiatedCount new <= 1
    /\ (inst = false -> instantiatedCount new = 0%nat).

Lemma adds_weaken r r' : adds false r r' -> forall inst, adds inst r r'.
Proof.
  intros (new & diags & -> & Hidx & Hle & Hz) inst.
  exists new, diags. repeat apply conj; try done. intros _. by apply Hz.
Qed.

Lemma adds_diag inst r c loc n nloc :
  adds inst r
    (mkResults (results r) (addDeclNote (parentDiags r) c loc n nloc)).
Proof.
  exists [], [mkDeclDiag c loc ([n], [nloc])].
  rewrite app_nil_r. repeat apply conj; try done. cbv. lia.
Qed.

Lemma createBlock_adds syntax inst r :
  adds inst r (createBlock index syntax inst r).
Proof.
  exists [mkGenerateBlock (getGenerateBlockName syntax)
            (getFirstToken syntax) index inst syntax], [].
  rewrite app_nil_r. repeat apply conj.
  - done.
  - by constructor.
  - unfold instantiatedCount. rewrite filter_cons. simpl.
    destruct (decide (inst = true)); simpl; lia.
  - intros ->. done.
Qed.

(** Two calls in a row of which the second, or the first, instantiates
    nothing. *)
Lemma adds_then_none inst r1 r2 r3 :
  adds inst r1 r2 -> adds false r2 r3 -> adds inst r1 r3.
Proof.
  intros (n1 & d1 & -> & Hi1 & Hle1 & Hz1) (n2 & d2 & -> & Hi2 & Hle2 & Hz2).
  simpl. exists (n1 ++ n2), (d1 ++ d2). rewrite !app_assoc.
  specialize (Hz2 eq_refl). repeat apply conj.
  - done.
  - by apply Forall_app.
  - rewrite instantiatedCount_app. lia.
  - intros Hf. rewrite instantiatedCount_app, (Hz1 Hf). lia.
Qed.

Lemma none_then_adds inst r1 r2 r3 :
  adds false r1 r2 -> adds inst r2 r3 -> adds inst r1 r3.
Proof.
  intros (n1 & d1 & -> & Hi1 & Hle1 & Hz1) (n2 & d2 & -> & Hi2 & Hle2 & Hz2).
  simpl. exists (n1 ++ n2), (d1 ++ d2). rewrite !app_assoc.
  specialize (Hz1 eq_refl). repeat apply conj.
  - done.
  - by apply Forall_app.
  - rewrite instantiatedCount_app. lia.
  - intros Hf. rewrite instantiatedCount_app, (Hz2 Hf). lia.
Qed.

Lemma adds_refl inst r : adds inst r r.
Proof.
  exists [], []. rewrite !app_nil_r. destruct r. repeat apply conj; try done.
  cbv. lia.
Qed.

(** The number of case expressions of the items. *)
Definition expressionCount (items : list CaseItemSyntax) : nat :=
  foldr (fun item acc =>
           match item with
           | StandardCaseItemSyntax es _ => (length es + acc)%nat
           | DefaultCaseItemSyntax _ => acc
           end) 0%nat items.

Definition itemsDepth (items : list CaseItemSyntax) : nat :=
  foldr (fun item acc =>
           match item with
           | StandardCaseItemSyntax _ c | DefaultCaseItemSyntax c => depth c
           end `max` acc) 0%nat items.

Lemma collectItems_spec items : forall es d,
  exists d',
    collectItems items es d = (es ++ (collectItems items [] None).1, d')
    /\ length (collectItems items [] None).1 = expressionCount items
    /\ (forall c, d' = Some c ->
          d = Some c \/ depth c <= itemsDepth items).
Proof.
  induction items as [|[es0 c0|c0] items IH]; intros es d; simpl.
  - exists d. rewrite app_nil_r. repeat apply conj; try done. by left.
  - destruct (IH (es ++ es0) d) as (d' & Heq & Hlen & Hd).
    destruct (IH es0 None) as (d0 & Heq0 & _ & _).
    exists d'. rewrite Heq, Heq0. simpl. rewrite <- app_assoc.
    repeat apply conj; [done | rewrite length_app; lia |].
    intros c Hc. destruct (Hd c Hc) as [?|?]; [by left | right; lia].
  - destruct (IH es (Some c0)) as (d' & Heq & Hlen & Hd).
    destruct (IH [] (Some c0)) as (d0 & Heq0 & _ & _).
    exists d'. rewrite Heq, Heq0. simpl.
    repeat apply conj; [done | done |].
    intros c Hc. destruct (Hd c Hc) as [[= <-]|?]; right; lia.
Qed.

Lemma matchExpressions_defined cond es : forall bound cf cr,
  length es <= length bound ->
  exists cf' cr',
    matchExpressions equivalentTo cond es bound cf cr
    = Some (cf', cr', drop (length es) bound).
Proof.
  induction es as [|e es IH]; intros bound cf cr Hlen; simpl.
  { rewrite drop_0. by eexists _, _. }
  destruct bound as [|b bound]; [simpl in Hlen; lia|].
  simpl in Hlen. simpl.
  destruct (constant (header b));
    [destruct (negb cf && equivalentTo _ cond)|]; apply IH; lia.
Qed.

Lemma caseLoop_adds (n : nat)
    (IH : forall syntax inst r,
       depth syntax < n ->
       exists r', create n syntax inst r = Some r' /\ adds inst r r')
    cond inst items : forall st r,
  itemsDepth items < n ->
  expressionCount items <= length (boundIt st) ->
  exists st' r',
    caseLoop equivalentTo (create n) cond inst items st r = Some (st', r')
    /\ (found st = true -> found st' = true /\ adds false r r')
    /\ (found st = false ->
          (found st' = false /\ adds false r r')
          \/ (found st' = true /\ adds inst r r')).
Proof.
  induction items as [|[es c|c] items IHi]; intros st r Hd Hc; simpl in *.
  - exists st, r. repeat apply conj; [done | | ].
    + intros ?. split; [done | apply adds_refl].
    + intros ?. left. split; [done | apply adds_refl].
  - destruct (matchExpressions_defined cond es (boundIt st) false 0%nat)
      as (cf & cr & Hm); [lia|].
    rewrite Hm. cbn [mbind option_bind].
    assert (Hrest : expressionCount items <= length (drop (length es) (boundIt st)))
      by (rewrite length_drop; lia).
    destruct (cf && negb (found st)) eqn:Hsel.
    + apply andb_true_iff in Hsel as [-> Hnf].
      apply negb_true_iff in Hnf.
      destruct (IH c inst r) as (r1 & Hr1 & Ha1); [lia|].
      rewrite Hr1. cbn [mbind option_bind].
      destruct (IHi (mkCaseState (drop (length es) (boundIt st)) cr true
                       (warned st)) r1) as (st' & r' & Hloop & Ht & _);
        [lia | done |].
      exists st', r'. rewrite Hloop. split; [done|].
      destruct (Ht eq_refl) as [Hf' Ha']. split.
      * intros Hf. congruence.
      * intros _. right. split; [done|]. by eapply adds_then_none.
    + set (w := if cf && negb (warned st)
                then (mkResults (results r)
                        (addDeclNote (parentDiags r) CaseGenerateDup cr
                           (inr NotePreviousMatch) (matchRange st)), true)
                else (r, warned st)).
      assert (Hw : adds false r w.1).
      { unfold w. destruct (cf && negb (warned st)); simpl;
          [apply adds_diag | apply adds_refl]. }
      destruct w as [r1 warned'] eqn:Hweq. simpl in Hw.
      destruct (IH c false r1) as (r2 & Hr2 & Ha2); [lia|].
      rewrite Hr2. cbn [mbind option_bind].
      destruct (IHi (mkCaseState (drop (length es) (boundIt st))
                       (matchRange st) (found st) warned') r2)
        as (st' & r' & Hloop & Ht & Hf); [lia | done |].
      exists st', r'. rewrite Hloop. split; [done|].
      assert (H12 : adds false r r2) by (by eapply adds_then_none).
      simpl in Ht, Hf. split.
      * intros Hfs. destruct (Ht Hfs) as [? ?]. split; [done|].
        by eapply adds_then_none.
      * intros Hfs. destruct (Hf Hfs) as [[? ?]|[? ?]].
        -- left. split; [done|]. by eapply adds_then_none.
        -- right. split; [done|]. by eapply none_then_adds.
  - apply IHi; [lia | done].
Qed.

(** X11. A conditional generate construct, with all the constructs that
    are directly nested in it, adds its blocks to the results under the
    index of the construct and instantiates at most one of them; when the
    construct itself is not instantiated it instantiates none.  Blocks
    and diagnostics that were there before are kept. *)
Theorem conditional_generate_one_block (fuel : nat) (syntax : SyntaxNode)
    (inst : bool) (r : Results)
    (Hbinder : forall c es bound,
       bindCaseExpressions c es = Some bound -> length bound = S (length es))
    (Hfuel : depth syntax < fuel) :
  exists new diags,
    create fuel syntax inst r
      = Some (mkResults (results r ++ new) (parentDiags r ++ diags))
    /\ Forall (fun b => constructIndex b = index) new
    /\ instantiatedCount new <= 1
    /\ (inst = false -> instantiatedCount new = 0%nat).
Proof.
  enough (exists r', create fuel syntax inst r = Some r' /\ adds inst r r')
    as (r' & Hr' & new & diags & -> & H).
  { by exists new, diags. }
  revert syntax inst r Hfuel.
  induction fuel as [|n IH]; intros syntax inst r Hfuel; [lia|].
  destruct syntax as [l b loc | loc | condition block elseClause
                     | condition items].
  - eexists. split; [done | apply createBlock_adds].
  - eexists. split; [done | apply createBlock_adds].
  - simpl in Hfuel. simpl. unfold fromIfGenerate.
    set (selector := if inst then _ else None).
    assert (Hsel : inst = false -> selector = None) by (by intros ->).
    destruct (IH block (match selector with Some b => b | None => false end) r)
      as (r1 & Hr1 & Ha1); [lia|].
    rewrite Hr1. cbn [mbind option_bind].
    destruct elseClause as [clause|].
    + destruct (IH clause
                  (match selector with Some b => negb b | None => false end) r1)
        as (r2 & Hr2 & Ha2); [lia|].
      exists r2. split; [done|].
      destruct selector as [[|]|]; simpl in *.
      * destruct inst; [|by specialize (Hsel eq_refl)].
        by eapply adds_then_none.
      * destruct inst; [|by specialize (Hsel eq_refl)].
        by eapply none_then_adds.
      * apply adds_weaken. by eapply adds_then_none.
    + exists r1. split; [done|].
      destruct selector as [[|]|]; simpl in *.
      * destruct inst; [done | by specialize (Hsel eq_refl)].
      * by apply adds_weaken.
      * by apply adds_weaken.
  - simpl in Hfuel. simpl. unfold fromCaseGenerate.
    fold (itemsDepth items) in Hfuel.
    destruct (collectItems_spec items [] None) as (d' & Hcol & Hlen & Hd).
    destruct (collectItems items [] None) as [expressions defBlock] eqn:Hci.
    simpl in Hcol, Hlen. injection Hcol as <-.
    destruct (bindCaseExpressions condition expressions) as [bound|] eqn:Hb.
    2:{ exists r. split; [done | apply adds_refl]. }
    apply Hbinder in Hb. destruct bound as [|condExpr bound0]; [done|].
    simpl in Hb. injection Hb as Hb.
    destruct (constant (header condExpr)) as [cond|].
    2:{ exists r. split; [done | apply adds_refl]. }
    destruct (caseLoop_adds n IH cond inst items
                (mkCaseState bound0 0%nat false false) r)
      as (st & r1 & Hloop & _ & Hf); [lia | simpl; lia |].
    rewrite Hloop. cbn [mbind option_bind].
    specialize (Hf eq_refl).
    destruct defBlock as [clause|].
    + destruct (Hd clause eq_refl) as [?|Hdc]; [done|].
      destruct (IH clause (inst && negb (found st)) r1) as (r2 & Hr2 & Ha2);
        [lia|].
      exists r2. split; [done|].
      destruct Hf as [[Hfs Ha]|[Hfs Ha]]; rewrite Hfs in *; simpl in *.
      * rewrite andb_true_r in Ha2. by eapply none_then_adds.
      * rewrite andb_false_r in Ha2. by eapply adds_then_none.
    + destruct Hf as [[Hfs Ha]|[Hfs Ha]]; rewrite Hfs; simpl.
      * eexists. split; [done|]. apply adds_weaken.
        eapply adds_then_none; [exact Ha|].
        exists [], [mkDeclDiag CaseGenerateNoBlock (exprRange (header condExpr))
                      ([], [])].
        rewrite app_nil_r. repeat apply conj; try done. cbv. lia.
      * by exists r1.
Qed.

End GenerateFacts.

(** A worked construct: syntax node [p] is the literal [p];
    [if (1) case (2) 1: a; 2, 3: b; 2: c; default: d; endcase else e]. *)
Definition bindLiteral (p : SyntaxPtr) : Expression :=
  intLiteral (Z.of_nat p) p.

Definition bindCaseLiterals (c : SyntaxPtr) (es : list SyntaxPtr)
  : option (list Expression) := Some (map bindLiteral (c :: es)).

Definition sameInteger (a b : ConstantValue) : bool :=
  match a, b with
  | IntegerV x, IntegerV y => (value x =? value y)%Z
  | _, _ => false
  end.

Definition namedBlock (name : string) (loc : SourceLocation) : SyntaxNode :=
  GenerateBlockSyntax (Some name) None loc.

Definition caseExample : SyntaxNode :=
  CaseGenerateSyntax 2%nat
    [StandardCaseItemSyntax [1%nat] (namedBlock "a" 11);
     StandardCaseItemSyntax [2%nat; 3%nat] (namedBlock "b" 12);
     DefaultCaseItemSyntax (namedBlock "d" 14);
     StandardCaseItemSyntax [2%nat] (namedBlock "c" 13)].

Definition ifExample : SyntaxNode :=
  IfGenerateSyntax 1%nat caseExample (Some (namedBlock "e" 15)).

Abbreviation createExample :=
  (GenerateBlockSymbol.createCondGenBlock bindLiteral (fun _ => true)
     bindCaseLiterals (isTrue exampleOps) sameInteger 7%Z).

Lemma conditional_generate_one_block_witness :
  exists new diags,
    createExample 3%nat ifExample true
      (GenerateBlockSymbol.mkResults [] [])
      = Some (GenerateBlockSymbol.mkResults ([] ++ new) ([] ++ diags))
    /\ Forall (fun b => constructIndex b = 7%Z) new
    /\ instantiatedCount new <= 1
    /\ (true = false -> instantiatedCount new = 0%nat).
Proof.
  apply (conditional_generate_one_block bindLiteral (fun _ => true)
           bindCaseLiterals (isTrue exampleOps) sameInteger 7%Z 3%nat ifExample true
           (GenerateBlockSymbol.mkResults [] [])).
  - intros c es bound [= <-]. simpl. by rewrite length_map.
  - simpl. lia.
Defined.

(** The second item is taken, the later match is reported once, and the
    default and the else block stay uninstantiated. *)
Example case_generate_first_match :
  createExample 3%nat ifExample true (GenerateBlockSymbol.mkResults [] [])
  = Some (GenerateBlockSymbol.mkResults
            [mkGenerateBlock "a" 11 7 false (namedBlock "a" 11);
             mkGenerateBlock "b" 12 7 true (namedBlock "b" 12);
             mkGenerateBlock "c" 13 7 false (namedBlock "c" 13);
             mkGenerateBlock "d" 14 7 false (namedBlock "d" 14);
             mkGenerateBlock "e" 15 7 false (namedBlock "e" 15)]
            [mkDeclDiag CaseGenerateDup 2 ([inr NotePreviousMatch], [2%nat])]).
Proof. reflexivity. Qed.
(** * Parameters of definitions and instances *)

Section ParameterFacts.

Import DefinitionSymbol InstanceSymbol.

Variable ParameterSymbol_fromSyntax :
  ParameterDeclarationBaseSyntax → bool → bool → list ParameterSymbolBase.
Variable TypeParameterSymbol_fromSyntax :
  ParameterDeclarationBaseSyntax → bool → bool → list ParameterSymbolBase.

(** What is assumed of the two functions of MemberSymbols.cpp: one
    symbol of the kind [k] for each declarator, with its name and with
    the two flags that were passed. *)
Definition declares (k : SymbolKind)
    (f : ParameterDeclarationBaseSyntax → bool → bool
         → list ParameterSymbolBase) : Prop :=
  forall d isLocal isPort,
    Forall2 (fun s name =>
               parameterName s = name /\ parameterKind s = k
               /\ isLocalParam s = isLocal /\ isPortParam s = isPort)
            (f d isLocal isPort) (parameterDeclarators d).

Abbreviation definitionParameters :=
  (DefinitionSymbol.fromSyntax ParameterSymbol_fromSyntax
     TypeParameterSymbol_fromSyntax).
Abbreviation declare' :=
  (declare ParameterSymbol_fromSyntax TypeParameterSymbol_fromSyntax).

Definition kindOf (d : ParameterDeclarationBaseSyntax) : SymbolKind :=
  if isTypeDeclaration d then TypeParameter else ParameterSym.

Lemma declare_spec d isLocal isPort :
  declares ParameterSym ParameterSymbol_fromSyntax ->
  declares TypeParameter TypeParameterSymbol_fromSyntax ->
  Forall2 (fun s name =>
             parameterName s = name /\ parameterKind s = kindOf d
             /\ isLocalParam s = isLocal /\ isPortParam s = isPort)
          (declare' d isLocal isPort) (parameterDeclarators d).
Proof.
  intros HP HT. unfold declare, kindOf.
  destruct (isTypeDeclaration d); [apply HT | apply HP].
Qed.

(** The parameters that the body declares. *)
Fixpoint bodyParameters (hasPortParams : bool)
    (members : list ModuleMemberSyntax) : list ParameterSymbolBase :=
  match members with
  | [] => []
  | ParameterDeclarationStatement d :: rest =>
      declare' d
        (hasPortParams || bool_decide (keyword d = Some LocalParamKeyword))
        false
      ++ bodyParameters hasPortParams rest
  | _ :: rest => bodyParameters hasPortParams rest
  end.

Lemma memberLoop_spec hp members : forall acc,
  memberLoop ParameterSymbol_fromSyntax TypeParameterSymbol_fromSyntax
    hp members acc = acc ++ bodyParameters hp members.
Proof.
  induction members as [|[| d | id] members IH]; intros acc; simpl.
  - by rewrite app_nil_r.
  - apply IH.
  - rewrite IH. by rewrite app_assoc.
  - apply IH.
Qed.

Lemma portLoop_spec decls :
  declares ParameterSym ParameterSymbol_fromSyntax ->
  declares TypeParameter TypeParameterSymbol_fromSyntax ->
  forall lastLocal acc, exists ports,
    portLoop ParameterSymbol_fromSyntax TypeParameterSymbol_fromSyntax
      decls lastLocal acc = acc ++ ports
    /\ Forall (fun p => isPortParam p = true) ports.
Proof.
  intros HP HT. induction decls as [|d decls IH]; intros lastLocal acc; simpl.
  - exists []. by rewrite app_nil_r.
  - set (l := match keyword d with Some k => _ | None => lastLocal end).
    destruct (IH l (acc ++ declare' d l true)) as (ports & -> & Hports).
    exists (declare' d l true ++ ports). rewrite app_assoc. split; [done|].
    apply Forall_app. split; [|done].
    pose proof (declare_spec d l true HP HT) as Hd.
    clear -Hd. induction Hd as [|s name ss names (_ & _ & _ & Hp) _ IH];
      by constructor.
Qed.

Lemma bodyParameters_body hp members :
  declares ParameterSym ParameterSymbol_fromSyntax ->
  declares TypeParameter TypeParameterSymbol_fromSyntax ->
  Forall (fun p => isPortParam p = false
                   /\ (hp = true -> isLocalParam p = true))
         (bodyParameters hp members).
Proof.
  intros HP HT. induction members as [|[| d | id] members IH]; simpl; try done.
  apply Forall_app. split; [|done].
  pose proof (declare_spec d
                (hp || bool_decide (keyword d = Some LocalParamKeyword))
                false HP HT) as Hd.
  clear -Hd. induction Hd as [|s name ss names (_ & _ & Hl & Hp) _ IH];
    constructor; [|done].
  split; [done|]. intros ->. done.
Qed.

Lemma portParameters_spec ports : forall rest members,
  Forall (fun p => isPortParam p = true) ports ->
  Forall (fun p => isPortParam p = false) rest ->
  portParameters (ports ++ rest) members
  = (rest, members ++ map ClonedParameter ports).
Proof.
  induction ports as [|p ports IH]; intros rest members Hports Hrest; simpl.
  - rewrite app_nil_r. destruct rest as [|q rest]; [done|].
    simpl. apply Forall_cons in Hrest as [-> _]. done.
  - apply Forall_cons in Hports as [-> Hports]. simpl.
    rewrite IH by done. by rewrite <- app_assoc.
Qed.

Lemma declaratorLoop_spec k ps names : forall rest members,
  Forall2 (fun s name => parameterName s = name /\ parameterKind s = k)
          ps names ->
  declaratorLoop k names (ps ++ rest) members
  = Returned (rest, members ++ map ClonedParameter ps).
Proof.
  intros rest members H. revert members.
  induction H as [|s name ss names [Hn Hk] _ IH]; intros members; simpl.
  - by rewrite app_nil_r.
  - rewrite bool_decide_eq_true_2 by done. simpl.
    rewrite bool_decide_eq_true_2 by done. simpl.
    rewrite IH. by rewrite <- app_assoc.
Qed.

(** The members that the body gives to the instance, parameters in the
    place of their declarations. *)
Fixpoint bodyMembers (hp : bool) (body : list ModuleMemberSyntax)
  : list Member :=
  match body with
  | [] => []
  | ParameterDeclarationStatement d :: rest =>
      map ClonedParameter
        (declare' d
           (hp || bool_decide (keyword d = Some LocalParamKeyword)) false)
      ++ bodyMembers hp rest
  | TimeUnitsDeclaration :: rest => TimeUnits :: bodyMembers hp rest
  | OtherMember id :: rest => BodyMember id :: bodyMembers hp rest
  end.

Lemma bodyLoop_spec hp body :
  declares ParameterSym ParameterSymbol_fromSyntax ->
  declares TypeParameter TypeParameterSymbol_fromSyntax ->
  forall members,
    bodyLoop body (bodyParameters hp body) members
    = Returned ([], members ++ bodyMembers hp body).
Proof.
  intros HP HT. induction body as [|[| d | id] body IH]; intros members; simpl.
  - by rewrite app_nil_r.
  - rewrite IH. by rewrite <- app_assoc.
  - rewrite (declaratorLoop_spec (kindOf d)).
    + simpl. rewrite IH. by rewrite <- app_assoc.
    + eapply Forall2_impl; [by apply declare_spec|]. simpl. tauto.
  - rewrite IH. by rewrite <- app_assoc.
Qed.

(** The parameters among the members of an instance, in their order. *)
Definition clonedParameters (members : list Member)
  : list ParameterSymbolBase :=
  omap (fun m => match m with ClonedParameter p => Some p | _ => None end)
       members.

Lemma clonedParameters_map ps : clonedParameters (map ClonedParameter ps) = ps.
Proof.
  unfold clonedParameters. induction ps as [|p ps IH]; [done|].
  simpl. f_equal. exact IH.
Qed.

Lemma clonedParameters_app ms ns :
  clonedParameters (ms ++ ns) = clonedParameters ms ++ clonedParameters ns.
Proof. apply omap_app. Qed.

Lemma clonedParameters_bodyMembers hp body :
  clonedParameters (bodyMembers hp body) = bodyParameters hp body.
Proof.
  induction body as [|[| d | id] body IH];
    cbn [bodyMembers bodyParameters]; try done.
  rewrite clonedParameters_app, clonedParameters_map. by rewrite IH.
Qed.

(** X12. The parameter list that [DefinitionSymbol::fromSyntax] builds
    from a module declaration is what [InstanceSymbol::populate] expects
    for the same declaration: no assertion of [populate] fails, every
    parameter of the list is used, and the instance gets a clone of each
    parameter, in the order of the list.  The symbols of a declaration
    are taken to be one per declarator, of the kind of the declaration,
    with the name of the declarator and the flags passed. *)
Theorem populate_accepts_definition_parameters
    (header : option (list ParameterDeclarationBaseSyntax))
    (body : list ModuleMemberSyntax) (hasPorts : bool)
    (HP : declares ParameterSym ParameterSymbol_fromSyntax)
    (HT : declares TypeParameter TypeParameterSymbol_fromSyntax) :
  exists members,
    populate hasPorts body (definitionParameters header body)
      = Returned ([], members)
    /\ clonedParameters members = definitionParameters header body.
Proof.
  unfold DefinitionSymbol.fromSyntax, populate.
  rewrite memberLoop_spec.
  set (hp := bool_decide (is_Some header)).
  assert (exists ports,
            match header with
            | Some declarations =>
                portLoop ParameterSymbol_fromSyntax
                  TypeParameterSymbol_fromSyntax declarations false []
            | None => []
            end = ports
            /\ Forall (fun p => isPortParam p = true) ports)
    as (ports & -> & Hports).
  { destruct header as [decls|]; [|by exists []].
    destruct (portLoop_spec decls HP HT false []) as (ports & -> & H).
    by exists ports. }
  rewrite portParameters_spec; [|done|].
  2:{ eapply Forall_impl; [by apply bodyParameters_body|]. simpl. tauto. }
  rewrite bodyLoop_spec by done.
  eexists. split; [done|].
  destruct hasPorts;
    rewrite !clonedParameters_app, ?clonedParameters_map,
      clonedParameters_bodyMembers; simpl; by rewrite ?app_nil_r.
Qed.

End ParameterFacts.

Section OverrideFacts.

Import InstanceSymbol.

Lemma emplace_union {V : Type} (k : string) (v : V) (m M : gmap string V) :
  emplace k v m ∪ M = m ∪ <[k := v]> M.
Proof.
  apply map_eq. intros i. unfold emplace.
  rewrite !lookup_union.
  destruct (m !! k) as [w|] eqn:Hk.
  - destruct (decide (i = k)) as [->|Hne].
    + rewrite Hk, lookup_insert_eq. by destruct (M !! k).
    + by rewrite lookup_insert_ne.
  - destruct (decide (i = k)) as [->|Hne].
    + rewrite !lookup_insert_eq, Hk. by destruct (M !! k).
    + by rewrite !lookup_insert_ne.
Qed.

(** The parameters that an instantiation can override. *)
Definition overridable (parameters : list ParameterSymbolBase)
  : list ParameterSymbolBase :=
  filter (fun p => isLocalParam p = false) parameters.

Lemma orderedLoop_spec parameters ordered : forall orderedIndex overrides,
  orderedLoop parameters ordered orderedIndex overrides
  = ((orderedIndex
      + length (overridable parameters) `min` (length ordered - orderedIndex))%nat,
     overrides ∪
     list_to_map (zip (map parameterName (overridable parameters))
                      (map snd (drop orderedIndex ordered)))).
Proof.
  induction parameters as [|p ps IH]; intros idx ov; simpl.
  { f_equal; [lia|]. by rewrite (right_id_L ∅ (∪)). }
  unfold overridable. rewrite filter_cons. fold (overridable ps).
  destruct (ordered !! idx) as [[loc e]|] eqn:Hidx.
  - pose proof (lookup_lt_Some _ _ _ Hidx) as Hlt.
    destruct (isLocalParam p) eqn:Hl.
    + rewrite decide_False by done. apply IH.
    + rewrite decide_True by done. rewrite IH.
      rewrite (drop_S _ _ _ Hidx). simpl.
      rewrite emplace_union. f_equal.
      destruct (length ordered - idx)%nat as [|m] eqn:Hm; [lia|].
      replace (length ordered - S idx)%nat with m by lia. lia.
  - apply lookup_ge_None in Hidx.
    rewrite drop_ge by done. simpl.
    assert (forall l : list string, zip l (@nil SyntaxPtr) = []) as ->
      by (by intros [|]).
    simpl. rewrite (right_id_L ∅ (∪)). f_equal. lia.
Qed.

Lemma assignmentLoop_ordered es : forall st,
  orderedAssignments st = true ->
  assignmentLoop (map (fun a => OrderedArgument a.1 a.2) es) st
  = mkAssignments (hasParamAssignments st || negb (bool_decide (es = [])))
      true (orderedParams st ++ es) (namedParams st) (scopeDiags st).
Proof.
  induction es as [|[loc e] es IH]; intros st Hord; simpl.
  { rewrite app_nil_r, orb_false_r. destruct st. simpl in *. by subst. }
  rewrite Hord. simpl. rewrite andb_false_r.
  rewrite IH by (simpl; by destruct (hasParamAssignments st)).
  simpl. rewrite <- app_assoc. simpl.
  by rewrite orb_true_r.
Qed.

(** X13. When all parameter assignments of an instantiation are ordered,
    the k-th assignment overrides the k-th parameter of the definition
    that is not a localparam, whatever lies between them; of two such
    parameters of the same name the first keeps its override.  An
    assignment beyond the last such parameter overrides nothing, and the
    first of them is reported as [TooManyParamAssignments]; nothing else
    is reported. *)
Theorem ordered_param_overrides (parameters : list ParameterSymbolBase)
    (es : list (SourceLocation * SyntaxPtr)) (ds : DeclDiagnostics) :
  paramOverrides parameters
    (Some (map (fun a => OrderedArgument a.1 a.2) es)) ds
  = (list_to_map (zip (map parameterName (overridable parameters))
                      (map snd es)),
     match es !! length (overridable parameters) with
     | Some (loc, _) => addDecl ds TooManyParamAssignments loc
     | None => ds
     end).
Proof.
  unfold paramOverrides. rewrite assignmentLoop_ordered by done. simpl.
  rewrite orderedLoop_spec. rewrite drop_0, (left_id_L ∅ (∪)).
  rewrite Nat.sub_0_r. simpl.
  destruct (decide (length (overridable parameters) < length es)) as [Hlt|Hge].
  - rewrite Nat.min_l by lia.
    by destruct (es !! length (overridable parameters)) as [[loc e]|].
  - rewrite Nat.min_r by lia.
    rewrite (lookup_ge_None_2 es (length es)) by lia.
    by rewrite (lookup_ge_None_2 es (length (overridable parameters))) by lia.
Qed.


(** A named assignment: first token, name, location of the name and the
    optional expression. *)
Definition NamedArg : Set :=
  SourceLocation * string * SourceLocation * option SyntaxPtr.

Definition namedArgument (a : NamedArg) : ParamAssignmentSyntax :=
  NamedArgument a.1.1.1 a.1.1.2 a.1.2 a.2.

Definition argName (a : NamedArg) : string := a.1.1.2.

Definition namedEntry (a : NamedArg) : string * NamedParam :=
  (argName a, mkNamedParam a.1.2 a.2 false).

Lemma assignmentLoop_named (args : list NamedArg) : forall st,
  (hasParamAssignments st = true -> orderedAssignments st = false) ->
  NoDup (map argName args) ->
  Forall (fun a => argName a <> EmptyString) args ->
  (forall a, a ∈ args -> namedParams st !! argName a = None) ->
  assignmentLoop (map namedArgument args) st
  = mkAssignments (hasParamAssignments st || negb (bool_decide (args = [])))
      (if bool_decide (args = []) then orderedAssignments st else false)
      (orderedParams st)
      (namedParams st ∪ list_to_map (map namedEntry args))
      (scopeDiags st).
Proof.
  induction args as [|[[[ft n] loc] e] args IH]; intros st Hmode Hnd Hne Hfresh.
  { simpl. rewrite (right_id_L ∅ (∪)), orb_false_r. by destruct st. }
  simpl. apply NoDup_cons in Hnd as [Hn Hnd].
  apply Forall_cons in Hne as [Hne0 Hne]. unfold argName in Hne0. simpl in Hne0.
  assert (hasParamAssignments st
          && negb (bool_decide (false = orderedAssignments st)) = false) as ->.
  { destruct (hasParamAssignments st); [|done].
    rewrite Hmode by done. done. }
  rewrite bool_decide_eq_false_2 by done.
  assert (Hn0 : namedParams st !! n = None)
    by (apply (Hfresh (ft, n, loc, e)); by left).
  rewrite Hn0.
  assert ((if hasParamAssignments st then orderedAssignments st else false)
          = false) as ->.
  { destruct (hasParamAssignments st); [by apply Hmode | done]. }
  rewrite IH; simpl; try done.
  - rewrite orb_true_r. f_equal.
    + by destruct (bool_decide (args = [])).
    + rewrite <- insert_union_l. by rewrite <- insert_union_r.
  - intros a Ha. rewrite lookup_insert_ne.
    + apply Hfresh. by right.
    + intros Heq. apply Hn. change (n ∈ argName <$> args).
      rewrite Heq. by apply list_elem_of_fmap_2.
Qed.

(** Marking the named assignment [n] as used. *)
Definition mark (n : string) (named : gmap string NamedParam)
  : gmap string NamedParam :=
  match named !! n with
  | Some a => <[n := mkNamedParam (argLocation a) (argExpr a) true]> named
  | None => named
  end.

Lemma mark_lookup n named k :
  mark n named !! k
  = (fun a => mkNamedParam (argLocation a) (argExpr a)
                (used a || bool_decide (k = n))) <$> named !! k.
Proof.
  unfold mark. destruct (named !! n) as [a|] eqn:Hn.
  - destruct (decide (k = n)) as [->|Hne].
    + rewrite lookup_insert_eq, Hn. simpl.
      by rewrite bool_decide_eq_true_2, orb_true_r.
    + rewrite lookup_insert_ne by done.
      rewrite bool_decide_eq_false_2 by done.
      destruct (named !! k) as [[]|]; simpl; by rewrite ?orb_false_r.
  - destruct (decide (k = n)) as [->|Hne].
    + by rewrite Hn.
    + rewrite bool_decide_eq_false_2 by done.
      destruct (named !! k) as [[]|]; simpl; by rewrite ?orb_false_r.
Qed.

(** The override and the diagnostic that a parameter gets from the named
    assignments. *)
Definition overrideOf (named : gmap string NamedParam)
    (p : ParameterSymbolBase) : option (string * SyntaxPtr) :=
  if isLocalParam p then None
  else a ← named !! parameterName p; e ← argExpr a;
       Some (parameterName p, e).

Definition localAssigned (named : gmap string NamedParam)
    (p : ParameterSymbolBase) : option DeclDiagnostic :=
  if isLocalParam p
  then a ← named !! parameterName p;
       Some (mkDeclDiag
               (if isPortParam p then AssignedToLocalPortParam
                else AssignedToLocalBodyParam)
               (argLocation a)
               ([inl NoteDeclarationHere], [parameterLocation p]))
  else None.

Lemma overrideOf_mark n named p :
  overrideOf (mark n named) p = overrideOf named p.
Proof.
  unfold overrideOf. rewrite mark_lookup.
  by destruct (isLocalParam p), (named !! parameterName p).
Qed.

Lemma localAssigned_mark n named p :
  localAssigned (mark n named) p = localAssigned named p.
Proof.
  unfold localAssigned. rewrite mark_lookup.
  by destruct (isLocalParam p), (named !! parameterName p).
Qed.

Lemma omap_pointwise {A B : Type} (f g : A → option B) (l : list A) :
  (forall x, f x = g x) -> omap f l = omap g l.
Proof.
  intros Hfg. induction l as [|x l IH]; [done|].
  simpl. rewrite Hfg. destruct (g x); [f_equal|]; exact IH.
Qed.

Lemma namedLoop_spec parameters : forall named overrides ds,
  namedLoop parameters named overrides ds
  = (foldl (fun m p => mark (parameterName p) m) named parameters,
     overrides ∪ list_to_map (omap (overrideOf named) parameters),
     ds ++ omap (localAssigned named) parameters).
Proof.
  induction parameters as [|p ps IH]; intros named ov ds.
  { simpl. by rewrite (right_id_L ∅ (∪)), app_nil_r. }
  cbn [namedLoop foldl].
  pose proof (omap_pointwise _ _ ps (overrideOf_mark (parameterName p) named))
    as Hov.
  pose proof (omap_pointwise _ _ ps (localAssigned_mark (parameterName p) named))
    as Hla.
  assert (Hcons : forall (X : Type) (f : ParameterSymbolBase → option X),
            omap f (p :: ps)
            = match f p with Some x => x :: omap f ps | None => omap f ps end)
    by done.
  rewrite !Hcons. unfold overrideOf at 1, localAssigned at 1.
  destruct (named !! parameterName p) as [arg|] eqn:Harg.
  - assert (Hmark : mark (parameterName p) named
                    = <[parameterName p :=
                          mkNamedParam (argLocation arg) (argExpr arg) true]>
                        named)
      by (unfold mark; by rewrite Harg).
    rewrite <- Hmark.
    destruct (isLocalParam p) eqn:Hl.
    + rewrite IH, Hov, Hla. cbn [mbind option_bind].
      unfold addDeclNote. by rewrite <- app_assoc.
    + cbn [mbind option_bind].
      destruct (argExpr arg) as [e|] eqn:He; cbn [mbind option_bind].
      * rewrite IH, Hov, Hla. simpl. by rewrite emplace_union.
      * by rewrite IH, Hov, Hla.
  - assert (Hmark : mark (parameterName p) named = named)
      by (unfold mark; by rewrite Harg).
    rewrite Hmark. rewrite IH.
    by destruct (isLocalParam p).
Qed.

Lemma markAll_lookup parameters : forall named k,
  foldl (fun m p => mark (parameterName p) m) named parameters !! k
  = (fun a => mkNamedParam (argLocation a) (argExpr a)
                (used a
                 || bool_decide (k ∈ map parameterName parameters)))
    <$> named !! k.
Proof.
  induction parameters as [|p ps IH]; intros named k.
  { simpl. destruct (named !! k) as [[]|]; simpl; [|done].
    by rewrite orb_false_r. }
  cbn [foldl]. rewrite IH, mark_lookup.
  destruct (named !! k) as [a|]; [|done]. simpl. f_equal. f_equal.
  rewrite <- orb_assoc. f_equal.
  destruct (decide (k = parameterName p)) as [->|Hne].
  - rewrite bool_decide_eq_true_2 by done. simpl.
    symmetry. apply bool_decide_eq_true_2. by left.
  - rewrite (bool_decide_eq_false_2 (k = parameterName p)) by done. simpl.
    apply bool_decide_ext. rewrite elem_of_cons.
    split; [by right | by intros [?|?]].
Qed.

(** The diagnostic of an assignment that was not used. *)
Definition doesNotExist (pair : string * NamedParam) : option DeclDiagnostic :=
  if negb (used pair.2)
  then Some (mkDeclDiag ParameterDoesNotExist (argLocation pair.2) ([], []))
  else None.

Lemma unusedLoop_spec named ds :
  unusedLoop named ds = ds ++ omap doesNotExist (map_to_list named).
Proof.
  unfold unusedLoop. generalize (map_to_list named). intros l. revert ds.
  induction l as [|pair l IH]; intros ds; simpl.
  { by rewrite app_nil_r. }
  rewrite IH. unfold doesNotExist at 2.
  destruct (negb (used pair.2)); [|done].
  unfold addDecl. by rewrite <- app_assoc.
Qed.

(** The first assignment of the name [n]. *)
Fixpoint argNamed (args : list NamedArg) (n : string) : option NamedArg :=
  match args with
  | [] => None
  | a :: rest => if bool_decide (argName a = n) then Some a
                 else argNamed rest n
  end.

Lemma argNamed_elem_of args n a :
  argNamed args n = Some a -> a ∈ args /\ argName a = n.
Proof.
  induction args as [|b args IH]; [done|]. simpl.
  destruct (bool_decide (argName b = n)) eqn:Hb.
  - intros [= ->]. apply bool_decide_eq_true_1 in Hb. split; [by left | done].
  - intros H. destruct (IH H) as [Hin Hn]. split; [by right | done].
Qed.

Lemma argNamed_NoDup args a :
  NoDup (map argName args) -> a ∈ args -> argNamed args (argName a) = Some a.
Proof.
  induction args as [|b args IH]; intros Hnd Hin.
  { by apply elem_of_nil in Hin. }
  apply NoDup_cons in Hnd as [Hb Hnd]. simpl.
  apply elem_of_cons in Hin as [->|Hin].
  - by rewrite bool_decide_eq_true_2.
  - rewrite bool_decide_eq_false_2; [by apply IH|].
    intros Heq. apply Hb. rewrite Heq.
    change (argName a ∈ argName <$> args). by apply list_elem_of_fmap_2.
Qed.

Lemma entries_lookup (f : NamedArg → NamedParam) (args : list NamedArg) n :
  (list_to_map (map (fun a => (argName a, f a)) args)
     : gmap string NamedParam) !! n
  = f <$> argNamed args n.
Proof.
  induction args as [|a args IH]; [done|]. simpl.
  destruct (decide (argName a = n)) as [<-|Hne].
  - by rewrite lookup_insert_eq, bool_decide_eq_true_2.
  - rewrite lookup_insert_ne by done.
    by rewrite bool_decide_eq_false_2.
Qed.

(** What is reported for a localparam that an assignment names, and for
    an assignment that names no parameter. *)
Definition assignedToLocal (args : list NamedArg) (p : ParameterSymbolBase)
  : option DeclDiagnostic :=
  if isLocalParam p
  then a ← argNamed args (parameterName p);
       Some (mkDeclDiag
               (if isPortParam p then AssignedToLocalPortParam
                else AssignedToLocalBodyParam)
               a.1.2 ([inl NoteDeclarationHere], [parameterLocation p]))
  else None.

Definition notAParameter (parameters : list ParameterSymbolBase)
    (a : NamedArg) : option DeclDiagnostic :=
  if bool_decide (argName a ∈ map parameterName parameters) then None
  else Some (mkDeclDiag ParameterDoesNotExist a.1.2 ([], [])).

(** The override of a parameter that is not a localparam: the expression
    of the assignment of its name. *)
Definition assignedExpr (args : list NamedArg) (p : ParameterSymbolBase)
  : option (string * SyntaxPtr) :=
  if isLocalParam p then None
  else a ← argNamed args (parameterName p); e ← a.2;
       Some (parameterName p, e).

(** X14. When all parameter assignments of an instantiation are named,
    by names that are not empty and differ from each other: the overrides
    are those of the parameters that are not localparams and whose name
    has an assignment with an expression, the first parameter of a name
    deciding.  What is reported, behind the diagnostics that were there,
    is first, in the order of the parameters, one
    [AssignedToLocalPortParam] or [AssignedToLocalBodyParam] for each
    localparam that an assignment names, and then, in an order that the
    hash table decides, exactly one [ParameterDoesNotExist] for each
    assignment whose name is the name of no parameter; nothing else. *)
Theorem named_param_overrides (parameters : list ParameterSymbolBase)
    (args : list NamedArg) (ds : DeclDiagnostics)
    (Hnames : NoDup (map argName args))
    (Hnonempty : Forall (fun a => argName a <> EmptyString) args) :
  exists missing,
    paramOverrides parameters (Some (map namedArgument args)) ds
      = (list_to_map (omap (assignedExpr args) parameters),
         ds ++ omap (assignedToLocal args) parameters ++ missing)
    /\ missing ≡ₚ omap (notAParameter parameters) args.
Proof.
  destruct args as [|a0 args0].
  { exists []. unfold paramOverrides. simpl.
    rewrite orderedLoop_spec. simpl.
    assert (forall l : list string, zip l (@nil SyntaxPtr) = []) as ->
      by (by intros [|]).
    simpl. rewrite (right_id_L ∅ (∪)).
    assert (omap (assignedExpr []) parameters = []) as ->.
    { induction parameters as [|p ps IH]; [done|]. simpl.
      unfold assignedExpr at 1. destruct (isLocalParam p); exact IH. }
    assert (omap (assignedToLocal []) parameters = []) as ->.
    { induction parameters as [|p ps IH]; [done|]. simpl.
      unfold assignedToLocal at 1. destruct (isLocalParam p); exact IH. }
    by rewrite !app_nil_r. }
  set (args := a0 :: args0) in *.
  set (named := (list_to_map (map namedEntry args) : gmap string NamedParam)).
  assert (Hnamed : forall n,
            named !! n
            = (fun a : NamedArg => mkNamedParam a.1.2 a.2 false)
              <$> argNamed args n).
  { intros n. apply (entries_lookup
                       (fun a : NamedArg => mkNamedParam a.1.2 a.2 false)). }
  unfold paramOverrides.
  rewrite assignmentLoop_named; [|done|done|done|done].
  cbn [hasParamAssignments orderedAssignments orderedParams namedParams
       scopeDiags].
  rewrite (bool_decide_eq_false_2 (args = [])) by done.
  rewrite (left_id_L ∅ (∪)). fold named.
  rewrite namedLoop_spec, unusedLoop_spec, (left_id_L ∅ (∪)).
  rewrite <- app_assoc.
  eexists. split.
  - f_equal.
    + f_equal. apply omap_pointwise. intros p.
      unfold overrideOf, assignedExpr. rewrite Hnamed.
      destruct (isLocalParam p); [done|].
      by destruct (argNamed args (parameterName p)) as [a|].
    + f_equal. f_equal. apply omap_pointwise. intros p.
      unfold localAssigned, assignedToLocal. rewrite Hnamed.
      destruct (isLocalParam p); [|done].
      by destruct (argNamed args (parameterName p)) as [a|].
  - set (entry := fun a : NamedArg =>
                    mkNamedParam a.1.2 a.2
                      (bool_decide (argName a ∈ map parameterName parameters))).
    assert (Hmap : foldl (fun m p => mark (parameterName p) m) named parameters
                   = list_to_map (map (fun a => (argName a, entry a)) args)).
    { apply map_eq. intros n.
      rewrite markAll_lookup, Hnamed, (entries_lookup entry).
      destruct (argNamed args n) as [a|] eqn:Ha; [|done].
      apply argNamed_elem_of in Ha as [_ <-]. done. }
    rewrite Hmap.
    rewrite map_to_list_to_map.
    + clear. induction args as [|a args IH]; [done|]. simpl.
      unfold doesNotExist at 1, notAParameter at 1. simpl.
      destruct (bool_decide (argName a ∈ map parameterName parameters));
        simpl; [exact IH | by constructor].
    + change (NoDup ((fun a => (argName a, entry a)) <$> args).*1).
      rewrite <- list_fmap_compose. exact Hnames.
Qed.

End OverrideFacts.

Section LocalityFacts.

Import DefinitionSymbol InstanceSymbol.

Lemma paramOverrides_overridable parameters syntaxParameters ds n e :
  (paramOverrides parameters syntaxParameters ds).1 !! n = Some e ->
  exists p, p ∈ parameters /\ parameterName p = n /\ isLocalParam p = false.
Proof.
  unfold paramOverrides. destruct syntaxParameters as [assignments|]; [|done].
  destruct (orderedAssignments _).
  - rewrite orderedLoop_spec, (left_id_L ∅ (∪)).
    destruct (orderedParams _ !! _) as [[loc e']|]; simpl;
      intros Hov; apply elem_of_list_to_map_2 in Hov;
      apply elem_of_zip_l in Hov;
      change (n ∈ parameterName <$> overridable parameters) in Hov;
      apply list_elem_of_fmap in Hov as (p & -> & Hp);
      apply list_elem_of_filter in Hp as [Hl Hp]; by exists p.
  - rewrite namedLoop_spec, (left_id_L ∅ (∪)). simpl.
    intros Hov. apply elem_of_list_to_map_2 in Hov.
    apply list_elem_of_omap in Hov as (p & Hp & Hf).
    unfold overrideOf in Hf. destruct (isLocalParam p) eqn:Hl; [done|].
    destruct (_ !! parameterName p) as [a|]; [|done]. simpl in Hf.
    destruct (argExpr a); [|done]. simpl in Hf. injection Hf as <- <-.
    by exists p.
Qed.

Lemma resolveLoop_elem_of hasDefault overrideKind overrideLocation loc
    overrides parameters : forall ds p r,
  (p, r) ∈ (resolveLoop hasDefault overrideKind overrideLocation loc
              overrides parameters ds).1 ->
  p ∈ parameters
  /\ forall e, r = Overridden e \/ r = RefusedOverride e ->
               overrides !! parameterName p = Some e.
Proof.
  induction parameters as [|q qs IH]; intros ds p r; simpl.
  { intros H. by apply elem_of_nil in H. }
  destruct (resolveParameter _ _ _ _ overrides q ds) as [r0 ds0] eqn:Hq.
  destruct (resolveLoop _ _ _ _ overrides qs ds0) as [rs ds1] eqn:Hqs.
  simpl. intros Hin. apply elem_of_cons in Hin as [[= -> ->]|Hin].
  - split; [by left|]. intros e He. unfold resolveParameter in Hq.
    destruct (overrides !! parameterName q) as [e0|].
    + destruct (bool_decide (parameterKind q = ParameterSym));
        [|destruct (overrideKind e0)]; injection Hq as <- _;
        destruct He as [[= ->]|[= ->]]; done.
    + destruct (negb (isLocalParam q) && isPortParam q
                && negb (hasDefault q)); injection Hq as <- _;
        by destruct He.
  - pose proof (IH ds0 p r) as H. rewrite Hqs in H.
    destruct (H Hin) as [Hp He]. split; [by right | done].
Qed.

(** X15. A definition with a parameter port list, even an empty one,
    declares every parameter of its body as a localparam.  So when the
    parameters of the definition have names that differ from each other,
    then whatever the parameter assignments of an instantiation are,
    ordered, named or mixed, every parameter whose clone gets the
    expression of an assignment, installed or refused, is a parameter of
    the port list that is not a localparam.  (The expression is found by
    the name of the clone alone.) *)
Theorem body_parameters_not_overridable
    (ParameterSymbol_fromSyntax TypeParameterSymbol_fromSyntax :
       ParameterDeclarationBaseSyntax → bool → bool → list ParameterSymbolBase)
    (declarations : list ParameterDeclarationBaseSyntax)
    (body : list ModuleMemberSyntax)
    (HP : declares ParameterSym ParameterSymbol_fromSyntax)
    (HT : declares TypeParameter TypeParameterSymbol_fromSyntax) :
  let parameters :=
    DefinitionSymbol.fromSyntax ParameterSymbol_fromSyntax
      TypeParameterSymbol_fromSyntax (Some declarations) body in
  NoDup (map parameterName parameters) ->
  (forall p, p ∈ parameters -> isPortParam p = false -> isLocalParam p = true)
  /\ forall hasDefault overrideKind overrideLocation loc syntaxParameters
            ds p r e,
       (p, r) ∈ (resolveParameters hasDefault overrideKind overrideLocation
                   loc parameters syntaxParameters ds).1 ->
       r = Overridden e \/ r = RefusedOverride e ->
       p ∈ parameters /\ isPortParam p = true /\ isLocalParam p = false.
Proof.
  intros parameters Hnd.
  assert (Hbody : forall p, p ∈ parameters ->
                            isPortParam p = false -> isLocalParam p = true).
  { intros p Hp Hport. unfold parameters, DefinitionSymbol.fromSyntax in Hp.
    rewrite memberLoop_spec in Hp.
    destruct (portLoop_spec ParameterSymbol_fromSyntax
                TypeParameterSymbol_fromSyntax declarations HP HT false [])
      as (ports & Hports & Hall).
    rewrite Hports in Hp. simpl in Hp.
    apply elem_of_app in Hp as [Hp|Hp].
    - rewrite Forall_forall in Hall. specialize (Hall p Hp). congruence.
    - pose proof (bodyParameters_body ParameterSymbol_fromSyntax
                    TypeParameterSymbol_fromSyntax
                    (bool_decide (is_Some (Some declarations))) body HP HT)
        as Hb.
      rewrite Forall_forall in Hb. destruct (Hb p Hp) as [_ Hl].
      apply Hl. by apply bool_decide_eq_true_2. }
  split; [done|].
  intros hasDefault overrideKind overrideLocation loc syntaxParameters ds
    p r e Hin Hr.
  unfold resolveParameters in Hin.
  destruct (paramOverrides parameters syntaxParameters ds)
    as [overrides ds0] eqn:Hov.
  apply resolveLoop_elem_of in Hin as [Hp He].
  specialize (He e Hr).
  assert (Hov' : (paramOverrides parameters syntaxParameters ds).1
                 !! parameterName p = Some e) by (by rewrite Hov).
  apply paramOverrides_overridable in Hov' as (q & Hq & Hname & Hl).
  assert (q = p) as ->.
  { apply list_elem_of_lookup in Hq as [i Hi].
    apply list_elem_of_lookup in Hp as [j Hj].
    assert (i = j) as ->; [|congruence].
    eapply NoDup_lookup; [exact Hnd| |].
    - change (map parameterName parameters) with (parameterName <$> parameters).
      rewrite list_lookup_fmap, Hi. simpl. by rewrite Hname.
    - change (map parameterName parameters) with (parameterName <$> parameters).
      by rewrite list_lookup_fmap, Hj. }
  repeat apply conj; try done.
  destruct (isPortParam p) eqn:Hport; [done|].
  rewrite (Hbody p Hp Hport) in Hl. done.
Qed.

End LocalityFacts.

(** A worked module:
    [module m #(parameter a, b, localparam c, d, parameter type t)();
     parameter e; wire w; localparam f, g; endmodule]. *)
Definition declareExample (k : SymbolKind)
    (d : ParameterDeclarationBaseSyntax) (isLocal isPort : bool)
  : list ParameterSymbolBase :=
  map (fun name => mkParameter k name 0 isLocal isPort)
      (parameterDeclarators d).

Lemma declareExample_declares k : declares k (declareExample k).
Proof.
  intros d isLocal isPort. unfold declareExample.
  induction (parameterDeclarators d) as [|name names IH]; by constructor.
Qed.

Definition exampleHeader : list ParameterDeclarationBaseSyntax :=
  [mkParameterDeclaration (Some ParameterKeyword) false ["a"; "b"];
   mkParameterDeclaration (Some LocalParamKeyword) false ["c"];
   mkParameterDeclaration None false ["d"];
   mkParameterDeclaration (Some ParameterKeyword) true ["t"]].

Definition exampleBody : list ModuleMemberSyntax :=
  [ParameterDeclarationStatement
     (mkParameterDeclaration (Some ParameterKeyword) false ["e"]);
   OtherMember 1;
   ParameterDeclarationStatement
     (mkParameterDeclaration (Some LocalParamKeyword) false ["f"; "g"])].

Abbreviation exampleParameters :=
  (DefinitionSymbol.fromSyntax (declareExample ParameterSym)
     (declareExample TypeParameter) (Some exampleHeader) exampleBody).

Lemma populate_accepts_definition_parameters_witness :
  exists members,
    InstanceSymbol.populate true exampleBody exampleParameters
      = Returned ([], members)
    /\ clonedParameters members = exampleParameters.
Proof.
  apply (populate_accepts_definition_parameters (declareExample ParameterSym)
           (declareExample TypeParameter) (Some exampleHeader) exampleBody
           true); apply declareExample_declares.
Defined.

Lemma body_parameters_not_overridable_witness :
  (forall p, p ∈ exampleParameters ->
             isPortParam p = false -> isLocalParam p = true)
  /\ forall hasDefault overrideKind overrideLocation loc syntaxParameters
            ds p r e,
       (p, r) ∈ (InstanceSymbol.resolveParameters hasDefault overrideKind
                   overrideLocation loc exampleParameters syntaxParameters
                   ds).1 ->
       r = InstanceSymbol.Overridden e
       \/ r = InstanceSymbol.RefusedOverride e ->
       p ∈ exampleParameters /\ isPortParam p = true
       /\ isLocalParam p = false.
Proof.
  apply (body_parameters_not_overridable (declareExample ParameterSym)
           (declareExample TypeParameter) exampleHeader exampleBody).
  - apply declareExample_declares.
  - apply declareExample_declares.
  - apply (bool_decide_unpack _). reflexivity.
Defined.

(** Without distinct names the conclusion fails: in
    [module m #(parameter P)(); parameter P; endmodule] the parameter of
    the body is a localparam, and [#(5)] overrides its clone as well,
    since the clone of the body has the name of the port parameter. *)
Example same_name_body_parameter_overridden :
  (InstanceSymbol.resolveParameters (fun _ => true)
     (fun _ => InstanceSymbol.OtherSyntaxKind) (fun _ => 0%nat) 0%nat
     (DefinitionSymbol.fromSyntax (declareExample ParameterSym)
        (declareExample TypeParameter)
        (Some [mkParameterDeclaration (Some ParameterKeyword) false ["P"]])
        [ParameterDeclarationStatement
           (mkParameterDeclaration (Some ParameterKeyword) false ["P"])])
     (Some [InstanceSymbol.OrderedArgument 10 5]) []).1
  = [(mkParameter ParameterSym "P" 0 false true,
      InstanceSymbol.Overridden 5);
     (mkParameter ParameterSym "P" 0 true false,
      InstanceSymbol.Overridden 5)].
Proof. reflexivity. Qed.

(** The locality of each parameter of the worked module, and what
    [#(.b(1), .c(2), .x(3), .e(4))] and [#(1, 2, 3, 4)] override. *)
Example example_parameters_locality :
  map (fun p => (parameterName p, isLocalParam p, isPortParam p))
      exampleParameters
  = [("a", false, true); ("b", false, true); ("c", true, true);
     ("d", true, true); ("t", false, true); ("e", true, false);
     ("f", true, false); ("g", true, false)].
Proof. reflexivity. Qed.

Definition exampleNamed : list NamedArg :=
  [(10, "b", 11, Some 1); (20, "c", 21, Some 2); (30, "x", 31, Some 3);
   (40, "e", 41, Some 4)]%nat.

Lemma named_param_overrides_witness :
  exists missing,
    InstanceSymbol.paramOverrides exampleParameters
      (Some (map namedArgument exampleNamed)) []
      = (list_to_map (omap (assignedExpr exampleNamed) exampleParameters),
         [] ++ omap (assignedToLocal exampleNamed) exampleParameters
         ++ missing)
    /\ missing ≡ₚ omap (notAParameter exampleParameters) exampleNamed.
Proof.
  apply (named_param_overrides exampleParameters exampleNamed []).
  - apply (bool_decide_unpack _). reflexivity.
  - apply (bool_decide_unpack _). reflexivity.
Defined.

(** In the worked module, [.b(1)] overrides [b]; [.c(2)] and [.e(4)] name
    localparams, of the port list and of the body; [.x(3)] names no
    parameter. *)
Example named_overrides_example :
  InstanceSymbol.paramOverrides exampleParameters
    (Some (map namedArgument exampleNamed)) []
  = (<["b" := 1%nat]> ∅,
     [mkDeclDiag AssignedToLocalPortParam 21 ([inl NoteDeclarationHere], [0%nat]);
      mkDeclDiag AssignedToLocalBodyParam 41 ([inl NoteDeclarationHere], [0%nat]);
      mkDeclDiag ParameterDoesNotExist 31 ([], [])]).
Proof. reflexivity. Qed.

Example ordered_overrides_example :
  InstanceSymbol.paramOverrides exampleParameters
    (Some (map (fun a => InstanceSymbol.OrderedArgument a.1 a.2)
             [(10, 1); (20, 2); (30, 3); (40, 4)]%nat)) []
  = (<["a" := 1%nat]> (<["b" := 2%nat]> (<["t" := 3%nat]> ∅)),
     [mkDeclDiag TooManyParamAssignments 40 ([], [])]).
Proof. reflexivity. Qed.
(** * Time scales *)

Section TimeScaleFacts.

Import TimeScaleSymbolBase.

(** Diagnostics about where a declaration stands or what it repeats. *)
Definition isPlacement (d : DeclDiagnostic) : bool :=
  bool_decide (declCode d = MismatchedTimeScales)
  || bool_decide (declCode d = TimeScaleFirstInScope).

Definition placementCount (ds : list DeclDiagnostic) : nat :=
  length (filter (fun d => isPlacement d = true) ds).

(** What one call of [handle] keeps: the other member; a member that was
    set; and the limit of one placement diagnostic for the calls that
    share [errored]. *)
Definition keeps (this this' : TimeScaleSymbolBase) : Prop :=
  forall m r, prevRange m this = Some r ->
              prevRange m this' = Some r /\ value m this' = value m this.

Definition other (m : Member) : Member :=
  match m with Units => Precision | Precision => Units end.

Lemma handle_spec isFirst token m this errored :
  let '(this', errored') := handle isFirst token m this errored in
  keeps this this'
  /\ prevRange (other m) this' = prevRange (other m) this
  /\ exists new,
       timeScaleDiags this' = timeScaleDiags this ++ new
       /\ (placementCount new
           + (if errored then 1 else 0)
           = if errored' then 1 else 0)%nat
       /\ (isFirst = true -> prevRange m this = None ->
           placementCount new = 0%nat).
Proof.
  unfold handle.
  destruct (tokenMissing token || negb (isTimeLiteral token)).
  { repeat apply conj; [by intros ? ? ? | done |].
    exists []. rewrite app_nil_r. by destruct errored. }
  destruct (fromLiteral token) as [val|].
  2:{ repeat apply conj; [by intros [] ? ? | by destruct m |].
      eexists. split; [done|]. by destruct errored. }
  destruct (prevRange m this) as [prev|] eqn:Hprev.
  - destruct (negb (bool_decide (value m this = val)) && negb errored) eqn:Hc.
    + apply andb_true_iff in Hc as [_ He]. apply negb_true_iff in He. subst.
      repeat apply conj; [by intros [] ? ? | by destruct m |].
      eexists. split; [done|]. done.
    + repeat apply conj; [by intros ? ? ? | done |].
      exists []. rewrite app_nil_r. by destruct errored.
  - destruct (negb isFirst && negb errored) eqn:Hc.
    + apply andb_true_iff in Hc as [Hf He].
      apply negb_true_iff in He, Hf. subst.
      repeat apply conj.
      * intros m' r Hr. destruct m, m'; simpl in *; try done; congruence.
      * by destruct m.
      * destruct m; (eexists; split; [done|]; done).
    + repeat apply conj.
      * intros m' r Hr. destruct m, m'; simpl in *; try done; congruence.
      * by destruct m.
      * destruct m; (exists []; rewrite app_nil_r; by destruct errored).
Qed.

Lemma keeps_trans a b c : keeps a b -> keeps b c -> keeps a c.
Proof.
  intros Hab Hbc m r Hr. destruct (Hab m r Hr) as [Hr' Hv].
  destruct (Hbc m r Hr') as [Hr2 Hv2]. split; [done | congruence].
Qed.

Lemma placementCount_app ds es :
  placementCount (ds ++ es) = (placementCount ds + placementCount es)%nat.
Proof. unfold placementCount. by rewrite filter_app, length_app. Qed.

Lemma setTimeScale_spec this syntax isFirst :
  keeps this (setTimeScale this syntax isFirst)
  /\ exists new,
       timeScaleDiags (setTimeScale this syntax isFirst)
         = timeScaleDiags this ++ new
       /\ placementCount new <= 1
       /\ (isFirst = true -> unitsRange this = None ->
           precisionRange this = None -> placementCount new = 0%nat).
Proof.
  unfold setTimeScale. destruct (isTimeUnitKeyword syntax).
  - pose proof (handle_spec isFirst (time syntax) Units this false) as H1.
    destruct (handle isFirst (time syntax) Units this false) as [this1 e1].
    destruct H1 as (Hk1 & Ho1 & new1 & Hd1 & Hc1 & Hz1).
    destruct (divider syntax) as [value|].
    + pose proof (handle_spec isFirst value Precision this1 e1) as H2.
      destruct (handle isFirst value Precision this1 e1) as [this2 e2].
      destruct H2 as (Hk2 & _ & new2 & Hd2 & Hc2 & Hz2). simpl.
      split; [by eapply keeps_trans|].
      exists (new1 ++ new2). rewrite Hd2, Hd1, app_assoc.
      split; [done|]. rewrite placementCount_app. split.
      * destruct e1, e2; simpl in *; lia.
      * intros Hf Hu Hp. rewrite (Hz1 Hf Hu).
        simpl in Ho1. rewrite Hz2; [done | done |].
        simpl. by rewrite Ho1.
    + split; [done|]. exists new1. split; [done|]. split.
      * destruct e1; simpl in *; lia.
      * intros Hf Hu _. by apply Hz1.
  - pose proof (handle_spec isFirst (time syntax) Precision this false) as H1.
    destruct (handle isFirst (time syntax) Precision this false) as [this1 e1].
    destruct H1 as (Hk1 & Ho1 & new1 & Hd1 & Hc1 & Hz1). simpl.
    split; [done|]. exists new1. split; [done|]. split.
    + destruct e1; simpl in *; lia.
    + intros Hf _ Hp. by apply Hz1.
Qed.

(** The time units declarations of a definition, one call of
    [setTimeScale] each, in their order; each comes with its [isFirst]. *)
Definition setTimeScales (this : TimeScaleSymbolBase)
    (declarations : list (TimeUnitsDeclarationSyntax * bool))
  : TimeScaleSymbolBase :=
  foldl (fun this d => setTimeScale this d.1 d.2) this declarations.

Lemma setTimeScales_spec declarations : forall this,
  keeps this (setTimeScales this declarations)
  /\ exists new,
       timeScaleDiags (setTimeScales this declarations)
         = timeScaleDiags this ++ new
       /\ placementCount new <= length declarations.
Proof.
  unfold setTimeScales.
  induction declarations as [|[d f] ds IH]; intros this.
  - split; [by intros ? ? ?|]. exists []. by rewrite app_nil_r.
  - cbn [foldl]. destruct (setTimeScale_spec this d f)
      as (Hk & new & Hd & Hc & _).
    destruct (IH (setTimeScale this d f)) as (Hk' & new' & Hd' & Hc').
    split; [by eapply keeps_trans|].
    exists (new ++ new'). simpl in *. rewrite Hd', Hd, app_assoc.
    split; [done|]. rewrite placementCount_app. simpl. lia.
Qed.

(** X16. A time unit or a time precision that a declaration has set is
    never changed again: not by any later declaration, whatever it says,
    and not by [finalizeTimeScale], which only fills in what no
    declaration set.  The later declarations add diagnostics behind
    those that were there, and one declaration adds at most one
    [MismatchedTimeScales] or [TimeScaleFirstInScope]. *)
Theorem time_scale_set_once (this : TimeScaleSymbolBase)
    (declarations : list (TimeUnitsDeclarationSyntax * bool))
    (parentIsCompilationUnit : bool) (directive : option TimeScale)
    (parentTimeScale : TimeScale) :
  let after := setTimeScales this declarations in
  let final := finalizeTimeScale after parentIsCompilationUnit directive
                 parentTimeScale in
  (forall r, unitsRange this = Some r ->
             unitsRange final = Some r
             /\ base (timeScale final) = base (timeScale this))
  /\ (forall r, precisionRange this = Some r ->
                precisionRange final = Some r
                /\ precision (timeScale final) = precision (timeScale this))
  /\ (unitsRange after = None ->
      base (timeScale final)
      = base (match (if parentIsCompilationUnit then directive else None) with
              | Some ts => ts
              | None => parentTimeScale
              end))
  /\ exists new,
       timeScaleDiags final = timeScaleDiags this ++ new
       /\ placementCount new <= length declarations.
Proof.
  intros after final.
  pose proof (setTimeScales_spec declarations this) as Hafter.
  fold after in Hafter.
  destruct Hafter as (Hk & new & Hd & Hc).
  assert (Hfinal : keeps after final
                   /\ timeScaleDiags final = timeScaleDiags after).
  { unfold final, finalizeTimeScale.
    destruct (bool_decide (is_Some (unitsRange after))
              && bool_decide (is_Some (precisionRange after))).
    - split; [by intros ? ? ? | done].
    - split; [|done]. intros [] r Hr; simpl in *; rewrite Hr;
        by rewrite bool_decide_eq_true_2. }
  destruct Hfinal as (Hkf & Hdf).
  pose proof (keeps_trans _ _ _ Hk Hkf) as Hall.
  repeat apply conj.
  - intros r Hr. apply (Hall Units r Hr).
  - intros r Hr. apply (Hall Precision r Hr).
  - intros Hnone. unfold final, finalizeTimeScale. rewrite Hnone.
    rewrite (bool_decide_eq_false_2 (is_Some None)) by (by intros [? ?]).
    done.
  - exists new. by rewrite Hdf, Hd.
Qed.

End TimeScaleFacts.
